(** * View descriptions of the editor view: a Rocq model of [viewdesc.ts]

    View descriptions ("descs") shadow the DOM that renders the editor's
    document.  This development embeds the descriptor classes, their
    position arithmetic, the dirty marking, the [ViewTreeUpdater] used by
    [NodeViewDesc.updateChildren], and the reversible probes of the
    coordinate module, and states the properties of the specification about
    them. *)

From Stdlib Require Import ZArith List Bool Lia String Ascii PeanoNat.
Import ListNotations.
Open Scope Z_scope.

Set Implicit Arguments.
Set Warnings "-register-all".
Set Warnings "-automation".
Set Warnings "-default".

(** ** Dirty levels ([viewdesc.ts], lines 100-103) *)

Definition NOT_DIRTY : Z := 0.
Definition CHILD_DIRTY : Z := 1.
Definition CONTENT_DIRTY : Z := 2.
Definition NODE_DIRTY : Z := 3.

(** ** The document model

    [prosemirror-model] is an external collaborator.  Its objects are
    represented by the data the view reads from them.  A JavaScript object
    is a value tagged with an identity stamp: [==] on objects is equality of
    the tagged values, the [eq] methods of the model compare the values and
    forget the stamp. *)

Definition length_Z (s : string) : Z := Z.of_nat (String.length s).

Record Mark := mkMark {
  mark_type : string;          (* mark.type.name *)
  mark_attrs : Z;              (* mark.attrs, an opaque value *)
  mark_spanning : bool         (* mark.type.spec.spanning !== false *)
}.

(** [Mark.eq]: same type and same attributes. *)
Definition Mark_eq (a b : Mark) : bool :=
  String.eqb (mark_type a) (mark_type b) && Z.eqb (mark_attrs a) (mark_attrs b)
  && Bool.eqb (mark_spanning a) (mark_spanning b).

Fixpoint sameSet (a b : list Mark) : bool :=
  match a, b with
  | [], [] => true
  | x :: a', y :: b' => Mark_eq x y && sameSet a' b'
  | _, _ => false
  end.

Record NodeType := mkNodeType {
  type_name : string;
  type_isInline : bool;
  type_inlineContent : bool
}.

Definition NodeType_eqb (a b : NodeType) : bool :=
  String.eqb (type_name a) (type_name b)
  && Bool.eqb (type_isInline a) (type_isInline b)
  && Bool.eqb (type_inlineContent a) (type_inlineContent b).

(** Document nodes.  A text node carries its text, a leaf node (an image, a
    hard break) has no content, any other node has a content fragment. *)
Inductive PNode : Type :=
| TextNode (nid : nat) (marks : list Mark) (text : string)
| LeafNode (nid : nat) (type : NodeType) (attrs : Z) (marks : list Mark)
| BranchNode (nid : nat) (type : NodeType) (attrs : Z) (marks : list Mark)
             (content : list PNode).

Definition textType : NodeType := mkNodeType "text" true false.

Definition node_nid (n : PNode) : nat :=
  match n with
  | TextNode i _ _ | LeafNode i _ _ _ | BranchNode i _ _ _ _ => i
  end.

Definition node_marks (n : PNode) : list Mark :=
  match n with
  | TextNode _ m _ | LeafNode _ _ _ m | BranchNode _ _ _ m _ => m
  end.

Definition node_type (n : PNode) : NodeType :=
  match n with
  | TextNode _ _ _ => textType
  | LeafNode _ t _ _ | BranchNode _ t _ _ _ => t
  end.

Definition node_isText (n : PNode) : bool :=
  match n with TextNode _ _ _ => true | _ => false end.

Definition node_isLeaf (n : PNode) : bool :=
  match n with BranchNode _ _ _ _ _ => false | _ => true end.

Definition node_text (n : PNode) : string :=
  match n with TextNode _ _ t => t | _ => EmptyString end.

Definition node_content (n : PNode) : list PNode :=
  match n with BranchNode _ _ _ _ c => c | _ => [] end.

Definition node_isInline (n : PNode) : bool := type_isInline (node_type n).
Definition node_isBlock (n : PNode) : bool := negb (node_isInline n).
Definition node_inlineContent (n : PNode) : bool :=
  match n with BranchNode _ t _ _ _ => type_inlineContent t | _ => false end.
Definition node_isTextblock (n : PNode) : bool :=
  node_isBlock n && node_inlineContent n.

(** [node.nodeSize]: the characters of a text node, one token for a leaf,
    the content and two tokens otherwise. *)
Fixpoint nodeSize (n : PNode) : Z :=
  match n with
  | TextNode _ _ t => length_Z t
  | LeafNode _ _ _ _ => 1
  | BranchNode _ _ _ _ c =>
      2 + (fix sum (l : list PNode) : Z :=
             match l with [] => 0 | x :: r => nodeSize x + sum r end) c
  end.

Fixpoint fragment_size (l : list PNode) : Z :=
  match l with [] => 0 | x :: r => nodeSize x + fragment_size r end.

(** [node.content.size] *)
Definition content_size (n : PNode) : Z := fragment_size (node_content n).

(** [Node.sameMarkup] and [Node.eq] *)
Definition sameMarkup (a b : PNode) : bool :=
  match a, b with
  | TextNode _ m1 _, TextNode _ m2 _ => sameSet m1 m2
  | LeafNode _ t1 a1 m1, LeafNode _ t2 a2 m2
  | BranchNode _ t1 a1 m1 _, BranchNode _ t2 a2 m2 _ =>
      NodeType_eqb t1 t2 && Z.eqb a1 a2 && sameSet m1 m2
  | _, _ => false
  end.

Fixpoint Node_eq (a b : PNode) : bool :=
  match a, b with
  | TextNode _ m1 t1, TextNode _ m2 t2 => sameSet m1 m2 && String.eqb t1 t2
  | LeafNode _ t1 a1 m1, LeafNode _ t2 a2 m2 =>
      NodeType_eqb t1 t2 && Z.eqb a1 a2 && sameSet m1 m2
  | BranchNode _ t1 a1 m1 c1, BranchNode _ t2 a2 m2 c2 =>
      NodeType_eqb t1 t2 && Z.eqb a1 a2 && sameSet m1 m2
      && (fix eqs (l1 l2 : list PNode) : bool :=
            match l1, l2 with
            | [], [] => true
            | x :: r1, y :: r2 => Node_eq x y && eqs r1 r2
            | _, _ => false
            end) c1 c2
  | _, _ => false
  end.

(** ** Decorations

    The decoration store is external as well.  A decoration has a range and
    a type; widget types carry the ordering side, the optional marks of
    their spec, and what the view needs to know of their [toDOM]. *)

Inductive ToDOM : Type :=
| ToDOMFunction           (* toDOM is a render function *)
| ToDOMElement (h : nat)  (* toDOM is a DOM node used as the widget's dom *)
| ToDOMWrapped (h : nat). (* toDOM is a non-element node, wrapped in a span *)

Inductive DecoType : Type :=
| WidgetType (key : nat) (side : Z) (wmarks : option (list Mark)) (toDOM : ToDOM)
| InlineType (attrs : Z)
| NodeDecoType (attrs : Z).

Definition ToDOM_eqb (a b : ToDOM) : bool :=
  match a, b with
  | ToDOMFunction, ToDOMFunction => true
  | ToDOMElement x, ToDOMElement y | ToDOMWrapped x, ToDOMWrapped y => Nat.eqb x y
  | _, _ => false
  end.

Definition optmarks_eqb (a b : option (list Mark)) : bool :=
  match a, b with
  | None, None => true
  | Some x, Some y => sameSet x y
  | _, _ => false
  end.

(** [type.eq] of the three decoration types. *)
Definition DecoType_eq (a b : DecoType) : bool :=
  match a, b with
  | WidgetType k1 s1 m1 d1, WidgetType k2 s2 m2 d2 =>
      Nat.eqb k1 k2 && Z.eqb s1 s2 && optmarks_eqb m1 m2 && ToDOM_eqb d1 d2
  | InlineType x, InlineType y | NodeDecoType x, NodeDecoType y => Z.eqb x y
  | _, _ => false
  end.

Record Decoration := mkDeco {
  deco_id : nat;        (* identity stamp of the decoration object *)
  deco_from : Z;
  deco_to : Z;
  deco_type : DecoType
}.

(** [widget == next.widget] *)
Definition Decoration_same (a b : Decoration) : bool :=
  Nat.eqb (deco_id a) (deco_id b) && Z.eqb (deco_from a) (deco_from b)
  && Z.eqb (deco_to a) (deco_to b) && DecoType_eq (deco_type a) (deco_type b).

(** Modelled from the spec: the decoration store, "an externally maintained,
    position-indexed overlay store offering range queries
    [forChild(offset, node)] and [locals(node)]".  A set holds its local
    decorations and the sets of the children, keyed by child offset. *)
Inductive DecorationSet : Type :=
| DSet (local : list Decoration) (sub : list (Z * DecorationSet)).

Definition DecorationSet_empty : DecorationSet := DSet [] [].

Definition locals (s : DecorationSet) : list Decoration :=
  match s with DSet l _ => l end.

Fixpoint assocZ (A : Type) (k : Z) (l : list (Z * A)) : option A :=
  match l with
  | [] => None
  | (k', v) :: r => if Z.eqb k k' then Some v else assocZ k r
  end.

Definition forChild (s : DecorationSet) (offset : Z) (child : PNode) : DecorationSet :=
  if node_isLeaf child then DecorationSet_empty
  else match s with
       | DSet _ sub => match assocZ offset sub with
                       | Some c => c
                       | None => DecorationSet_empty
                       end
       end.

Fixpoint decos_eq (a b : list Decoration) : bool :=
  match a, b with
  | [], [] => true
  | x :: a', y :: b' =>
      Z.eqb (deco_from x) (deco_from y) && Z.eqb (deco_to x) (deco_to y)
      && DecoType_eq (deco_type x) (deco_type y) && decos_eq a' b'
  | _, _ => false
  end.

Fixpoint DecorationSet_eq (a b : DecorationSet) : bool :=
  match a, b with
  | DSet l1 s1, DSet l2 s2 =>
      decos_eq l1 l2
      && (fix eqs (x y : list (Z * DecorationSet)) : bool :=
            match x, y with
            | [], [] => true
            | (k1, c1) :: r1, (k2, c2) :: r2 =>
                Z.eqb k1 k2 && DecorationSet_eq c1 c2 && eqs r1 r2
            | _, _ => false
            end) s1 s2
  end.

(** [sameOuterDeco] ([viewdesc.ts], lines 1199-1203) *)
Fixpoint sameOuterDeco (a b : list Decoration) : bool :=
  match a, b with
  | [], [] => true
  | x :: a', y :: b' => DecoType_eq (deco_type x) (deco_type y) && sameOuterDeco a' b'
  | _, _ => false
  end.

(** ** Descriptors

    What a descriptor knows of the host tree is recorded as a snapshot of
    the DOM properties its methods read. *)

Record DomFacts := mkDom {
  dom : nat;                    (* this.dom, a node handle *)
  contentDOM : option nat;      (* this.contentDOM *)
  nodeDOM : nat;                (* this.nodeDOM (node descs) *)
  nodeValue : string;           (* this.nodeDOM.nodeValue (text descs) *)
  dom_isElement : bool;         (* this.dom.nodeType == 1 *)
  dom_parentNode : option nat;  (* this.dom.parentNode *)
  dom_index : Z;                (* domIndex(this.dom) *)
  dom_containsContent : bool;   (* this.dom.contains(this.contentDOM) *)
  content_childCount : Z;       (* this.contentDOM.childNodes.length *)
  text_inParent : bool          (* TextViewDesc.inParent() *)
}.

(** A custom node view: whether it has an [update] hook and what the hook
    answers. *)
Record NodeViewSpec := mkSpec {
  spec_dom : option nat;         (* spec.dom *)
  spec_domIsText : bool;         (* spec.dom.nodeType == 3 *)
  spec_nodeValue : string;       (* spec.dom.nodeValue *)
  spec_contentDOM : option nat;  (* spec.contentDOM *)
  spec_hasUpdate : bool;         (* spec.update is defined *)
  spec_update : PNode -> list Decoration -> bool
}.

Inductive DescKind : Type :=
| KWidget (widget : Decoration)                       (* WidgetViewDesc *)
| KComposition (textDOM : nat) (text : string)        (* CompositionViewDesc *)
| KMark (mark : Mark)                                 (* MarkViewDesc *)
| KNode (node : PNode) (outerDeco : list Decoration)
        (innerDeco : DecorationSet)                   (* NodeViewDesc *)
| KText (node : PNode) (outerDeco : list Decoration)
        (innerDeco : DecorationSet)                   (* TextViewDesc *)
| KCustom (node : PNode) (outerDeco : list Decoration)
          (innerDeco : DecorationSet) (spec : NodeViewSpec) (* CustomNodeViewDesc *)
| KHack.                                              (* BRHackViewDesc *)

Inductive ViewDesc : Type :=
  mkDesc {
    uid : nat;                  (* identity stamp of the descriptor object *)
    kind : DescKind;
    dirty : Z;
    children : list ViewDesc;
    domf : DomFacts
  }.

(** [desc.node] *)
Definition desc_node (d : ViewDesc) : option PNode :=
  match kind d with
  | KNode n _ _ | KText n _ _ | KCustom n _ _ _ => Some n
  | _ => None
  end.

Definition desc_outerDeco (d : ViewDesc) : list Decoration :=
  match kind d with
  | KNode _ o _ | KText _ o _ | KCustom _ o _ _ => o
  | _ => []
  end.

(** [desc instanceof NodeViewDesc] *)
Definition isNodeViewDesc (d : ViewDesc) : bool :=
  match desc_node d with Some _ => true | None => false end.

Definition isMarkViewDesc (d : ViewDesc) : bool :=
  match kind d with KMark _ => true | _ => false end.

Definition isTextViewDesc (d : ViewDesc) : bool :=
  match kind d with KText _ _ _ => true | _ => false end.

(** *** The matching predicates

    The base class answers [false]; each subclass overrides its own. *)

Definition matchesWidget (d : ViewDesc) (w : Decoration) : bool :=
  match kind d with
  | KWidget widget =>
      Z.eqb (dirty d) NOT_DIRTY && DecoType_eq (deco_type w) (deco_type widget)
  | _ => false
  end.

Definition matchesMark (d : ViewDesc) (m : Mark) : bool :=
  match kind d with
  | KMark mark => negb (Z.eqb (dirty d) NODE_DIRTY) && Mark_eq mark m
  | _ => false
  end.

Definition matchesNode (d : ViewDesc) (n : PNode) (outerDeco : list Decoration)
           (innerDeco : DecorationSet) : bool :=
  match kind d with
  | KNode node od idc | KText node od idc | KCustom node od idc _ =>
      Z.eqb (dirty d) NOT_DIRTY && Node_eq n node
      && sameOuterDeco outerDeco od && DecorationSet_eq innerDeco idc
  | _ => false
  end.

Definition matchesHack (d : ViewDesc) : bool :=
  match kind d with
  | KHack => Z.eqb (dirty d) NOT_DIRTY
  | _ => false
  end.

(** *** Size and border *)

Fixpoint size (d : ViewDesc) : Z :=
  match kind d with
  | KNode n _ _ | KText n _ _ | KCustom n _ _ _ => nodeSize n
  | KComposition _ t => length_Z t
  | _ => (fix sum (l : list ViewDesc) : Z :=
            match l with [] => 0 | c :: r => size c + sum r end) (children d)
  end.

Fixpoint sizes (l : list ViewDesc) : Z :=
  match l with [] => 0 | c :: r => size c + sizes r end.

Definition border (d : ViewDesc) : Z :=
  match desc_node d with
  | Some n => if node_isLeaf n then 0 else 1
  | None => 0
  end.

(** A descriptor without host facts of interest, and a mark, for examples. *)
Definition dom0 : DomFacts :=
  mkDom 0 None 0 EmptyString true None 0 true 0 true.

Definition strong : Mark := mkMark "strong" 0 true.

(** *** Position arithmetic

    A descriptor inside a tree is designated by the child indices that lead
    to it from the root; [posBeforeChild] adds up the sizes of the children
    in front of it. *)

Definition posBeforeChild (posAtStart_parent : Z) (parent : ViewDesc) (i : nat) : Z :=
  posAtStart_parent + sizes (firstn i (children parent)).

(** [posAtStart] of the descriptor at [path] below [d], where [start] is
    [d.posAtStart] (0 for a descriptor without parent). *)
Fixpoint posAtStart_from (start : Z) (d : ViewDesc) (path : list nat) : option Z :=
  match path with
  | [] => Some start
  | i :: rest =>
      match nth_error (children d) i with
      | None => None
      | Some c => posAtStart_from (posBeforeChild start d i + border c) c rest
      end
  end.

Definition posAtStart (root : ViewDesc) (path : list nat) : option Z :=
  posAtStart_from 0 root path.

Fixpoint descAtPath (d : ViewDesc) (path : list nat) : option ViewDesc :=
  match path with
  | [] => Some d
  | i :: rest =>
      match nth_error (children d) i with
      | None => None
      | Some c => descAtPath c rest
      end
  end.

(** [posAtEnd = posAtStart + size - 2 * border] *)
Definition posAtEnd (posAtStart_d : Z) (d : ViewDesc) : Z :=
  posAtStart_d + size d - 2 * border d.

Section LocalPos.
(** [ViewDesc.localPosFromDOM] walks the host tree around the location; it
    is taken as given. *)
Variable ViewDesc_localPosFromDOM : ViewDesc -> Z -> nat -> Z -> Z -> Z.

(** [TextViewDesc.localPosFromDOM] (lines 975-978), for a text descriptor
    [d] whose [posAtStart] is [start]. *)
Definition TextViewDesc_localPosFromDOM (d : ViewDesc) (start : Z)
           (domNode : nat) (offset bias : Z) : Z :=
  match kind d with
  | KText node _ _ =>
      if Nat.eqb domNode (nodeDOM (domf d))
      then start + Z.min offset (length_Z (node_text node))
      else ViewDesc_localPosFromDOM d start domNode offset bias
  | _ => ViewDesc_localPosFromDOM d start domNode offset bias
  end.
End LocalPos.

(** *** Dirty marking ([ViewDesc.markDirty], lines 490-510, and the override
    of [MarkViewDesc], lines 634-643) *)

Definition opt_nat_eqb (a b : option nat) : bool :=
  match a, b with
  | None, None => true
  | Some x, Some y => Nat.eqb x y
  | _, _ => false
  end.

(** [this.contentLost] *)
Definition contentLost (d : ViewDesc) : bool :=
  match contentDOM (domf d) with
  | Some c => negb (Nat.eqb c (dom (domf d))) && negb (dom_containsContent (domf d))
  | None => false
  end.

(** [child.dom.parentNode == parent.contentDOM] *)
Definition domInContent (child parent : ViewDesc) : bool :=
  opt_nat_eqb (dom_parentNode (domf child)) (contentDOM (domf parent)).

Definition set_dirty (v : Z) (d : ViewDesc) : ViewDesc :=
  mkDesc (uid d) (kind d) v (children d) (domf d).

Definition set_children (cs : list ViewDesc) (d : ViewDesc) : ViewDesc :=
  mkDesc (uid d) (kind d) (dirty d) cs (domf d).

(** The child at [offset] is touched by the range. *)
Definition touches (offset end_ from to : Z) : bool :=
  if Z.eqb offset end_ then Z.leb from end_ && Z.geb to offset
  else Z.ltb from end_ && Z.gtb to offset.

(** [if (parent.dirty < this.dirty) parent.dirty = this.dirty], for each of
    the levels that mark wrappers below moved up, in the order they did. *)
Definition raise_dirty (cur : Z) (levels : list Z) : Z :=
  fold_left (fun acc l => if Z.ltb acc l then l else acc) levels cur.

(** The loop of [markDirty] over the children of [parent], from the child
    at [offset] on; [rec] is the call on a child.  It yields the level given
    to [parent], the children after the loop, and the levels that mark
    wrappers below have moved up. *)
Definition markDirty_loop (rec : ViewDesc -> Z -> Z -> ViewDesc * list Z)
           (parent : ViewDesc) (from to : Z) :=
  fix loop (cs : list ViewDesc) (offset : Z) {struct cs}
    : Z * list ViewDesc * list Z :=
    match cs with
    | [] => (CONTENT_DIRTY, [], [])
    | child :: rest =>
        let end_ := offset + size child in
        if touches offset end_ from to then
          let startInside := offset + border child in
          let endInside := end_ - border child in
          if Z.geb from startInside && Z.leb to endInside then
            let level := if Z.eqb from offset || Z.eqb to end_
                         then CONTENT_DIRTY else CHILD_DIRTY in
            if Z.eqb from startInside && Z.eqb to endInside
               && (contentLost child || negb (domInContent child parent))
            then (level, set_dirty NODE_DIRTY child :: rest, [])
            else let '(child', moved) :=
                   rec child (from - startInside) (to - startInside) in
                 (level, child' :: rest, moved)
          else let '(level, rest', moved) := loop rest end_ in
               (level, set_dirty NODE_DIRTY child :: rest', moved)
        else let '(level, rest', moved) := loop rest end_ in
             (level, child :: rest', moved)
    end.

(** What the class of [d] does with the outcome of the loop. *)
Definition markDirty_finish (d : ViewDesc) (r : Z * list ViewDesc * list Z)
  : ViewDesc * list Z :=
  let '(level, kids, moved) := r in
  match kind d with
  | KMark _ =>
      (* super.markDirty, then move the level to the nearest node view *)
      if negb (Z.eqb level NOT_DIRTY)
      then (mkDesc (uid d) (kind d) NOT_DIRTY kids (domf d), moved ++ [level])
      else (mkDesc (uid d) (kind d) level kids (domf d), moved)
  | KNode _ _ _ | KText _ _ _ | KCustom _ _ _ _ =>
      (mkDesc (uid d) (kind d) (raise_dirty level moved) kids (domf d), [])
  | _ => (mkDesc (uid d) (kind d) level kids (domf d), moved)
  end.

(** [markDirty d from to] is the descriptor after the call, together with
    the levels that mark wrappers in it have moved to "the nearest node
    view" and that no descriptor of the subtree has received yet. *)
Fixpoint markDirty (d : ViewDesc) (from to : Z) {struct d} : ViewDesc * list Z :=
  markDirty_finish d (markDirty_loop markDirty d from to (children d) 0).

(** The call on the root of a tree.  A mark wrapper without a node view
    above it dereferences a missing parent: the call raises. *)
Definition markDirty_root (d : ViewDesc) (from to : Z) : option ViewDesc :=
  match markDirty d from to with
  | (d', []) => Some d'
  | (_, _ :: _) => None
  end.

(** The children [markDirty] recurses into, as child indices from the
    descriptor it is called on, and the index of the child it replaces
    wholesale when the descent ends that way. *)
Definition descent_loop (rec : ViewDesc -> Z -> Z -> list nat * option nat)
           (parent : ViewDesc) (from to : Z) :=
  fix loop (cs : list ViewDesc) (offset : Z) (i : nat) {struct cs}
    : list nat * option nat :=
    match cs with
    | [] => ([], None)
    | child :: rest =>
        let end_ := offset + size child in
        if touches offset end_ from to then
          let startInside := offset + border child in
          let endInside := end_ - border child in
          if Z.geb from startInside && Z.leb to endInside then
            if Z.eqb from startInside && Z.eqb to endInside
               && (contentLost child || negb (domInContent child parent))
            then ([], Some i)
            else let '(p, s) := rec child (from - startInside) (to - startInside) in
                 (i :: p, s)
          else loop rest end_ (S i)
        else loop rest end_ (S i)
    end.

Fixpoint descent (d : ViewDesc) (from to : Z) {struct d} : list nat * option nat :=
  descent_loop descent d from to (children d) 0 0%nat.

Fixpoint is_prefix (p q : list nat) : bool :=
  match p, q with
  | [], _ => true
  | x :: p', y :: q' => Nat.eqb x y && is_prefix p' q'
  | _ :: _, [] => false
  end.

(** *** From document positions to host locations
    ([ViewDesc.domFromPos], lines 315-335, and its overrides) *)

(** The outcome of a method that may throw. *)
Inductive result (A : Type) : Type :=
| Ok (a : A)
| Throw (error : string).
Arguments Ok {A} a.
Arguments Throw {A} error.

Record DomLocation := mkLoc { loc_node : nat; loc_offset : Z }.

(** [desc.beforePosition]: a widget whose side is negative. *)
Definition beforePosition (d : ViewDesc) : bool :=
  match kind d with
  | KWidget w => match deco_type w with
                 | WidgetType _ side _ _ => Z.ltb side 0
                 | _ => false
                 end
  | _ => false
  end.

(** The inner [while] of [domFromPos]: skip the children that sit before the
    position or are not rendered directly in the content node. *)
Fixpoint skipBefore (parent : ViewDesc) (cs : list ViewDesc) : list ViewDesc :=
  match cs with
  | [] => []
  | c :: rest =>
      if beforePosition c || negb (domInContent c parent)
      then skipBefore parent rest else cs
  end.

Definition domFromPos_loop (rec : ViewDesc -> Z -> result DomLocation)
           (parent : ViewDesc) (cdom : nat) (pos : Z) :=
  fix loop (cs : list ViewDesc) (offset : Z) {struct cs} : result DomLocation :=
    if Z.eqb offset pos then
      match skipBefore parent cs with
      | [] => Ok (mkLoc cdom (content_childCount (domf parent)))
      | c :: _ => Ok (mkLoc cdom (dom_index (domf c)))
      end
    else
      match cs with
      | [] => Throw "Invalid position"
      | child :: rest =>
          let end_ := offset + size child in
          if Z.ltb pos end_ then rec child (pos - offset - border child)
          else loop rest end_
      end.

Fixpoint domFromPos (d : ViewDesc) (pos : Z) {struct d} : result DomLocation :=
  match kind d with
  | KComposition textDOM _ => Ok (mkLoc textDOM pos)
  | KText _ _ _ => Ok (mkLoc (nodeDOM (domf d)) pos)
  | _ =>
      match contentDOM (domf d) with
      | None => Ok (mkLoc (dom (domf d)) 0)
      | Some cdom => domFromPos_loop domFromPos d cdom pos (children d) 0
      end
  end.

(** *** From host locations to document positions
    ([ViewDesc.posFromDOM] and [getDesc], lines 285-296)

    Both walk upwards: the host tree along [parentNode], the descriptor tree
    along [parent].  A host node is seen from below, with its descriptor
    association and its parent; so is a descriptor. *)

Inductive DescUp : Type :=
  mkUp { up_uid : nat; up_parent : option DescUp }.

Inductive DomNode : Type :=
  mkDomNode { pmViewDesc : option DescUp; parentNode : option DomNode }.

(** [for (cur = desc; cur; cur = cur.parent) if (cur == this) return desc] *)
Fixpoint isBelow (this : nat) (cur : DescUp) : bool :=
  Nat.eqb (up_uid cur) this
  || match up_parent cur with
     | Some p => isBelow this p
     | None => false
     end.

Definition getDesc (this : nat) (n : DomNode) : option DescUp :=
  match pmViewDesc n with
  | Some desc => if isBelow this desc then Some desc else None
  | None => None
  end.

Section PosFromDOM.
(** [desc.localPosFromDOM(dom, offset, bias)] *)
Variable localPosFromDOM : DescUp -> DomNode -> Z -> Z -> result Z.

Definition posFromDOM_scan (this : nat) (domNode : DomNode) (offset bias : Z) :=
  fix scan (cur : DomNode) : result Z :=
    match getDesc this cur with
    | Some desc => localPosFromDOM desc domNode offset bias
    | None => match parentNode cur with
              | Some p => scan p
              | None => Ok (-1)
              end
    end.

Definition posFromDOM (this : nat) (domNode : DomNode) (offset bias : Z) : result Z :=
  posFromDOM_scan this domNode offset bias domNode.
End PosFromDOM.

(** No node from [n] up to the root of the host tree has an associated
    descriptor. *)
Fixpoint unmanaged (n : DomNode) : Prop :=
  pmViewDesc n = None
  /\ match parentNode n with
     | Some p => unmanaged p
     | None => True
     end.

(** ** The reversible probes of the coordinate module
    ([withFlushedState] and [endOfTextblockHorizontal])

    The editor as the probes see it: the state applied to the view, the
    focused element of the root, and the native selection. *)

Record Range := mkRange {
  range_startNode : nat; range_startOffset : Z;
  range_endNode : nat; range_endOffset : Z
}.

Record Selection := mkSel {
  sel_range : option Range;      (* rangeCount is 0 or 1 *)
  sel_backward : bool;           (* the focus is the start of the range *)
  caretBidiLevel : option Z      (* only on Firefox *)
}.

Record Editor := mkEditor {
  view_state : nat;              (* view.state, an object identity *)
  view_dom : nat;                (* view.dom *)
  activeElement : option nat;    (* view.root.activeElement *)
  selection : Selection
}.

Definition updateState (ed : Editor) (state : nat) : Editor :=
  mkEditor state (view_dom ed) (activeElement ed) (selection ed).

Definition focus (ed : Editor) (element : nat) : Editor :=
  mkEditor (view_state ed) (view_dom ed) (Some element) (selection ed).

Definition set_selection (ed : Editor) (s : Selection) : Editor :=
  mkEditor (view_state ed) (view_dom ed) (activeElement ed) s.

(** [withFlushedState(view, state, f)].  The probed function [f] measures
    and may move the native selection; it returns or raises. *)
Definition withFlushedState (A : Type) (ed : Editor) (state : nat)
           (f : Selection -> Selection * result A) : Editor * result A :=
  let viewState := view_state ed in
  let active := activeElement ed in
  let ed := if negb (Nat.eqb viewState state) then updateState ed state else ed in
  let ed := if negb (opt_nat_eqb active (Some (view_dom ed)))
            then focus ed (view_dom ed) else ed in
  (* try *)
  let '(sel, outcome) := f (selection ed) in
  let ed := set_selection ed sel in
  (* finally *)
  let ed := if negb (Nat.eqb viewState state) then updateState ed viewState else ed in
  let ed := match active with
            | Some a => if negb (Nat.eqb a (view_dom ed)) then focus ed a else ed
            | None => ed
            end in
  (ed, outcome).

(** What [endOfTextblockHorizontal] reads from its arguments and from the
    host. *)
Record HorizontalProbe := mkProbe {
  hp_isTextblock : bool;         (* $head.parent.isTextblock *)
  hp_atStart : bool;
  hp_atEnd : bool;
  hp_maybeRTL : bool;            (* maybeRTL.test($head.parent.textContent) *)
  hp_hasModify : bool;           (* sel.modify is supported *)
  hp_backward : bool;            (* dir == "left" || dir == "backward" *)
  hp_modify : Selection -> Selection;  (* sel.modify("move", dir, "character") *)
  hp_parentDOM : result nat;     (* domAfterPos($head.before()) or view.dom *)
  hp_contains : nat -> Selection -> bool (* parentDOM.contains(focus node) *)
}.

Definition sel_focus (s : Selection) : option (nat * Z) :=
  match sel_range s with
  | None => None
  | Some r => if sel_backward s
              then Some (range_startNode r, range_startOffset r)
              else Some (range_endNode r, range_endOffset r)
  end.

Definition focus_eqb (a b : option (nat * Z)) : bool :=
  match a, b with
  | None, None => true
  | Some (n1, o1), Some (n2, o2) => Nat.eqb n1 n2 && Z.eqb o1 o2
  | _, _ => false
  end.

(** The function handed to [withFlushedState] (lines 487-507). *)
Definition horizontal_probe (hp : HorizontalProbe) (sel : Selection)
  : Selection * result bool :=
  match sel_range sel with
  | None => (sel, Throw "IndexSizeError")          (* sel.getRangeAt(0) *)
  | Some oldRange =>
      let oldFocus := sel_focus sel in
      let oldBidiLevel := caretBidiLevel sel in
      let sel1 := hp_modify hp sel in
      match hp_parentDOM hp with
      | Throw e => (sel1, Throw e)
      | Ok parentDOM =>
          let result := negb (hp_contains hp parentDOM sel1)
                        || focus_eqb oldFocus (sel_focus sel1) in
          (* Restore the previous selection *)
          let bidi := match oldBidiLevel with
                      | Some b => Some b
                      | None => caretBidiLevel sel1
                      end in
          (mkSel (Some oldRange) false bidi, Ok result)
      end
  end.

Definition endOfTextblockHorizontal (ed : Editor) (state : nat) (hp : HorizontalProbe)
  : Editor * result bool :=
  if negb (hp_isTextblock hp) then (ed, Ok false)
  else if negb (hp_maybeRTL hp) || negb (hp_hasModify hp)
       then (ed, Ok (if hp_backward hp then hp_atStart hp else hp_atEnd hp))
       else withFlushedState ed state (horizontal_probe hp).

(** ** Iterating a node's children and decorations ([iterDeco], lines
    1443-1510) *)

(** [String.prototype.slice(from, to)] *)
Definition js_slice (s : string) (from to : Z) : string :=
  let len := length_Z s in
  let clamp := fun i => if Z.ltb i 0 then Z.max (len + i) 0 else Z.min i len in
  let f := clamp from in
  let t := clamp to in
  if Z.leb t f then EmptyString
  else String.substring (Z.to_nat f) (Z.to_nat (t - f)) s.

(** [TextNode.cut(from, to)]: the node itself for the whole range, a new
    text node otherwise.  New objects made by the view carry the stamp 0.
    Only text nodes are cut here. *)
Definition cut (n : PNode) (from : Z) (to : option Z) : PNode :=
  match n with
  | TextNode i m t =>
      let to' := match to with Some x => x | None => length_Z t end in
      if Z.eqb from 0 && Z.eqb to' (length_Z t) then n
      else TextNode 0 m (js_slice t from to')
  | _ => n
  end.

(** The calls [iterDeco] makes, in order. *)
Inductive Event : Type :=
| OnWidget (widget : Decoration) (parentIndex : nat) (insideNode : bool)
| OnNode (child : PNode) (outerDeco : list Decoration)
         (innerDeco : DecorationSet) (index : Z).

(** [deco.type.side], as [compareSide] reads it. *)
Definition deco_side (d : Decoration) : Z :=
  match deco_type d with WidgetType _ s _ _ => s | _ => 0 end.

(** [widgets.sort(compareSide)], a stable sort. *)
Fixpoint insertBySide (w : Decoration) (l : list Decoration) : list Decoration :=
  match l with
  | [] => [w]
  | x :: r => if Z.ltb (deco_side w) (deco_side x) then w :: l
              else x :: insertBySide w r
  end.

Definition sortBySide (l : list Decoration) : list Decoration :=
  fold_right insertBySide [] l.

(** The simple variant, without local decorations. *)
Fixpoint iterDeco_simple (deco : DecorationSet) (cs : list PNode) (i : nat)
         (offset : Z) : list Event :=
  match cs with
  | [] => []
  | child :: rest =>
      OnNode child [] (forChild deco offset child) (Z.of_nat i)
      :: iterDeco_simple deco rest (S i) (offset + nodeSize child)
  end.

(** The decorations at the front of [ls] that end at [offset]. *)
Fixpoint takeEndingAt (offset : Z) (ls : list Decoration)
  : list Decoration * list Decoration :=
  match ls with
  | [] => ([], [])
  | l :: r => if Z.eqb (deco_to l) offset
              then let '(ws, r') := takeEndingAt offset r in (l :: ws, r')
              else ([], ls)
  end.

(** The decorations at the front of [ls] that cover [offset]. *)
Fixpoint takeCovering (offset : Z) (ls : list Decoration)
  : list Decoration * list Decoration :=
  match ls with
  | [] => ([], [])
  | l :: r => if Z.leb (deco_from l) offset && Z.gtb (deco_to l) offset
              then let '(act, r') := takeCovering offset r in (l :: act, r')
              else ([], ls)
  end.

Definition cutAt_of (end_ : Z) (ls active : list Decoration) : Z :=
  let c := match ls with
           | l :: _ => if Z.ltb (deco_from l) end_ then deco_from l else end_
           | [] => end_
           end in
  fold_left (fun c a => if Z.ltb (deco_to a) c then deco_to a else c) active c.

(** The general loop.  [ls] are the local decorations from [decoIndex] on,
    [cs] the children from [parentIndex] on.  The loop has no bound of its
    own in the source; [fuel] bounds the iterations. *)
Fixpoint iterDeco_loop (fuel : nat) (deco : DecorationSet)
         (ls active : list Decoration) (restNode : option PNode)
         (cs : list PNode) (parentIndex : nat) (offset : Z)
  : option (list Event) :=
  match fuel with
  | O => None
  | S fuel' =>
      let '(widgets, ls) := takeEndingAt offset ls in
      let inside := match restNode with Some _ => true | None => false end in
      let wevents :=
        map (fun w => OnWidget w parentIndex inside)
            (match widgets with
             | [] | [_] => widgets
             | _ => sortBySide widgets
             end) in
      let next :=
        match restNode with
        | Some r => Some (r, (-1), cs, parentIndex)
        | None => match cs with
                  | c :: cs' => Some (c, Z.of_nat parentIndex, cs', S parentIndex)
                  | [] => None
                  end
        end in
      match next with
      | None => Some wevents
      | Some (child, index, cs, parentIndex) =>
          let active := filter (fun a => negb (Z.leb (deco_to a) offset)) active in
          let '(more, ls) := takeCovering offset ls in
          let active := active ++ more in
          let end_ := offset + nodeSize child in
          let cutAt := if node_isText child then cutAt_of end_ ls active else end_ in
          let '(restNode, child, end_, index) :=
            if node_isText child && Z.ltb cutAt end_
            then (Some (cut child (cutAt - offset) None),
                  cut child 0 (Some (cutAt - offset)), cutAt, (-1))
            else (None, child, end_, index) in
          match iterDeco_loop fuel' deco ls active restNode cs parentIndex end_ with
          | None => None
          | Some evs =>
              Some (wevents
                    ++ OnNode child active (forChild deco offset child) index :: evs)
          end
      end
  end.

Definition iterDeco_fuel (parent : PNode) (ls : list Decoration) : nat :=
  S (List.length (node_content parent) + List.length ls
     + Z.to_nat (content_size parent)).

Definition iterDeco (parent : PNode) (deco : DecorationSet) : option (list Event) :=
  match locals deco with
  | [] => Some (iterDeco_simple deco (node_content parent) 0 0)
  | ls => iterDeco_loop (iterDeco_fuel parent ls) deco ls [] None
                        (node_content parent) 0 0
  end.

(** ** Updating the children of a node descriptor

    *** The host and the view, as the update sees them *)

(** What an update does to the world outside the descriptor tree. *)
Inductive Effect : Type :=
| EDestroy (desc : nat)                       (* desc.destroy() *)
| ECreateDOM (handle : nat)                   (* a DOM node is created *)
| ESetNodeValue (node : nat) (text : string)  (* nodeDOM.nodeValue = text *)
| EPatchOuterDeco (desc : nat)                (* patchOuterDeco on the desc's DOM *)
| ERemoveSiblings (node : nat)                (* protectLocalComposition *)
| ERenderDescs (parentDOM : nat)              (* renderDescs(contentDOM, children) *)
| EIosHacks (node : nat).

(** The effects that change the host tree. *)
Definition mutatesHost (e : Effect) : bool :=
  match e with
  | ESetNodeValue _ _ | EPatchOuterDeco _ | ERemoveSiblings _
  | ERenderDescs _ | EIosHacks _ => true
  | EDestroy _ | ECreateDOM _ => false
  end.

Record World := mkWorld {
  fresh : nat;              (* the next unused object stamp and DOM handle *)
  effects : list Effect     (* most recent first *)
}.

Definition emit (e : Effect) (w : World) : World :=
  mkWorld (fresh w) (e :: effects w).

Definition alloc (w : World) : nat * World :=
  (fresh w, mkWorld (S (fresh w)) (effects w)).

(** The text node an input method composes in: [lock] is the node,
    [lock_ancestors] the nodes that contain its parent. *)
Record Composition := mkComposition {
  lock_node : nat;
  lock_ancestors : list nat;
  comp_topNode : nat;       (* its ancestor that is a child of the content node *)
  comp_pos : Z;
  comp_text : string
}.

Record View := mkView {
  nodeViews : PNode -> option NodeViewSpec;  (* view.nodeViews[type.name](node, ...) *)
  renderSpec_hole : PNode -> bool;  (* toDOM(node) has a content hole *)
  patchedDOM : nat -> nat -> list Decoration -> list Decoration -> nat;
                                    (* the node patchOuterDeco returns *)
  composing : bool;                 (* view.composing *)
  localComposition : PNode -> Z -> option Composition;
                                    (* the outcome of localCompositionNode *)
  ios : bool                        (* browser.ios *)
}.

(** *** The updater ([ViewTreeUpdater], lines 1214-1412)

    [top] is the descriptor whose children are being synced and [index] the
    position in them.  [stack] holds, innermost first, the descriptors that
    were [top] when a mark was entered, with the index to return to.  In
    the source [top] is an element of its parent's child array; here the
    parent on the stack keeps a stale copy at that place, replaced by [top]
    when the mark is left. *)
Record Updater := mkUpdater {
  top : ViewDesc;
  index : nat;
  stack : list (ViewDesc * nat);
  changed : bool;
  preMatched : list ViewDesc;
  preMatchOffset : nat;
  lock : option Composition;
  rootPos : Z;              (* posAtStart of the descriptor being updated *)
  world : World
}.

Definition with_top (t : ViewDesc) (u : Updater) : Updater :=
  mkUpdater t (index u) (stack u) (changed u) (preMatched u) (preMatchOffset u)
            (lock u) (rootPos u) (world u).
Definition with_index (i : nat) (u : Updater) : Updater :=
  mkUpdater (top u) i (stack u) (changed u) (preMatched u) (preMatchOffset u)
            (lock u) (rootPos u) (world u).
Definition with_stack (s : list (ViewDesc * nat)) (u : Updater) : Updater :=
  mkUpdater (top u) (index u) s (changed u) (preMatched u) (preMatchOffset u)
            (lock u) (rootPos u) (world u).
Definition with_changed (c : bool) (u : Updater) : Updater :=
  mkUpdater (top u) (index u) (stack u) c (preMatched u) (preMatchOffset u)
            (lock u) (rootPos u) (world u).
Definition with_world (w : World) (u : Updater) : Updater :=
  mkUpdater (top u) (index u) (stack u) (changed u) (preMatched u) (preMatchOffset u)
            (lock u) (rootPos u) w.

(** [node != frag.child(end - 1)]: two references to document nodes denote
    one object when their stamps agree; an object has one value. *)
Definition PNode_same (a b : PNode) : bool :=
  Nat.eqb (node_nid a) (node_nid b) && Node_eq a b.

(** [preMatch(frag, descs)] (lines 1420-1432), on the reversed fragment and
    the reversed descriptor array. *)
Fixpoint preMatch_loop (rfrag : list PNode) (rdescs : list ViewDesc)
         (acc : list ViewDesc) : list ViewDesc * nat :=
  match rfrag with
  | [] => (acc, 0%nat)
  | n :: rf =>
      match rdescs with
      | [] => (acc, List.length rfrag)
      | d :: rd =>
          match desc_node d with
          | None => preMatch_loop rfrag rd acc
          | Some node =>
              if PNode_same node n then preMatch_loop rf rd (d :: acc)
              else (acc, List.length rfrag)
          end
      end
  end.

Definition preMatch (frag : list PNode) (descs : list ViewDesc)
  : list ViewDesc * nat :=
  preMatch_loop (rev frag) (rev descs) [].

(** [new ViewTreeUpdater(top, lockedNode)] *)
Definition newUpdater (t : ViewDesc) (lockedNode : option Composition)
           (pos : Z) (w : World) : Updater :=
  let frag := match desc_node t with Some n => node_content n | None => [] end in
  let pre := preMatch frag (children t) in
  mkUpdater t 0 [] false (fst pre) (snd pre) lockedNode pos w.

(** [getPreMatch(index)] *)
Definition getPreMatch (u : Updater) (i : Z) : option ViewDesc :=
  if Z.geb i (Z.of_nat (preMatchOffset u))
  then nth_error (preMatched u) (Z.to_nat (i - Z.of_nat (preMatchOffset u)))
  else None.

(** [array.indexOf(desc)], by object identity. *)
Fixpoint indexOf (d : ViewDesc) (l : list ViewDesc) : option nat :=
  match l with
  | [] => None
  | x :: r => if Nat.eqb (uid x) (uid d) then Some 0%nat
              else option_map S (indexOf d r)
  end.

(** [array.splice(start, count)] and [array.splice(at, 0, item)] *)
Definition splice_out (A : Type) (start count : nat) (l : list A) : list A :=
  firstn start l ++ skipn (start + count) l.
Definition splice_in (A : Type) (at_ : nat) (x : A) (l : list A) : list A :=
  firstn at_ l ++ x :: skipn at_ l.

(** [destroyBetween(start, end)]; a count below zero splices nothing. *)
Definition destroyBetween (start end_ : nat) (u : Updater) : Updater :=
  if Nat.eqb start end_ then u
  else
    let cs := children (top u) in
    let gone := firstn (end_ - start) (skipn start cs) in
    let w := fold_left (fun w d => emit (EDestroy (uid d)) w) gone (world u) in
    with_changed true
      (with_world w
         (with_top (set_children (splice_out start (end_ - start) cs) (top u)) u)).

(** [destroyRest()] *)
Definition destroyRest (u : Updater) : Updater :=
  destroyBetween (index u) (List.length (children (top u))) u.

(** *** Mark nesting ([syncToMarks], lines 1263-1305) *)

(** The mark descriptors the updater is inside of, outermost first:
    [stack[2], stack[4], ..., top].  The descriptor pushed first is the one
    being updated, which is no mark. *)
Fixpoint liveMarks_of (st : list (ViewDesc * nat)) (t : ViewDesc) : list ViewDesc :=
  match st with
  | [] => []
  | (parent, _) :: st' => liveMarks_of st' parent ++ [t]
  end.

Definition liveMarks (u : Updater) : list ViewDesc :=
  liveMarks_of (stack u) (top u).

(** The first [while]: how many levels are kept. *)
Fixpoint countKeep (live : list ViewDesc) (marks : list Mark) : nat :=
  match live, marks with
  | d :: live', m :: marks' =>
      if matchesMark d m && mark_spanning m then S (countKeep live' marks') else 0%nat
  | _, _ => 0%nat
  end.

Definition replace_nth (A : Type) (i : nat) (x : A) (l : list A) : list A :=
  firstn i l ++ x :: skipn (S i) l.

(** One round of the second [while]: leave the innermost mark. *)
Definition leaveMark (u : Updater) : Updater :=
  let u := destroyRest u in
  match stack u with
  | [] => u
  | (parent, idx) :: st =>
      let t := set_dirty NOT_DIRTY (top u) in
      with_stack st
        (with_index idx
           (with_top (set_children (replace_nth (idx - 1) t (children parent)) parent) u))
  end.

(** The first index [i] with [start <= i < start + count] whose element
    satisfies [p]. *)
Fixpoint findIn (p : ViewDesc -> bool) (l : list ViewDesc) (i count : nat)
  : option nat :=
  match count, l with
  | S c, x :: r => if p x then Some i else findIn p r (S i) c
  | _, _ => None
  end.

Definition findFrom (p : ViewDesc -> bool) (cs : list ViewDesc) (start count : nat)
  : option nat :=
  findIn p (skipn start cs) start count.

(** [MarkViewDesc.create]: a new wrapper, rendered by the mark's [toDOM];
    its content node is its own node. *)
Definition MarkViewDesc_create (m : Mark) (w : World) : ViewDesc * World :=
  let '(h, w) := alloc w in
  (mkDesc h (KMark m) NOT_DIRTY []
          (mkDom h (Some h) h EmptyString true None 0 true 0 false),
   emit (ECreateDOM h) w).

(** One round of the third [while]: enter the mark [m]. *)
Definition enterMark (m : Mark) (u : Updater) : Updater :=
  match findFrom (fun c => matchesMark c m) (children (top u)) (index u) 3 with
  | Some found =>
      let u := if Nat.ltb (index u) found
               then destroyBetween (index u) found (with_changed true u) else u in
      match nth_error (children (top u)) (index u) with
      | Some child =>
          with_index 0 (with_stack ((top u, S (index u)) :: stack u) (with_top child u))
      | None => u
      end
  | None =>
      let '(markDesc, w) := MarkViewDesc_create m (world u) in
      let parent := set_children (splice_in (index u) markDesc (children (top u)))
                                 (top u) in
      with_changed true
        (with_world w
           (with_index 0
              (with_stack ((parent, S (index u)) :: stack u) (with_top markDesc u))))
  end.

Definition syncToMarks (marks : list Mark) (u : Updater) : Updater :=
  let depth := List.length (stack u) in
  let keep := countKeep (liveMarks u) marks in
  let u := Nat.iter (depth - keep) leaveMark u in
  fold_left (fun u m => enterMark m u) (skipn keep marks) u.

(** *** Matching, updating and adding nodes *)

Definition isSome (A : Type) (o : option A) : bool :=
  match o with Some _ => true | None => false end.

(** [findNodeMatch] (lines 1310-1329); [None] is the answer [false]. *)
Definition findNodeMatch (node : PNode) (outerDeco : list Decoration)
           (innerDeco : DecorationSet) (idx : Z) (u : Updater) : option Updater :=
  let cs := children (top u) in
  let scan :=
    findFrom (fun c => matchesNode c node outerDeco innerDeco
                       && negb (isSome (indexOf c (preMatched u))))
             cs (index u) 5 in
  let found :=
    match (if Z.ltb idx 0 then None else getPreMatch u idx) with
    | Some p => if matchesNode p node outerDeco innerDeco then indexOf p cs else scan
    | None => scan
    end in
  match found with
  | None => None
  | Some f =>
      let u := destroyBetween (index u) f u in
      Some (with_index (S (index u)) u)
  end.

(** [posAtStart] of the updater's [top], from [rootPos] down the stack. *)
Definition posAtStart_top (u : Updater) : Z :=
  fold_left (fun acc f => acc + sizes (firstn (snd f - 1) (children (fst f))))
            (stack u) (rootPos u).

(** The lock test of [updateNextNode] (lines 1351-1361). *)
Definition isLocked (lk : option Composition) (next : ViewDesc) (node : PNode)
           (outerDeco : list Decoration) : bool :=
  match lk with
  | None => false
  | Some l =>
      (Nat.eqb (dom (domf next)) (lock_node l)
       || (dom_isElement (domf next)
           && existsb (Nat.eqb (dom (domf next))) (lock_ancestors l)))
      && negb (node_isText node
               && match desc_node next with
                  | Some n => node_isText n
                  | None => false
                  end
               && String.eqb (nodeValue (domf next)) (node_text node)
               && negb (Z.eqb (dirty next) NODE_DIRTY)
               && sameOuterDeco outerDeco (desc_outerDeco next))
  end.

(** A computation that may throw, and that stops without an answer when the
    recursion bound of the model is reached. *)
Definition M (A : Type) : Type := option (result A).
Definition ret (A : Type) (a : A) : M A := Some (Ok a).
Definition throw (A : Type) (e : string) : M A := Some (Throw e).
Arguments throw {A} e.
Definition bind (A B : Type) (m : M A) (k : A -> M B) : M B :=
  match m with
  | None => None
  | Some (Throw e) => Some (Throw e)
  | Some (Ok a) => k a
  end.
Notation "x <- m ;; k" := (bind m (fun x => k))
  (at level 61, m at next level, right associativity).
Notation "' p <- m ;; k" := (bind m (fun x => let 'p := x in k))
  (at level 61, p pattern, m at next level, right associativity).

Definition set_kind (k : DescKind) (d : ViewDesc) : ViewDesc :=
  mkDesc (uid d) k (dirty d) (children d) (domf d).

Definition set_domf (f : DomFacts) (d : ViewDesc) : ViewDesc :=
  mkDesc (uid d) (kind d) (dirty d) (children d) f.

(** [this.node = node], [this.outerDeco = outerDeco], [this.innerDeco =
    innerDeco] on a node descriptor. *)
Definition set_node (n : PNode) (d : ViewDesc) : ViewDesc :=
  set_kind (match kind d with
            | KNode _ o i => KNode n o i
            | KText _ o i => KText n o i
            | KCustom _ o i s => KCustom n o i s
            | k => k
            end) d.

Definition set_outerDeco (o : list Decoration) (d : ViewDesc) : ViewDesc :=
  set_kind (match kind d with
            | KNode n _ i => KNode n o i
            | KText n _ i => KText n o i
            | KCustom n _ i s => KCustom n o i s
            | k => k
            end) d.

Definition set_innerDeco (i : DecorationSet) (d : ViewDesc) : ViewDesc :=
  set_kind (match kind d with
            | KNode n o _ => KNode n o i
            | KText n o _ => KText n o i
            | KCustom n o _ s => KCustom n o i s
            | k => k
            end) d.

Definition set_dom (h : nat) (isElement : bool) (d : ViewDesc) : ViewDesc :=
  let f := domf d in
  set_domf (mkDom h (contentDOM f) (nodeDOM f) (nodeValue f) isElement
                  (dom_parentNode f) (dom_index f) (dom_containsContent f)
                  (content_childCount f) (text_inParent f)) d.

Definition set_nodeValue (t : string) (d : ViewDesc) : ViewDesc :=
  let f := domf d in
  set_domf (mkDom (dom f) (contentDOM f) (nodeDOM f) t (dom_isElement f)
                  (dom_parentNode f) (dom_index f) (dom_containsContent f)
                  (content_childCount f) (text_inParent f)) d.

Section Update.
Variable view : View.
(** [desc.updateChildren(view, pos)] on a descriptor below the one being
    updated. *)
Variable updateChildren_rec : ViewDesc -> Z -> World -> M (ViewDesc * World).

(** [updateOuterDeco] (lines 890-905) *)
Definition updateOuterDeco (outerDeco : list Decoration) (d : ViewDesc) (w : World)
  : ViewDesc * World :=
  if sameOuterDeco outerDeco (desc_outerDeco d) then (d, w)
  else
    let h := patchedDOM view (dom (domf d)) (nodeDOM (domf d))
                        (desc_outerDeco d) outerDeco in
    let isElement := if Nat.eqb h (nodeDOM (domf d))
                     then negb (isTextViewDesc d) else true in
    (set_outerDeco outerDeco (set_dom h isElement d), emit (EPatchOuterDeco (uid d)) w).

(** [updateInner] (lines 877-888); [pos] is [this.posAtStart]. *)
Definition updateInner (node : PNode) (outerDeco : list Decoration)
           (innerDeco : DecorationSet) (pos : Z) (d : ViewDesc) (w : World)
  : M (ViewDesc * World) :=
  let '(d, w) := updateOuterDeco outerDeco d w in
  let d := set_innerDeco innerDeco (set_node node d) in
  '(d, w) <- (match contentDOM (domf d) with
              | Some _ => updateChildren_rec d pos w
              | None => ret (d, w)
              end) ;;
  ret (set_dirty NOT_DIRTY d, w).

(** The [update] methods answer [false] ([None]) or update in place. *)
Definition NodeViewDesc_update (node : PNode) (outerDeco : list Decoration)
           (innerDeco : DecorationSet) (pos : Z) (d : ViewDesc) (w : World)
  : M (option ViewDesc * World) :=
  match desc_node d with
  | None => ret (None, w)
  | Some this_node =>
      if Z.eqb (dirty d) NODE_DIRTY || negb (sameMarkup node this_node)
      then ret (None, w)
      else '(d, w) <- updateInner node outerDeco innerDeco pos d w ;;
           ret (Some d, w)
  end.

(** [TextViewDesc.update] (lines 952-963) *)
Definition TextViewDesc_update (node : PNode) (outerDeco : list Decoration)
           (d : ViewDesc) (w : World) : option ViewDesc * World :=
  match desc_node d with
  | None => (None, w)
  | Some this_node =>
      if Z.eqb (dirty d) NODE_DIRTY
         || (negb (Z.eqb (dirty d) NOT_DIRTY) && negb (text_inParent (domf d)))
         || negb (sameMarkup node this_node)
      then (None, w)
      else
        let '(d, w) := updateOuterDeco outerDeco d w in
        let '(d, w) :=
          if (negb (Z.eqb (dirty d) NOT_DIRTY)
              || negb (String.eqb (node_text node) (node_text this_node)))
             && negb (String.eqb (node_text node) (nodeValue (domf d)))
          then (set_nodeValue (node_text node) d,
                emit (ESetNodeValue (nodeDOM (domf d)) (node_text node)) w)
          else (d, w) in
        (Some (set_dirty NOT_DIRTY (set_node node d)), w)
  end.

(** [CustomNodeViewDesc.update] (lines 1027-1038) *)
Definition CustomNodeViewDesc_update (spec : NodeViewSpec) (node : PNode)
           (outerDeco : list Decoration) (innerDeco : DecorationSet) (pos : Z)
           (d : ViewDesc) (w : World) : M (option ViewDesc * World) :=
  if Z.eqb (dirty d) NODE_DIRTY then ret (None, w)
  else if spec_hasUpdate spec then
         if spec_update spec node outerDeco
         then '(d, w) <- updateInner node outerDeco innerDeco pos d w ;;
              ret (Some d, w)
         else ret (None, w)
       else if negb (isSome (contentDOM (domf d))) && negb (node_isLeaf node)
            then ret (None, w)
            else NodeViewDesc_update node outerDeco innerDeco pos d w.

(** [next.update(node, outerDeco, innerDeco, view)], by the class of [next]. *)
Definition update (node : PNode) (outerDeco : list Decoration)
           (innerDeco : DecorationSet) (pos : Z) (d : ViewDesc) (w : World)
  : M (option ViewDesc * World) :=
  match kind d with
  | KNode _ _ _ => NodeViewDesc_update node outerDeco innerDeco pos d w
  | KText _ _ _ => ret (TextViewDesc_update node outerDeco d w)
  | KCustom _ _ _ spec => CustomNodeViewDesc_update spec node outerDeco innerDeco pos d w
  | _ => ret (None, w)
  end.

(** [NodeViewDesc.create] (lines 693-749) and the constructors it calls. *)
Definition NodeViewDesc_create (node : PNode) (outerDeco : list Decoration)
           (innerDeco : DecorationSet) (pos : Z) (w : World)
  : M (ViewDesc * World) :=
  let spec := nodeViews view node in
  let sdom := match spec with Some s => spec_dom s | None => None end in
  let scontent := match spec with Some s => spec_contentDOM s | None => None end in
  let '(id, w) := alloc w in
  '(h, content, value, isText, w) <-
     (if node_isText node then
        match sdom, spec with
        | Some h, Some s =>
            if spec_domIsText s then ret (h, scontent, spec_nodeValue s, true, w)
            else throw "Text must be rendered as a DOM text node"
        | _, _ =>
            let '(h, w) := alloc w in
            ret (h, scontent, node_text node, true, emit (ECreateDOM h) w)
        end
      else
        match sdom with
        | Some h => ret (h, scontent, EmptyString, false, w)
        | None =>
            let '(h, w) := alloc w in
            ret (h, (if renderSpec_hole view node then Some h else None),
                 EmptyString, false, emit (ECreateDOM h) w)
        end) ;;
  let outer := patchedDOM view h h [] outerDeco in
  let facts := mkDom outer content h value
                     (if Nat.eqb outer h then negb isText else true)
                     None 0 true 0 false in
  let fresh_desc := fun k => mkDesc id k NOT_DIRTY [] facts in
  match spec with
  | Some s =>
      let d := fresh_desc (KCustom node outerDeco innerDeco s) in
      match content with
      | Some _ => updateChildren_rec d (pos + 1) w
      | None => ret (d, w)
      end
  | None =>
      if node_isText node then ret (fresh_desc (KText node outerDeco innerDeco), w)
      else
        let d := fresh_desc (KNode node outerDeco innerDeco) in
        match content with
        | Some _ => updateChildren_rec d (pos + 1) w
        | None => ret (d, w)
        end
  end.

(** [updateNextNode] (lines 1334-1372) *)
Definition updateNextNode (node : PNode) (outerDeco : list Decoration)
           (innerDeco : DecorationSet) (idx : Z) (u : Updater)
  : M (option Updater) :=
  let cs := children (top u) in
  match findFrom isNodeViewDesc cs (index u) (List.length cs) with
  | None => ret None
  | Some i =>
      match nth_error cs i with
      | None => ret None
      | Some next =>
          let held :=
            match indexOf next (preMatched u) with
            | Some p => negb (Z.eqb (Z.of_nat (p + preMatchOffset u)) idx)
            | None => false
            end in
          if held then ret None
          else if isLocked (lock u) next node outerDeco then ret None
          else
            let pos := posAtStart_top u + sizes (firstn i cs) + border next in
            '(r, w) <- update node outerDeco innerDeco pos next (world u) ;;
            match r with
            | None => ret None
            | Some next' =>
                let u := with_world w
                           (with_top (set_children (replace_nth i next' cs) (top u)) u) in
                let u := destroyBetween (index u) i u in
                let u := if negb (Nat.eqb (dom (domf next')) (dom (domf next)))
                         then with_changed true u else u in
                ret (Some (with_index (S (index u)) u))
            end
      end
  end.
End Update.

(** [next.widget.type.toDOM.parentNode]: a render function has none, a
    wrapped node has its wrapper, an element used as the widget's DOM has
    the parent of that DOM. *)
Definition toDOM_hasParent (next : ViewDesc) : bool :=
  match kind next with
  | KWidget w =>
      match deco_type w with
      | WidgetType _ _ _ ToDOMFunction => false
      | WidgetType _ _ _ (ToDOMWrapped _) => true
      | WidgetType _ _ _ (ToDOMElement _) => isSome (dom_parentNode (domf next))
      | _ => false
      end
  | _ => false
  end.

Definition desc_widget (d : ViewDesc) : option Decoration :=
  match kind d with KWidget w => Some w | _ => None end.

(** [new WidgetViewDesc(parent, widget, view, pos)] *)
Definition WidgetViewDesc_new (widget : Decoration) (w : World) : M (ViewDesc * World) :=
  match deco_type widget with
  | WidgetType _ _ _ toDOM =>
      let '(id, w) := alloc w in
      let '(h, w) := match toDOM with
                     | ToDOMElement h => (h, w)
                     | _ => let '(h, w) := alloc w in (h, emit (ECreateDOM h) w)
                     end in
      ret (mkDesc id (KWidget widget) NOT_DIRTY []
                  (mkDom h None h EmptyString true None 0 true 0 false), w)
  | _ => throw "TypeError"   (* widget.type.toDOM is undefined *)
  end.

(** [placeWidget] (lines 1381-1390) *)
Definition placeWidget (widget : Decoration) (u : Updater) : M Updater :=
  let reuse :=
    match nth_error (children (top u)) (index u) with
    | Some next =>
        matchesWidget next widget
        && (match desc_widget next with
            | Some nw => Decoration_same widget nw
            | None => false
            end
            || negb (toDOM_hasParent next))
    | None => false
    end in
  if reuse then ret (with_index (S (index u)) u)
  else
    '(desc, w) <- WidgetViewDesc_new widget (world u) ;;
    ret (with_changed true
           (with_world w
              (with_index (S (index u))
                 (with_top (set_children (splice_in (index u) desc (children (top u)))
                                         (top u)) u)))).

(** The last child, looking through mark wrappers. *)
Fixpoint throughMarks (d : ViewDesc) : option ViewDesc :=
  match kind d with
  | KMark _ =>
      (fix last (l : list ViewDesc) : option ViewDesc :=
         match l with
         | [] => None
         | [x] => throughMarks x
         | _ :: r => last r
         end) (children d)
  | _ => Some d
  end.

Definition newline : ascii := ascii_of_nat 10.

(** [/\n$/.test(text)] *)
Fixpoint endsWithNewline (s : string) : bool :=
  match s with
  | EmptyString => false
  | String c EmptyString => Ascii.eqb c newline
  | String _ r => endsWithNewline r
  end.

(** [lastChild] of [addTextblockHacks]: the child before the index, looking
    through mark wrappers. *)
Definition hackLastChild (u : Updater) : option ViewDesc :=
  match index u with
  | O => None
  | S i => match nth_error (children (top u)) i with
           | Some c => throughMarks c
           | None => None
           end
  end.

(** The textblock ends without text, or with a newline. *)
Definition needsHack (u : Updater) : bool :=
  match hackLastChild u with
  | None => true
  | Some c => match kind c with
              | KText n _ _ => endsWithNewline (node_text n)
              | _ => true
              end
  end.

(** [new BRHackViewDesc(this.top, nothing, dom, null)], spliced in. *)
Definition insertHack (u : Updater) : Updater :=
  let '(h, w) := alloc (world u) in
  let br := mkDesc h KHack NOT_DIRTY []
                   (mkDom h None h EmptyString true None 0 true 0 false) in
  with_changed true
    (with_world (emit (ECreateDOM h) w)
       (with_index (S (index u))
          (with_top (set_children (splice_in (index u) br (children (top u)))
                                  (top u)) u))).

(** [addTextblockHacks] (lines 1394-1411) *)
Definition addTextblockHacks (u : Updater) : Updater :=
  if needsHack u then
    match nth_error (children (top u)) (index u) with
    | Some c => if matchesHack c then with_index (S (index u)) u else insertHack u
    | None => insertHack u
    end
  else u.

(** What [renderDescs] (lines 1070-1097) leaves behind: every descriptor's
    DOM is a child of the node it was synced into, in order, and so on
    inside mark wrappers.  The moves it makes in the host tree are recorded
    as one effect by the caller. *)
Fixpoint rendered (parentDOM : nat) (i : Z) (d : ViewDesc) : ViewDesc :=
  let f := domf d in
  let kids :=
    match kind d, contentDOM f with
    | KMark _, Some c =>
        (fix go (l : list ViewDesc) (j : Z) : list ViewDesc :=
           match l with
           | [] => []
           | x :: r => rendered c j x :: go r (j + 1)
           end) (children d) 0
    | _, _ => children d
    end in
  mkDesc (uid d) (kind d) (dirty d) kids
         (mkDom (dom f) (contentDOM f) (nodeDOM f) (nodeValue f) (dom_isElement f)
                (Some parentDOM) i (dom_containsContent f)
                (match kind d with
                 | KMark _ => Z.of_nat (List.length (children d))
                 | _ => content_childCount f
                 end)
                true).

Fixpoint renderDescs (parentDOM : nat) (i : Z) (descs : list ViewDesc)
  : list ViewDesc :=
  match descs with
  | [] => []
  | d :: r => rendered parentDOM i d :: renderDescs parentDOM (i + 1) r
  end.

(** [this.getDesc(node)] for a host node: some descriptor of the subtree has
    it as its DOM. *)
Fixpoint hasDescFor (h : nat) (d : ViewDesc) : bool :=
  Nat.eqb (dom (domf d)) h
  || (fix any (l : list ViewDesc) : bool :=
        match l with
        | [] => false
        | x :: r => hasDescFor h x || any r
        end) (children d).

(** [replaceNodes] (lines 1566-1584) and the [slice] methods.  A class
    without [slice] yields [undefined], which the sync pass that follows
    dereferences. *)
Fixpoint replaceNodes (fuel : nat) (nodes : list ViewDesc) (from to : Z)
         (replacement : option ViewDesc) (w : World) {struct fuel}
  : M (list ViewDesc * World) :=
  match fuel with
  | O => None
  | S fuel' =>
      let slice := fun (d : ViewDesc) (from to : Z) (w : World) =>
        match kind d with
        | KMark m =>
            let '(copy, w) := MarkViewDesc_create m w in
            '(nodes, w) <- (if Z.ltb to (size d)
                            then replaceNodes fuel' (children d) to (size d) None w
                            else ret (children d, w)) ;;
            '(nodes, w) <- (if Z.gtb from 0
                            then replaceNodes fuel' nodes 0 from None w
                            else ret (nodes, w)) ;;
            ret (set_children nodes copy, w)
        | KText n o i =>
            let '(id, w) := alloc w in
            let '(h, w) := alloc w in
            let n' := cut n from (Some to) in
            ret (mkDesc id (KText n' o i) NOT_DIRTY []
                        (mkDom h None h (node_text n') false None 0 true 0 false),
                 emit (ECreateDOM h) w)
        | _ => throw "TypeError"
        end in
      (fix loop (l : list ViewDesc) (off : Z) (replacement : option ViewDesc)
           (w : World) {struct l} : M (list ViewDesc * World) :=
         match l with
         | [] => ret ([], w)
         | child :: rest =>
             let start := off in
             let end_ := off + size child in
             if Z.geb start to || Z.leb end_ from then
               '(r, w) <- loop rest end_ replacement w ;;
               ret (child :: r, w)
             else
               '(before, w) <- (if Z.ltb start from
                                then '(s, w) <- slice child 0 (from - start) w ;;
                                     ret ([s], w)
                                else ret ([], w)) ;;
               let mid := match replacement with Some r => [r] | None => [] end in
               '(after, w) <- (if Z.gtb end_ to
                               then '(s, w) <- slice child (to - start) (size child) w ;;
                                    ret ([s], w)
                               else ret ([], w)) ;;
               '(r, w) <- loop rest end_ None w ;;
               ret (before ++ mid ++ after ++ r, w)
         end) nodes 0 replacement w
  end.

(** [protectLocalComposition] (lines 849-866) *)
Definition protectLocalComposition (fuel : nat) (c : Composition) (d : ViewDesc)
           (w : World) : M (ViewDesc * World) :=
  if hasDescFor (lock_node c) d then ret (d, w)
  else
    let w := emit (ERemoveSiblings (lock_node c)) w in
    let '(id, w) := alloc w in
    let desc := mkDesc id (KComposition (lock_node c) (comp_text c)) NOT_DIRTY []
                       (mkDom (comp_topNode c) None (lock_node c) (comp_text c)
                              true (contentDOM (domf d)) 0 true 0 true) in
    '(cs, w) <- replaceNodes fuel (children d) (comp_pos c)
                             (comp_pos c + length_Z (comp_text c)) (Some desc) w ;;
    ret (set_children cs d, w).

Definition desc_innerDeco (d : ViewDesc) : DecorationSet :=
  match kind d with
  | KNode _ _ i | KText _ _ i | KCustom _ _ i _ => i
  | _ => DecorationSet_empty
  end.

Section UpdateChildren.
Variable view : View.
Variable updateChildren_rec : ViewDesc -> Z -> World -> M (ViewDesc * World).

(** [addNode] (lines 1376-1379) *)
Definition addNode (node : PNode) (outerDeco : list Decoration)
           (innerDeco : DecorationSet) (pos : Z) (u : Updater) : M Updater :=
  '(desc, w) <- NodeViewDesc_create view updateChildren_rec node outerDeco innerDeco
                                    pos (world u) ;;
  ret (with_changed true
         (with_world w
            (with_index (S (index u))
               (with_top (set_children (splice_in (index u) desc (children (top u)))
                                       (top u)) u)))).

(** The widget callback of [updateChildren] (lines 794-802) *)
Definition onWidget (parent : PNode) (widget : Decoration) (i : nat)
           (insideNode : bool) (u : Updater) : M Updater :=
  let u :=
    match deco_type widget with
    | WidgetType _ _ (Some marks) _ => syncToMarks marks u
    | WidgetType _ side None _ =>
        if Z.geb side 0 && negb insideNode
        then syncToMarks (match nth_error (node_content parent) i with
                          | Some c => node_marks c
                          | None => []
                          end) u
        else u
    | _ => u
    end in
  placeWidget widget u.

(** The node callback of [updateChildren] (lines 803-814) *)
Definition onNode (child : PNode) (outerDeco : list Decoration)
           (innerDeco : DecorationSet) (idx : Z) (off : Z) (u : Updater) : M Updater :=
  let u := syncToMarks (node_marks child) u in
  match findNodeMatch child outerDeco innerDeco idx u with
  | Some u => ret u
  | None =>
      r <- updateNextNode view updateChildren_rec child outerDeco innerDeco idx u ;;
      match r with
      | Some u => ret u
      | None => addNode child outerDeco innerDeco off u
      end
  end.

Definition onEvent (parent : PNode) (e : Event) (s : Updater * Z) : M (Updater * Z) :=
  let '(u, off) := s in
  match e with
  | OnWidget widget i insideNode =>
      u <- onWidget parent widget i insideNode u ;;
      ret (u, off)
  | OnNode child outerDeco innerDeco idx =>
      u <- onNode child outerDeco innerDeco idx off u ;;
      ret (u, off + nodeSize child)
  end.

Fixpoint onEvents (parent : PNode) (evs : list Event) (s : Updater * Z)
  : M (Updater * Z) :=
  match evs with
  | [] => ret s
  | e :: r => s <- onEvent parent e s ;; onEvents parent r s
  end.

(** [composition] of [updateChildren] (line 789) *)
Definition compositionOf (node : PNode) (pos : Z) : option Composition :=
  if node_inlineContent node && composing view
  then localComposition view node pos else None.

(** [updateChildren] up to [destroyRest] (lines 787-819): the updater when
    the descriptor array has been synced. *)
Definition syncChildren (node : PNode) (d : ViewDesc) (pos : Z) (w : World)
  : M Updater :=
  match iterDeco node (desc_innerDeco d) with
  | None => None
  | Some evs =>
      '(u, _) <- onEvents node evs (newUpdater d (compositionOf node pos) pos w, pos) ;;
      let u := syncToMarks [] u in
      let u := if node_isTextblock node then addTextblockHacks u else u in
      ret (destroyRest u)
  end.

(** [updateChildren] (lines 786-828) *)
Definition updateChildren_body (fuel : nat) (d : ViewDesc) (pos : Z) (w : World)
  : M (ViewDesc * World) :=
  match desc_node d with
  | None => throw "TypeError"
  | Some node =>
      u <- syncChildren node d pos w ;;
      let d := top u in
      let w := world u in
      if changed u || Z.eqb (dirty d) CONTENT_DIRTY then
        '(d, w) <- (match compositionOf node pos with
                    | Some c => protectLocalComposition fuel c d w
                    | None => ret (d, w)
                    end) ;;
        match contentDOM (domf d) with
        | None => throw "TypeError"
        | Some cdom =>
            let w := emit (ERenderDescs cdom) w in
            let d := set_children (renderDescs cdom 0 (children d)) d in
            ret (d, if ios view then emit (EIosHacks (dom (domf d))) w else w)
        end
      else ret (d, w)
  end.
End UpdateChildren.

(** [fuel] bounds the depth of the descent into the document. *)
Fixpoint updateChildren (fuel : nat) (view : View) (d : ViewDesc) (pos : Z)
         (w : World) {struct fuel} : M (ViewDesc * World) :=
  match fuel with
  | O => None
  | S fuel' => updateChildren_body view (updateChildren fuel' view) fuel' d pos w
  end.

(** [desc.update(node, outerDeco, innerDeco, view)] on a descriptor whose
    [posAtStart] is [pos]. *)
Definition desc_update (fuel : nat) (view : View) (node : PNode)
           (outerDeco : list Decoration) (innerDeco : DecorationSet) (pos : Z)
           (d : ViewDesc) (w : World) : M (option ViewDesc * World) :=
  update view (updateChildren fuel view) node outerDeco innerDeco pos d w.

(** Induction over descriptor trees, with the hypothesis for every child. *)
Section ViewDesc_induction.
Variable P : ViewDesc -> Prop.
Hypothesis step : forall u k dd cs df, Forall P cs -> P (mkDesc u k dd cs df).

Fixpoint ViewDesc_tree_ind (d : ViewDesc) : P d :=
  match d with
  | mkDesc u k dd cs df =>
      step u k dd df
        ((fix go (l : list ViewDesc) : Forall P l :=
            match l with
            | [] => Forall_nil P
            | c :: r => Forall_cons c (ViewDesc_tree_ind c) (go r)
            end) cs)
  end.
End ViewDesc_induction.

(** Induction over document nodes, with the hypothesis for the content. *)
Section PNode_induction.
Variable P : PNode -> Prop.
Hypothesis text_case : forall i m t, P (TextNode i m t).
Hypothesis leaf_case : forall i t a m, P (LeafNode i t a m).
Hypothesis branch_case :
  forall i t a m c, Forall P c -> P (BranchNode i t a m c).

Fixpoint PNode_tree_ind (n : PNode) : P n :=
  match n with
  | TextNode i m t => text_case i m t
  | LeafNode i t a m => leaf_case i t a m
  | BranchNode i t a m c =>
      branch_case i t a m
        ((fix go (l : list PNode) : Forall P l :=
            match l with
            | [] => Forall_nil P
            | x :: r => Forall_cons x (PNode_tree_ind x) (go r)
            end) c)
  end.
End PNode_induction.

(** Induction over decoration sets, with the hypothesis for the child sets. *)
Section DecorationSet_induction.
Variable P : DecorationSet -> Prop.
Hypothesis step : forall l sub, Forall (fun kc => P (snd kc)) sub -> P (DSet l sub).

Fixpoint DecorationSet_tree_ind (s : DecorationSet) : P s :=
  match s with
  | DSet l sub =>
      step l
        ((fix go (x : list (Z * DecorationSet))
            : Forall (fun kc => P (snd kc)) x :=
            match x with
            | [] => Forall_nil _
            | (k, c) :: r =>
                Forall_cons (k, c) (DecorationSet_tree_ind c) (go r)
            end) sub)
  end.
End DecorationSet_induction.

(** ** Notions used to state the properties *)

(** A live level matches a target mark, in the words of the specification:
    its mark is the target mark and the mark type is not flagged
    non-spanning. *)
Definition levelMatches (d : ViewDesc) (m : Mark) : bool :=
  match kind d with
  | KMark dm => Mark_eq dm m && mark_spanning m
  | _ => false
  end.

(** The length of the longest common prefix of the live mark stack and the
    target marks. *)
Fixpoint commonPrefix (live : list ViewDesc) (marks : list Mark) : nat :=
  match live, marks with
  | d :: live', m :: marks' =>
      if levelMatches d m then S (commonPrefix live' marks') else 0%nat
  | _, _ => 0%nat
  end.

(** What identifies a descriptor and decides its matching. *)
Definition info (d : ViewDesc) : nat * DescKind * Z := (uid d, kind d, dirty d).

(** The children of [top] the updater has not visited. *)
Definition unvisited (u : Updater) : list ViewDesc :=
  skipn (index u) (children (top u)).

(** A view without custom node views, compositions or decorations wrappers. *)
Definition plainView : View :=
  mkView (fun _ => None) (fun n => negb (node_isLeaf n)) (fun outer _ _ _ => outer)
         false (fun _ _ => None) false.

Definition markA : Mark := mkMark "em" 0 true.
Definition markB : Mark := mkMark "strong" 0 true.
Definition markC : Mark := mkMark "code" 0 true.
Definition paragraph : NodeType := mkNodeType "paragraph" false true.

(** A paragraph whose two text children carry the marks [A,B] and [A,C]. *)
Definition para_marks : PNode :=
  BranchNode 1 paragraph 0 []
    [TextNode 2 [markA; markB] "x"; TextNode 3 [markA; markC] "y"].

Definition para_marks_desc : ViewDesc :=
  mkDesc 1 (KNode para_marks [] DecorationSet_empty) NOT_DIRTY []
         (mkDom 10 (Some 10%nat) 10 EmptyString true None 0 true 0 true).

(** The host DOM of [next] is the locked node or contains it. *)
Definition holdsLock (l : Composition) (next : ViewDesc) : bool :=
  Nat.eqb (dom (domf next)) (lock_node l)
  || (dom_isElement (domf next)
      && existsb (Nat.eqb (dom (domf next))) (lock_ancestors l)).

(** The exception of [updateNextNode]: a text node arrives for a text
    descriptor that is not NODE_DIRTY, whose host text already is the new
    text, under the same outer decorations. *)
Definition textAlreadyThere (next : ViewDesc) (node : PNode)
           (outerDeco : list Decoration) : bool :=
  node_isText node
  && match desc_node next with Some n => node_isText n | None => false end
  && String.eqb (nodeValue (domf next)) (node_text node)
  && negb (Z.eqb (dirty next) NODE_DIRTY)
  && sameOuterDeco outerDeco (desc_outerDeco next).

(** A paragraph whose text descriptor renders "ab" in the locked text node
    11, asked to show "ac". *)
Definition locked_text : ViewDesc :=
  mkDesc 2 (KText (TextNode 2 [] "ab") [] DecorationSet_empty) NOT_DIRTY []
         (mkDom 11 None 11 "ab" false (Some 10%nat) 0 false 0 true).

Definition locked_para : ViewDesc :=
  mkDesc 1 (KNode (BranchNode 1 paragraph 0 [] [TextNode 5 [] "ac"])
                  [] DecorationSet_empty) NOT_DIRTY [locked_text]
         (mkDom 10 (Some 10%nat) 10 EmptyString true None 0 true 1 true).

Definition lock11 : Composition := mkComposition 11 [10%nat] 11 0 "ab".

Definition locked_updater : Updater :=
  newUpdater locked_para (Some lock11) 0 (mkWorld 100 []).

Definition noRec : ViewDesc -> Z -> World -> M (ViewDesc * World) :=
  fun d _ w => ret (d, w).

(** A view in which an input method composes in the text node 11, a child
    of the paragraph's content node 10, whose text is "abc". *)
Definition composingView : View :=
  mkView (fun _ => None) (fun n => negb (node_isLeaf n)) (fun outer _ _ _ => outer)
         true (fun _ _ => Some (mkComposition 11 [10%nat] 11 0 "abc")) false.

Definition para_abc : PNode := BranchNode 1 paragraph 0 [] [TextNode 2 [] "abc"].

(** The paragraph's text descriptor renders in the text node 11 and has
    been marked NODE_DIRTY. *)
Definition dirty_text : ViewDesc :=
  mkDesc 2 (KText (TextNode 2 [] "abc") [] DecorationSet_empty) NODE_DIRTY []
         (mkDom 11 None 11 "abc" false (Some 10%nat) 0 false 0 true).

Definition composing_para : ViewDesc :=
  mkDesc 1 (KNode para_abc [] DecorationSet_empty) NOT_DIRTY [dirty_text]
         (mkDom 10 (Some 10%nat) 10 EmptyString true None 0 true 1 true).

(** The effects a computation adds to the log of [w]. *)
Definition newEffects (w w' : World) : list Effect :=
  firstn (List.length (effects w') - List.length (effects w)) (effects w').

(** A paragraph with three text children, two of them marked, under a
    widget before the text, an inline decoration over "llowor", a widget
    built on the DOM node 503 inside "wor", and a widget at the end. *)
Definition marked_para : PNode :=
  BranchNode 11 paragraph 0 []
    [TextNode 12 [] "hello"; TextNode 13 [markA] "wor"; TextNode 14 [markA; markB] "ld"].

Definition funWidget (id : nat) (at_ side : Z) : Decoration :=
  mkDeco id at_ at_ (WidgetType id side None ToDOMFunction).
Definition nodeWidget (id : nat) (at_ side : Z) : Decoration :=
  mkDeco id at_ at_ (WidgetType id side None (ToDOMElement (500 + id))).
Definition inlineDeco (id : nat) (from to : Z) : Decoration :=
  mkDeco id from to (InlineType (Z.of_nat id)).

Definition marked_para_deco : DecorationSet :=
  DSet [funWidget 1 0 (-1); inlineDeco 2 2 7; nodeWidget 3 6 1; funWidget 4 10 0] [].

Definition marked_para_desc : ViewDesc :=
  mkDesc 1 (KNode marked_para [] DecorationSet_empty) NOT_DIRTY []
         (mkDom 10 (Some 10%nat) 10 EmptyString true None 0 true 0 true).

(** The descriptor tree an update of the empty paragraph descriptor
    builds for them. *)
Definition marked_para_tree : ViewDesc :=
  Eval vm_compute in
    match desc_update 6 plainView marked_para [] marked_para_deco 0 marked_para_desc
                      (mkWorld 100 []) with
    | Some (Ok (Some d, _)) => d
    | _ => marked_para_desc
    end.

(** The paragraph with its last two children swapped, and the inline
    decoration moved by one. *)
Definition swapped_para : PNode :=
  BranchNode 11 paragraph 0 []
    [TextNode 12 [] "hello"; TextNode 14 [markA; markB] "ld"; TextNode 13 [markA] "wor"].

Definition swapped_para_deco : DecorationSet :=
  DSet [funWidget 1 0 (-1); inlineDeco 2 3 7; nodeWidget 3 6 1; funWidget 4 10 0] [].

Definition swapped_events : list Event :=
  Eval vm_compute in
    match iterDeco swapped_para swapped_para_deco with
    | Some evs => evs
    | None => []
    end.

(** What the update of [marked_para_tree] to the swapped paragraph
    returns. *)
Definition swapped_result : ViewDesc * World :=
  Eval vm_compute in
    match desc_update 6 plainView swapped_para [] swapped_para_deco 0 marked_para_tree
                      (mkWorld 200 []) with
    | Some (Ok (Some d, w)) => (d, w)
    | _ => (marked_para_tree, mkWorld 200 [])
    end.

(** ** Comparing two passes of the updater

    A second pass over the result of a first pass visits, event by event,
    the place the first pass was at.  The notions below relate the state of
    the first pass to the tree it ends with. *)

(** A descriptor without its host facts; the matching predicates do not
    read them. *)
Fixpoint strip (d : ViewDesc) : ViewDesc :=
  mkDesc (uid d) (kind d) (dirty d) (map strip (children d)) dom0.

Definition same_head (a b : ViewDesc) : Prop :=
  uid a = uid b /\ kind a = kind b.

(** The frames [st2] and the descriptor [t2] are the descriptors of the tree
    [T] at the places of the frames [st1] of the first pass, and what the
    first pass has visited at each frame is what [T] holds there. *)
Fixpoint linked (st1 st2 : list (ViewDesc * nat)) (t2 T : ViewDesc) : Prop :=
  match st1, st2 with
  | [], [] => t2 = T
  | (p1, i1) :: r1, (p2, i2) :: r2 =>
      i2 = i1 /\ (1 <= i1)%nat
      /\ nth_error (children p2) (i1 - 1) = Some t2
      /\ dirty t2 = NOT_DIRTY
      /\ same_head p1 p2
      /\ map strip (firstn (i1 - 1) (children p2))
         = map strip (firstn (i1 - 1) (children p1))
      /\ linked r1 r2 p2 T
  | _, _ => False
  end.

Definition FocusAt (u1 : Updater) (t2 : ViewDesc) (st2 : list (ViewDesc * nat))
           (T : ViewDesc) : Prop :=
  same_head (top u1) t2
  /\ map strip (firstn (index u1) (children t2))
     = map strip (firstn (index u1) (children (top u1)))
  /\ linked (stack u1) st2 t2 T.

(** The positions of the first pass are inside the child arrays. *)
Fixpoint frames_ok (st : list (ViewDesc * nat)) : Prop :=
  match st with
  | [] => True
  | (p, i) :: r => (1 <= i <= List.length (children p))%nat /\ frames_ok r
  end.

Definition positions_ok (u : Updater) : Prop :=
  (index u <= List.length (children (top u)))%nat /\ frames_ok (stack u).

(** The state of the second pass at the place [t2], [idx], [st2]: nothing
    has changed and nothing has been done to the world. *)
Definition secondPass (pm : list ViewDesc) (off : nat) (lk : option Composition)
           (pos : Z) (w : World) (t2 : ViewDesc) (idx : nat)
           (st2 : list (ViewDesc * nat)) : Updater :=
  mkUpdater t2 idx st2 false pm off lk pos w.

(** The first pass has put the descriptor [d] at the current place and
    moved on: [u'] is [u] one step further. *)
Definition Advanced (u u' : Updater) (d : ViewDesc) : Prop :=
  stack u' = stack u
  /\ index u' = S (index u)
  /\ same_head (top u') (top u)
  /\ firstn (S (index u)) (children (top u'))
     = firstn (index u) (children (top u)) ++ [d].

(** The [toDOM] of the widget is no DOM node: it never has a parent. *)
Definition neverHasParent (d : ViewDesc) : bool :=
  match kind d with
  | KWidget w =>
      match deco_type w with
      | WidgetType _ _ _ ToDOMFunction => true
      | WidgetType _ _ _ _ => false
      | _ => true
      end
  | _ => true
  end.

(** A widget descriptor the second pass takes again for the widget [w]:
    same type, and the very same decoration or a render function. *)
Definition widgetKept (d : ViewDesc) (w : Decoration) : Prop :=
  matchesWidget d w = true
  /\ (match desc_widget d with
      | Some dw => Decoration_same w dw = true
      | None => False
      end
      \/ neverHasParent d = true).

(** A widget descriptor built on a DOM node has been rendered. *)
Definition widgetRendered (d : ViewDesc) : bool :=
  neverHasParent d || toDOM_hasParent d.

(** What the pre-match must grant for the node event with index [i] whose
    descriptor [d] sits at place [idx] of [cs]. *)
Definition prematchAgrees (pm : list ViewDesc) (off : nat) (cs : list ViewDesc)
           (idx : nat) (d : ViewDesc) (node : PNode) (outerDeco : list Decoration)
           (innerDeco : DecorationSet) (i : Z) : Prop :=
  match (if Z.ltb i 0 then None
         else if Z.geb i (Z.of_nat off)
              then nth_error pm (Z.to_nat (i - Z.of_nat off)) else None) with
  | Some p => if matchesNode p node outerDeco innerDeco
              then indexOf p cs = Some idx
              else indexOf d pm = None
  | None => indexOf d pm = None
  end.
(** ** What a pass keeps true

    The notions below describe a pass of the updater over a descriptor whose
    children are well formed: every descriptor object occurs once, widgets
    built on a DOM node have been rendered, and text descriptors carry the
    empty decoration set the decoration store hands out for leaves. *)

(** How often [x] occurs in [l]. *)
Definition cnt (x : nat) (l : list nat) : nat := count_occ Nat.eq_dec l x.

(** The stamps of a descriptor and of what its mark wrappers hold.  The
    children of a node descriptor belong to that descriptor's own update. *)
Fixpoint deepUids (d : ViewDesc) : list nat :=
  uid d ::
  match kind d with
  | KMark _ =>
      (fix go (l : list ViewDesc) : list nat :=
         match l with
         | [] => []
         | x :: r => deepUids x ++ go r
         end) (children d)
  | _ => []
  end.

Definition uidsOf (l : list ViewDesc) : list nat := flat_map deepUids l.

(** The stamps held by the frames of the stack: the wrapper that was
    entered, and the children of the parent around the place of the
    wrapper. *)
Fixpoint frameUids (st : list (ViewDesc * nat)) (t : ViewDesc) : list nat :=
  match st with
  | [] => []
  | (p, i) :: r =>
      uid t :: uidsOf (firstn (i - 1) (children p))
      ++ uidsOf (skipn i (children p)) ++ frameUids r p
  end.

Definition allUids (u : Updater) : list nat :=
  uidsOf (children (top u)) ++ frameUids (stack u) (top u).

(** Every stamp occurs once and has been handed out. *)
Definition uidsOK (u : Updater) : Prop :=
  forall x, (cnt x (allUids u) <= if Nat.ltb x (fresh (world u)) then 1 else 0)%nat.

(** The children of the descriptor being updated that the pass has not
    reached, and those it has passed. *)
Fixpoint rootPending_of (st : list (ViewDesc * nat)) (pending : list ViewDesc)
  : list ViewDesc :=
  match st with
  | [] => pending
  | (p, i) :: r => rootPending_of r (skipn i (children p))
  end.

Definition rootPending (u : Updater) : list ViewDesc :=
  rootPending_of (stack u) (skipn (index u) (children (top u))).

Fixpoint rootVisited_of (st : list (ViewDesc * nat)) (visited : list ViewDesc)
  : list ViewDesc :=
  match st with
  | [] => visited
  | (p, i) :: r => rootVisited_of r (firstn (i - 1) (children p))
  end.

Definition rootVisited (u : Updater) : list ViewDesc :=
  rootVisited_of (stack u) (firstn (index u) (children (top u))).

Fixpoint rootInfo_of (st : list (ViewDesc * nat)) (t : ViewDesc) : nat * DescKind * Z :=
  match st with
  | [] => info t
  | (p, _) :: r => rootInfo_of r p
  end.

(** The descriptor being updated, as the stack knows it. *)
Definition rootInfo (u : Updater) : nat * DescKind * Z :=
  rootInfo_of (stack u) (top u).

(** All the children, at any level, that the pass has not reached. *)
Fixpoint framesPending (st : list (ViewDesc * nat)) : list ViewDesc :=
  match st with
  | [] => []
  | (p, i) :: r => skipn i (children p) ++ framesPending r
  end.

Definition allPending (u : Updater) : list ViewDesc :=
  skipn (index u) (children (top u)) ++ framesPending (stack u).

(** A descriptor as an earlier update leaves it. *)
Fixpoint oldOK (d : ViewDesc) : bool :=
  widgetRendered d
  && match kind d with
     | KText n _ i => node_isText n && DecorationSet_eq DecorationSet_empty i
     | _ => true
     end
  && match kind d with
     | KMark _ =>
         (fix all (l : list ViewDesc) : bool :=
            match l with
            | [] => true
            | x :: r => oldOK x && all r
            end) (children d)
     | _ => true
     end.

(** The pre-matched descriptors the pass has yet to come to, those for the
    child indices from [lb] on, still wait among the children of the
    descriptor being updated. *)
Definition pend (lb : Z) (u : Updater) : Prop :=
  forall j p,
    nth_error (preMatched u) j = Some p ->
    lb <= Z.of_nat (preMatchOffset u + j) ->
    In (uid p) (allUids u) -> In p (rootPending u).

Definition liveOK (u : Updater) : Prop :=
  Forall (fun d => isMarkViewDesc d = true /\ dirty d <> NODE_DIRTY) (liveMarks u).

Record Inv (lb : Z) (u : Updater) : Prop := mkInv {
  inv_pos : positions_ok u;
  inv_live : liveOK u;
  inv_uids : uidsOK u;
  inv_old : Forall (fun d => oldOK d = true) (allPending u);
  inv_pm_node : Forall (fun p => isNodeViewDesc p = true) (preMatched u);
  inv_pm_uniq : NoDup (map uid (preMatched u));
  inv_pm_old : Forall (fun p => (uid p < fresh (world u))%nat) (preMatched u);
  inv_pend : pend lb u
}.

(** What stays as it is during a pass, and the stamps only grow. *)
Definition sameStatic (u u' : Updater) : Prop :=
  preMatched u' = preMatched u /\ preMatchOffset u' = preMatchOffset u
  /\ lock u' = lock u /\ rootPos u' = rootPos u
  /\ (fresh (world u) <= fresh (world u'))%nat.

Definition consumed (c : option ViewDesc) (rest : list ViewDesc) : list ViewDesc :=
  match c with Some c0 => c0 :: rest | None => rest end.

(** One step over an item: the descriptors [D] are destroyed, [c] is taken
    (or nothing, and [x] is new), and [x] stands at the place of the
    index, which moves past it. *)
Definition Step (u u' : Updater) (D : list ViewDesc) (c : option ViewDesc)
           (x : ViewDesc) (P' : list ViewDesc) : Prop :=
  sameStatic u u' /\ stack u' = stack u /\ index u' = S (index u)
  /\ info (top u') = info (top u)
  /\ skipn (index u) (children (top u)) = D ++ consumed c P'
  /\ children (top u') = firstn (index u) (children (top u)) ++ x :: P'
  /\ isMarkViewDesc x = false
  /\ match c with
     | Some c0 => uid x = uid c0 /\ isMarkViewDesc c0 = false
     | None => (fresh (world u) <= uid x < fresh (world u'))%nat
     end.

(** Entering a mark wrapper, found among the next children or new. *)
Definition Enter (u u' : Updater) (D : list ViewDesc) (c : option ViewDesc)
           (P' : list ViewDesc) : Prop :=
  sameStatic u u'
  /\ exists p1,
      stack u' = (p1, S (index u)) :: stack u /\ index u' = 0%nat
      /\ info p1 = info (top u)
      /\ skipn (index u) (children (top u)) = D ++ consumed c P'
      /\ children p1 = firstn (index u) (children (top u)) ++ top u' :: P'
      /\ isMarkViewDesc (top u') = true /\ dirty (top u') <> NODE_DIRTY
      /\ match c with
         | Some c0 => top u' = c0
         | None => children (top u') = []
                   /\ (fresh (world u) <= uid (top u') < fresh (world u'))%nat
         end.

(** A descriptor that has just been brought up to date. *)
Definition updatedTo (d d' : ViewDesc) (node : PNode) (od : list Decoration) : Prop :=
  uid d' = uid d /\ dirty d' = NOT_DIRTY /\ desc_node d' = Some node
  /\ sameOuterDeco od (desc_outerDeco d') = true.

(** The node descriptors among the children the pass has passed. *)
Definition rootNodes (u : Updater) : list ViewDesc :=
  filter isNodeViewDesc (rootVisited u).

(** The node events whose node carries no mark: their descriptors are
    children of the descriptor being updated. *)
Definition rootNodeEv (e : Event) : bool :=
  match e with
  | OnNode c _ _ _ => match node_marks c with [] => true | _ => false end
  | OnWidget _ _ _ => false
  end.

Definition isOnNode (e : Event) : bool :=
  match e with OnNode _ _ _ _ => true | OnWidget _ _ _ => false end.

Definition itemOf (d : ViewDesc) (e : Event) : Prop :=
  match e with
  | OnNode c od idc _ => matchesNode d c od idc = true
  | OnWidget _ _ _ => False
  end.

(** The descriptors of the marked-free node events so far, in order. *)
Definition Tr (u : Updater) (done : list Event) : Prop :=
  Forall2 itemOf (rootNodes u) (filter rootNodeEv done).

(** The child indices of the node events grow, from [lb] on; pieces of a cut
    text node carry the index -1. *)
Fixpoint incrOK (lb : Z) (evs : list Event) : Prop :=
  match evs with
  | [] => True
  | OnWidget _ _ _ :: r => incrOK lb r
  | OnNode _ _ _ idx :: r =>
      if Z.ltb idx 0 then incrOK lb r else lb <= idx /\ incrOK (idx + 1) r
  end.

Definition nextLb (lb : Z) (e : Event) : Z :=
  match e with
  | OnNode _ _ _ idx => if Z.ltb idx 0 then lb else idx + 1
  | OnWidget _ _ _ => lb
  end.

(** The decoration store hands out the empty set for leaves. *)
Definition leafInner (e : Event) : Prop :=
  match e with
  | OnNode c _ idc _ => node_isLeaf c = true -> idc = DecorationSet_empty
  | OnWidget _ _ _ => True
  end.

(** The marks the updater syncs to before it handles an event. *)
Definition eventSync (parent : PNode) (e : Event) (u : Updater) : Updater :=
  match e with
  | OnNode child _ _ _ => syncToMarks (node_marks child) u
  | OnWidget widget i insideNode =>
      match deco_type widget with
      | WidgetType _ _ (Some marks) _ => syncToMarks marks u
      | WidgetType _ side None _ =>
          if Z.geb side 0 && negb insideNode
          then syncToMarks (match nth_error (node_content parent) i with
                            | Some c => node_marks c
                            | None => []
                            end) u
          else u
      | _ => u
      end
  end.

(** What the descriptor of an event is like. *)
Definition itemFor (x : ViewDesc) (e : Event) : Prop :=
  match e with
  | OnNode c od idc _ => matchesNode x c od idc = true
  | OnWidget widget _ _ => widgetKept x widget /\ isNodeViewDesc x = false
  end.

(** [getPreMatch] of the second pass, for a node event with index [i]. *)
Definition getPM (pm : list ViewDesc) (off : nat) (i : Z) : option ViewDesc :=
  if Z.ltb i 0 then None
  else if Z.geb i (Z.of_nat off)
       then nth_error pm (Z.to_nat (i - Z.of_nat off)) else None.

Definition evIndex (e : Event) : Z :=
  match e with OnNode _ _ _ i => i | OnWidget _ _ _ => -1 end.

(** The pre-match holds the descriptor [d] for the index [i], or does not
    hold [d] at all. *)
Definition PMok (pm : list ViewDesc) (off : nat) (d : ViewDesc) (i : Z) : Prop :=
  match getPM pm off i with
  | Some p => p = d
  | None => indexOf d pm = None
  end.

(** What the pre-match of the second pass is like: it agrees with the
    events on the children of [T]. *)
Record PMfacts (pm : list ViewDesc) (off : nat) (T : ViewDesc)
       (evs : list Event) : Prop := mkPMfacts {
  pm_root : forall k e d,
      nth_error (filter rootNodeEv evs) k = Some e ->
      nth_error (filter isNodeViewDesc (children T)) k = Some d ->
      PMok pm off d (evIndex e);
  pm_deep : forall c od idc idx,
      In (OnNode c od idc idx) evs -> node_marks c <> [] -> getPM pm off idx = None;
  pm_sub : forall p, In p pm -> In p (children T);
  pm_uniq : forall y, (cnt y (uidsOf (children T)) <= 1)%nat
}.

(** What every step of a pass keeps, whatever the children are like. *)
Definition Weak (u u' : Updater) : Prop :=
  sameStatic u u' /\ rootInfo u' = rootInfo u.

(** ** The events of a node's children

    A child is handed over whole, with its index, or, when decorations cut
    a text child, as pieces with the index -1 that carry the marks of the
    child and less text. *)
Definition PieceEv (f : PNode) (e : Event) : Prop :=
  match e with
  | OnNode c _ _ idx =>
      idx = -1 /\ node_marks c = node_marks f
      /\ (String.length (node_text c) < String.length (node_text f))%nat
  | OnWidget _ _ _ => False
  end.

Definition Group (i : nat) (f : PNode) (g : list Event) : Prop :=
  (exists od idc, g = [OnNode f od idc (Z.of_nat i)])
  \/ (g <> [] /\ Forall (PieceEv f) g).

(** The node events [evs] hand over the children [frag], the first of which
    has the index [i]. *)
Inductive CoversN : nat -> list PNode -> list Event -> Prop :=
| cov_nil i : CoversN i [] []
| cov_group i f fr g rest :
    Group i f g -> CoversN (S i) fr rest -> CoversN i (f :: fr) (g ++ rest).

(** The children [fs], from the index [i] on, handed over whole and
    without marks. *)
Inductive WholeRun : nat -> list PNode -> list Event -> Prop :=
| run_nil i : WholeRun i [] []
| run_cons i f fs od idc W :
    node_marks f = [] -> WholeRun (S i) fs W ->
    WholeRun i (f :: fs) (OnNode f od idc (Z.of_nat i) :: W).

(** The descriptor [p] is for the very node object [f]. *)
Definition holdsNode (p : ViewDesc) (f : PNode) : Prop :=
  exists n, desc_node p = Some n /\ PNode_same n f = true.

(** No stamp occurs twice. *)
Fixpoint distinct (l : list nat) : bool :=
  match l with
  | [] => true
  | x :: r => negb (existsb (Nat.eqb x) r) && distinct r
  end.

(** The children of a descriptor are as an earlier update leaves them:
    every descriptor object occurs once and was made before [w], and each
    is [oldOK]. *)
Definition wellFormed (d : ViewDesc) (w : World) : bool :=
  distinct (uidsOf (children d))
  && forallb (fun y => Nat.ltb y (fresh w)) (uidsOf (children d))
  && forallb oldOK (children d).

(** What [updateChildren] does after the events. *)
Definition finishPass (node : PNode) (u : Updater) : Updater :=
  destroyRest (if node_isTextblock node then addTextblockHacks (syncToMarks [] u)
               else syncToMarks [] u).

(** The host facts of the descriptor being updated, as the stack knows it. *)
Fixpoint rootDomf_of (st : list (ViewDesc * nat)) (t : ViewDesc) : DomFacts :=
  match st with
  | [] => domf t
  | (p, _) :: r => rootDomf_of r p
  end.

Definition rootDomf (u : Updater) : DomFacts := rootDomf_of (stack u) (top u).

(** A live level is a mark wrapper that is not NODE_DIRTY. *)
Definition liveInfo (i : nat * DescKind * Z) : Prop :=
  match i with
  | (_, KMark _, d) => d <> NODE_DIRTY
  | _ => False
  end.

(** ** Further methods of [ViewDesc]

    *** [descAt] (lines 301-312) *)

(** [while (!child.border && child.children.length) child = child.children[0]] *)
Fixpoint firstDescent (child : ViewDesc) {struct child} : ViewDesc :=
  if Z.eqb (border child) 0
  then match children child with
       | c :: _ => firstDescent c
       | [] => child
       end
  else child.

Definition descAt_loop (rec : ViewDesc -> Z -> option ViewDesc) (pos : Z) :=
  fix loop (cs : list ViewDesc) (offset : Z) {struct cs} : option ViewDesc :=
    match cs with
    | [] => None
    | child :: rest =>
        let end_ := offset + size child in
        if Z.eqb offset pos && negb (Z.eqb end_ offset)
        then Some (firstDescent child)
        else if Z.ltb pos end_ then rec child (pos - offset - border child)
             else loop rest end_
    end.

(** [descAt(pos)]; [None] is the answer [undefined]. *)
Fixpoint descAt (d : ViewDesc) (pos : Z) {struct d} : option ViewDesc :=
  descAt_loop descAt pos (children d) 0.

(** *** [emptyChildAt] (lines 399-403) *)
Fixpoint emptyChildAt (d : ViewDesc) (side : Z) {struct d} : bool :=
  if negb (Z.eqb (border d) 0) || negb (isSome (contentDOM (domf d)))
  then false
  else
    if Z.ltb side 0
    then match children d with
         | [] => false
         | child :: _ => Z.eqb (size child) 0 || emptyChildAt child side
         end
    else (fix last (l : list ViewDesc) : bool :=
            match l with
            | [] => false
            | [child] => Z.eqb (size child) 0 || emptyChildAt child side
            | _ :: r => last r
            end) (children d).

(** *** [CompositionViewDesc.localPosFromDOM] (lines 591-594), for a
    composition descriptor whose [posAtStart] is [start]; the other classes
    do not come here. *)
Definition CompositionViewDesc_localPosFromDOM (d : ViewDesc) (start : Z)
           (domNode : nat) (offset : Z) : option Z :=
  match kind d with
  | KComposition textDOM _ =>
      if negb (Nat.eqb domNode textDOM)
      then Some (start + (if negb (Z.eqb offset 0) then size d else 0))
      else Some (start + offset)
  | _ => None
  end.

(** *** [markParentsDirty] (lines 512-518)

    The method is called on the descriptor at [path] below [root] and walks
    up its parents: the parent (level 1) is raised to CONTENT_DIRTY, the
    ancestors above it to CHILD_DIRTY.  [None]: no descriptor is at
    [path]. *)
Fixpoint markParentsDirty (root : ViewDesc) (path : list nat) {struct path}
  : option ViewDesc :=
  match path with
  | [] => Some root
  | i :: rest =>
      match nth_error (children root) i with
      | None => None
      | Some c =>
          match markParentsDirty c rest with
          | None => None
          | Some c' =>
              let level := List.length path in
              let dirty_ := if Nat.eqb level 1 then CONTENT_DIRTY else CHILD_DIRTY in
              Some (mkDesc (uid root) (kind root)
                           (if Z.ltb (dirty root) dirty_ then dirty_ else dirty root)
                           (replace_nth i c' (children root)) (domf root))
          end
      end
  end.

(** ** Notions used to state further properties *)

(** The descriptor tree without its dirty levels. *)
Fixpoint undirty (d : ViewDesc) : ViewDesc :=
  mkDesc (uid d) (kind d) NOT_DIRTY (map undirty (children d)) (domf d).

(** The children of every descriptor that renders children into a content
    node tile its content: their sizes add up to the size without the
    border tokens. *)
Fixpoint tiled (d : ViewDesc) : bool :=
  match kind d with
  | KText _ _ _ | KComposition _ _ => true
  | _ =>
      match contentDOM (domf d) with
      | None => true
      | Some _ =>
          Z.eqb (sizes (children d)) (size d - 2 * border d)
          && (fix all (l : list ViewDesc) : bool :=
                match l with
                | [] => true
                | x :: r => tiled x && all r
                end) (children d)
      end
  end.

(** [p] is a strict prefix of [q]. *)
Definition strict_prefix (p q : list nat) : bool :=
  is_prefix p q && Nat.ltb (List.length p) (List.length q).

(** *** The parts of [replaceNodes]

    The [slice] methods ([MarkViewDesc.slice], lines 645-654, and
    [TextViewDesc.slice], lines 984-990) and the loop of [replaceNodes], as
    they stand inside [replaceNodes]; [rn] is [replaceNodes] itself. *)
Definition sliceWith
           (rn : list ViewDesc -> Z -> Z -> option ViewDesc -> World
                 -> M (list ViewDesc * World))
           (d : ViewDesc) (from to : Z) (w : World) : M (ViewDesc * World) :=
  match kind d with
  | KMark m =>
      let '(copy, w) := MarkViewDesc_create m w in
      '(nodes, w) <- (if Z.ltb to (size d)
                      then rn (children d) to (size d) None w
                      else ret (children d, w)) ;;
      '(nodes, w) <- (if Z.gtb from 0
                      then rn nodes 0 from None w
                      else ret (nodes, w)) ;;
      ret (set_children nodes copy, w)
  | KText n o i =>
      let '(id, w) := alloc w in
      let '(h, w) := alloc w in
      let n' := cut n from (Some to) in
      ret (mkDesc id (KText n' o i) NOT_DIRTY []
                  (mkDom h None h (node_text n') false None 0 true 0 false),
           emit (ECreateDOM h) w)
  | _ => throw "TypeError"
  end.

Definition replaceLoop (slice : ViewDesc -> Z -> Z -> World -> M (ViewDesc * World))
           (from to : Z) :=
  fix loop (l : list ViewDesc) (off : Z) (replacement : option ViewDesc)
      (w : World) {struct l} : M (list ViewDesc * World) :=
    match l with
    | [] => ret ([], w)
    | child :: rest =>
        let start := off in
        let end_ := off + size child in
        if Z.geb start to || Z.leb end_ from then
          '(r, w) <- loop rest end_ replacement w ;;
          ret (child :: r, w)
        else
          '(before, w) <- (if Z.ltb start from
                           then '(s, w) <- slice child 0 (from - start) w ;;
                                ret ([s], w)
                           else ret ([], w)) ;;
          let mid := match replacement with Some r => [r] | None => [] end in
          '(after, w) <- (if Z.gtb end_ to
                          then '(s, w) <- slice child (to - start) (size child) w ;;
                               ret ([s], w)
                          else ret ([], w)) ;;
          '(r, w) <- loop rest end_ None w ;;
          ret (before ++ mid ++ after ++ r, w)
    end.

(** The descriptor a list of children ends with, looking through mark
    wrappers. *)
Definition lastInline (cs : list ViewDesc) : option ViewDesc :=
  match rev cs with
  | [] => None
  | c :: _ => throughMarks c
  end.

(** A textblock's children end in text that does not end with a newline, or
    in a clean BR hack. *)
Definition endsWell (cs : list ViewDesc) : bool :=
  match lastInline cs with
  | Some c =>
      match kind c with
      | KText n _ _ => negb (endsWithNewline (node_text n))
      | KHack => Z.eqb (dirty c) NOT_DIRTY
      | _ => false
      end
  | None => false
  end.

(** An updater at the start of the children of [marked_para_tree]. *)
Definition marked_updater : Updater :=
  newUpdater marked_para_tree None 0 (mkWorld 200 []).

(** Text descriptors hold text nodes, here and inside mark wrappers. *)
Fixpoint textsOK (d : ViewDesc) : bool :=
  match kind d with
  | KText n _ _ => node_isText n
  | KMark _ =>
      (fix all (l : list ViewDesc) : bool :=
         match l with
         | [] => true
         | x :: r => textsOK x && all r
         end) (children d)
  | _ => true
  end.

(** How deep mark wrappers nest. *)
Fixpoint markDepth (d : ViewDesc) : nat :=
  match kind d with
  | KMark _ =>
      S ((fix deepest (l : list ViewDesc) : nat :=
            match l with
            | [] => 0%nat
            | x :: r => Nat.max (markDepth x) (deepest r)
            end) (children d))
  | _ => 0%nat
  end.

Fixpoint markDepths (l : list ViewDesc) : nat :=
  match l with
  | [] => 0%nat
  | x :: r => Nat.max (markDepth x) (markDepths r)
  end.

(** ** Notions used to state the properties of [iterDeco] *)

(** The decoration [l] covers the position [o]. *)
Definition covers (o : Z) (l : Decoration) : bool :=
  Z.leb (deco_from l) o && Z.ltb o (deco_to l).

(** The order [DecorationSet.locals] gives the local decorations in: by
    start, then by end. *)
Definition byPos (a b : Decoration) : bool :=
  Z.ltb (deco_from a) (deco_from b)
  || (Z.eqb (deco_from a) (deco_from b) && Z.leb (deco_to a) (deco_to b)).

Fixpoint sortedByPos (ls : list Decoration) : bool :=
  match ls with
  | [] => true
  | a :: r =>
      match r with
      | [] => true
      | b :: _ => byPos a b
      end && sortedByPos r
  end.

Definition strictlyInside (lo hi x : Z) : bool := Z.ltb lo x && Z.ltb x hi.

(** The decoration [l] neither starts nor ends strictly inside a child that
    is no text; [off] is the position of the first of the children [cs]. *)
Fixpoint respects (cs : list PNode) (off : Z) (l : Decoration) : bool :=
  match cs with
  | [] => true
  | c :: r =>
      (node_isText c
       || negb (strictlyInside off (off + nodeSize c) (deco_from l)
                || strictlyInside off (off + nodeSize c) (deco_to l)))
      && respects r (off + nodeSize c) l
  end.

(** The local decorations of [parent] are in order, none is reversed or
    starts before the content, and none is cut by a child that is no
    text. *)
Definition localsOK (parent : PNode) (ls : list Decoration) : bool :=
  sortedByPos ls
  && forallb (fun l => Z.leb 0 (deco_from l) && Z.leb (deco_from l) (deco_to l)) ls
  && forallb (respects (node_content parent) 0) ls.

(** The events with the position [iterDeco] is at when it makes them. *)
Fixpoint eventOffsets (evs : list Event) (o : Z) : list (Z * Event) :=
  match evs with
  | [] => []
  | e :: r =>
      (o, e) :: eventOffsets r (match e with
                                | OnNode c _ _ _ => o + nodeSize c
                                | OnWidget _ _ _ => o
                                end)
  end.

(** What an event carries, for the local decorations [all] of the set
    [deco]: a widget is a local decoration at the position; a node comes
    with exactly the local decorations that cover the position, each of
    which covers the node to its end, and with the set of the child at the
    position. *)
Definition eventOK (deco : DecorationSet) (all : list Decoration) (oe : Z * Event)
  : Prop :=
  match snd oe with
  | OnWidget w _ _ =>
      In w all /\ deco_from w = fst oe /\ deco_to w = fst oe
  | OnNode c act idc _ =>
      act = filter (covers (fst oe)) all
      /\ Forall (fun l => fst oe + nodeSize c <= deco_to l) act
      /\ idc = forChild deco (fst oe) c
  end.

(** The pieces a text with the marks [m] is handed over in: new text nodes
    with these marks and the index -1, none empty, whose texts make up the
    text. *)
Inductive Pieces (m : list Mark) : string -> list Event -> Prop :=
| pieces_one t od idc :
    t <> EmptyString -> Pieces m t [OnNode (TextNode 0 m t) od idc (-1)]
| pieces_cons t1 t2 od idc g :
    t1 <> EmptyString -> Pieces m t2 g ->
    Pieces m (t1 ++ t2) (OnNode (TextNode 0 m t1) od idc (-1) :: g).

(** The node events [evs] hand over the children [frag], the first of which
    has the index [i]: each child whole and with its index, or, a text
    child, in two or more pieces. *)
Inductive Delivered : nat -> list PNode -> list Event -> Prop :=
| del_nil i : Delivered i [] []
| del_whole i f fr od idc rest :
    Delivered (S i) fr rest ->
    Delivered i (f :: fr) (OnNode f od idc (Z.of_nat i) :: rest)
| del_cut i f fr g rest :
    node_isText f = true -> Pieces (node_marks f) (node_text f) g ->
    (2 <= List.length g)%nat ->
    Delivered (S i) fr rest ->
    Delivered i (f :: fr) (g ++ rest).

(** The widgets of the widget events. *)
Fixpoint widgetsOf (evs : list Event) : list Decoration :=
  match evs with
  | [] => []
  | OnWidget w _ _ :: r => w :: widgetsOf r
  | OnNode _ _ _ _ :: r => widgetsOf r
  end.

(** The state of the loop of [iterDeco] at the position [o]: the local
    decorations [all] are the ones used up followed by the remaining [ls];
    [active] holds, among others that have ended, the used-up ones that
    cover [o]; what is left of a cut child is a new text node. *)
Record LoopInv (all : list Decoration) (o : Z) (consumed ls active : list Decoration)
       (restNode : option PNode) (cs : list PNode) : Prop := mkLoopInv {
  li_all : all = consumed ++ ls;
  li_sorted : sortedByPos ls = true;
  li_ls : Forall (fun l => o <= deco_from l /\ deco_from l <= deco_to l) ls;
  li_consumed : Forall (fun l => deco_from l <= o) consumed;
  li_active : filter (fun a => negb (Z.leb (deco_to a) o)) active
              = filter (covers o) consumed;
  li_rest : match restNode with
            | Some r => exists m t, r = TextNode 0 m t /\ t <> EmptyString
            | None => True
            end;
  li_respects :
    Forall (fun l => respects cs (o + match restNode with
                                      | Some r => nodeSize r
                                      | None => 0
                                      end) l = true) all
}.

(** What the loop hands over from that state on. *)
Definition LoopPost (deco : DecorationSet) (all : list Decoration) (o : Z)
           (restNode : option PNode) (parentIndex : nat) (cs : list PNode)
           (evs : list Event) : Prop :=
  Forall (eventOK deco all) (eventOffsets evs o)
  /\ match restNode with
     | None => Delivered parentIndex cs (filter isOnNode evs)
     | Some r =>
         exists g rest,
           filter isOnNode evs = g ++ rest
           /\ Pieces (node_marks r) (node_text r) g
           /\ Delivered parentIndex cs rest
     end.

(** A widget decoration (its range is empty) that lies at or before the
    position [end_]. *)
Definition widgetBy (end_ : Z) (l : Decoration) : bool :=
  Z.eqb (deco_from l) (deco_to l) && Z.leb (deco_to l) end_.

(** The order widgets are handed over in: by position, then by side. *)
Definition byPosSide (a b : Decoration) : Prop :=
  deco_to a < deco_to b \/ (deco_to a = deco_to b /\ deco_side a <= deco_side b).

(** ** What the pass over the children has covered *)

(** The sizes of the children in front of the mark wrappers the updater is
    inside of. *)
Fixpoint framesSize (st : list (ViewDesc * nat)) : Z :=
  match st with
  | [] => 0
  | (p, i) :: r => sizes (firstn (i - 1) (children p)) + framesSize r
  end.

(** The sizes of the children the updater has passed, at every level. *)
Definition visitedSize (u : Updater) : Z :=
  sizes (firstn (index u) (children (top u))) + framesSize (stack u).

(** The size of what an event hands over. *)
Definition eventSize (e : Event) : Z :=
  match e with
  | OnNode c _ _ _ => nodeSize c
  | OnWidget _ _ _ => 0
  end.

Fixpoint eventsSize (evs : list Event) : Z :=
  match evs with
  | [] => 0
  | e :: r => eventSize e + eventsSize r
  end.

(** Widget and hack descriptors have no children, as their constructors
    make them ([nothing], lines 531-551 and 1405), also inside mark
    wrappers. *)
Fixpoint flat (d : ViewDesc) : bool :=
  match kind d with
  | KWidget _ | KHack => match children d with [] => true | _ => false end
  | KMark _ =>
      (fix all (l : list ViewDesc) : bool :=
         match l with
         | [] => true
         | x :: r => flat x && all r
         end) (children d)
  | _ => true
  end.

(** The children the pass has not reached are [flat]. *)
Definition pendingFlat (u : Updater) : Prop :=
  Forall (fun d => flat d = true) (allPending u).

(** The descriptor tree of [marked_para_tree] when its node and decorations
    have been set to the swapped paragraph, before its children are
    updated. *)
Definition stale_para_tree : ViewDesc :=
  set_innerDeco swapped_para_deco (set_node swapped_para marked_para_tree).

Definition stale_para_result : ViewDesc * World :=
  Eval vm_compute in
    match updateChildren 6 plainView stale_para_tree 0 (mkWorld 200 []) with
    | Some (Ok r) => r
    | _ => (stale_para_tree, mkWorld 200 [])
    end.

(** ** The cache of [endOfTextblock] (coordinate module, lines 510-521) *)

Inductive IDir : Type :=
| DirUp | DirDown | DirLeft | DirRight | DirForward | DirBackward.

Definition IDir_eqb (a b : IDir) : bool :=
  match a, b with
  | DirUp, DirUp | DirDown, DirDown | DirLeft, DirLeft | DirRight, DirRight
  | DirForward, DirForward | DirBackward, DirBackward => true
  | _, _ => false
  end.

(** [cachedState], [cachedDir] and [cachedResult]; [None] is [null]. *)
Record EndCache := mkCache {
  cachedState : option nat;
  cachedDir : option IDir;
  cachedResult : bool
}.

Definition cache_init : EndCache := mkCache None None false.

(** [endOfTextblockVertical] (lines 443-471): the function handed to
    [withFlushedState] measures boxes and leaves the selection alone; what
    it answers or raises is [measure]. *)
Definition endOfTextblockVertical (ed : Editor) (state : nat) (measure : result bool)
  : Editor * result bool :=
  withFlushedState ed state (fun sel => (sel, measure)).

(** The probe of a call with the direction [dir]. *)
Definition probe_for (dir : IDir) (hp : HorizontalProbe) : HorizontalProbe :=
  mkProbe (hp_isTextblock hp) (hp_atStart hp) (hp_atEnd hp) (hp_maybeRTL hp)
          (hp_hasModify hp)
          (match dir with DirLeft | DirBackward => true | _ => false end)
          (hp_modify hp) (hp_parentDOM hp) (hp_contains hp).

(** [endOfTextblock(view, state, dir)]: the key of the cache is written
    before the probe runs, the result after it has returned. *)
Definition endOfTextblock (c : EndCache) (ed : Editor) (state : nat) (dir : IDir)
           (measure : result bool) (hp : HorizontalProbe)
  : EndCache * Editor * result bool :=
  if opt_nat_eqb (cachedState c) (Some state)
     && match cachedDir c with Some d => IDir_eqb d dir | None => false end
  then (c, ed, Ok (cachedResult c))
  else
    let c := mkCache (Some state) (Some dir) (cachedResult c) in
    let '(ed, r) := match dir with
                    | DirUp | DirDown => endOfTextblockVertical ed state measure
                    | _ => endOfTextblockHorizontal ed state (probe_for dir hp)
                    end in
    match r with
    | Ok b => (mkCache (Some state) (Some dir) b, ed, Ok b)
    | Throw e => (c, ed, Throw e)
    end.

(** ** [findTextInFragment] (lines 1540-1559) *)

(** [str.lastIndexOf(text, position)]: the largest index, not above the
    position clamped to the string, at which [text] occurs; -1 when there
    is none. *)
Fixpoint lastIndexOf_from (str text : string) (k : nat) {struct k} : Z :=
  if String.eqb (substring k (String.length text) str) text then Z.of_nat k
  else match k with
       | O => -1
       | S k' => lastIndexOf_from str text k'
       end.

Definition lastIndexOf (str text : string) (position : Z) : Z :=
  lastIndexOf_from str text (Z.to_nat (Z.min (Z.max position 0) (length_Z str))).

(** The test made when a run of text nodes that starts at [childStart] has
    been gathered into [str] and [pos] is behind the node that ended it. *)
Definition findText_check (text : string) (from to : Z) (childStart : Z) (str : string)
           (pos : Z) : option Z :=
  if Z.geb pos from then
    let found := lastIndexOf str text (to - childStart) in
    if Z.geb found 0 && Z.geb (found + length_Z text + childStart) from
    then Some (childStart + found) else None
  else None.

(** The inner [while]: it appends the text nodes that follow and steps over
    the node that ends the run; [rec] is the outer loop. *)
Definition findText_gather (rec : list PNode -> Z -> Z) (text : string) (from to : Z)
           (childStart : Z) :=
  fix gather (r : list PNode) (str : string) (pos : Z) {struct r} : Z :=
    match r with
    | [] =>
        match findText_check text from to childStart str pos with
        | Some p => p
        | None => -1
        end
    | next :: r' =>
        let pos := pos + nodeSize next in
        if negb (node_isText next)
        then match findText_check text from to childStart str pos with
             | Some p => p
             | None => rec r' pos
             end
        else gather r' (str ++ node_text next)%string pos
    end.

(** The outer [for]. *)
Fixpoint findText_loop (text : string) (from to : Z) (l : list PNode) (pos : Z)
         {struct l} : Z :=
  match l with
  | [] => -1
  | child :: rest =>
      if negb (Z.leb pos to) then -1
      else
        let childStart := pos in
        let pos := pos + nodeSize child in
        if negb (node_isText child) then findText_loop text from to rest pos
        else findText_gather (findText_loop text from to) text from to childStart
                             rest (node_text child) pos
  end.

Definition findTextInFragment (frag : list PNode) (text : string) (from to : Z) : Z :=
  findText_loop text from to frag 0.

(** The characters of a fragment by position: a character of a text node,
    or nothing at the tokens of other nodes. *)
Fixpoint chars (s : string) : list (option ascii) :=
  match s with
  | EmptyString => []
  | String c r => Some c :: chars r
  end.

Fixpoint flatChars (frag : list PNode) : list (option ascii) :=
  match frag with
  | [] => []
  | n :: r =>
      (if node_isText n then chars (node_text n)
       else repeat None (Z.to_nat (nodeSize n))) ++ flatChars r
  end.

(** ** Host nodes as a tree ([dom.ts])

    A host node is a text node or an element with child nodes; a node of a
    tree is named by the child indices that lead to it from the root, the
    innermost first, so that [node.parentNode] is the tail and
    [domIndex(node)] the head. *)

Inductive Dom : Type :=
| DText (nodeValue : string)
| DElem (nodeName : string) (childNodes : list Dom).

(** The node at a place, the outermost index first. *)
Fixpoint domAt (root : Dom) (path : list nat) {struct path} : option Dom :=
  match path with
  | [] => Some root
  | i :: rest =>
      match root with
      | DText _ => None
      | DElem _ cs =>
          match nth_error cs i with
          | Some c => domAt c rest
          | None => None
          end
      end
  end.

Definition NodeRef : Type := list nat.

Definition deref (root : Dom) (node : NodeRef) : option Dom := domAt root (rev node).

(** [nodeSize(node)] (lines 1641-1643) *)
Definition dom_nodeSize (n : Dom) : Z :=
  match n with
  | DText v => length_Z v
  | DElem _ cs => Z.of_nat (List.length cs)
  end.

(** [domIndex(node)] (lines 1588-1593): the number of previous siblings; a
    node without siblings before it, as the root, has the index 0. *)
Definition domIndex (node : NodeRef) : nat :=
  match node with
  | [] => 0%nat
  | i :: _ => i
  end.

Definition NodeRef_eqb (a b : NodeRef) : bool :=
  if list_eq_dec Nat.eq_dec a b then true else false.

(** The loop of [isOnEdge] (lines 1645-1654); [false] also stands for the
    [undefined] the function answers when the loop ends. *)
Fixpoint isOnEdge_loop (root : Dom) (node : NodeRef) (atStart atEnd : bool)
         (parent : NodeRef) {struct node} : bool :=
  if atStart || atEnd then
    if NodeRef_eqb node parent then true
    else
      match node with
      | [] => false                         (* node.parentNode is null *)
      | index :: up =>
          match deref root up with
          | Some p =>
              isOnEdge_loop root up
                            (atStart && Nat.eqb index 0)
                            (atEnd && Z.eqb (Z.of_nat index) (dom_nodeSize p))
                            parent
          | None => false
          end
      end
  else false.

Definition isOnEdge (root : Dom) (node : NodeRef) (offset : Z) (parent : NodeRef) : bool :=
  match deref root node with
  | Some n => isOnEdge_loop root node (Z.eqb offset 0) (Z.eqb offset (dom_nodeSize n)) parent
  | None => false
  end.

(** The nodes below [parent] along first children only. *)
Definition firstChildChain (node parent : NodeRef) : Prop :=
  exists zeros, zeros <> [] /\ Forall (fun i => i = 0%nat) zeros /\ node = zeros ++ parent.

(** ** [parseRange] (lines 339-397) *)

Record ParseRange := mkPR {
  pr_node : option nat;          (* this.contentDOM *)
  pr_from : Z;
  pr_to : Z;
  pr_fromOffset : Z;
  pr_toOffset : Z
}.

Section ParseRange.
(** [a.contains(b)] in the host tree. *)
Variable contains : nat -> nat -> bool.

(** The scan over the children before the index, the nearest first (lines
    370-377); the offset -1: none was found. *)
Fixpoint parseRange_back (this : ViewDesc) (prevs : list ViewDesc) (from : Z)
  : Z * Z :=
  match prevs with
  | [] => (from, -1)
  | prev :: r =>
      if negb (Z.eqb (size prev) 0) && domInContent prev this
         && negb (emptyChildAt prev 1)
      then (from, dom_index (domf prev) + 1)
      else parseRange_back this r (from - size prev)
  end.

(** The scan over the children behind the index (lines 382-389). *)
Fixpoint parseRange_fwd (this : ViewDesc) (nexts : list ViewDesc) (to : Z)
  : Z * Z :=
  match nexts with
  | [] => (to, -1)
  | next :: r =>
      if negb (Z.eqb (size next) 0) && domInContent next this
         && negb (emptyChildAt next (-1))
      then (to, dom_index (domf next))
      else parseRange_fwd this r (to + size next)
  end.

(** The loop over the children; [prevs] are the children before the index,
    the nearest first, and [rec] is [parseRange] itself. *)
Definition parseRange_loop (rec : ViewDesc -> Z -> Z -> Z -> result ParseRange)
           (this : ViewDesc) (to : Z) :=
  fix loop (prevs cs : list ViewDesc) (offset from fromOffset : Z) {struct cs}
    : result ParseRange :=
    match cs with
    | [] => Throw "TypeError"            (* this.children[i] is undefined *)
    | child :: rest =>
        let end_ := offset + size child in
        let childBase := offset + border child in
        let inside :=
          Z.eqb fromOffset (-1) && Z.leb from end_
          && Z.geb from childBase && Z.leb to (end_ - border child)
          && isSome (desc_node child) && isSome (contentDOM (domf child)) in
        let descend :=
          if inside then
            match contentDOM (domf this), contentDOM (domf child) with
            | Some c, Some cc => if contains c cc
                                 then Some (rec child from to childBase) else None
            | None, _ => Some (Throw "TypeError")  (* this.contentDOM is null *)
            | _, None => None
            end
          else None in
        match descend with
        | Some r => r
        | None =>
            let '(from, fromOffset) :=
              if Z.eqb fromOffset (-1) && Z.leb from end_ then
                let '(f, o) := parseRange_back this prevs offset in
                (f, if Z.eqb o (-1) then 0 else o)
              else (from, fromOffset) in
            if Z.gtb fromOffset (-1)
               && (Z.gtb end_ to || match rest with [] => true | _ => false end)
            then
              let '(t, o) := parseRange_fwd this rest end_ in
              if Z.eqb o (-1) then
                match contentDOM (domf this) with
                | Some _ => Ok (mkPR (contentDOM (domf this)) from t fromOffset
                                     (content_childCount (domf this)))
                | None => Throw "TypeError"
                end
              else Ok (mkPR (contentDOM (domf this)) from t fromOffset o)
            else loop (child :: prevs) rest end_ from fromOffset
        end
    end.

Fixpoint parseRange (d : ViewDesc) (from to base : Z) {struct d} : result ParseRange :=
  match children d with
  | [] =>
      match contentDOM (domf d) with
      | Some _ => Ok (mkPR (contentDOM (domf d)) from to 0 (content_childCount (domf d)))
      | None => Throw "TypeError"
      end
  | _ => parseRange_loop parseRange d to [] (children d) base from (-1)
  end.
End ParseRange.

(** What [parseRange] relies on: a descriptor with a content node is tiled
    by its children, and the DOM of a child has an index. *)
Fixpoint parseOK (d : ViewDesc) : bool :=
  match contentDOM (domf d) with
  | Some _ => Z.eqb (sizes (children d)) (size d - 2 * border d)
  | None => true
  end
  && (fix all (l : list ViewDesc) : bool :=
        match l with
        | [] => true
        | c :: r => Z.leb 0 (dom_index (domf c)) && parseOK c && all r
        end) (children d).

(** ** Descriptor trees that cover their nodes *)

(** Every node descriptor with a content node, text descriptors apart, has
    children whose sizes add up to the size of its node's content, and so on
    below. *)
Fixpoint covered (d : ViewDesc) : bool :=
  match desc_node d, contentDOM (domf d) with
  | Some n, Some _ => isTextViewDesc d || Z.eqb (sizes (children d)) (content_size n)
  | _, _ => true
  end
  && (fix all (l : list ViewDesc) : bool :=
        match l with
        | [] => true
        | x :: r => covered x && all r
        end) (children d).

(** The children an update starts from, at every level of the tree: well
    formed with the stamps below [bound], widget and hack descriptors
    without children, and each child covering its node. *)
Fixpoint deepOK (bound : nat) (d : ViewDesc) : bool :=
  wellFormed d (mkWorld bound []) && forallb flat (children d)
  && (fix all (l : list ViewDesc) : bool :=
        match l with
        | [] => true
        | x :: r => covered x && deepOK bound x && all r
        end) (children d).

(** The local decorations are in order at every level of the node. *)
Fixpoint decoOK (n : PNode) (deco : DecorationSet) {struct n} : bool :=
  localsOK n (locals deco)
  && match n with
     | BranchNode _ _ _ _ c =>
         (fix go (l : list PNode) (o : Z) : bool :=
            match l with
            | [] => true
            | x :: r => decoOK x (forChild deco o x) && go r (o + nodeSize x)
            end) c 0
     | _ => true
     end.

(** Only descriptors of nodes that are no leaves have a content node. *)
Fixpoint holesOK (d : ViewDesc) : bool :=
  match kind d, contentDOM (domf d) with
  | KNode n _ _, Some _ | KCustom n _ _ _, Some _ => negb (node_isLeaf n)
  | _, _ => true
  end
  && (fix all (l : list ViewDesc) : bool :=
        match l with
        | [] => true
        | x :: r => holesOK x && all r
        end) (children d).

(** The children the pass has passed cover their nodes, at every level. *)
Fixpoint framesCovered (st : list (ViewDesc * nat)) : Prop :=
  match st with
  | [] => True
  | (p, i) :: r =>
      Forall (fun c => covered c = true) (firstn (i - 1) (children p)) /\ framesCovered r
  end.

Definition visitedCovered (u : Updater) : Prop :=
  Forall (fun c => covered c = true) (firstn (index u) (children (top u)))
  /\ framesCovered (stack u).

(** The children the pass has not reached are as an update needs them. *)
Definition pendingOK (bound : nat) (u : Updater) : Prop :=
  Forall (fun c => covered c = true /\ deepOK bound c = true) (allPending u).

(** The descriptor the step has put at the place of the index covers its
    node. *)
Definition placedCovered (u u' : Updater) : Prop :=
  exists x, nth_error (children (top u')) (index u) = Some x /\ covered x = true.

(** The decorations an event hands to its node are in order. *)
Definition nodeDecoOK (e : Event) : Prop :=
  match e with
  | OnNode c _ idc _ => decoOK c idc = true
  | OnWidget _ _ _ => True
  end.

(** The decorations of the children [l], the first of which starts at the
    offset [o], are in order. *)
Fixpoint contentDecoOK (deco : DecorationSet) (l : list PNode) (o : Z) : bool :=
  match l with
  | [] => true
  | x :: r => decoOK x (forChild deco o x) && contentDecoOK deco r (o + nodeSize x)
  end.

(** A document of one marked paragraph, its descriptor tree, and the
    document with the paragraph's last two children swapped. *)
Definition doc_type : NodeType := mkNodeType "doc" false false.

Definition doc_old : PNode := BranchNode 20 doc_type 0 [] [marked_para].
Definition doc_new : PNode := BranchNode 20 doc_type 0 [] [swapped_para].

Definition doc_old_deco : DecorationSet := DSet [] [(0, marked_para_deco)].
Definition doc_new_deco : DecorationSet := DSet [] [(0, swapped_para_deco)].

Definition doc_desc : ViewDesc :=
  mkDesc 2 (KNode doc_old [] DecorationSet_empty) NOT_DIRTY []
         (mkDom 20 (Some 20%nat) 20 EmptyString true None 0 true 0 true).

Definition doc_tree : ViewDesc :=
  Eval vm_compute in
    match desc_update 7 plainView doc_old [] doc_old_deco 0 doc_desc (mkWorld 100 []) with
    | Some (Ok (Some d, _)) => d
    | _ => doc_desc
    end.

Definition doc_result : ViewDesc * World :=
  Eval vm_compute in
    match desc_update 7 plainView doc_new [] doc_new_deco 0 doc_tree (mkWorld 200 []) with
    | Some (Ok (Some d, w)) => (d, w)
    | _ => (doc_tree, mkWorld 200 [])
    end.

(** ** [scanFor] and [isEquivalentPosition] (lines 1608-1639) *)

(** [/^(img|br|input|textarea|hr)$/i] on a node name. *)
Definition lowerAscii (c : ascii) : ascii :=
  let n := nat_of_ascii c in
  if Nat.leb 65 n && Nat.leb n 90 then ascii_of_nat (n + 32) else c.

Fixpoint lowerString (s : string) : string :=
  match s with
  | EmptyString => EmptyString
  | String c r => String (lowerAscii c) (lowerString r)
  end.

Definition atomElements (nodeName : string) : bool :=
  existsb (String.eqb (lowerString nodeName)) ["img"; "br"; "input"; "textarea"; "hr"]%string.

Definition dom_nodeName (n : Dom) : string :=
  match n with
  | DText _ => "#text"
  | DElem nm _ => nm
  end.

(** What [hasBlockDesc] reads of a descriptor: whether it has a node that
    is a block, its [dom] and its [contentDOM]. *)
Record DescLink : Type := mkLink {
  link_isBlock : bool;
  link_dom : NodeRef;
  link_contentDOM : option NodeRef
}.

Section ScanFor.
Variable root : Dom.
(** The root is the child of a document, or has no parent. *)
Variable attached : bool.
(** [node.pmViewDesc]: the descriptor a host node is tied to. *)
Variable pmViewDesc : NodeRef -> option DescLink.
(** [contentEditable == "false"] on an element. *)
Variable notEditable : NodeRef -> bool.

(** [hasBlockDesc(dom)] (lines 1656-1660) *)
Fixpoint nearestLink (cur : NodeRef) {struct cur} : option DescLink :=
  match pmViewDesc cur with
  | Some desc => Some desc
  | None =>
      match cur with
      | [] => None
      | _ :: parent => nearestLink parent
      end
  end.

Definition hasBlockDesc (dom : NodeRef) : bool :=
  match nearestLink dom with
  | None => false
  | Some desc =>
      link_isBlock desc
      && (NodeRef_eqb (link_dom desc) dom
          || match link_contentDOM desc with
             | Some c => NodeRef_eqb c dom
             | None => false
             end)
  end.

(** [(node as HTMLElement).contentEditable == "false"]; a text node has no
    such property. *)
Definition fixedContent (n : Dom) (node : NodeRef) : bool :=
  match n with
  | DElem _ _ => notEditable node
  | DText _ => false
  end.

(** [scanFor]; [fuel] bounds the steps of the loop, and [None] is the
    answer when it runs out. *)
Fixpoint scanFor (fuel : nat) (node : NodeRef) (off : Z) (targetNode : NodeRef)
         (targetOff : Z) (dir : Z) {struct fuel} : option (result bool) :=
  match fuel with
  | O => None
  | S fuel' =>
      if NodeRef_eqb node targetNode && Z.eqb off targetOff then Some (Ok true)
      else
        match deref root node with
        | None => Some (Throw "TypeError")
        | Some n =>
            if Z.eqb off (if Z.ltb dir 0 then 0 else dom_nodeSize n) then
              match node with
              | [] =>
                  (* the parent is a document, or null *)
                  if attached then Some (Ok false) else Some (Throw "TypeError")
              | index :: parent =>
                  if hasBlockDesc node || atomElements (dom_nodeName n) || fixedContent n node
                  then Some (Ok false)
                  else scanFor fuel' parent
                               (Z.of_nat index + (if Z.ltb dir 0 then 0 else 1))
                               targetNode targetOff dir
              end
            else
              match n with
              | DElem _ cs =>
                  let i := off + (if Z.ltb dir 0 then -1 else 0) in
                  if Z.ltb i 0 then Some (Throw "TypeError")
                  else
                    match nth_error cs (Z.to_nat i) with
                    | None => Some (Throw "TypeError")   (* childNodes[i] is undefined *)
                    | Some c =>
                        let child := Z.to_nat i :: node in
                        if fixedContent c child then Some (Ok false)
                        else scanFor fuel' child
                                     (if Z.ltb dir 0 then dom_nodeSize c else 0)
                                     targetNode targetOff dir
                    end
              | DText _ => Some (Ok false)
              end
        end
  end.

(** [isEquivalentPosition]; a [targetNode] that is null is [None]. *)
Definition isEquivalentPosition (fuel : nat) (node : NodeRef) (off : Z)
           (targetNode : option NodeRef) (targetOff : Z) : option (result bool) :=
  match targetNode with
  | None => Some (Ok false)
  | Some t =>
      match scanFor fuel node off t targetOff (-1) with
      | Some (Ok false) => scanFor fuel node off t targetOff 1
      | r => r
      end
  end.
End ScanFor.

(** The characters of text in a host node. *)
Fixpoint domText (n : Dom) : Z :=
  match n with
  | DText v => length_Z v
  | DElem _ cs =>
      (fix sum (l : list Dom) : Z :=
         match l with
         | [] => 0
         | c :: r => domText c + sum r
         end) cs
  end.

Fixpoint domTexts (l : list Dom) : Z :=
  match l with
  | [] => 0
  | c :: r => domText c + domTexts r
  end.

(** The characters of text in front of the offset [off] of a node. *)
Definition textInFront (n : Dom) (off : Z) : Z :=
  match n with
  | DText _ => off
  | DElem _ cs => domTexts (firstn (Z.to_nat off) cs)
  end.

(** The characters of text in front of a position of the tree: the node
    at [path] (the outermost index first) and an offset in it. *)
Fixpoint textBeforeAt (n : Dom) (path : list nat) (off : Z) {struct path} : Z :=
  match path with
  | [] => textInFront n off
  | i :: rest =>
      match n with
      | DText _ => 0
      | DElem _ cs =>
          domTexts (firstn i cs)
          + match nth_error cs i with
            | Some c => textBeforeAt c rest off
            | None => 0
            end
      end
  end.

Definition textBefore (root : Dom) (node : NodeRef) (off : Z) : Z :=
  textBeforeAt root (rev node) off.

Definition scan_dom : Dom :=
  DElem "p" [DElem "em" [DText "ab"]; DElem "b" [DText "cd"]; DText "e"].

(** ** [ViewDesc.localPosFromDOM] (lines 211-263) over a host tree *)

(** [a.contains(b)]: [a] is [b] or a node above it. *)
Definition dom_contains (a b : NodeRef) : bool := is_prefix (rev a) (rev b).

(** [node.compareDocumentPosition(other) & 2]: [other] comes before [node]
    in the order of the document, a node before what it contains. *)
Fixpoint path_before (a b : list nat) {struct a} : bool :=
  match a, b with
  | [], [] => false
  | [], _ :: _ => true
  | _ :: _, [] => false
  | i :: a', j :: b' =>
      if Nat.ltb i j then true
      else if Nat.ltb j i then false
      else path_before a' b'
  end.

Definition precedes (other node : NodeRef) : bool :=
  path_before (rev other) (rev node).

(** [node.childNodes.length]; a text node has none. *)
Definition dom_childCount (root : Dom) (node : NodeRef) : nat :=
  match deref root node with
  | Some (DElem _ cs) => List.length cs
  | _ => 0%nat
  end.

Definition ref_parentNode (node : NodeRef) : option NodeRef :=
  match node with
  | [] => None
  | _ :: parent => Some parent
  end.

Section LocalPosFromDOM.
Variable root : Dom.
Variable this : ViewDesc.
(** [this.posAtStart] *)
Variable start : Z.
(** [this.dom] and [this.contentDOM] *)
Variable thisDOM : NodeRef.
Variable thisContent : option NodeRef.
(** [(desc = node.pmViewDesc) && desc.parent == this]: the descriptor of a
    host node, when it is one whose parent is [this]. *)
Variable childDesc : NodeRef -> option ViewDesc.

(** [posBeforeChild(child)] (lines 186-192), the child found by identity;
    [None] is the [undefined] of a loop that runs out. *)
Fixpoint posBeforeChild_loop (cs : list ViewDesc) (pos : Z) (child : ViewDesc)
         {struct cs} : option Z :=
  match cs with
  | [] => None
  | cur :: rest =>
      if Nat.eqb (uid cur) (uid child) then Some pos
      else posBeforeChild_loop rest (pos + size cur) child
  end.

Definition posBeforeChild_desc (child : ViewDesc) : option Z :=
  posBeforeChild_loop (children this) start child.

(** [while (dom.parentNode != this.contentDOM) dom = dom.parentNode];
    [None]: the walk leaves the tree, and reading [parentNode] of null
    throws. *)
Fixpoint climbTo (content : NodeRef) (dom : NodeRef) {struct dom} : option NodeRef :=
  match dom with
  | [] => None
  | _ :: parent =>
      if NodeRef_eqb parent content then Some dom else climbTo content parent
  end.

(** [while (domBefore && !(...)) domBefore = domBefore.previousSibling],
    from the child of [parent] at index [k - 1] down. *)
Fixpoint scanBefore (parent : NodeRef) (k : nat) {struct k} : option ViewDesc :=
  match k with
  | O => None
  | S j =>
      match childDesc (j :: parent) with
      | Some desc => Some desc
      | None => scanBefore parent j
      end
  end.

(** [while (domAfter && !(...)) domAfter = domAfter.nextSibling], from the
    child of [parent] at index [k], with [n] children from there on. *)
Fixpoint scanAfter (parent : NodeRef) (k n : nat) {struct n} : option ViewDesc :=
  match n with
  | O => None
  | S n' =>
      match childDesc (k :: parent) with
      | Some desc => Some desc
      | None => scanAfter parent (S k) n'
      end
  end.

(** The two searches of the heuristics (lines 245-258): up along first
    children, and up along last children, to [this.dom]. *)
Fixpoint searchFirst (search : NodeRef) {struct search} : result (option bool) :=
  if NodeRef_eqb search thisDOM then Ok (Some false)
  else
    match search with
    | [] => Throw "TypeError"
    | i :: parent => if Nat.eqb i 0 then searchFirst parent else Ok None
    end.

Fixpoint searchLast (search : NodeRef) {struct search} : result (option bool) :=
  if NodeRef_eqb search thisDOM then Ok (Some true)
  else
    match search with
    | [] => Throw "TypeError"
    | i :: parent =>
        if Nat.eqb (S i) (dom_childCount root parent) then searchLast parent else Ok None
    end.

(** The position in the content (lines 215-237). *)
Definition localPos_content (content dom : NodeRef) (offset bias : Z)
  : result (option Z) :=
  let len := dom_childCount root content in
  if Z.ltb bias 0 then
    match (if NodeRef_eqb dom content
           then Ok (if Z.leb 1 offset && Z.leb offset (Z.of_nat len)
                    then Z.to_nat offset else 0%nat)
           else match climbTo content dom with
                | Some (i :: _) => Ok i
                | _ => Throw "TypeError"
                end) with
    | Throw e => Throw e
    | Ok k =>
        match scanBefore content k with
        | Some desc =>
            Ok (match posBeforeChild_desc desc with
                | Some p => Some (p + size desc)
                | None => None
                end)
        | None => Ok (Some start)
        end
    end
  else
    match (if NodeRef_eqb dom content
           then Ok (if Z.leb 0 offset && Z.ltb offset (Z.of_nat len)
                    then Z.to_nat offset else len)
           else match climbTo content dom with
                | Some (i :: _) => Ok (S i)
                | _ => Throw "TypeError"
                end) with
    | Throw e => Throw e
    | Ok k =>
        match scanAfter content k (len - k) with
        | Some desc => Ok (posBeforeChild_desc desc)
        | None => Ok (Some (posAtEnd start this))
        end
    end.

(** The heuristics (lines 241-262). *)
Definition localPos_atEnd (dom : NodeRef) (offset : Z) : result (option bool) :=
  match (match thisContent with
         | Some c =>
             if negb (NodeRef_eqb c thisDOM) && dom_contains thisDOM c
             then Some (precedes c dom)
             else None
         | None => None
         end) with
  | Some b => Ok (Some b)
  | None =>
      if Nat.ltb 0 (dom_childCount root thisDOM) then
        match (if Z.eqb offset 0 then searchFirst dom else Ok None) with
        | Throw e => Throw e
        | Ok (Some b) => Ok (Some b)
        | Ok None =>
            if Z.eqb offset (Z.of_nat (dom_childCount root dom))
            then searchLast dom
            else Ok None
        end
      else Ok None
  end.

Definition localPos_side (dom : NodeRef) (offset bias : Z) : result (option Z) :=
  match localPos_atEnd dom offset with
  | Throw e => Throw e
  | Ok atEnd =>
      Ok (Some (if match atEnd with
                   | None => Z.gtb bias 0
                   | Some b => b
                   end
                then posAtEnd start this else start))
  end.

(** [localPosFromDOM(dom, offset, bias)]; an answer [None] is the
    [undefined] or [NaN] that comes of a child not found. *)
Definition localPosFromDOM (dom : NodeRef) (offset bias : Z) : result (option Z) :=
  match deref root dom with
  | None => Throw "TypeError"
  | Some n =>
      let elt := match n with
                 | DElem _ _ => Some dom
                 | DText _ => ref_parentNode dom
                 end in
      match thisContent, elt with
      | Some content, Some e =>
          if dom_contains content e
          then localPos_content content dom offset bias
          else localPos_side dom offset bias
      | _, _ => localPos_side dom offset bias
      end
  end.
End LocalPosFromDOM.

(** A host tree for [marked_para_tree]: the paragraph's node holds one
    node for each of the six children of the descriptor. *)
Definition para_dom : Dom :=
  DElem "p" [DElem "span" []; DText "he"; DElem "span" [DText "llo"];
             DElem "em" [DText "wor"; DElem "span" []; DElem "b" [DText "ld"]];
             DElem "span" []; DElem "br" []].

Definition para_childDesc (n : NodeRef) : option ViewDesc :=
  match n with
  | [i] => nth_error (children marked_para_tree) i
  | _ => None
  end.

(** ** [computeOuterDeco] (lines 1099-1134) *)

(** An [OuterDecoLevel], an object without a prototype, as its properties
    in the order in which they were made. *)
Definition OuterDecoLevel : Type := list (string * string).

Fixpoint level_get (l : OuterDecoLevel) (name : string) {struct l} : option string :=
  match l with
  | [] => None
  | (k, v) :: r => if String.eqb k name then Some v else level_get r name
  end.

Fixpoint level_set (l : OuterDecoLevel) (name val : string) {struct l} : OuterDecoLevel :=
  match l with
  | [] => [(name, val)]
  | (k, v) :: r =>
      if String.eqb k name then (k, val) :: r else (k, v) :: level_set r name val
  end.

(** A property that holds a string is truthy unless the string is empty. *)
Definition truthy (v : option string) : bool :=
  match v with
  | Some s => negb (String.eqb s EmptyString)
  | None => false
  end.

(** [new OuterDecoLevel(nodeName)] *)
Definition newLevel (nodeName : option string) : OuterDecoLevel :=
  match nodeName with
  | Some s => if truthy nodeName then [("nodeName"%string, s)] else []
  | None => []
  end.

(** The [attrs] of a decoration's type; a value [None] is null or
    undefined. *)
Definition DecoAttrs : Type := list (string * option string).

Fixpoint attrs_get (a : DecoAttrs) (name : string) {struct a} : option string :=
  match a with
  | [] => None
  | (k, v) :: r => if String.eqb k name then v else attrs_get r name
  end.

(** An element of the array that [computeOuterDeco] answers: the level
    [noDeco[0]], which all calls share, or a level that the call has made. *)
Inductive LevelRef : Type :=
| SharedLevel
| OwnLevel (l : OuterDecoLevel).

(** The variables of [computeOuterDeco]; [top] and [cur] are elements of
    [result], held as indices. *)
Record OuterState : Type := mkOuter {
  os_shared : OuterDecoLevel;     (* noDeco[0] *)
  os_result : list LevelRef;
  os_top : nat;
  os_cur : nat
}.

(** A write to a property of [cur]. *)
Definition write_cur (f : OuterDecoLevel -> OuterDecoLevel) (st : OuterState) : OuterState :=
  match nth_error (os_result st) (os_cur st) with
  | Some SharedLevel => mkOuter (f (os_shared st)) (os_result st) (os_top st) (os_cur st)
  | Some (OwnLevel l) =>
      mkOuter (os_shared st) (replace_nth (os_cur st) (OwnLevel (f l)) (os_result st))
              (os_top st) (os_cur st)
  | None => st
  end.

(** [(cur.class ? cur.class + sep : "") + val] *)
Definition joined (l : OuterDecoLevel) (name sep val : string) : string :=
  append (if truthy (level_get l name)
          then append (match level_get l name with
                       | Some c => c
                       | None => EmptyString
                       end) sep
          else EmptyString) val.

Section ComputeOuterDeco.
Variable isInline : bool.     (* node.isInline *)
Variable needsWrap : bool.

(** The body of the loop over the properties of [attrs]. *)
Definition attr_step (st : OuterState) (entry : string * option string) : OuterState :=
  match snd entry with
  | None => st
  | Some val =>
      let name := fst entry in
      let st :=
        if needsWrap && Nat.eqb (List.length (os_result st)) 1
        then let i := List.length (os_result st) in
             mkOuter (os_shared st)
                     (os_result st
                      ++ [OwnLevel (newLevel (Some (if isInline then "span" else "div")%string))])
                     i i
        else st in
      if String.eqb name "class"
      then write_cur (fun l => level_set l "class" (joined l "class" " " val)) st
      else if String.eqb name "style"
           then write_cur (fun l => level_set l "style" (joined l "style" ";" val)) st
           else if negb (String.eqb name "nodeName")
                then write_cur (fun l => level_set l name val) st
                else st
  end.

(** The body of the loop over the decorations. *)
Definition deco_step (st : OuterState) (attrs : option DecoAttrs) : OuterState :=
  match attrs with
  | None => st
  | Some a =>
      let st :=
        if truthy (attrs_get a "nodeName")
        then mkOuter (os_shared st)
                     (os_result st ++ [OwnLevel (newLevel (attrs_get a "nodeName"))])
                     (os_top st) (List.length (os_result st))
        else mkOuter (os_shared st) (os_result st) (os_top st) (os_top st) in
      fold_left attr_step a st
  end.

(** [computeOuterDeco(outerDeco, node, needsWrap)], of the [type.attrs] of
    the decorations; it answers the array and leaves [noDeco[0]] as the
    second component says. *)
Definition computeOuterDeco (noDeco0 : OuterDecoLevel) (outerDeco : list (option DecoAttrs))
  : list LevelRef * OuterDecoLevel :=
  match outerDeco with
  | [] => ([SharedLevel], noDeco0)
  | _ =>
      let top := if needsWrap then SharedLevel else OwnLevel (newLevel None) in
      let st := fold_left deco_step outerDeco (mkOuter noDeco0 [top] 0 0) in
      (os_result st, os_shared st)
  end.
End ComputeOuterDeco.

(** The levels that stand for wrapping nodes name a node. *)
Definition namesNode (r : LevelRef) : bool :=
  match r with
  | SharedLevel => false
  | OwnLevel l => truthy (level_get l "nodeName")
  end.

(** The level of the node itself: the shared one where the node needs a
    wrapper, one of the call's own without a node name otherwise. *)
Definition nodeLevel (needsWrap : bool) (r : LevelRef) : bool :=
  match r with
  | SharedLevel => needsWrap
  | OwnLevel l => negb needsWrap && negb (isSome (level_get l "nodeName"))
  end.

(** The decoration does not ask for a node of its own. *)
Definition plainAttrs (attrs : option DecoAttrs) : bool :=
  match attrs with
  | Some a => negb (truthy (attrs_get a "nodeName"))
  | None => true
  end.

Definition deco_class (c : string) : option DecoAttrs := Some [("class"%string, Some c)].
Definition deco_wrap (nm c : string) : option DecoAttrs :=
  Some [("nodeName"%string, Some nm); ("class"%string, Some c)].

(** * Properties *)

(** ** Matching and dirtiness *)

Lemma matchesWidget_clean d w : matchesWidget d w = true -> dirty d = NOT_DIRTY.
Proof.
  unfold matchesWidget. destruct (kind d); try discriminate.
  intros H. apply andb_prop in H. destruct H as [H _]. now apply Z.eqb_eq.
Qed.

Lemma matchesNode_clean d n o i : matchesNode d n o i = true -> dirty d = NOT_DIRTY.
Proof.
  unfold matchesNode. destruct (kind d); try discriminate; intros H;
    repeat (apply andb_prop in H; destruct H as [H _]); now apply Z.eqb_eq.
Qed.

Lemma matchesHack_clean d : matchesHack d = true -> dirty d = NOT_DIRTY.
Proof.
  unfold matchesHack. destruct (kind d); try discriminate. apply Z.eqb_eq.
Qed.

Lemma matchesMark_not_node_dirty d m : matchesMark d m = true -> dirty d <> NODE_DIRTY.
Proof.
  unfold matchesMark. destruct (kind d); try discriminate.
  intros H. apply andb_prop in H. destruct H as [H _].
  apply negb_true_iff in H. now apply Z.eqb_neq.
Qed.

(** C1, as stated, fails for mark wrappers: a mark descriptor whose dirty
    level is CHILD_DIRTY still matches its mark. *)
Lemma matchesMark_dirty_counterexample :
  let d := mkDesc 1 (KMark strong) CHILD_DIRTY [] dom0 in
  dirty d <> NOT_DIRTY /\ matchesMark d strong = true.
Proof. split; [discriminate | reflexivity]. Qed.

(** C1 (amended): [matchesWidget], [matchesNode] and [matchesHack] answer
    false whenever the descriptor is not clean; [matchesMark] answers false
    whenever the descriptor is NODE_DIRTY (a mark wrapper with dirty
    descendants or content is still reused). *)
Theorem matches_false_when_dirty :
  forall d w m n o i,
    (dirty d <> NOT_DIRTY ->
       matchesWidget d w = false /\ matchesNode d n o i = false
       /\ matchesHack d = false)
    /\ (dirty d = NODE_DIRTY -> matchesMark d m = false).
Proof.
  intros d w m n o i. split.
  - intros Hd. repeat split.
    + destruct (matchesWidget d w) eqn:E; [|reflexivity].
      now apply matchesWidget_clean in E.
    + destruct (matchesNode d n o i) eqn:E; [|reflexivity].
      now apply matchesNode_clean in E.
    + destruct (matchesHack d) eqn:E; [|reflexivity].
      now apply matchesHack_clean in E.
  - intros Hd. destruct (matchesMark d m) eqn:E; [|reflexivity].
    now apply matchesMark_not_node_dirty in E.
Qed.

Lemma matches_false_when_dirty_witness :
  let d := mkDesc 1 (KMark strong) NODE_DIRTY [] dom0 in
  matchesWidget d (mkDeco 0 0 0 (InlineType 0)) = false
  /\ matchesMark d strong = false.
Proof.
  intros d.
  destruct (matches_false_when_dirty d (mkDeco 0 0 0 (InlineType 0)) strong
              (TextNode 0 [] EmptyString) [] DecorationSet_empty) as [H1 H2].
  split.
  - apply H1. discriminate.
  - apply H2. reflexivity.
Defined.

(** ** Size and border of node descriptors *)

Lemma fragment_size_sum c :
  (fix sum (l : list PNode) : Z :=
     match l with [] => 0 | x :: r => nodeSize x + sum r end) c = fragment_size c.
Proof. induction c; simpl; congruence. Qed.

Lemma nodeSize_branch i t a m c :
  nodeSize (BranchNode i t a m c) = 2 + fragment_size c.
Proof. simpl. now rewrite fragment_size_sum. Qed.

Definition image : PNode := LeafNode 7 (mkNodeType "image" true false) 0 [].

(** C5, as stated, fails for leaf nodes: the descriptor of an image has
    size 1 (the leaf's [nodeSize]), not content size 0 plus twice border 0. *)
Lemma leaf_size_counterexample :
  let d := mkDesc 1 (KNode image [] DecorationSet_empty) NOT_DIRTY [] dom0 in
  size d = 1 /\ border d = 0 /\ content_size image = 0
  /\ size d <> content_size image + 2 * border d.
Proof. repeat split; discriminate. Qed.

(** C5 (amended): a node descriptor's size is its node's [nodeSize] and its
    border is 1 for non-leaf nodes and 0 for leaf nodes; for a non-leaf node
    the size is the content size plus twice the border, for a leaf it is the
    node size of the leaf (1, or the text length for text). *)
Theorem node_desc_size_border :
  forall d n, desc_node d = Some n ->
    size d = nodeSize n
    /\ border d = (if node_isLeaf n then 0 else 1)
    /\ (node_isLeaf n = false -> size d = content_size n + 2 * border d)
    /\ (node_isLeaf n = true ->
        border d = 0 /\ content_size n = 0
        /\ size d = (if node_isText n then length_Z (node_text n) else 1)).
Proof.
  intros d n H.
  assert (Hs : size d = nodeSize n).
  { destruct d as [u k dd ch df]. unfold desc_node in H. simpl in *.
    destruct k; inversion H; subst; reflexivity. }
  assert (Hb : border d = if node_isLeaf n then 0 else 1).
  { unfold border. now rewrite H. }
  split; [exact Hs|]. split; [exact Hb|]. split.
  - intros Hl. rewrite Hs, Hb, Hl. destruct n; try discriminate.
    rewrite nodeSize_branch. unfold content_size, node_content. lia.
  - intros Hl. split; [now rewrite Hb, Hl|].
    rewrite Hs. destruct n; try discriminate; split; reflexivity.
Qed.

Lemma node_desc_size_border_witness :
  let n := BranchNode 1 (mkNodeType "paragraph" false true) 0 []
             [TextNode 2 [] "hello"] in
  let d := mkDesc 1 (KNode n [] DecorationSet_empty) NOT_DIRTY [] dom0 in
  size d = 7 /\ border d = 1.
Proof.
  intros n d.
  destruct (@node_desc_size_border d n eq_refl) as (H1 & H2 & _).
  split; [exact H1 | exact H2].
Defined.

(** ** Text descriptors: document offset of a host text offset *)

(** C10: for a text descriptor and an offset into its own host text node,
    [localPosFromDOM] is the start position plus the minimum of the offset
    and the text length, and never exceeds the end position. *)
Theorem text_localPosFromDOM_bounded :
  forall (super : ViewDesc -> Z -> nat -> Z -> Z -> Z)
         (root d : ViewDesc) (path : list nat) (start offset bias : Z)
         (node : PNode) (o : list Decoration) (i : DecorationSet),
    descAtPath root path = Some d ->
    posAtStart root path = Some start ->
    kind d = KText node o i ->
    node_isText node = true ->
    TextViewDesc_localPosFromDOM super d start (nodeDOM (domf d)) offset bias
      = start + Z.min offset (length_Z (node_text node))
    /\ TextViewDesc_localPosFromDOM super d start (nodeDOM (domf d)) offset bias
       <= posAtEnd start d.
Proof.
  intros super root d path start offset bias node o i _ _ Hk Ht.
  unfold TextViewDesc_localPosFromDOM. rewrite Hk, Nat.eqb_refl.
  split; [reflexivity|].
  unfold posAtEnd, border, desc_node. rewrite Hk.
  destruct d as [u k dd ch df]. simpl in Hk. subst k.
  destruct node; try discriminate. cbn. lia.
Qed.

Lemma text_localPosFromDOM_bounded_witness :
  let t := mkDesc 2 (KText (TextNode 2 [] "ab") [] DecorationSet_empty)
             NOT_DIRTY [] dom0 in
  let p := mkDesc 1 (KNode (BranchNode 1 (mkNodeType "paragraph" false true) 0 []
                              [TextNode 2 [] "ab"]) [] DecorationSet_empty)
             NOT_DIRTY [t] dom0 in
  TextViewDesc_localPosFromDOM (fun _ _ _ _ _ => 0) t 0 0%nat 5 0 = 2.
Proof.
  intros t p.
  destruct (@text_localPosFromDOM_bounded (fun _ _ _ _ _ => 0) p t [0%nat] 0 5 0
              (TextNode 2 [] "ab") [] DecorationSet_empty
              eq_refl eq_refl eq_refl eq_refl) as [H _].
  exact H.
Defined.

(** ** Dirty marking *)

Lemma markDirty_loop_level rec parent from to cs offset :
  let '(level, _, _) := markDirty_loop rec parent from to cs offset in
  level = CHILD_DIRTY \/ level = CONTENT_DIRTY.
Proof.
  revert offset. induction cs as [|c rest IH]; intros offset; simpl.
  - now right.
  - destruct (touches _ _ _ _).
    + destruct (_ && _).
      * destruct (_ && _ && _).
        -- destruct (_ || _); auto.
        -- destruct (rec c _ _). destruct (_ || _); auto.
      * specialize (IH (offset + size c)).
        destruct (markDirty_loop rec parent from to rest (offset + size c)) as [[l k] m].
        exact IH.
    + specialize (IH (offset + size c)).
      destruct (markDirty_loop rec parent from to rest (offset + size c)) as [[l k] m].
      exact IH.
Qed.

Lemma raise_dirty_ge levels : forall cur, cur <= raise_dirty cur levels.
Proof.
  unfold raise_dirty. induction levels as [|l r IH]; intros cur; simpl; [lia|].
  destruct (Z.ltb_spec cur l); [specialize (IH l) | specialize (IH cur)]; lia.
Qed.

Definition marked_ok (a : ViewDesc) : Prop :=
  if isMarkViewDesc a then dirty a = NOT_DIRTY else CHILD_DIRTY <= dirty a.

Lemma markDirty_children d from to :
  children (fst (markDirty d from to))
  = snd (fst (markDirty_loop markDirty d from to (children d) 0)).
Proof.
  destruct d as [u k dd cs df]. simpl.
  destruct (markDirty_loop markDirty _ from to cs 0) as [[l kids] m].
  unfold markDirty_finish. cbn [kind uid domf].
  destruct k; try reflexivity. destruct (negb _); reflexivity.
Qed.

Lemma markDirty_self_ok d from to : marked_ok (fst (markDirty d from to)).
Proof.
  destruct d as [u k dd cs df]. simpl.
  pose proof (markDirty_loop_level markDirty (mkDesc u k dd cs df) from to cs 0) as Hl.
  destruct (markDirty_loop markDirty _ from to cs 0) as [[l kids] m].
  unfold markDirty_finish, marked_ok, isMarkViewDesc. cbn [kind uid domf].
  assert (Hr : CHILD_DIRTY <= raise_dirty l m).
  { pose proof (raise_dirty_ge m l). unfold CHILD_DIRTY, CONTENT_DIRTY in *. lia. }
  destruct k; cbn; try exact Hr;
    try (unfold CHILD_DIRTY, CONTENT_DIRTY in *; lia).
  destruct Hl as [-> | ->]; cbn; reflexivity.
Qed.

(** The descent and the marking follow the same child. *)
Lemma descent_loop_step parent from to cs :
  forall offset i0 j path stop,
    descent_loop descent parent from to cs offset i0 = (j :: path, stop) ->
    exists child f' t',
      (i0 <= j)%nat
      /\ nth_error cs (j - i0) = Some child
      /\ descent child f' t' = (path, stop)
      /\ nth_error (snd (fst (markDirty_loop markDirty parent from to cs offset)))
           (j - i0) = Some (fst (markDirty child f' t')).
Proof.
  induction cs as [|c rest IH]; intros offset i0 j path stop H; simpl in H.
  - discriminate.
  - simpl. destruct (touches _ _ _ _).
    + destruct (_ && _).
      * destruct (_ && _ && _); [discriminate|].
        destruct (descent c _ _) as [p s] eqn:Ed. inversion H; subst.
        exists c, (from - (offset + border c)), (to - (offset + border c)).
        rewrite Nat.sub_diag. repeat split; auto.
        destruct (markDirty c _ _) as [c' mv]. reflexivity.
      * apply IH in H. destruct H as (child & f' & t' & Hle & Hn & Hd & Hm).
        exists child, f', t'.
        replace (j - i0)%nat with (S (j - S i0)) by lia.
        repeat split; auto; [lia|].
        destruct (markDirty_loop markDirty parent from to rest _) as [[l k] m].
        exact Hm.
    + apply IH in H. destruct H as (child & f' & t' & Hle & Hn & Hd & Hm).
      exists child, f', t'.
      replace (j - i0)%nat with (S (j - S i0)) by lia.
      repeat split; auto; [lia|].
      destruct (markDirty_loop markDirty parent from to rest _) as [[l k] m].
      exact Hm.
Qed.

Lemma descent_loop_end parent from to cs :
  forall offset i0,
    descent_loop descent parent from to cs offset i0 = ([], None) ->
    fst (fst (markDirty_loop markDirty parent from to cs offset)) = CONTENT_DIRTY
    /\ snd (markDirty_loop markDirty parent from to cs offset) = [].
Proof.
  induction cs as [|c rest IH]; intros offset i0 H; simpl in H; simpl.
  - auto.
  - destruct (touches _ _ _ _).
    + destruct (_ && _).
      * destruct (_ && _ && _); [discriminate|].
        destruct (descent c _ _); discriminate.
      * apply IH in H.
        destruct (markDirty_loop markDirty parent from to rest _) as [[l k] m]. exact H.
    + apply IH in H.
      destruct (markDirty_loop markDirty parent from to rest _) as [[l k] m]. exact H.
Qed.

Lemma descent_loop_stop parent from to cs :
  forall offset i0 j,
    descent_loop descent parent from to cs offset i0 = ([], Some j) ->
    exists child,
      (i0 <= j)%nat /\ nth_error cs (j - i0) = Some child
      /\ nth_error (snd (fst (markDirty_loop markDirty parent from to cs offset)))
           (j - i0) = Some (set_dirty NODE_DIRTY child).
Proof.
  induction cs as [|c rest IH]; intros offset i0 j H; simpl in H; simpl.
  - discriminate.
  - destruct (touches _ _ _ _).
    + destruct (_ && _).
      * destruct (_ && _ && _).
        -- inversion H; subst. exists c. rewrite Nat.sub_diag. auto.
        -- destruct (descent c _ _); discriminate.
      * apply IH in H. destruct H as (child & Hle & Hn & Hm). exists child.
        replace (j - i0)%nat with (S (j - S i0)) by lia.
        repeat split; auto; [lia|].
        destruct (markDirty_loop markDirty parent from to rest _) as [[l k] m]. exact Hm.
    + apply IH in H. destruct H as (child & Hle & Hn & Hm). exists child.
      replace (j - i0)%nat with (S (j - S i0)) by lia.
      repeat split; auto; [lia|].
      destruct (markDirty_loop markDirty parent from to rest _) as [[l k] m]. exact Hm.
Qed.

Lemma descent_unfold d from to :
  descent d from to = descent_loop descent d from to (children d) 0 0%nat.
Proof. destruct d; reflexivity. Qed.

Lemma markDirty_on_path :
  forall d from to p a,
    is_prefix p (fst (descent d from to)) = true ->
    descAtPath (fst (markDirty d from to)) p = Some a ->
    marked_ok a.
Proof.
  induction d as [u k dd cs df IH] using ViewDesc_tree_ind.
  intros from to p a Hp Ha. destruct p as [|i p'].
  - cbn [descAtPath] in Ha. injection Ha as <-.
    exact (markDirty_self_ok (mkDesc u k dd cs df) from to).
  - rewrite descent_unfold in Hp. cbn [children] in Hp.
    destruct (descent_loop descent _ from to cs 0 0%nat) as [path stop] eqn:Ed.
    destruct path as [|j path']; [discriminate|].
    simpl in Hp. apply andb_prop in Hp. destruct Hp as [Hij Hp].
    apply Nat.eqb_eq in Hij. subst j.
    apply descent_loop_step in Ed.
    destruct Ed as (child & f' & t' & _ & Hn & Hd & Hm).
    rewrite Nat.sub_0_r in Hn, Hm.
    cbn [descAtPath] in Ha. rewrite markDirty_children in Ha.
    cbn [children] in Ha. rewrite Hm in Ha.
    rewrite Forall_forall in IH.
    apply (IH child (nth_error_In _ _ Hn) f' t' p' a); [|exact Ha].
    now rewrite Hd.
Qed.

Lemma markDirty_unfold d from to :
  markDirty d from to
  = markDirty_finish d (markDirty_loop markDirty d from to (children d) 0).
Proof. destruct d; reflexivity. Qed.

Lemma markDirty_path_end :
  forall d from to a,
    descAtPath (fst (markDirty d from to)) (fst (descent d from to)) = Some a ->
    match snd (descent d from to) with
    | None => isMarkViewDesc a = false -> dirty a = CONTENT_DIRTY
    | Some i => exists c, nth_error (children a) i = Some c /\ dirty c = NODE_DIRTY
    end.
Proof.
  induction d as [u k dd cs df IH] using ViewDesc_tree_ind.
  intros from to a.
  remember (mkDesc u k dd cs df) as d0 eqn:E0.
  assert (Hc : children d0 = cs) by (subst; reflexivity).
  assert (Hk : kind d0 = k) by (subst; reflexivity).
  clear E0. rewrite descent_unfold, Hc.
  destruct (descent_loop descent d0 from to cs 0 0%nat) as [path stop] eqn:Ed.
  cbn [fst snd]. intros Ha. destruct path as [|j path'].
  - cbn [descAtPath] in Ha. injection Ha as <-. destruct stop as [i|].
    + apply descent_loop_stop in Ed. destruct Ed as (child & _ & Hn & Hm).
      rewrite Nat.sub_0_r in Hm. exists (set_dirty NODE_DIRTY child).
      rewrite markDirty_children, Hc. split; [exact Hm | reflexivity].
    + apply descent_loop_end in Ed. destruct Ed as [Hl Hm].
      rewrite markDirty_unfold, Hc.
      destruct (markDirty_loop markDirty d0 from to cs 0) as [[l kids] m].
      cbn [fst snd] in Hl, Hm. subst l m.
      unfold markDirty_finish, isMarkViewDesc. rewrite Hk.
      destruct k; cbn; intros; try reflexivity; discriminate.
  - apply descent_loop_step in Ed.
    destruct Ed as (child & f' & t' & _ & Hn & Hd & Hm).
    rewrite Nat.sub_0_r in Hn, Hm.
    cbn [descAtPath] in Ha. rewrite markDirty_children, Hc, Hm in Ha.
    rewrite Forall_forall in IH.
    specialize (IH child (nth_error_In _ _ Hn) f' t' a).
    rewrite Hd in IH. cbn [fst snd] in IH. apply IH. exact Ha.
Qed.

Lemma markDirty_root_Some d from to r :
  markDirty_root d from to = Some r -> r = fst (markDirty d from to).
Proof.
  unfold markDirty_root. destruct (markDirty d from to) as [d' [|l m]]; [|discriminate].
  now intros [= <-].
Qed.

Lemma markDirty_root_node d from to :
  isNodeViewDesc d = true -> markDirty_root d from to = Some (fst (markDirty d from to)).
Proof.
  unfold markDirty_root, isNodeViewDesc, desc_node. rewrite markDirty_unfold.
  destruct (markDirty_loop markDirty d from to (children d) 0) as [[l kids] m].
  unfold markDirty_finish. destruct (kind d); try discriminate; reflexivity.
Qed.

Definition bold_abcd : PNode := TextNode 3 [strong] "abcd".
Definition para_abcd : PNode :=
  BranchNode 1 (mkNodeType "paragraph" false true) 0 [] [bold_abcd].

(** A paragraph holding one text node under a mark wrapper. *)
Definition para_desc : ViewDesc :=
  mkDesc 1 (KNode para_abcd [] DecorationSet_empty) NOT_DIRTY
    [mkDesc 2 (KMark strong) NOT_DIRTY
       [mkDesc 3 (KText bold_abcd [] DecorationSet_empty) NOT_DIRTY [] dom0] dom0]
    dom0.




(** ** Host locations *)

Lemma length_Z_nonneg s : 0 <= length_Z s.
Proof. unfold length_Z. lia. Qed.

Lemma nodeSize_nonneg n : 0 <= nodeSize n.
Proof.
  induction n as [i m t | i t a m | i t a m c IH] using PNode_tree_ind.
  - apply length_Z_nonneg.
  - simpl. lia.
  - rewrite nodeSize_branch.
    assert (0 <= fragment_size c); [|lia].
    induction IH as [|x r Hx _ IHr]; simpl; lia.
Qed.

Lemma size_sizes d :
  desc_node d = None ->
  (forall h t, kind d <> KComposition h t) ->
  size d = sizes (children d).
Proof.
  destruct d as [u k dd cs df]. unfold desc_node. cbn [kind children].
  intros Hn Hc.
  assert (E : (fix sum (l : list ViewDesc) : Z :=
                 match l with [] => 0 | c :: r => size c + sum r end) cs = sizes cs).
  { induction cs; simpl; congruence. }
  destruct k; try discriminate; try exact E.
  now specialize (Hc textDOM text).
Qed.

Lemma sizes_nonneg cs : Forall (fun c => 0 <= size c) cs -> 0 <= sizes cs.
Proof. induction 1; simpl; lia. Qed.

Lemma size_nonneg d : 0 <= size d.
Proof.
  induction d as [u k dd cs df IH] using ViewDesc_tree_ind.
  destruct k;
    try (rewrite size_sizes; [now apply sizes_nonneg | reflexivity | discriminate]);
    try apply nodeSize_nonneg.
  apply length_Z_nonneg.
Qed.

Lemma domFromPos_loop_beyond rec parent cdom pos cs :
  forall offset,
    offset + sizes cs < pos ->
    domFromPos_loop rec parent cdom pos cs offset = Throw "Invalid position".
Proof.
  induction cs as [|c rest IH]; intros offset H; simpl in *.
  - destruct (Z.eqb_spec offset pos); [lia | reflexivity].
  - pose proof (size_nonneg c). pose proof (@sizes_nonneg rest) as Hr.
    assert (0 <= sizes rest).
    { apply Hr. apply Forall_forall. intros x _. apply size_nonneg. }
    destruct (Z.eqb_spec offset pos); [lia|].
    destruct (Z.ltb_spec pos (offset + size c)); [lia|].
    apply IH. lia.
Qed.

Definition text_ab : PNode := TextNode 2 [] "ab".
Definition text_ab_desc : ViewDesc :=
  mkDesc 2 (KText text_ab [] DecorationSet_empty) NOT_DIRTY []
    (mkDom 11 None 11 "ab" false (Some 10%nat) 0 false 0 true).
Definition para_ab_desc : ViewDesc :=
  mkDesc 1 (KNode (BranchNode 1 (mkNodeType "paragraph" false true) 0 [] [text_ab])
              [] DecorationSet_empty) NOT_DIRTY [text_ab_desc]
    (mkDom 10 (Some 10%nat) 10 EmptyString true None 0 true 1 true).

(** C7, as stated, fails below the span: for the offset -1 the paragraph
    hands the position to its first child, and the text descriptor answers
    with a location instead of raising. *)
Lemma domFromPos_negative_counterexample :
  contentDOM (domf para_ab_desc) = Some 10%nat
  /\ sizes (children para_ab_desc) = 2
  /\ domFromPos para_ab_desc (-1) = Ok (mkLoc 11 (-1)).
Proof. repeat split. Qed.

(** C7 (amended): for a descriptor with a content host node (other than a
    text or composition descriptor, which answer with their text node) and
    every offset beyond the sizes of its children, [domFromPos] raises
    "Invalid position"; offsets below the span are not checked. *)
Theorem domFromPos_beyond_raises :
  forall d cdom pos,
    contentDOM (domf d) = Some cdom ->
    isTextViewDesc d = false ->
    (forall h t, kind d <> KComposition h t) ->
    sizes (children d) < pos ->
    domFromPos d pos = Throw "Invalid position".
Proof.
  intros d cdom pos Hc Ht Hk Hpos.
  destruct d as [u k dd cs df]. cbn [domf kind children] in *.
  unfold isTextViewDesc in Ht. cbn [kind] in Ht.
  destruct k; try discriminate;
    try (cbn [domFromPos kind domf children]; rewrite Hc;
         apply domFromPos_loop_beyond; lia).
  now specialize (Hk textDOM text).
Qed.

Lemma domFromPos_beyond_raises_witness :
  domFromPos para_ab_desc 3 = Throw "Invalid position".
Proof.
  apply (@domFromPos_beyond_raises para_ab_desc 10%nat 3).
  - reflexivity.
  - reflexivity.
  - discriminate.
  - vm_compute. reflexivity.
Defined.

(** ** Document position of a host location *)

Lemma posFromDOM_scan_unmanaged
      (localPos : DescUp -> DomNode -> Z -> Z -> result Z)
      (this : nat) (start : DomNode) (offset bias : Z) :
  forall cur, unmanaged cur ->
    posFromDOM_scan localPos this start offset bias cur = Ok (-1).
Proof.
  fix IH 1. intros [desc parent] H. cbn in H. destruct H as [Hd Hp].
  subst desc. cbn. destruct parent as [p|]; [|reflexivity].
  apply IH. exact Hp.
Qed.

(** C8: when no node from the location up to the root of the host tree
    carries a descriptor association, [posFromDOM] answers -1, the absent
    position, and neither raises nor consults a descriptor. *)
Theorem posFromDOM_unmanaged :
  forall (localPos : DescUp -> DomNode -> Z -> Z -> result Z)
         (this : nat) (domNode : DomNode) (offset bias : Z),
    unmanaged domNode ->
    posFromDOM localPos this domNode offset bias = Ok (-1).
Proof.
  intros. unfold posFromDOM. now apply posFromDOM_scan_unmanaged.
Qed.

Lemma posFromDOM_unmanaged_witness :
  posFromDOM (fun _ _ _ _ => Throw "unreachable") 1%nat
    (mkDomNode None (Some (mkDomNode None None))) 0 1 = Ok (-1).
Proof.
  apply posFromDOM_unmanaged. cbn. auto.
Defined.

(** ** Reversible probes *)

Lemma withFlushedState_state A ed state (f : Selection -> Selection * result A) :
  view_state (fst (withFlushedState ed state f)) = view_state ed.
Proof.
  unfold withFlushedState.
  destruct (Nat.eqb_spec (view_state ed) state) as [E|E]; cbn [negb];
    destruct (negb (opt_nat_eqb _ _)); cbn;
    destruct (f _) as [s o]; cbn;
    destruct (activeElement ed) as [a|]; cbn;
    try destruct (negb (Nat.eqb a _)); cbn; congruence.
Qed.

Lemma withFlushedState_focus A ed state (f : Selection -> Selection * result A) a :
  activeElement ed = Some a ->
  activeElement (fst (withFlushedState ed state f)) = Some a.
Proof.
  intros Ha. unfold withFlushedState. rewrite Ha.
  destruct (negb (Nat.eqb (view_state ed) state)); cbn;
    destruct (Nat.eqb_spec a (view_dom ed)) as [E|E]; cbn;
    destruct (f _) as [s o]; cbn;
    try (destruct (Nat.eqb_spec a (view_dom ed)); [|congruence]); cbn;
    try (destruct (Nat.eqb_spec a (view_dom ed)); [congruence|]); cbn;
    congruence.
Qed.

Lemma withFlushedState_selection A ed state (f : Selection -> Selection * result A) :
  selection (fst (withFlushedState ed state f)) = fst (f (selection ed))
  /\ snd (withFlushedState ed state f) = snd (f (selection ed)).
Proof.
  unfold withFlushedState.
  destruct (negb (Nat.eqb (view_state ed) state)); cbn;
    destruct (negb (opt_nat_eqb _ _)); cbn;
    destruct (f _) as [s o]; cbn;
    destruct (activeElement ed) as [a|]; cbn;
    try destruct (negb (Nat.eqb a _)); cbn; auto.
Qed.

Lemma horizontal_probe_restores hp sel b :
  snd (horizontal_probe hp sel) = Ok b ->
  sel_range (fst (horizontal_probe hp sel)) = sel_range sel.
Proof.
  unfold horizontal_probe. destruct (sel_range sel) as [r|]; [|discriminate].
  destruct (hp_parentDOM hp); [|discriminate]. reflexivity.
Qed.

Definition caret_at (n : nat) (o : Z) : Selection :=
  mkSel (Some (mkRange n o n o)) false None.

(** A probe in right-to-left text whose parent lookup raises after the
    caret has been moved. *)
Definition failing_probe : HorizontalProbe :=
  mkProbe true false false true true false
          (fun _ => caret_at 5 1) (Throw "No node after pos") (fun _ _ => true).

Definition editor_unfocused : Editor := mkEditor 1 100 None (caret_at 5 0).
Definition editor_focused : Editor := mkEditor 1 100 (Some 100%nat) (caret_at 5 0).

(** C9, as stated, fails twice.  When the root has no active element,
    [withFlushedState] focuses the view and has nothing to give the focus
    back to.  When the horizontal probe raises after [sel.modify], the
    selection stays where the probe moved it. *)
Lemma probe_restore_counterexample :
  (let ed' := fst (withFlushedState editor_unfocused 1 (fun s => (s, Ok true))) in
   activeElement editor_unfocused = None /\ activeElement ed' = Some 100%nat)
  /\ (let r := endOfTextblockHorizontal editor_focused 1 failing_probe in
      snd r = Throw "No node after pos"
      /\ selection (fst r) = caret_at 5 1
      /\ selection (fst r) <> selection editor_focused).
Proof.
  split; [split; reflexivity|]. repeat split. discriminate.
Qed.

(** C9 (amended): [withFlushedState] restores the applied view state on
    every exit path, also when the probed function raises, and gives the
    focus back to the element that had it when there was one; the
    horizontal probe puts the selection range back whenever it returns. *)
Theorem probes_restore :
  forall (ed : Editor) (state : nat),
    (forall (f : Selection -> Selection * result bool),
        view_state (fst (withFlushedState ed state f)) = view_state ed
        /\ (forall a, activeElement ed = Some a ->
                      activeElement (fst (withFlushedState ed state f)) = Some a))
    /\ (forall hp b,
           snd (endOfTextblockHorizontal ed state hp) = Ok b ->
           view_state (fst (endOfTextblockHorizontal ed state hp)) = view_state ed
           /\ sel_range (selection (fst (endOfTextblockHorizontal ed state hp)))
              = sel_range (selection ed)).
Proof.
  intros ed state. split.
  - intros f. split; [apply withFlushedState_state|].
    intros a Ha. now apply withFlushedState_focus.
  - intros hp b. unfold endOfTextblockHorizontal.
    destruct (negb (hp_isTextblock hp)); [auto|].
    destruct (negb (hp_maybeRTL hp) || negb (hp_hasModify hp)); [auto|].
    intros H. split; [apply withFlushedState_state|].
    destruct (withFlushedState_selection ed state (horizontal_probe hp)) as [Hs Ho].
    rewrite Hs. rewrite Ho in H.
    eapply horizontal_probe_restores. exact H.
Qed.

Definition returning_probe : HorizontalProbe :=
  mkProbe true false false true true false
          (fun _ => caret_at 5 1) (Ok 100%nat) (fun _ _ => true).

Lemma probes_restore_witness :
  sel_range (selection (fst (endOfTextblockHorizontal editor_focused 2 returning_probe)))
  = sel_range (selection editor_focused)
  /\ activeElement (fst (withFlushedState editor_focused 2 (horizontal_probe failing_probe)))
     = Some 100%nat.
Proof.
  destruct (probes_restore editor_focused 2) as [H1 H2]. split.
  - apply (proj2 (H2 returning_probe false eq_refl)).
  - apply (proj2 (H1 (horizontal_probe failing_probe)) 100%nat eq_refl).
Defined.

(** ** The mark stack *)

Lemma liveMarks_of_info st : forall p p',
  info p = info p' -> map info (liveMarks_of st p) = map info (liveMarks_of st p').
Proof.
  destruct st as [|[q i] st]; intros p p' H; simpl; [reflexivity|].
  rewrite !map_app. simpl. now rewrite H.
Qed.

Lemma liveMarks_of_length st p : List.length (liveMarks_of st p) = List.length st.
Proof.
  revert p. induction st as [|[q i] st IH]; intros p; simpl; [reflexivity|].
  rewrite length_app, IH. simpl. lia.
Qed.

Lemma destroyBetween_stack a b u : stack (destroyBetween a b u) = stack u.
Proof. unfold destroyBetween. destruct (Nat.eqb a b); reflexivity. Qed.

Lemma destroyBetween_info a b u : info (top (destroyBetween a b u)) = info (top u).
Proof. unfold destroyBetween. destruct (Nat.eqb a b); reflexivity. Qed.

Lemma destroyBetween_index a b u : index (destroyBetween a b u) = index u.
Proof. unfold destroyBetween. destruct (Nat.eqb a b); reflexivity. Qed.

Lemma fold_emit_effects (l : list ViewDesc) : forall w,
  effects (fold_left (fun w d => emit (EDestroy (uid d)) w) l w)
  = rev (map (fun d => EDestroy (uid d)) l) ++ effects w.
Proof.
  induction l as [|x r IH]; intros w; simpl; [reflexivity|].
  rewrite IH. simpl. now rewrite <- app_assoc.
Qed.

Lemma destroyBetween_effects a b u :
  effects (world (destroyBetween a b u))
  = rev (map (fun d => EDestroy (uid d))
             (firstn (b - a) (skipn a (children (top u))))) ++ effects (world u).
Proof.
  unfold destroyBetween. destruct (Nat.eqb_spec a b) as [->|Hne].
  - now rewrite Nat.sub_diag.
  - cbn. apply fold_emit_effects.
Qed.

Lemma destroyRest_effects u :
  effects (world (destroyRest u))
  = rev (map (fun d => EDestroy (uid d)) (unvisited u)) ++ effects (world u).
Proof.
  unfold destroyRest. rewrite destroyBetween_effects. unfold unvisited.
  rewrite firstn_all2; [reflexivity|]. rewrite length_skipn. lia.
Qed.

Lemma leaveMark_live u :
  stack u <> [] ->
  map info (liveMarks (leaveMark u)) = removelast (map info (liveMarks u))
  /\ List.length (stack (leaveMark u)) = pred (List.length (stack u)).
Proof.
  intros Hs. unfold leaveMark, liveMarks.
  pose proof (destroyBetween_stack (index u) (List.length (children (top u))) u) as E.
  unfold destroyRest. destruct (stack (destroyBetween _ _ u)) as [|[p i] st] eqn:Est.
  - rewrite <- E in Hs. contradiction.
  - rewrite <- E. cbn. split; [|reflexivity].
    rewrite map_app. cbn. rewrite removelast_last.
    apply liveMarks_of_info. reflexivity.
Qed.

Lemma leaveMark_effects u :
  exists l, effects (world (leaveMark u))
            = l ++ rev (map (fun d => EDestroy (uid d)) (unvisited u))
                ++ effects (world u).
Proof.
  exists []. unfold leaveMark. cbn [app].
  pose proof (destroyRest_effects u) as E.
  destruct (stack (destroyRest u)) as [|[p i] st]; exact E.
Qed.

Lemma removelast_firstn_pred (A : Type) (l : list A) :
  removelast l = firstn (pred (List.length l)) l.
Proof.
  induction l as [|x r IH]; [reflexivity|].
  destruct r as [|y r']; [reflexivity|].
  change (removelast (x :: y :: r')) with (x :: removelast (y :: r')).
  rewrite IH. reflexivity.
Qed.

Lemma iter_leaveMark_live n : forall u,
  (n <= List.length (stack u))%nat ->
  map info (liveMarks (Nat.iter n leaveMark u))
  = firstn (List.length (stack u) - n) (map info (liveMarks u))
  /\ List.length (stack (Nat.iter n leaveMark u)) = (List.length (stack u) - n)%nat.
Proof.
  induction n as [|n IH]; intros u Hn.
  - cbn. rewrite Nat.sub_0_r. split; [|reflexivity].
    rewrite firstn_all2; [reflexivity|].
    rewrite length_map. unfold liveMarks. rewrite liveMarks_of_length. lia.
  - change (Nat.iter (S n) leaveMark u) with (leaveMark (Nat.iter n leaveMark u)).
    destruct (IH u) as [IH1 IH2]; [lia|].
    assert (Hs : stack (Nat.iter n leaveMark u) <> []).
    { intros E. rewrite E in IH2. cbn in IH2. lia. }
    destruct (leaveMark_live _ Hs) as [L1 L2]. rewrite L1, L2, IH1, IH2. split; [|lia].
    rewrite removelast_firstn_pred, length_firstn, length_map.
    unfold liveMarks. rewrite liveMarks_of_length.
    rewrite Nat.min_l by lia. rewrite firstn_firstn. f_equal. lia.
Qed.

Lemma findIn_Some p l : forall i count found,
  findIn p l i count = Some found ->
  (i <= found < i + count)%nat
  /\ exists x, nth_error l (found - i) = Some x /\ p x = true.
Proof.
  induction l as [|x r IH]; intros i count found H; destruct count; try discriminate.
  simpl in H. destruct (p x) eqn:Ep.
  - inversion H; subst. split; [lia|]. exists x. rewrite Nat.sub_diag. auto.
  - apply IH in H. destruct H as [Hr (y & Hy & Hp)]. split; [lia|].
    exists y. replace (found - i)%nat with (S (found - S i)) by lia. auto.
Qed.

Lemma findIn_head p x r i count :
  p x = true -> findIn p (x :: r) i (S count) = Some i.
Proof. intros H. simpl. now rewrite H. Qed.

Lemma findFrom_Some p cs start count found :
  findFrom p cs start count = Some found ->
  (start <= found < start + count)%nat
  /\ exists x, nth_error cs found = Some x /\ p x = true.
Proof.
  unfold findFrom. intros H. apply findIn_Some in H.
  destruct H as [Hr (x & Hx & Hp)]. split; [exact Hr|]. exists x. split; [|exact Hp].
  rewrite nth_error_skipn in Hx. now replace (start + (found - start))%nat with found in Hx by lia.
Qed.

Lemma Mark_eq_refl m : Mark_eq m m = true.
Proof.
  unfold Mark_eq. now rewrite String.eqb_refl, Z.eqb_refl, Bool.eqb_reflx.
Qed.

Lemma splice_out_nth (A : Type) (cs : list A) i found :
  (i <= found)%nat ->
  nth_error (splice_out i (found - i) cs) i = nth_error cs found.
Proof.
  intros Hle. unfold splice_out.
  destruct (Nat.le_gt_cases (List.length cs) i) as [Hlen|Hlen].
  - rewrite firstn_all2 by lia. rewrite skipn_all2 by lia. rewrite app_nil_r.
    transitivity (@None A); [|symmetry]; apply nth_error_None; lia.
  - rewrite nth_error_app2; rewrite length_firstn, Nat.min_l by lia; [|lia].
    rewrite Nat.sub_diag, nth_error_skipn. f_equal. lia.
Qed.

Lemma enterMark_live m u :
  exists c,
    map info (liveMarks (enterMark m u)) = map info (liveMarks u) ++ [info c]
    /\ matchesMark c m = true
    /\ List.length (stack (enterMark m u)) = S (List.length (stack u)).
Proof.
  unfold enterMark.
  destruct (findFrom _ (children (top u)) (index u) 3) as [found|] eqn:Ef.
  - apply findFrom_Some in Ef. destruct Ef as [Hr (x & Hx & Hp)].
    set (u1 := if Nat.ltb (index u) found
               then destroyBetween (index u) found (with_changed true u) else u).
    assert (Hi : index u1 = index u).
    { unfold u1. destruct (Nat.ltb _ _); [rewrite destroyBetween_index|]; reflexivity. }
    assert (Hst : stack u1 = stack u).
    { unfold u1. destruct (Nat.ltb _ _); [rewrite destroyBetween_stack|]; reflexivity. }
    assert (Hinfo : info (top u1) = info (top u)).
    { unfold u1. destruct (Nat.ltb _ _); [rewrite destroyBetween_info|]; reflexivity. }
    assert (Hn : nth_error (children (top u1)) (index u1) = Some x).
    { rewrite Hi. unfold u1. destruct (Nat.ltb_spec (index u) found) as [Hlt|Hge].
      - unfold destroyBetween. destruct (Nat.eqb_spec (index u) found); [lia|].
        cbn. rewrite splice_out_nth by lia. exact Hx.
      - replace (index u) with found by lia. exact Hx. }
    rewrite Hn. exists x. unfold liveMarks. cbn. rewrite Hst. split; [|auto].
    rewrite map_app. cbn. f_equal. now apply liveMarks_of_info.
  - unfold MarkViewDesc_create. cbn.
    eexists. unfold liveMarks. cbn. rewrite map_app. cbn. split; [|split].
    + f_equal. apply liveMarks_of_info. reflexivity.
    + unfold matchesMark. cbn. apply Mark_eq_refl.
    + reflexivity.
Qed.

Lemma enterMark_effects m u :
  exists l, effects (world (enterMark m u)) = l ++ effects (world u).
Proof.
  unfold enterMark.
  destruct (findFrom _ (children (top u)) (index u) 3) as [found|].
  - set (u1 := if Nat.ltb (index u) found
               then destroyBetween (index u) found (with_changed true u) else u).
    assert (H : exists l, effects (world u1) = l ++ effects (world u)).
    { unfold u1. destruct (Nat.ltb _ _); [|now exists []].
      eexists. rewrite destroyBetween_effects. cbn. reflexivity. }
    destruct (nth_error _ _); exact H.
  - unfold MarkViewDesc_create. cbn. eexists [_]. reflexivity.
Qed.

Lemma fold_enterMark_live ms : forall u,
  exists cs,
    map info (liveMarks (fold_left (fun u m => enterMark m u) ms u))
    = map info (liveMarks u) ++ map info cs
    /\ Forall2 (fun c m => matchesMark c m = true) cs ms
    /\ List.length (stack (fold_left (fun u m => enterMark m u) ms u))
       = (List.length (stack u) + List.length ms)%nat.
Proof.
  induction ms as [|m ms IH]; intros u; cbn [fold_left].
  - exists []. cbn. rewrite app_nil_r. repeat split; [constructor | lia].
  - destruct (enterMark_live m u) as (c & Hc & Hm & Hl).
    destruct (IH (enterMark m u)) as (cs & Hcs & Hms & Hls).
    exists (c :: cs). rewrite Hcs, Hc, Hls, Hl. cbn. rewrite <- app_assoc.
    repeat split; [constructor; assumption | lia].
Qed.

Lemma fold_enterMark_effects ms : forall u,
  exists l, effects (world (fold_left (fun u m => enterMark m u) ms u))
            = l ++ effects (world u).
Proof.
  induction ms as [|m ms IH]; intros u; cbn [fold_left].
  - now exists [].
  - destruct (IH (enterMark m u)) as (l1 & H1).
    destruct (enterMark_effects m u) as (l2 & H2).
    exists (l1 ++ l2). now rewrite H1, H2, app_assoc.
Qed.

Lemma iter_leaveMark_effects n : forall u,
  exists l, effects (world (Nat.iter n leaveMark u)) = l ++ effects (world u).
Proof.
  induction n as [|n IH]; intros u.
  - now exists [].
  - change (Nat.iter (S n) leaveMark u) with (leaveMark (Nat.iter n leaveMark u)).
    destruct (leaveMark_effects (Nat.iter n leaveMark u)) as (l1 & H1).
    destruct (IH u) as (l2 & H2). rewrite H1, H2.
    eexists. rewrite !app_assoc. reflexivity.
Qed.

(** What decides [matchesMark], read off the [info] of a descriptor. *)
Definition matchesInfo (i : nat * DescKind * Z) (m : Mark) : bool :=
  match i with
  | (_, KMark mark, d) => negb (Z.eqb d NODE_DIRTY) && Mark_eq mark m
  | _ => false
  end.

Lemma matchesMark_info d m : matchesMark d m = matchesInfo (info d) m.
Proof. unfold matchesMark, matchesInfo, info. destruct (kind d); reflexivity. Qed.

Lemma countKeep_commonPrefix live : forall marks,
  Forall (fun d => dirty d <> NODE_DIRTY) live ->
  countKeep live marks = commonPrefix live marks.
Proof.
  induction live as [|d live IH]; intros marks H; [reflexivity|].
  destruct marks as [|m marks]; [reflexivity|]. inversion H; subst. cbn.
  assert (E : matchesMark d m && mark_spanning m = levelMatches d m).
  { unfold matchesMark, levelMatches. destruct (kind d); try reflexivity.
    destruct (Z.eqb_spec (dirty d) NODE_DIRTY); [contradiction | reflexivity]. }
  rewrite E. destruct (levelMatches d m); [|reflexivity]. now rewrite IH.
Qed.

Lemma countKeep_bound live : forall marks,
  (countKeep live marks <= List.length live)%nat
  /\ (countKeep live marks <= List.length marks)%nat.
Proof.
  induction live as [|d live IH]; intros marks; [cbn; lia|].
  destruct marks as [|m marks]; [cbn; lia|]. cbn.
  destruct (_ && _); [|lia]. destruct (IH marks). cbn. lia.
Qed.

Lemma countKeep_matches live : forall marks,
  Forall2 (fun i m => matchesInfo i m = true)
          (firstn (countKeep live marks) (map info live))
          (firstn (countKeep live marks) marks).
Proof.
  induction live as [|d live IH]; intros marks; [constructor|].
  destruct marks as [|m marks]; [constructor|]. cbn.
  destruct (matchesMark d m && mark_spanning m) eqn:E; [|constructor].
  apply andb_prop in E. destruct E as [E _]. cbn. constructor; [|apply IH].
  now rewrite <- matchesMark_info.
Qed.

Lemma syncToMarks_live marks u :
  let keep := countKeep (liveMarks u) marks in
  exists cs,
    map info (liveMarks (syncToMarks marks u))
    = firstn keep (map info (liveMarks u)) ++ map info cs
    /\ Forall2 (fun c m => matchesMark c m = true) cs (skipn keep marks)
    /\ List.length (stack (syncToMarks marks u)) = List.length marks.
Proof.
  intros keep. unfold syncToMarks. fold keep.
  destruct (countKeep_bound (liveMarks u) marks) as [B1 B2]. fold keep in B1, B2.
  unfold liveMarks in B1. rewrite liveMarks_of_length in B1.
  destruct (@iter_leaveMark_live (List.length (stack u) - keep) u) as [I1 I2]; [lia|].
  destruct (fold_enterMark_live (skipn keep marks)
              (Nat.iter (List.length (stack u) - keep) leaveMark u)) as (cs & F1 & F2 & F3).
  exists cs. rewrite F1, I1, F3, I2, length_skipn.
  split; [|split]; [|exact F2|lia].
  f_equal. f_equal. lia.
Qed.

Lemma Forall2_matches_info cs ms :
  Forall2 (fun c m => matchesMark c m = true) cs ms ->
  Forall2 (fun i m => matchesInfo i m = true) (map info cs) ms.
Proof.
  induction 1; cbn; constructor; auto.
Qed.

Lemma Forall2_info_matches cs : forall ms,
  Forall2 (fun i m => matchesInfo i m = true) (map info cs) ms ->
  Forall2 (fun c m => matchesMark c m = true) cs ms.
Proof.
  induction cs as [|c cs IH]; intros ms H; inversion H; subst; constructor.
  - now rewrite matchesMark_info.
  - now apply IH.
Qed.

Lemma syncToMarks_matches marks u :
  Forall2 (fun d m => matchesMark d m = true) (liveMarks (syncToMarks marks u)) marks.
Proof.
  destruct (syncToMarks_live marks u) as (cs & H1 & H2 & _).
  apply Forall2_info_matches. rewrite H1.
  rewrite <- (firstn_skipn (countKeep (liveMarks u) marks) marks) at 2.
  apply Forall2_app; [apply countKeep_matches | now apply Forall2_matches_info].
Qed.

(** The example of the specification: children with marks [A,B] and [A,C]
    end up under one wrapper for A holding distinct wrappers for B and C. *)
Lemma mark_nesting_example :
  exists d w a b c x y,
    updateChildren 2 plainView para_marks_desc 0 (mkWorld 100 []) = Some (Ok (d, w))
    /\ children d = [a]
    /\ kind a = KMark markA /\ children a = [b; c]
    /\ kind b = KMark markB /\ children b = [x]
    /\ kind c = KMark markC /\ children c = [y]
    /\ uid b <> uid c
    /\ desc_node x = Some (TextNode 2 [markA; markB] "x")
    /\ desc_node y = Some (TextNode 3 [markA; markC] "y").
Proof.
  do 7 eexists.
  split; [vm_compute; reflexivity|].
  split; [reflexivity|]. split; [reflexivity|]. split; [reflexivity|].
  split; [reflexivity|]. split; [reflexivity|]. split; [reflexivity|].
  split; [reflexivity|]. split; [cbn; lia|]. split; reflexivity.
Qed.


Definition updater_in_B : Updater :=
  syncToMarks [markA; markB] (newUpdater para_marks_desc None 0 (mkWorld 100 [])).


(** ** The composition lock of [updateNextNode] *)

Lemma isLocked_split l next node outerDeco :
  isLocked (Some l) next node outerDeco
  = holdsLock l next && negb (textAlreadyThere next node outerDeco).
Proof. reflexivity. Qed.


Lemma TextViewDesc_update_already_there view next node outerDeco w this_node o i :
  kind next = KText this_node o i ->
  textAlreadyThere next node outerDeco = true ->
  sameMarkup node this_node = true ->
  dirty next = NOT_DIRTY \/ text_inParent (domf next) = true ->
  TextViewDesc_update view node outerDeco next w
  = (Some (set_dirty NOT_DIRTY (set_node node next)), w).
Proof.
  intros Hk He Hs Hp. unfold textAlreadyThere in He.
  apply andb_prop in He. destruct He as [He Hdeco].
  apply andb_prop in He. destruct He as [He Hnd].
  apply andb_prop in He. destruct He as [He Hval].
  unfold TextViewDesc_update, desc_node. rewrite Hk.
  apply negb_true_iff in Hnd. rewrite Hnd, Hs. cbn [orb negb].
  assert (Hg : negb (Z.eqb (dirty next) NOT_DIRTY) && negb (text_inParent (domf next))
               = false).
  { destruct Hp as [-> | ->]; [reflexivity | apply andb_false_r]. }
  rewrite Hg. cbn [orb].
  unfold updateOuterDeco. rewrite Hdeco.
  apply String.eqb_eq in Hval. rewrite <- Hval, String.eqb_refl.
  cbn [negb]. rewrite andb_false_r. reflexivity.
Qed.

Lemma nth_error_replace_nth (A : Type) (l : list A) i x :
  (i < List.length l)%nat -> nth_error (replace_nth i x l) i = Some x.
Proof.
  intros H. unfold replace_nth.
  rewrite nth_error_app2; rewrite length_firstn, Nat.min_l by lia; [|lia].
  now rewrite Nat.sub_diag.
Qed.

Lemma destroys_harmless (l : list ViewDesc) :
  Forall (fun e => mutatesHost e = false) (rev (map (fun d => EDestroy (uid d)) l)).
Proof.
  apply Forall_forall. intros e He. apply in_rev in He. apply in_map_iff in He.
  destruct He as (d & <- & _). reflexivity.
Qed.


Definition already_text : ViewDesc :=
  mkDesc 2 (KText (TextNode 2 [] "ab") [] DecorationSet_empty) CONTENT_DIRTY []
         (mkDom 11 None 11 "ac" false (Some 10%nat) 0 false 0 true).

Definition already_para : ViewDesc :=
  mkDesc 1 (KNode (BranchNode 1 paragraph 0 [] [TextNode 5 [] "ac"])
                  [] DecorationSet_empty) NOT_DIRTY [already_text]
         (mkDom 10 (Some 10%nat) 10 EmptyString true None 0 true 1 true).


(** ** A second pass follows the first *)

Arguments replace_nth : simpl never.
Arguments splice_out : simpl never.
Arguments splice_in : simpl never.

Lemma strip_uid d : uid (strip d) = uid d.
Proof. destruct d; reflexivity. Qed.
Lemma strip_kind d : kind (strip d) = kind d.
Proof. destruct d; reflexivity. Qed.
Lemma strip_dirty d : dirty (strip d) = dirty d.
Proof. destruct d; reflexivity. Qed.
Lemma strip_children d : children (strip d) = map strip (children d).
Proof. destruct d; reflexivity. Qed.

Lemma strip_eq_head a b : strip a = strip b ->
  uid a = uid b /\ kind a = kind b /\ dirty a = dirty b
  /\ map strip (children a) = map strip (children b).
Proof.
  intros H. rewrite <- (strip_uid a), <- (strip_uid b), <- (strip_kind a),
    <- (strip_kind b), <- (strip_dirty a), <- (strip_dirty b),
    <- (strip_children a), <- (strip_children b), H. auto.
Qed.

Lemma set_children_same d : set_children (children d) d = d.
Proof. destruct d; reflexivity. Qed.

Lemma set_dirty_same d : set_dirty (dirty d) d = d.
Proof. destruct d; reflexivity. Qed.

Lemma replace_nth_same (A : Type) (l : list A) i x :
  nth_error l i = Some x -> replace_nth i x l = l.
Proof.
  revert i. induction l as [|y r IH]; intros [|i] H; try discriminate.
  - cbn in H. inversion H; subst. reflexivity.
  - cbn in H. unfold replace_nth in *. cbn. f_equal. now apply IH.
Qed.

Lemma firstn_replace_nth (A : Type) (l : list A) i x :
  (i < List.length l)%nat ->
  firstn (S i) (replace_nth i x l) = firstn i l ++ [x].
Proof.
  intros H. unfold replace_nth.
  rewrite firstn_app, length_firstn, Nat.min_l by lia.
  rewrite (@firstn_all2 A (S i) (firstn i l)) by (rewrite length_firstn; lia).
  replace (S i - i)%nat with 1%nat by lia. reflexivity.
Qed.

Lemma map_firstn_snoc (A B : Type) (f : A -> B) (l : list A) i (ys : list B) y :
  map f (firstn (S i) l) = ys ++ [y] -> List.length ys = i ->
  exists x, nth_error l i = Some x /\ f x = y /\ map f (firstn i l) = ys.
Proof.
  revert i ys. induction l as [|a r IH]; intros i ys H Hl.
  - cbn in H. destruct ys; discriminate.
  - destruct i as [|i].
    + destruct ys; [|discriminate]. cbn in H. inversion H. exists a. auto.
    + destruct ys as [|y0 ys]; [discriminate|]. cbn in H. inversion H; subst.
      cbn in Hl. destruct (IH i ys H2) as (x & Hx & Hf & Hm); [lia|].
      exists x. cbn. rewrite Hm. auto.
Qed.

Lemma splice_out_rest (A : Type) (l : list A) i :
  (i <= List.length l)%nat -> splice_out i (List.length l - i) l = firstn i l.
Proof.
  intros H. unfold splice_out. rewrite skipn_all2 by lia. apply app_nil_r.
Qed.

Lemma destroyRest_top u :
  (index u <= List.length (children (top u)))%nat ->
  children (top (destroyRest u)) = firstn (index u) (children (top u))
  /\ uid (top (destroyRest u)) = uid (top u)
  /\ kind (top (destroyRest u)) = kind (top u)
  /\ dirty (top (destroyRest u)) = dirty (top u)
  /\ domf (top (destroyRest u)) = domf (top u)
  /\ stack (destroyRest u) = stack u
  /\ index (destroyRest u) = index u.
Proof.
  intros H. unfold destroyRest, destroyBetween.
  destruct (Nat.eqb_spec (index u) (List.length (children (top u)))) as [E|E].
  - rewrite E, firstn_all. auto 10.
  - cbn. rewrite splice_out_rest by lia. auto 10.
Qed.

Section SecondPass.
Variable pm : list ViewDesc.
Variable off : nat.
Variable lk : option Composition.
Variable pos : Z.
Variable w : World.

Lemma sim_leaveMark u1 t2' st2' T :
  positions_ok u1 -> stack u1 <> [] ->
  FocusAt (leaveMark u1) t2' st2' T ->
  exists t2 st2,
    FocusAt u1 t2 st2 T
    /\ leaveMark (secondPass pm off lk pos w t2 (index u1) st2)
       = secondPass pm off lk pos w t2' (index (leaveMark u1)) st2'.
Proof.
  intros [Hi Hf] Hne HF.
  destruct (destroyRest_top u1 Hi) as (Dc & Du & Dk & Dd & Df & Ds & Dx).
  unfold leaveMark in *. rewrite Ds in *.
  destruct (stack u1) as [|[p i] r] eqn:Est; [contradiction|].
  cbn in Hf. destruct Hf as [[Hi1 Hi2] Hfr].
  destruct HF as ((Hu & Hk) & Hv & Hl).
  cbn [top index stack with_stack with_index with_top] in Hu, Hk, Hv, Hl.
  cbn [children set_children uid kind] in Hu, Hk, Hv.
  destruct i as [|j]; [lia|]. replace (S j - 1)%nat with j in * by lia.
  rewrite firstn_replace_nth in Hv by lia.
  rewrite map_app in Hv. cbn [map] in Hv.
  apply map_firstn_snoc in Hv; [|rewrite length_map, length_firstn; lia].
  destruct Hv as (M & HM & HsM & Hleft).
  apply strip_eq_head in HsM.
  cbn [set_dirty uid kind dirty children] in HsM. rewrite Du, Dk, Dc in HsM.
  destruct HsM as (Mu & Mk & Md & Mc).
  exists M, ((t2', S j) :: st2'). split.
  - split; [split; congruence|]. split.
    + rewrite <- firstn_map, Mc, firstn_map, firstn_firstn, Nat.min_id. reflexivity.
    + rewrite Est. cbn. replace (j - 0)%nat with j by lia. repeat split; auto.
  - assert (Hlen : List.length (children M) = index u1).
    { rewrite <- (length_map strip), Mc, length_map, length_firstn. lia. }
    unfold secondPass, leaveMark, destroyRest, destroyBetween. cbn.
    rewrite Hlen, Nat.eqb_refl. cbn. replace (j - 0)%nat with j by lia.
    unfold with_stack, with_index, with_top. cbn.
    rewrite <- Md, set_dirty_same, (replace_nth_same _ _ HM), set_children_same.
    reflexivity.
Qed.

Lemma skipn_nth (A : Type) (l : list A) : forall i x,
  nth_error l i = Some x -> skipn i l = x :: skipn (S i) l.
Proof.
  induction l as [|y r IH]; intros [|i] x H; try discriminate.
  - cbn in H. inversion H. reflexivity.
  - cbn in H. cbn [skipn]. now apply IH.
Qed.

Lemma firstn_splice_out (A : Type) (l : list A) i n :
  (i <= List.length l)%nat -> firstn i (splice_out i n l) = firstn i l.
Proof.
  intros H. unfold splice_out.
  rewrite firstn_app, length_firstn, Nat.min_l, Nat.sub_diag by lia.
  cbn. rewrite app_nil_r. rewrite firstn_firstn. now rewrite Nat.min_id.
Qed.

Lemma firstn_splice_in (A : Type) (l : list A) i x :
  (i <= List.length l)%nat -> firstn i (splice_in i x l) = firstn i l.
Proof.
  intros H. unfold splice_in.
  rewrite firstn_app, length_firstn, Nat.min_l, Nat.sub_diag by lia.
  cbn. rewrite app_nil_r. rewrite firstn_firstn. now rewrite Nat.min_id.
Qed.

Lemma nth_splice_in (A : Type) (l : list A) i x :
  (i <= List.length l)%nat -> nth_error (splice_in i x l) i = Some x.
Proof.
  intros H. unfold splice_in.
  rewrite nth_error_app2; rewrite length_firstn, Nat.min_l by lia; [|lia].
  now rewrite Nat.sub_diag.
Qed.

(** What [enterMark] does in the first pass. *)
Lemma enterMark_shape m u :
  (index u <= List.length (children (top u)))%nat ->
  exists p1 M1,
    stack (enterMark m u) = (p1, S (index u)) :: stack u
    /\ top (enterMark m u) = M1
    /\ index (enterMark m u) = 0%nat
    /\ same_head p1 (top u) /\ dirty p1 = dirty (top u)
    /\ firstn (index u) (children p1) = firstn (index u) (children (top u))
    /\ nth_error (children p1) (index u) = Some M1
    /\ matchesMark M1 m = true.
Proof.
  intros Hi. unfold enterMark.
  destruct (findFrom _ (children (top u)) (index u) 3) as [found|] eqn:Ef.
  - apply findFrom_Some in Ef. destruct Ef as [Hr (x & Hx & Hp)].
    set (u1 := if Nat.ltb (index u) found
               then destroyBetween (index u) found (with_changed true u) else u).
    assert (Hidx : index u1 = index u).
    { unfold u1. destruct (Nat.ltb _ _); [rewrite destroyBetween_index|]; reflexivity. }
    assert (Hst : stack u1 = stack u).
    { unfold u1. destruct (Nat.ltb _ _); [rewrite destroyBetween_stack|]; reflexivity. }
    assert (Hhd : same_head (top u1) (top u) /\ dirty (top u1) = dirty (top u)).
    { unfold u1. destruct (Nat.ltb _ _); [|unfold same_head; auto].
      pose proof (destroyBetween_info (index u) found (with_changed true u)) as E.
      unfold info in E. cbn [top with_changed] in E. inversion E. unfold same_head. auto. }
    assert (Hfn : firstn (index u) (children (top u1))
                  = firstn (index u) (children (top u))).
    { unfold u1. destruct (Nat.ltb_spec (index u) found); [|reflexivity].
      unfold destroyBetween. destruct (Nat.eqb_spec (index u) found); [lia|].
      cbn. now apply firstn_splice_out. }
    assert (Hn : nth_error (children (top u1)) (index u1) = Some x).
    { rewrite Hidx. unfold u1. destruct (Nat.ltb_spec (index u) found) as [Hlt|Hge].
      - unfold destroyBetween. destruct (Nat.eqb_spec (index u) found); [lia|].
        cbn. rewrite splice_out_nth by lia. exact Hx.
      - replace (index u) with found by lia. exact Hx. }
    rewrite Hn. exists (top u1), x. cbn. rewrite Hidx, Hst.
    rewrite Hidx in Hn. destruct Hhd. auto 10.
  - unfold MarkViewDesc_create. cbn. eexists. eexists.
    split; [reflexivity|]. split; [reflexivity|]. split; [reflexivity|].
    split; [split; reflexivity|]. split; [reflexivity|].
    split; [now apply firstn_splice_in|]. split; [now apply nth_splice_in|].
    unfold matchesMark. cbn. apply Mark_eq_refl.
Qed.

Lemma matchesMark_head a b m :
  kind a = kind b -> dirty b = NOT_DIRTY -> matchesMark a m = true ->
  matchesMark b m = true.
Proof.
  unfold matchesMark. intros Hk Hd. rewrite <- Hk, Hd.
  destruct (kind a); try discriminate. intros H. apply andb_prop in H.
  destruct H as [_ H]. rewrite H. reflexivity.
Qed.

Lemma sim_enterMark m u1 t2' st2' T :
  positions_ok u1 ->
  FocusAt (enterMark m u1) t2' st2' T ->
  exists t2 st2,
    FocusAt u1 t2 st2 T
    /\ enterMark m (secondPass pm off lk pos w t2 (index u1) st2)
       = secondPass pm off lk pos w t2' (index (enterMark m u1)) st2'.
Proof.
  intros [Hi Hf] HF.
  destruct (enterMark_shape m u1 Hi)
    as (p1 & M1 & Es & Et & Ei & (Hu1 & Hk1) & Hd1 & Hfn & Hn & Hm).
  destruct HF as ((Hu & Hk) & Hv & Hl). rewrite Es in Hl. rewrite Et in Hu, Hk.
  destruct st2' as [|[p2 i2] r2]; [contradiction|].
  cbn [linked] in Hl. destruct Hl as (-> & _ & Hn2 & Hd2 & (Hu2 & Hk2) & Hleft & Hl).
  replace (S (index u1) - 1)%nat with (index u1) in * by lia.
  exists p2, r2. split.
  - split; [split; congruence|]. split; [|exact Hl].
    rewrite Hleft, Hfn. reflexivity.
  - rewrite Ei. unfold enterMark, secondPass.
    cbn [top index stack children].
    unfold findFrom. rewrite (skipn_nth _ _ Hn2).
    rewrite findIn_head by (eapply matchesMark_head; eauto).
    rewrite Nat.ltb_irrefl. cbn [top index]. rewrite Hn2. reflexivity.
Qed.

Lemma length_replace_nth (A : Type) (l : list A) i x :
  (i < List.length l)%nat -> List.length (replace_nth i x l) = List.length l.
Proof.
  intros H. unfold replace_nth. rewrite length_app, length_firstn.
  cbn [List.length]. rewrite length_skipn. lia.
Qed.

Lemma leaveMark_positions u :
  positions_ok u -> positions_ok (leaveMark u).
Proof.
  intros [Hi Hf]. destruct (destroyRest_top u Hi) as (_ & _ & _ & _ & _ & Ds & Dx).
  unfold leaveMark. rewrite Ds.
  destruct (stack u) as [|[p i] r] eqn:Est.
  - split; [|rewrite Ds; exact I].
    rewrite Dx. destruct (destroyRest_top u Hi) as (Dc & _). rewrite Dc, length_firstn. lia.
  - cbn in Hf. destruct Hf as [[H1 H2] Hr]. split; [|exact Hr].
    cbn. rewrite length_replace_nth by lia. exact H2.
Qed.

Lemma enterMark_positions m u :
  positions_ok u -> positions_ok (enterMark m u).
Proof.
  intros [Hi Hf].
  destruct (enterMark_shape m u Hi) as (p1 & M1 & Es & Et & Ei & _ & _ & _ & Hn & _).
  split; [rewrite Ei; lia|]. rewrite Es. cbn. split; [|exact Hf].
  assert (index u < List.length (children p1))%nat by (apply nth_error_Some; congruence).
  lia.
Qed.

Lemma iter_leaveMark_positions n u :
  positions_ok u -> positions_ok (Nat.iter n leaveMark u).
Proof.
  intros H. induction n as [|n IH]; [exact H|].
  change (Nat.iter (S n) leaveMark u) with (leaveMark (Nat.iter n leaveMark u)).
  now apply leaveMark_positions.
Qed.

Lemma fold_enterMark_positions ms : forall u,
  positions_ok u -> positions_ok (fold_left (fun u m => enterMark m u) ms u).
Proof.
  induction ms as [|m ms IH]; intros u H; [exact H|].
  cbn [fold_left]. apply IH. now apply enterMark_positions.
Qed.

Lemma sim_iter_leaveMark n : forall u1 t2' st2' T,
  positions_ok u1 -> (n <= List.length (stack u1))%nat ->
  FocusAt (Nat.iter n leaveMark u1) t2' st2' T ->
  exists t2 st2,
    FocusAt u1 t2 st2 T
    /\ Nat.iter n leaveMark (secondPass pm off lk pos w t2 (index u1) st2)
       = secondPass pm off lk pos w t2' (index (Nat.iter n leaveMark u1)) st2'.
Proof.
  induction n as [|n IH]; intros u1 t2' st2' T Hp Hn HF.
  - exists t2', st2'. split; [exact HF | reflexivity].
  - change (Nat.iter (S n) leaveMark u1) with (leaveMark (Nat.iter n leaveMark u1)) in *.
    destruct (@iter_leaveMark_live n u1) as [_ Hlen]; [lia|].
    assert (Hne : stack (Nat.iter n leaveMark u1) <> []).
    { intros E. rewrite E in Hlen. cbn in Hlen. lia. }
    destruct (sim_leaveMark (iter_leaveMark_positions n Hp) Hne HF)
      as (ta & sa & Fa & Ea).
    destruct (IH u1 ta sa T Hp) as (t2 & st2 & F & E); [lia | exact Fa|].
    exists t2, st2. split; [exact F|].
    change (Nat.iter (S n) leaveMark ?x) with (leaveMark (Nat.iter n leaveMark x)).
    now rewrite E.
Qed.

Lemma sim_fold_enterMark ms : forall u1 t2' st2' T,
  positions_ok u1 ->
  FocusAt (fold_left (fun u m => enterMark m u) ms u1) t2' st2' T ->
  exists t2 st2,
    FocusAt u1 t2 st2 T
    /\ fold_left (fun u m => enterMark m u) ms
                 (secondPass pm off lk pos w t2 (index u1) st2)
       = secondPass pm off lk pos w t2'
                    (index (fold_left (fun u m => enterMark m u) ms u1)) st2'.
Proof.
  induction ms as [|m ms IH]; intros u1 t2' st2' T Hp HF.
  - exists t2', st2'. split; [exact HF | reflexivity].
  - cbn [fold_left] in *.
    destruct (IH (enterMark m u1) t2' st2' T (enterMark_positions m Hp) HF)
      as (ta & sa & Fa & Ea).
    destruct (sim_enterMark m Hp Fa) as (t2 & st2 & F & E).
    exists t2, st2. split; [exact F|]. now rewrite E.
Qed.

Lemma linked_length st1 : forall st2 t2 T,
  linked st1 st2 t2 T -> List.length st2 = List.length st1.
Proof.
  induction st1 as [|[p1 i1] r1 IH]; intros [|[p2 i2] r2] t2 T H;
    try contradiction; [reflexivity|].
  cbn in H. destruct H as (_ & _ & _ & _ & _ & _ & H). cbn. f_equal. eauto.
Qed.

Lemma linked_live st1 : forall st2 t1 t2 T,
  linked st1 st2 t2 T -> kind t1 = kind t2 ->
  Forall2 (fun a b => kind a = kind b /\ dirty b = NOT_DIRTY)
          (liveMarks_of st1 t1) (liveMarks_of st2 t2).
Proof.
  induction st1 as [|[p1 i1] r1 IH]; intros [|[p2 i2] r2] t1 t2 T H Hk;
    try contradiction; [constructor|].
  cbn in H. destruct H as (_ & _ & _ & Hd & (_ & Hkp) & _ & H). cbn.
  apply Forall2_app; [eapply IH; eauto|]. constructor; [auto | constructor].
Qed.

Lemma countKeep_live l1 : forall l2 marks,
  Forall2 (fun a b => kind a = kind b /\ dirty b = NOT_DIRTY) l1 l2 ->
  Forall (fun d => dirty d <> NODE_DIRTY) l1 ->
  countKeep l2 marks = countKeep l1 marks.
Proof.
  induction l1 as [|a l1 IH]; intros l2 marks H2 H1; inversion H2; subst; [reflexivity|].
  inversion H1; subst. destruct marks as [|m marks]; [reflexivity|]. cbn.
  destruct H3 as [Hk Hd].
  assert (E : matchesMark y m = matchesMark a m).
  { unfold matchesMark. rewrite <- Hk, Hd. destruct (kind a); try reflexivity.
    destruct (Z.eqb_spec (dirty a) NODE_DIRTY); [contradiction | reflexivity]. }
  rewrite E. destruct (_ && _); [|reflexivity]. f_equal. now apply IH.
Qed.

Lemma sim_syncToMarks marks u1 t2' st2' T :
  positions_ok u1 ->
  Forall (fun d => dirty d <> NODE_DIRTY) (liveMarks u1) ->
  FocusAt (syncToMarks marks u1) t2' st2' T ->
  exists t2 st2,
    FocusAt u1 t2 st2 T
    /\ syncToMarks marks (secondPass pm off lk pos w t2 (index u1) st2)
       = secondPass pm off lk pos w t2' (index (syncToMarks marks u1)) st2'.
Proof.
  intros Hp Hd HF. unfold syncToMarks in *.
  set (keep := countKeep (liveMarks u1) marks) in *.
  set (n := (List.length (stack u1) - keep)%nat) in *.
  destruct (@sim_fold_enterMark (skipn keep marks) (Nat.iter n leaveMark u1)
              t2' st2' T (iter_leaveMark_positions n Hp) HF)
    as (ta & sa & Fa & Ea).
  destruct (@sim_iter_leaveMark n u1 ta sa T Hp) as (t2 & st2 & F & E);
    [unfold n; lia | exact Fa |].
  exists t2, st2. split; [exact F|].
  destruct F as ((_ & Hk) & _ & Hl).
  assert (Ek : countKeep (liveMarks (secondPass pm off lk pos w t2 (index u1) st2)) marks
               = keep).
  { unfold liveMarks. cbn [stack top secondPass]. apply countKeep_live; [|exact Hd].
    eapply linked_live; eauto. }
  rewrite Ek. cbn [stack secondPass]. rewrite (linked_length _ _ _ _ Hl).
  fold n. rewrite E. exact Ea.
Qed.

Lemma matchesNode_strip d n o i : matchesNode (strip d) n o i = matchesNode d n o i.
Proof. destruct d; reflexivity. Qed.
Lemma matchesWidget_strip d x : matchesWidget (strip d) x = matchesWidget d x.
Proof. destruct d; reflexivity. Qed.
Lemma matchesHack_strip d : matchesHack (strip d) = matchesHack d.
Proof. destruct d; reflexivity. Qed.
Lemma desc_widget_strip d : desc_widget (strip d) = desc_widget d.
Proof. destruct d; reflexivity. Qed.

Lemma sim_advance u1 u1' d1 t2 st2 T :
  positions_ok u1 -> Advanced u1 u1' d1 ->
  FocusAt u1' t2 st2 T ->
  FocusAt u1 t2 st2 T
  /\ exists d2, nth_error (children t2) (index u1) = Some d2 /\ strip d2 = strip d1.
Proof.
  intros [Hi _] (Es & Ei & (Hu & Hk) & Hv) ((Hu' & Hk') & Hv' & Hl).
  rewrite Ei, Hv, map_app in Hv'. cbn [map] in Hv'.
  apply map_firstn_snoc in Hv'; [|rewrite length_map, length_firstn; lia].
  destruct Hv' as (d2 & Hn & Hs & Hleft). rewrite Es in Hl. split.
  - split; [split; congruence|]. split; [exact Hleft | exact Hl].
  - exists d2. auto.
Qed.

Lemma indexOf_uid d l : forall i,
  indexOf d l = Some i -> exists x, nth_error l i = Some x /\ uid x = uid d.
Proof.
  induction l as [|y r IH]; intros i H; [discriminate|]. cbn in H.
  destruct (Nat.eqb_spec (uid y) (uid d)) as [E|E].
  - inversion H; subst. exists y. auto.
  - destruct (indexOf d r) as [j|] eqn:Ej; [|discriminate]. inversion H; subst.
    destruct (IH j eq_refl) as (x & Hx & Hu). exists x. auto.
Qed.

Lemma second_findNodeMatch t2 idx st2 d2 node outerDeco innerDeco i :
  nth_error (children t2) idx = Some d2 ->
  matchesNode d2 node outerDeco innerDeco = true ->
  prematchAgrees pm off (children t2) idx d2 node outerDeco innerDeco i ->
  findNodeMatch node outerDeco innerDeco i (secondPass pm off lk pos w t2 idx st2)
  = Some (secondPass pm off lk pos w t2 (S idx) st2).
Proof.
  intros Hn Hm Hp. unfold findNodeMatch, prematchAgrees, getPreMatch in *.
  cbn [secondPass top index preMatched preMatchOffset children] in *.
  assert (Hscan : indexOf d2 pm = None ->
            findFrom (fun c => matchesNode c node outerDeco innerDeco
                               && negb (isSome (indexOf c pm)))
                     (children t2) idx 5 = Some idx).
  { intros E. unfold findFrom. rewrite (skipn_nth _ _ Hn).
    apply findIn_head. now rewrite Hm, E. }
  assert (Hfound :
    match (if Z.ltb i 0 then None
           else if Z.geb i (Z.of_nat off)
                then nth_error pm (Z.to_nat (i - Z.of_nat off)) else None) with
    | Some p => if matchesNode p node outerDeco innerDeco
                then indexOf p (children t2)
                else findFrom (fun c => matchesNode c node outerDeco innerDeco
                                        && negb (isSome (indexOf c pm)))
                              (children t2) idx 5
    | None => findFrom (fun c => matchesNode c node outerDeco innerDeco
                                 && negb (isSome (indexOf c pm)))
                       (children t2) idx 5
    end = Some idx).
  { destruct (if Z.ltb i 0 then None else _) as [p|].
    - destruct (matchesNode p node outerDeco innerDeco); auto.
    - auto. }
  rewrite Hfound. unfold destroyBetween. cbn [index]. rewrite Nat.eqb_refl.
  reflexivity.
Qed.

Lemma neverHasParent_strip d : neverHasParent (strip d) = neverHasParent d.
Proof. destruct d; reflexivity. Qed.

Lemma neverHasParent_sound d : neverHasParent d = true -> toDOM_hasParent d = false.
Proof.
  unfold neverHasParent, toDOM_hasParent. destruct (kind d); try reflexivity.
  destruct (deco_type widget) as [k s m [| |]| |]; try reflexivity; discriminate.
Qed.

Lemma widgetKept_strip d1 d2 x : strip d2 = strip d1 -> widgetKept d1 x -> widgetKept d2 x.
Proof.
  intros E [Hm Hk]. unfold widgetKept.
  rewrite <- (matchesWidget_strip d2), <- (desc_widget_strip d2),
    <- (neverHasParent_strip d2), E,
    matchesWidget_strip, desc_widget_strip, neverHasParent_strip. auto.
Qed.

Lemma second_placeWidget t2 idx st2 d2 widget :
  nth_error (children t2) idx = Some d2 ->
  widgetKept d2 widget ->
  placeWidget widget (secondPass pm off lk pos w t2 idx st2)
  = ret (secondPass pm off lk pos w t2 (S idx) st2).
Proof.
  intros Hn [Hm Hk]. unfold placeWidget. cbn [secondPass top index children].
  rewrite Hn, Hm. cbn [andb].
  assert (E : match desc_widget d2 with
              | Some nw => Decoration_same widget nw
              | None => false
              end || negb (toDOM_hasParent d2) = true).
  { destruct Hk as [Hk | Hk].
    - destruct (desc_widget d2); [now rewrite Hk | contradiction].
    - rewrite (neverHasParent_sound _ Hk). apply orb_true_r. }
  rewrite E. reflexivity.
Qed.

Lemma second_hack t2 idx st2 d2 :
  nth_error (children t2) idx = Some d2 ->
  matchesHack d2 = true ->
  needsHack (secondPass pm off lk pos w t2 idx st2) = true ->
  addTextblockHacks (secondPass pm off lk pos w t2 idx st2)
  = secondPass pm off lk pos w t2 (S idx) st2.
Proof.
  intros Hn Hm Hh. unfold addTextblockHacks. rewrite Hh.
  cbn [secondPass top index children]. rewrite Hn, Hm. reflexivity.
Qed.

Lemma second_destroyRest t2 idx st2 :
  List.length (children t2) = idx ->
  destroyRest (secondPass pm off lk pos w t2 idx st2)
  = secondPass pm off lk pos w t2 idx st2.
Proof.
  intros H. unfold destroyRest, destroyBetween. cbn [secondPass top index children].
  now rewrite H, Nat.eqb_refl.
Qed.

End SecondPass.

(** ** The equalities of the document model are reflexive *)

Lemma sameSet_refl l : sameSet l l = true.
Proof. induction l; cbn; [reflexivity|]. now rewrite Mark_eq_refl. Qed.

Lemma NodeType_eqb_refl t : NodeType_eqb t t = true.
Proof. unfold NodeType_eqb. now rewrite String.eqb_refl, !Bool.eqb_reflx. Qed.

Lemma sameMarkup_refl n : sameMarkup n n = true.
Proof.
  destruct n; cbn; rewrite ?NodeType_eqb_refl, ?Z.eqb_refl, ?sameSet_refl; reflexivity.
Qed.

Lemma Node_eq_refl n : Node_eq n n = true.
Proof.
  induction n as [i m t | i t a m | i t a m c IH] using PNode_tree_ind; cbn.
  - now rewrite sameSet_refl, String.eqb_refl.
  - now rewrite NodeType_eqb_refl, Z.eqb_refl, sameSet_refl.
  - rewrite NodeType_eqb_refl, Z.eqb_refl, sameSet_refl. cbn.
    induction IH as [|x r Hx _ IHr]; [reflexivity|]. now rewrite Hx, IHr.
Qed.

Lemma ToDOM_eqb_refl t : ToDOM_eqb t t = true.
Proof. destruct t; cbn; auto using Nat.eqb_refl. Qed.

Lemma DecoType_eq_refl t : DecoType_eq t t = true.
Proof.
  destruct t as [k s m d| |]; cbn; rewrite ?Z.eqb_refl; try reflexivity.
  rewrite Nat.eqb_refl, ToDOM_eqb_refl.
  destruct m; cbn; rewrite ?sameSet_refl; reflexivity.
Qed.

Lemma Decoration_same_refl d : Decoration_same d d = true.
Proof.
  unfold Decoration_same. now rewrite Nat.eqb_refl, !Z.eqb_refl, DecoType_eq_refl.
Qed.

Lemma sameOuterDeco_refl l : sameOuterDeco l l = true.
Proof. induction l; cbn; [reflexivity|]. now rewrite DecoType_eq_refl. Qed.

Lemma decos_eq_refl l : decos_eq l l = true.
Proof.
  induction l; cbn; [reflexivity|]. now rewrite !Z.eqb_refl, DecoType_eq_refl.
Qed.

Lemma DecorationSet_eq_refl s : DecorationSet_eq s s = true.
Proof.
  induction s as [l sub IH] using DecorationSet_tree_ind. cbn.
  rewrite decos_eq_refl. cbn.
  induction IH as [|[k c] r Hx _ IHr]; [reflexivity|].
  cbn in Hx. now rewrite Z.eqb_refl, Hx, IHr.
Qed.

Lemma matchesNode_unfold d n o i :
  matchesNode d n o i
  = match desc_node d with
    | Some n' => Z.eqb (dirty d) NOT_DIRTY && Node_eq n n'
                 && sameOuterDeco o (desc_outerDeco d)
                 && DecorationSet_eq i (desc_innerDeco d)
    | None => false
    end.
Proof.
  unfold matchesNode, desc_node, desc_outerDeco, desc_innerDeco.
  destruct (kind d); reflexivity.
Qed.

Lemma matchesNode_intro d n o i :
  dirty d = NOT_DIRTY -> desc_node d = Some n ->
  sameOuterDeco o (desc_outerDeco d) = true ->
  DecorationSet_eq i (desc_innerDeco d) = true ->
  matchesNode d n o i = true.
Proof.
  intros Hd Hn Ho Hi. rewrite matchesNode_unfold, Hn, Hd, Ho, Hi, Node_eq_refl.
  reflexivity.
Qed.

(** ** Counting stamps *)

Lemma cnt_app x a b : cnt x (a ++ b) = (cnt x a + cnt x b)%nat.
Proof. apply count_occ_app. Qed.

Lemma cnt_nil x : cnt x [] = 0%nat.
Proof. reflexivity. Qed.

Lemma cnt_cons x y l :
  cnt x (y :: l) = ((if Nat.eqb y x then 1 else 0) + cnt x l)%nat.
Proof.
  unfold cnt. cbn. destruct (Nat.eq_dec y x) as [E|E].
  - subst. now rewrite Nat.eqb_refl.
  - apply Nat.eqb_neq in E. now rewrite E.
Qed.

Lemma cnt_In x l : In x l <-> (1 <= cnt x l)%nat.
Proof. unfold cnt. rewrite (count_occ_In Nat.eq_dec). lia. Qed.

Lemma cnt_notIn x l : ~ In x l <-> cnt x l = 0%nat.
Proof. unfold cnt. apply count_occ_not_In. Qed.

Lemma NoDup_cnt l : NoDup l <-> forall x, (cnt x l <= 1)%nat.
Proof. apply NoDup_count_occ. Qed.

Lemma uidsOf_app a b : uidsOf (a ++ b) = uidsOf a ++ uidsOf b.
Proof. apply flat_map_app. Qed.

Lemma uidsOf_cons d l : uidsOf (d :: l) = deepUids d ++ uidsOf l.
Proof. reflexivity. Qed.

Lemma deepUids_unfold d :
  deepUids d = uid d :: (if isMarkViewDesc d then uidsOf (children d) else []).
Proof.
  destruct d as [u k dd cs f]. unfold isMarkViewDesc. cbn.
  destruct k; reflexivity.
Qed.

Lemma deepUids_leaf d : isMarkViewDesc d = false -> deepUids d = [uid d].
Proof. intros H. now rewrite deepUids_unfold, H. Qed.

Lemma cnt_uidsOf_map x l : (cnt x (map uid l) <= cnt x (uidsOf l))%nat.
Proof.
  induction l as [|d r IH]; [cbn; lia|].
  cbn [map]. rewrite uidsOf_cons, cnt_app, cnt_cons, deepUids_unfold, cnt_cons. lia.
Qed.

Lemma In_uidsOf d l : In d l -> In (uid d) (uidsOf l).
Proof.
  intros H. apply cnt_In. pose proof (cnt_uidsOf_map (uid d) l).
  assert (In (uid d) (map uid l)) by now apply in_map.
  apply cnt_In in H1. lia.
Qed.

Lemma cnt_firstn_skipn x (l : list ViewDesc) i :
  cnt x (uidsOf l) = (cnt x (uidsOf (firstn i l)) + cnt x (uidsOf (skipn i l)))%nat.
Proof. now rewrite <- cnt_app, <- uidsOf_app, firstn_skipn. Qed.

(** Two descriptors of a list without repeated stamps that carry the same
    stamp are one descriptor. *)
Lemma uniq_same (l : list ViewDesc) a b :
  (forall x, (cnt x (map uid l) <= 1)%nat) ->
  In a l -> In b l -> uid a = uid b -> a = b.
Proof.
  induction l as [|y r IH]; intros U Ha Hb E; [contradiction|].
  assert (Ur : forall x, (cnt x (map uid r) <= 1)%nat).
  { intros x. specialize (U x). cbn [map] in U. rewrite cnt_cons in U. lia. }
  assert (Hy : forall z, In z r -> uid z = uid y -> False).
  { intros z Hz Ez. specialize (U (uid y)). cbn [map] in U.
    rewrite cnt_cons, Nat.eqb_refl in U.
    assert (In (uid y) (map uid r)) by (rewrite <- Ez; now apply in_map).
    apply cnt_In in H. lia. }
  destruct Ha as [<-|Ha], Hb as [<-|Hb]; auto; exfalso; eapply Hy; eauto.
Qed.

Lemma uniq_nth (l : list ViewDesc) i j a b :
  (forall x, (cnt x (map uid l) <= 1)%nat) ->
  nth_error l i = Some a -> nth_error l j = Some b -> uid a = uid b -> i = j.
Proof.
  revert i j. induction l as [|y r IH]; intros i j U Ha Hb E; [destruct i; discriminate|].
  assert (Ur : forall x, (cnt x (map uid r) <= 1)%nat).
  { intros x. specialize (U x). cbn [map] in U. rewrite cnt_cons in U. lia. }
  assert (Hy : forall z, In z r -> uid z = uid y -> False).
  { intros z Hz Ez. specialize (U (uid y)). cbn [map] in U.
    rewrite cnt_cons, Nat.eqb_refl in U.
    assert (In (uid y) (map uid r)) by (rewrite <- Ez; now apply in_map).
    apply cnt_In in H. lia. }
  destruct i as [|i], j as [|j]; cbn in Ha, Hb; auto.
  - injection Ha as <-. exfalso. apply (Hy b); [eapply nth_error_In; eauto|auto].
  - injection Hb as <-. exfalso. apply (Hy a); [eapply nth_error_In; eauto|auto].
Qed.

Lemma indexOf_None d l : indexOf d l = None <-> ~ In (uid d) (map uid l).
Proof.
  induction l as [|y r IH]; cbn; [tauto|].
  destruct (Nat.eqb_spec (uid y) (uid d)) as [E|E].
  - split; [discriminate|]. intros H. exfalso. apply H. now left.
  - destruct (indexOf d r); cbn.
    + split; [discriminate|]. intros H. exfalso. destruct IH as [_ IH].
      assert (Some n = None -> False) by discriminate. apply H0. apply IH. tauto.
    + split; [|reflexivity]. intros _ [H|H]; [congruence|]. destruct IH as [IH _].
      now apply IH.
Qed.

Lemma indexOf_first d l i x :
  (forall y, (cnt y (map uid l) <= 1)%nat) ->
  nth_error l i = Some x -> uid x = uid d -> indexOf d l = Some i.
Proof.
  intros U Hx E. destruct (indexOf d l) as [j|] eqn:Ej.
  - destruct (indexOf_uid _ _ Ej) as (y & Hy & Ey).
    f_equal. eapply uniq_nth; eauto. congruence.
  - apply indexOf_None in Ej. exfalso. apply Ej. rewrite <- E.
    apply in_map. eapply nth_error_In; eauto.
Qed.

Lemma frameUids_info st : forall t t', uid t = uid t' -> frameUids st t = frameUids st t'.
Proof. destruct st as [|[p i] r]; intros t t' E; cbn; [reflexivity|now rewrite E]. Qed.

Lemma rootInfo_of_info st : forall t t', info t = info t' -> rootInfo_of st t = rootInfo_of st t'.
Proof. destruct st as [|[p i] r]; intros t t' E; cbn; auto. Qed.

Lemma info_eq a b : info a = info b <-> uid a = uid b /\ kind a = kind b /\ dirty a = dirty b.
Proof.
  unfold info. split.
  - intros H. injection H as -> -> ->. auto.
  - intros (-> & -> & ->). reflexivity.
Qed.

Lemma isMark_info a b : info a = info b -> isMarkViewDesc a = isMarkViewDesc b.
Proof. intros H. apply info_eq in H. unfold isMarkViewDesc. destruct H as (_ & -> & _). reflexivity. Qed.

(** ** Descriptors without their host facts *)

Lemma strip_rendered d : forall p i, strip (rendered p i d) = strip d.
Proof.
  induction d as [u k dd cs df IH] using ViewDesc_tree_ind. intros p i.
  cbn [rendered strip uid kind dirty children domf]. f_equal.
  destruct k; try reflexivity. destruct (contentDOM df) as [c|]; [|reflexivity].
  generalize 0 at 1. induction IH as [|x r Hx Hr IHr]; intros j; [reflexivity|].
  cbn [map]. rewrite Hx. f_equal. apply IHr.
Qed.

Lemma strip_renderDescs l : forall p i, map strip (renderDescs p i l) = map strip l.
Proof.
  induction l as [|x r IH]; intros p i; [reflexivity|]. cbn. now rewrite strip_rendered, IH.
Qed.

Lemma deepUids_strip d : deepUids (strip d) = deepUids d.
Proof.
  induction d as [u k dd cs df IH] using ViewDesc_tree_ind.
  rewrite (deepUids_unfold (strip _)), (deepUids_unfold (mkDesc _ _ _ _ _)).
  cbn [strip uid kind dirty children domf]. f_equal.
  unfold isMarkViewDesc. cbn [kind]. destruct k; try reflexivity.
  unfold uidsOf. induction IH as [|x r Hx Hr IHr]; [reflexivity|].
  cbn. now rewrite Hx, IHr.
Qed.

Lemma uidsOf_strip l : uidsOf (map strip l) = uidsOf l.
Proof.
  induction l as [|x r IH]; [reflexivity|]. cbn [map]. rewrite !uidsOf_cons.
  now rewrite deepUids_strip, IH.
Qed.

Lemma uidsOf_strip_eq a b : map strip a = map strip b -> uidsOf a = uidsOf b.
Proof. intros H. rewrite <- (uidsOf_strip a), <- (uidsOf_strip b). now rewrite H. Qed.

Lemma throughMarks_unfold d :
  throughMarks d
  = match kind d with
    | KMark _ => match last (map Some (children d)) None with
                 | Some x => throughMarks x
                 | None => None
                 end
    | _ => Some d
    end.
Proof.
  destruct d as [u k dd cs df]. cbn [throughMarks kind children].
  destruct k; try reflexivity.
  induction cs as [|x r IH]; [reflexivity|]. destruct r as [|y r']; [reflexivity|].
  cbn [map last] in *. exact IH.
Qed.

Lemma last_map_strip (l : list ViewDesc) :
  last (map Some (map strip l)) None = option_map strip (last (map Some l) None).
Proof.
  induction l as [|x r IH]; [reflexivity|]. destruct r as [|y r']; [reflexivity|].
  cbn [map last] in *. exact IH.
Qed.

Lemma last_In (l : list ViewDesc) x : last (map Some l) None = Some x -> In x l.
Proof.
  induction l as [|y r IH]; [discriminate|]. destruct r as [|z r'].
  - cbn. intros H. injection H as ->. now left.
  - intros H. right. apply IH. exact H.
Qed.

Lemma throughMarks_strip d : throughMarks (strip d) = option_map strip (throughMarks d).
Proof.
  induction d as [u k dd cs df IH] using ViewDesc_tree_ind.
  rewrite (throughMarks_unfold (strip _)), (throughMarks_unfold (mkDesc _ _ _ _ _)).
  cbn [strip uid kind dirty children domf]. destruct k; try reflexivity.
  rewrite last_map_strip. destruct (last (map Some cs) None) as [x|] eqn:El; [|reflexivity].
  cbn. rewrite Forall_forall in IH. apply IH. now apply last_In.
Qed.

Lemma nth_error_firstn_lt (A : Type) (l : list A) : forall n i,
  (i < n)%nat -> nth_error (firstn n l) i = nth_error l i.
Proof.
  induction l as [|x r IH]; intros [|n] [|i] H; try lia; try reflexivity.
  cbn. apply IH. lia.
Qed.

(** Whether a hack is needed is read off the kinds of the descriptors. *)
Lemma needsHack_strip u1 u2 :
  index u2 = index u1 ->
  map strip (firstn (index u1) (children (top u2)))
  = map strip (firstn (index u1) (children (top u1))) ->
  needsHack u2 = needsHack u1.
Proof.
  intros Hi Hs. unfold needsHack, hackLastChild. rewrite Hi.
  destruct (index u1) as [|i]; [reflexivity|].
  assert (E : option_map strip (nth_error (children (top u2)) i)
              = option_map strip (nth_error (children (top u1)) i)).
  { rewrite <- !nth_error_map.
    rewrite <- (@nth_error_firstn_lt _ (map strip (children (top u2))) (S i) i) by lia.
    rewrite <- (@nth_error_firstn_lt _ (map strip (children (top u1))) (S i) i) by lia.
    now rewrite !firstn_map, Hs. }
  assert (G : forall a b : ViewDesc,
             strip a = strip b ->
             match throughMarks a with
             | Some c => match kind c with
                         | KText n _ _ => endsWithNewline (node_text n)
                         | _ => true
                         end
             | None => true
             end
             = match throughMarks b with
               | Some c => match kind c with
                           | KText n _ _ => endsWithNewline (node_text n)
                           | _ => true
                           end
               | None => true
               end).
  { intros a b Hab.
    assert (E2 : option_map strip (throughMarks a) = option_map strip (throughMarks b)).
    { rewrite <- !throughMarks_strip. now rewrite Hab. }
    destruct (throughMarks a) as [x|], (throughMarks b) as [y|]; try discriminate; auto.
    cbn in E2. injection E2 as E2. apply strip_eq_head in E2.
    destruct E2 as (_ & -> & _). reflexivity. }
  destruct (nth_error (children (top u2)) i) as [a|],
    (nth_error (children (top u1)) i) as [b|]; try discriminate; auto.
  cbn in E. injection E as E. now apply G.
Qed.

Lemma Forall2_rev (A B : Type) (R : A -> B -> Prop) (l : list A) (m : list B) :
  Forall2 R l m -> Forall2 R (rev l) (rev m).
Proof.
  induction 1 as [|a b l m Hab H IH]; [constructor|]. cbn.
  apply Forall2_app; [exact IH|]. constructor; [exact Hab|constructor].
Qed.

Lemma isNode_holds p : isNodeViewDesc p = true -> exists n, desc_node p = Some n.
Proof. unfold isNodeViewDesc. destruct (desc_node p) as [n|]; [eauto|discriminate]. Qed.

Lemma preMatch_loop_spec rdescs : forall rfrag acc,
  exists rd1 rd2,
    rdescs = rd1 ++ rd2
    /\ fst (preMatch_loop rfrag rdescs acc) = rev (filter isNodeViewDesc rd1) ++ acc
    /\ snd (preMatch_loop rfrag rdescs acc)
       = (List.length rfrag - List.length (filter isNodeViewDesc rd1))%nat
    /\ Forall2 holdsNode (filter isNodeViewDesc rd1)
               (firstn (List.length (filter isNodeViewDesc rd1)) rfrag).
Proof.
  induction rdescs as [|d rd IH]; intros rfrag acc.
  - exists [], []. destruct rfrag; cbn; repeat split; auto; constructor.
  - destruct rfrag as [|n rf].
    + exists [], (d :: rd). cbn. repeat split; auto; constructor.
    + cbn [preMatch_loop]. destruct (desc_node d) as [node|] eqn:En.
      * destruct (PNode_same node n) eqn:Es.
        -- destruct (IH rf (d :: acc)) as (rd1 & rd2 & -> & E1 & E2 & E3).
           exists (d :: rd1), rd2. cbn [filter].
           assert (Hn : isNodeViewDesc d = true) by (unfold isNodeViewDesc; now rewrite En).
           rewrite Hn. cbn [rev List.length firstn]. rewrite E1, E2, <- app_assoc.
           split; [reflexivity|]. split; [reflexivity|]. split; [reflexivity|].
           constructor; [exists node; auto|exact E3].
        -- exists [], (d :: rd). cbn. repeat split; auto; constructor.
      * destruct (IH (n :: rf) acc) as (rd1 & rd2 & -> & E1 & E2 & E3).
        exists (d :: rd1), rd2. cbn [filter].
        assert (Hn : isNodeViewDesc d = false) by (unfold isNodeViewDesc; now rewrite En).
        rewrite Hn. auto.
Qed.

(** The pre-match holds the node descriptors of the last children, each for
    the node object at its place in the fragment. *)
Lemma preMatch_spec frag descs :
  exists R0 S,
    descs = R0 ++ S
    /\ fst (preMatch frag descs) = filter isNodeViewDesc S
    /\ (snd (preMatch frag descs) + List.length (fst (preMatch frag descs))
        = List.length frag)%nat
    /\ Forall2 holdsNode (fst (preMatch frag descs))
               (skipn (snd (preMatch frag descs)) frag).
Proof.
  unfold preMatch.
  destruct (preMatch_loop_spec (rev descs) (rev frag) []) as (rd1 & rd2 & E0 & E1 & E2 & E3).
  exists (rev rd2), (rev rd1).
  assert (Hd : descs = rev rd2 ++ rev rd1).
  { rewrite <- rev_app_distr, <- E0. now rewrite rev_involutive. }
  rewrite app_nil_r in E1. rewrite E1, E2, filter_rev, !length_rev.
  assert (Hlen : (List.length (filter isNodeViewDesc rd1) <= List.length frag)%nat).
  { apply Forall2_length in E3. rewrite length_firstn, length_rev in E3. lia. }
  split; [exact Hd|]. split; [reflexivity|]. split; [lia|].
  apply Forall2_rev in E3. rewrite firstn_rev, rev_involutive in E3. exact E3.
Qed.


Lemma distinct_cnt l : distinct l = true -> forall y, (cnt y l <= 1)%nat.
Proof.
  induction l as [|x r IH]; intros H y; [cbn; lia|]. cbn in H.
  apply andb_prop in H. destruct H as [H1 H2]. rewrite cnt_cons. specialize (IH H2 y).
  destruct (Nat.eqb_spec x y) as [E|E]; [|lia]. subst.
  apply negb_true_iff in H1.
  assert (cnt y r = 0%nat); [|lia]. apply cnt_notIn. intros Hin.
  assert (existsb (Nat.eqb y) r = true); [|congruence].
  apply existsb_exists. exists y. split; [exact Hin|apply Nat.eqb_refl].
Qed.

Lemma wellFormed_spec d w :
  wellFormed d w = true ->
  (forall y, (cnt y (uidsOf (children d)) <= if Nat.ltb y (fresh w) then 1 else 0)%nat)
  /\ Forall (fun x => oldOK x = true) (children d).
Proof.
  unfold wellFormed. intros H. apply andb_prop in H. destruct H as [H H3].
  apply andb_prop in H. destruct H as [H1 H2]. split.
  - intros y. pose proof (distinct_cnt _ H1 y) as Hc.
    destruct (Nat.ltb y (fresh w)) eqn:El; [exact Hc|].
    assert (cnt y (uidsOf (children d)) = 0%nat); [|lia]. apply cnt_notIn. intros Hin.
    rewrite forallb_forall in H2. rewrite (H2 y Hin) in El. discriminate.
  - apply Forall_forall. now apply forallb_forall.
Qed.

Lemma cnt_filter_le y (f : ViewDesc -> bool) l :
  (cnt y (map uid (filter f l)) <= cnt y (map uid l))%nat.
Proof.
  induction l as [|x r IH]; [cbn; lia|]. cbn [filter map].
  destruct (f x); cbn [map]; rewrite ?cnt_cons; lia.
Qed.


(** ** What the first pass does *)

Section FirstPass.
Variable view : View.
Variable rec : ViewDesc -> Z -> World -> M (ViewDesc * World).
(** The update of the children of a descriptor keeps the descriptor's
    identity, class and dirty level, and only ever allocates. *)
Hypothesis rec_ok : forall d pos w d' w',
  rec d pos w = Some (Ok (d', w')) ->
  uid d' = uid d /\ kind d' = kind d /\ dirty d' = dirty d
  /\ (fresh w <= fresh w')%nat.

Lemma updateOuterDeco_spec od d w :
  let r := updateOuterDeco view od d w in
  uid (fst r) = uid d /\ dirty (fst r) = dirty d
  /\ desc_node (fst r) = desc_node d
  /\ desc_innerDeco (fst r) = desc_innerDeco d
  /\ (isNodeViewDesc d = true -> sameOuterDeco od (desc_outerDeco (fst r)) = true)
  /\ fresh (snd r) = fresh w
  /\ nodeValue (domf (fst r)) = nodeValue (domf d)
  /\ contentDOM (domf (fst r)) = contentDOM (domf d).
Proof.
  unfold updateOuterDeco.
  destruct (sameOuterDeco od (desc_outerDeco d)) eqn:E; cbn [fst snd].
  - repeat split; auto.
  - destruct d as [u k dd cs df]. unfold isNodeViewDesc, desc_node, desc_outerDeco,
      desc_innerDeco. cbn.
    destruct k; cbn; repeat split; auto; try discriminate;
      intros _; apply sameOuterDeco_refl.
Qed.

Lemma set_node_spec n d :
  isNodeViewDesc d = true ->
  desc_node (set_node n d) = Some n
  /\ desc_outerDeco (set_node n d) = desc_outerDeco d
  /\ desc_innerDeco (set_node n d) = desc_innerDeco d.
Proof.
  destruct d as [u k dd cs df]. unfold isNodeViewDesc, desc_node, desc_outerDeco,
    desc_innerDeco, set_node. cbn. destruct k; try discriminate; auto.
Qed.

Lemma set_innerDeco_spec i d :
  isNodeViewDesc d = true ->
  desc_node (set_innerDeco i d) = desc_node d
  /\ desc_outerDeco (set_innerDeco i d) = desc_outerDeco d
  /\ desc_innerDeco (set_innerDeco i d) = i.
Proof.
  destruct d as [u k dd cs df]. unfold isNodeViewDesc, desc_node, desc_outerDeco,
    desc_innerDeco, set_innerDeco. cbn. destruct k; try discriminate; auto.
Qed.

Lemma desc_fields_kind a b :
  kind a = kind b ->
  desc_node a = desc_node b /\ desc_outerDeco a = desc_outerDeco b
  /\ desc_innerDeco a = desc_innerDeco b /\ isNodeViewDesc a = isNodeViewDesc b.
Proof.
  unfold isNodeViewDesc, desc_node, desc_outerDeco, desc_innerDeco.
  intros ->. auto.
Qed.

Lemma updateInner_spec node od idc pos d w d' w' :
  isNodeViewDesc d = true ->
  updateInner view rec node od idc pos d w = Some (Ok (d', w')) ->
  updatedTo d d' node od /\ desc_innerDeco d' = idc /\ (fresh w <= fresh w')%nat.
Proof.
  intros Hn. unfold updateInner.
  pose proof (updateOuterDeco_spec od d w) as S1.
  destruct (updateOuterDeco view od d w) as [d1 w1]. cbn [fst snd] in S1.
  destruct S1 as (U1 & D1 & N1 & I1 & O1 & F1 & _).
  assert (Hn1 : isNodeViewDesc d1 = true).
  { unfold isNodeViewDesc in *. now rewrite N1. }
  destruct (set_node_spec node d1 Hn1) as (N2 & O2 & I2).
  assert (Hn2 : isNodeViewDesc (set_node node d1) = true).
  { unfold isNodeViewDesc. now rewrite N2. }
  destruct (set_innerDeco_spec idc (set_node node d1) Hn2) as (N3 & O3 & I3).
  set (d2 := set_innerDeco idc (set_node node d1)) in *.
  assert (U2 : uid d2 = uid d) by (rewrite <- U1; reflexivity).
  unfold bind.
  destruct (contentDOM (domf d2)).
  - destruct (rec d2 pos w1) as [[[d3 w3]|e]|] eqn:Er; try discriminate.
    intros H. injection H as <- <-. apply rec_ok in Er.
    destruct Er as (U3 & K3 & D3 & F3).
    destruct (desc_fields_kind _ _ K3) as (N4 & O4 & I4 & _).
    unfold updatedTo. cbn [set_dirty uid dirty].
    assert (Hk : forall x, kind (set_dirty NOT_DIRTY x) = kind x) by reflexivity.
    destruct (desc_fields_kind _ _ (Hk d3)) as (N5 & O5 & I5 & _).
    rewrite N5, O5, I5, N4, O4, I4, N3, O3, I3, N2, O2, U3, U2.
    repeat split; auto. lia.
  - intros H. injection H as <- <-. unfold updatedTo.
    assert (Hk : forall x, kind (set_dirty NOT_DIRTY x) = kind x) by reflexivity.
    destruct (desc_fields_kind _ _ (Hk d2)) as (N5 & O5 & I5 & _).
    rewrite N5, O5, I5, N3, O3, I3, N2, O2. cbn [set_dirty uid dirty].
    repeat split; auto. lia.
Qed.

Lemma TextViewDesc_update_spec node od d w d' w' :
  TextViewDesc_update view node od d w = (Some d', w') ->
  updatedTo d d' node od /\ desc_innerDeco d' = desc_innerDeco d
  /\ fresh w' = fresh w.
Proof.
  unfold TextViewDesc_update. destruct (desc_node d) as [tn|] eqn:En; [|discriminate].
  destruct (_ || _); [discriminate|].
  pose proof (updateOuterDeco_spec od d w) as S1.
  destruct (updateOuterDeco view od d w) as [d1 w1]. cbn [fst snd] in S1.
  destruct S1 as (U1 & D1 & N1 & I1 & O1 & F1 & _).
  assert (Hn : isNodeViewDesc d = true) by (unfold isNodeViewDesc; now rewrite En).
  assert (Hn1 : isNodeViewDesc d1 = true).
  { unfold isNodeViewDesc in *. now rewrite N1. }
  assert (G : forall d2 w2,
             uid d2 = uid d1 -> kind d2 = kind d1 -> fresh w2 = fresh w1 ->
             (Some (set_dirty NOT_DIRTY (set_node node d2)), w2) = (Some d', w') ->
             updatedTo d d' node od /\ desc_innerDeco d' = desc_innerDeco d
             /\ fresh w' = fresh w).
  { intros d2 w2 U2 K2 F2 H. inversion H; subst.
    destruct (desc_fields_kind _ _ K2) as (N2 & O2 & I2 & Hn2).
    rewrite <- Hn2 in Hn1.
    destruct (set_node_spec node d2 Hn1) as (N3 & O3 & I3).
    assert (Hk : forall x, kind (set_dirty NOT_DIRTY x) = kind x) by reflexivity.
    destruct (desc_fields_kind _ _ (Hk (set_node node d2))) as (N5 & O5 & I5 & _).
    unfold updatedTo. rewrite N5, O5, I5, N3, O3, I3, O2, I2.
    cbn [set_dirty uid dirty].
    assert (uid (set_node node d2) = uid d2) by reflexivity.
    repeat split; auto; congruence. }
  destruct (_ && _).
  - apply G; auto.
  - apply G; auto.
Qed.

Lemma updatedTo_node d d' node od :
  updatedTo d d' node od -> isNodeViewDesc d' = true /\ isMarkViewDesc d' = false.
Proof.
  intros (_ & _ & N & _). unfold isNodeViewDesc, isMarkViewDesc. rewrite N.
  split; [reflexivity|]. unfold desc_node in N. destruct (kind d'); congruence.
Qed.

Lemma updatedTo_matches d d' node od idc :
  updatedTo d d' node od ->
  DecorationSet_eq idc (desc_innerDeco d') = true ->
  matchesNode d' node od idc = true.
Proof.
  intros (_ & D & N & O) I. now apply matchesNode_intro.
Qed.

(** A successful [update] leaves a descriptor that matches what it was
    updated to. *)
Lemma update_spec node od idc pos d w d' w' :
  update view rec node od idc pos d w = Some (Ok (Some d', w')) ->
  updatedTo d d' node od
  /\ ((isTextViewDesc d = true -> DecorationSet_eq idc (desc_innerDeco d) = true) ->
      matchesNode d' node od idc = true)
  /\ (fresh w <= fresh w')%nat /\ isNodeViewDesc d = true.
Proof.
  intros H.
  assert (Hin : forall d0,
             isNodeViewDesc d0 = true ->
             (x <- updateInner view rec node od idc pos d0 w ;;
              (let '(d1, w1) := x in ret (Some d1, w1)))
             = Some (Ok (Some d', w')) ->
             updatedTo d0 d' node od /\ matchesNode d' node od idc = true
             /\ (fresh w <= fresh w')%nat).
  { intros d0 Hn0 E. unfold bind in E.
    destruct (updateInner view rec node od idc pos d0 w) as [[[d1 w1]|e]|] eqn:Eu;
      try discriminate.
    injection E as <- <-. apply updateInner_spec in Eu; [|exact Hn0].
    destruct Eu as (U & I & F). split; [exact U|]. split; [|exact F].
    eapply updatedTo_matches; [exact U|]. rewrite I. apply DecorationSet_eq_refl. }
  assert (Hnv : forall d0,
             d0 = d -> isNodeViewDesc d0 = true ->
             NodeViewDesc_update view rec node od idc pos d0 w = Some (Ok (Some d', w')) ->
             updatedTo d0 d' node od /\ matchesNode d' node od idc = true
             /\ (fresh w <= fresh w')%nat).
  { intros d0 _ Hn0 E. unfold NodeViewDesc_update in E.
    destruct (desc_node d0); [|discriminate].
    destruct (_ || _); [discriminate|]. now apply Hin. }
  unfold update in H. destruct (kind d) eqn:K; try discriminate.
  - assert (Hn : isNodeViewDesc d = true) by (unfold isNodeViewDesc, desc_node; now rewrite K).
    destruct (Hnv d eq_refl Hn H) as (A & B & C). auto.
  - assert (Hn : isNodeViewDesc d = true) by (unfold isNodeViewDesc, desc_node; now rewrite K).
    unfold ret in H. injection H as H.
    apply TextViewDesc_update_spec in H. destruct H as (U & I & F).
    split; [exact U|]. split; [|split; [lia|exact Hn]]. intros Ht.
    eapply updatedTo_matches; [exact U|]. rewrite I. apply Ht.
    unfold isTextViewDesc. now rewrite K.
  - assert (Hn : isNodeViewDesc d = true) by (unfold isNodeViewDesc, desc_node; now rewrite K).
    unfold CustomNodeViewDesc_update in H.
    destruct (Z.eqb (dirty d) NODE_DIRTY); [discriminate|].
    destruct (spec_hasUpdate spec).
    + destruct (spec_update spec node od); [|discriminate].
      destruct (Hin d Hn H) as (A & B & C). auto.
    + destruct (_ && _); [discriminate|].
      destruct (Hnv d eq_refl Hn H) as (A & B & C). auto.
Qed.

(** A new node descriptor matches the node it was made for. *)
Lemma NodeViewDesc_create_spec node od idc pos w d' w' :
  NodeViewDesc_create view rec node od idc pos w = Some (Ok (d', w')) ->
  uid d' = fresh w /\ (fresh w < fresh w')%nat
  /\ matchesNode d' node od idc = true /\ isMarkViewDesc d' = false.
Proof.
  unfold NodeViewDesc_create. cbn [alloc].
  set (w0 := mkWorld (S (fresh w)) (effects w)).
  assert (G : forall d0 w1,
             uid d0 = fresh w -> dirty d0 = NOT_DIRTY ->
             desc_node d0 = Some node -> desc_outerDeco d0 = od ->
             desc_innerDeco d0 = idc ->
             (S (fresh w) <= fresh w1)%nat ->
             forall r : M (ViewDesc * World),
               (r = rec d0 (pos + 1) w1 \/ r = ret (d0, w1)) ->
               r = Some (Ok (d', w')) ->
               uid d' = fresh w /\ (fresh w < fresh w')%nat
               /\ matchesNode d' node od idc = true /\ isMarkViewDesc d' = false).
  { intros d0 w1 U0 D0 N O I F r [Hr|Hr] Hres; subst r.
    - apply rec_ok in Hres. destruct Hres as (U & K & D & F').
      destruct (desc_fields_kind _ _ K) as (N' & O' & I' & _).
      split; [congruence|]. split; [lia|].
      split.
      + apply matchesNode_intro; [congruence|congruence| |].
        * rewrite O', O. apply sameOuterDeco_refl.
        * rewrite I', I. apply DecorationSet_eq_refl.
      + rewrite N in N'. unfold isMarkViewDesc. unfold desc_node in N'.
        destruct (kind d'); congruence.
    - injection Hres as <- <-. split; [exact U0|]. split; [lia|].
      split.
      + apply matchesNode_intro; [exact D0|exact N| |].
        * rewrite O. apply sameOuterDeco_refl.
        * rewrite I. apply DecorationSet_eq_refl.
      + unfold isMarkViewDesc. unfold desc_node in N.
        destruct (kind d0); congruence. }
  unfold bind.
  match goal with |- match ?m with _ => _ end = _ -> _ => destruct m as [[r|e]|] eqn:Em end;
    try discriminate.
  destruct r as [[[[h content] value] isText] w1].
  assert (F1 : (S (fresh w) <= fresh w1)%nat).
  { revert Em. unfold ret. destruct (node_isText node).
    - destruct (match nodeViews view node with Some s => spec_dom s | None => None end).
      + destruct (nodeViews view node).
        * destruct (spec_domIsText n0); [|discriminate]. intros E. injection E as <- <- <- <- <-.
          cbn. lia.
        * cbn. intros E. injection E as <- <- <- <- <-. cbn. lia.
      + cbn. intros E. injection E as <- <- <- <- <-. cbn. lia.
    - destruct (match nodeViews view node with Some s => spec_dom s | None => None end).
      + intros E. injection E as <- <- <- <- <-. cbn. lia.
      + cbn. intros E. injection E as <- <- <- <- <-. cbn. lia. }
  assert (Fin : forall (m : M (ViewDesc * World)) d0,
             uid d0 = fresh w -> dirty d0 = NOT_DIRTY ->
             desc_node d0 = Some node -> desc_outerDeco d0 = od ->
             desc_innerDeco d0 = idc ->
             (m = rec d0 (pos + 1) w1 \/ m = ret (d0, w1)) ->
             m = Some (Ok (d', w')) ->
             uid d' = fresh w /\ (fresh w < fresh w')%nat
             /\ matchesNode d' node od idc = true /\ isMarkViewDesc d' = false).
  { intros m d0 U0 D0 N O I Hm H. exact (G d0 w1 U0 D0 N O I F1 m Hm H). }
  destruct (nodeViews view node) as [s|].
  - intros H. match type of H with context [ret (?d0, _)] => refine (Fin _ d0 _ _ _ _ _ _ H) end;
      try reflexivity. destruct content; auto.
  - destruct (node_isText node).
    + intros H. match type of H with context [ret (?d0, _)] => refine (Fin _ d0 _ _ _ _ _ _ H) end;
      try reflexivity. auto.
    + intros H. match type of H with context [ret (?d0, _)] => refine (Fin _ d0 _ _ _ _ _ _ H) end;
      try reflexivity. destruct content; auto.
Qed.

(** ** The shape of the steps of a pass *)

Lemma fold_emit_fresh (l : list ViewDesc) : forall w,
  fresh (fold_left (fun w d => emit (EDestroy (uid d)) w) l w) = fresh w.
Proof. induction l as [|x r IH]; intros w; cbn; [reflexivity|]. now rewrite IH. Qed.

Lemma sameStatic_refl u : sameStatic u u.
Proof. unfold sameStatic. auto 10. Qed.

Lemma sameStatic_trans a b c : sameStatic a b -> sameStatic b c -> sameStatic a c.
Proof.
  unfold sameStatic. intros (A1 & A2 & A3 & A4 & A5) (B1 & B2 & B3 & B4 & B5).
  repeat split; try congruence. lia.
Qed.

Lemma destroyBetween_static a b u : sameStatic u (destroyBetween a b u).
Proof.
  unfold destroyBetween. destruct (Nat.eqb a b); [apply sameStatic_refl|].
  unfold sameStatic. cbn. rewrite fold_emit_fresh. auto 10.
Qed.

Lemma destroyBetween_children a b u :
  (a <= b)%nat ->
  children (top (destroyBetween a b u))
  = firstn a (children (top u)) ++ skipn b (children (top u)).
Proof.
  intros H. unfold destroyBetween. destruct (Nat.eqb_spec a b) as [E|E].
  - subst. now rewrite firstn_skipn.
  - cbn. unfold splice_out. now replace (a + (b - a))%nat with b by lia.
Qed.

Lemma skipn_split (A : Type) (l : list A) i f c :
  (i <= f)%nat -> nth_error l f = Some c ->
  skipn i l = firstn (f - i) (skipn i l) ++ c :: skipn (S f) l.
Proof.
  intros Hle Hc. rewrite <- (firstn_skipn (f - i) (skipn i l)) at 1. f_equal.
  rewrite skipn_skipn. replace (f - i + i)%nat with f by lia. now apply skipn_nth.
Qed.

Lemma length_firstn_le (A : Type) (l : list A) i :
  (i <= List.length l)%nat -> List.length (firstn i l) = i.
Proof. intros H. rewrite length_firstn. lia. Qed.

(** Taking the child at [f], the children before it from the index on being
    destroyed, and putting [x] in its place. *)
Lemma Step_take u u' f c x :
  (index u <= f)%nat -> nth_error (children (top u)) f = Some c ->
  sameStatic u u' -> stack u' = stack u -> index u' = S (index u) ->
  info (top u') = info (top u) ->
  children (top u')
  = firstn (index u) (children (top u)) ++ x :: skipn (S f) (children (top u)) ->
  isMarkViewDesc x = false -> uid x = uid c -> isMarkViewDesc c = false ->
  Step u u' (firstn (f - index u) (skipn (index u) (children (top u)))) (Some c) x
       (skipn (S f) (children (top u))).
Proof.
  intros Hle Hc Hs Hst Hi Hinfo Hch Hx Hu Hm. unfold Step.
  repeat split; auto; try apply Hs. cbn [consumed]. now apply skipn_split.
Qed.

(** Putting a new descriptor at the index. *)
Lemma Step_new u u' x :
  sameStatic u u' -> stack u' = stack u -> index u' = S (index u) ->
  info (top u') = info (top u) ->
  children (top u') = splice_in (index u) x (children (top u)) ->
  isMarkViewDesc x = false ->
  (fresh (world u) <= uid x < fresh (world u'))%nat ->
  Step u u' [] None x (skipn (index u) (children (top u))).
Proof.
  intros Hs Hst Hi Hinfo Hch Hx Hu. unfold Step.
  repeat split; auto; try apply Hs; lia.
Qed.

Lemma Step_Advanced u u' D c x P' :
  (index u <= List.length (children (top u)))%nat ->
  Step u u' D c x P' -> Advanced u u' x.
Proof.
  intros Hi (_ & Hst & Hidx & Hinfo & _ & Hch & _). unfold Advanced.
  apply info_eq in Hinfo. destruct Hinfo as (U & K & _).
  split; [exact Hst|]. split; [exact Hidx|]. split; [split; auto|].
  rewrite Hch. rewrite firstn_app, length_firstn_le by exact Hi.
  replace (S (index u) - index u)%nat with 1%nat by lia.
  rewrite firstn_all2 by (rewrite length_firstn; lia). reflexivity.
Qed.

Lemma enterMark_Enter m u :
  (index u <= List.length (children (top u)))%nat ->
  exists D c P', Enter u (enterMark m u) D c P' /\ matchesMark (top (enterMark m u)) m = true.
Proof.
  intros Hi. unfold enterMark.
  destruct (findFrom _ (children (top u)) (index u) 3) as [found|] eqn:Ef.
  - apply findFrom_Some in Ef. destruct Ef as [Hr (x & Hx & Hp)].
    set (u1 := if Nat.ltb (index u) found
               then destroyBetween (index u) found (with_changed true u) else u).
    assert (Hidx : index u1 = index u).
    { unfold u1. destruct (Nat.ltb _ _); [rewrite destroyBetween_index|]; reflexivity. }
    assert (Hst : stack u1 = stack u).
    { unfold u1. destruct (Nat.ltb _ _); [rewrite destroyBetween_stack|]; reflexivity. }
    assert (Hinfo : info (top u1) = info (top u)).
    { unfold u1. destruct (Nat.ltb _ _); [rewrite destroyBetween_info|]; reflexivity. }
    assert (Hstat : sameStatic u u1).
    { unfold u1. destruct (Nat.ltb _ _); [|apply sameStatic_refl].
      apply (destroyBetween_static (index u) found (with_changed true u)). }
    assert (Hch : children (top u1)
                  = firstn (index u) (children (top u)) ++ x :: skipn (S found) (children (top u))).
    { unfold u1. destruct (Nat.ltb_spec (index u) found) as [Hlt|Hge].
      - rewrite destroyBetween_children by lia. cbn [top with_changed].
        f_equal. now apply skipn_nth.
      - assert (found = index u) by lia. subst found.
        rewrite <- (firstn_skipn (index u) (children (top u))) at 1. f_equal.
        now apply skipn_nth. }
    assert (Hn : nth_error (children (top u1)) (index u1) = Some x).
    { rewrite Hidx, Hch. rewrite nth_error_app2; rewrite length_firstn_le by exact Hi; [|lia].
      now rewrite Nat.sub_diag. }
    rewrite Hn.
    exists (firstn (found - index u) (skipn (index u) (children (top u)))), (Some x),
      (skipn (S found) (children (top u))).
    split; [|exact Hp]. split; [exact Hstat|]. exists (top u1). cbn.
    rewrite Hidx, Hst. split; [reflexivity|]. split; [reflexivity|]. split; [exact Hinfo|].
    split; [apply skipn_split; [lia|exact Hx]|]. split; [exact Hch|].
    unfold matchesMark in Hp. unfold isMarkViewDesc. destruct (kind x); try discriminate.
    apply andb_prop in Hp. destruct Hp as [Hd _].
    split; [reflexivity|]. split; [|reflexivity].
    intros E. rewrite E in Hd. discriminate.
  - unfold MarkViewDesc_create. cbn.
    exists [], None, (skipn (index u) (children (top u))).
    split; [|unfold matchesMark; cbn; apply Mark_eq_refl].
    split; [unfold sameStatic; cbn; auto 10|].
    eexists. cbn. split; [reflexivity|]. split; [reflexivity|]. split; [reflexivity|].
    split; [reflexivity|]. split; [reflexivity|]. split; [reflexivity|].
    split; [discriminate|]. split; [reflexivity|]. lia.
Qed.

(** ** The steps over nodes, widgets and hacks *)

Lemma uidsOK_le1 u x : uidsOK u -> (cnt x (allUids u) <= 1)%nat.
Proof. intros H. specialize (H x). destruct (Nat.ltb _ _); lia. Qed.

Lemma uidsOK_top_uniq u :
  uidsOK u -> forall x, (cnt x (map uid (children (top u))) <= 1)%nat.
Proof.
  intros H x. pose proof (uidsOK_le1 x H) as H1. unfold allUids in H1.
  rewrite cnt_app in H1. pose proof (cnt_uidsOf_map x (children (top u))) as H2. lia.
Qed.

Lemma rootPending_of_frames st : forall a b,
  st <> [] -> rootPending_of st a = rootPending_of st b.
Proof. destruct st as [|[p i] r]; intros a b H; [contradiction|reflexivity]. Qed.

Lemma rootPending_in_frames st : forall t a p,
  st <> [] -> In p (rootPending_of st a) -> In (uid p) (frameUids st t).
Proof.
  induction st as [|[q i] r IH]; intros t a p Hne Hp; [contradiction|].
  cbn in Hp. cbn [frameUids]. right. apply in_or_app. right. apply in_or_app.
  destruct r as [|fr r'].
  - left. cbn in Hp. now apply In_uidsOf.
  - right. apply (IH q (skipn i (children q))); [discriminate|exact Hp].
Qed.

(** A pre-matched descriptor that is still to come and is found among the
    children of [top] lies at or after the index, and [top] is the
    descriptor being updated. *)
Lemma pend_found lb u j p f :
  Inv lb u -> nth_error (preMatched u) j = Some p ->
  lb <= Z.of_nat (preMatchOffset u + j) ->
  indexOf p (children (top u)) = Some f ->
  (index u <= f)%nat /\ nth_error (children (top u)) f = Some p.
Proof.
  intros I Hp Hlb Hf.
  destruct (indexOf_uid _ _ Hf) as (x & Hx & Ex).
  assert (Hin : In (uid p) (allUids u)).
  { unfold allUids. apply in_or_app. left. rewrite <- Ex. apply In_uidsOf.
    eapply nth_error_In; eauto. }
  pose proof (inv_pend I j Hp Hlb Hin) as Hr. unfold rootPending in Hr.
  destruct (stack u) as [|fr r] eqn:Est.
  - cbn in Hr. pose proof (uidsOK_top_uniq (inv_uids I)) as U.
    assert (Hpc : In p (children (top u))).
    { rewrite <- (firstn_skipn (index u)). apply in_or_app. now right. }
    assert (p = x).
    { eapply uniq_same; eauto. eapply nth_error_In; eauto. }
    subst x. split; [|exact Hx].
    apply In_nth_error in Hr. destruct Hr as [g Hg]. rewrite nth_error_skipn in Hg.
    assert (index u + g = f)%nat by (eapply uniq_nth; eauto). lia.
  - exfalso. apply (rootPending_in_frames (top u)) in Hr; [|discriminate].
    pose proof (uidsOK_le1 (uid p) (inv_uids I)) as H1. unfold allUids in H1.
    rewrite Est, cnt_app in H1.
    assert (H2 : In (uid p) (uidsOf (children (top u)))).
    { rewrite <- Ex. apply In_uidsOf. eapply nth_error_In; eauto. }
    apply cnt_In in H2, Hr. lia.
Qed.

Lemma matchesNode_notMark d n o i : matchesNode d n o i = true -> isMarkViewDesc d = false.
Proof. unfold matchesNode, isMarkViewDesc. destruct (kind d); auto; discriminate. Qed.

Lemma matchesNode_isNode d n o i : matchesNode d n o i = true -> isNodeViewDesc d = true.
Proof. unfold matchesNode, isNodeViewDesc, desc_node. destruct (kind d); auto; discriminate. Qed.

Lemma getPreMatch_Some u i p :
  getPreMatch u i = Some p ->
  exists j, nth_error (preMatched u) j = Some p /\ Z.of_nat (preMatchOffset u + j) = i.
Proof.
  unfold getPreMatch.
  destruct (Z.geb_spec i (Z.of_nat (preMatchOffset u))) as [Hge|Hlt]; [|discriminate].
  intros H. exists (Z.to_nat (i - Z.of_nat (preMatchOffset u))). split; [exact H|lia].
Qed.

(** [findNodeMatch] takes a child that matches; the pre-match can only give
    it the child it holds for this very index. *)
Lemma findNodeMatch_step lb node od idc idx u u' :
  Inv lb u -> (0 <= idx -> lb <= idx) ->
  findNodeMatch node od idc idx u = Some u' ->
  exists D c P',
    Step u u' D (Some c) c P' /\ matchesNode c node od idc = true
    /\ (forall j p, nth_error (preMatched u) j = Some p -> p = c ->
                    Z.of_nat (preMatchOffset u + j) = idx).
Proof.
  intros I Hlb. unfold findNodeMatch.
  set (cs := children (top u)).
  set (scan := findFrom _ cs (index u) 5).
  assert (Hfin : forall f c,
             (index u <= f)%nat -> nth_error cs f = Some c ->
             matchesNode c node od idc = true ->
             (forall j p, nth_error (preMatched u) j = Some p -> p = c ->
                          Z.of_nat (preMatchOffset u + j) = idx) ->
             Some (with_index (S (index (destroyBetween (index u) f u)))
                              (destroyBetween (index u) f u)) = Some u' ->
             exists D c P',
               Step u u' D (Some c) c P' /\ matchesNode c node od idc = true
               /\ (forall j p, nth_error (preMatched u) j = Some p -> p = c ->
                               Z.of_nat (preMatchOffset u + j) = idx)).
  { intros f c Hle Hc Hm Hsc E. injection E as <-.
    exists (firstn (f - index u) (skipn (index u) cs)), c, (skipn (S f) cs).
    split; [|split; [exact Hm|exact Hsc]].
    apply Step_take; cbn; auto.
    - apply (destroyBetween_static (index u) f u).
    - apply destroyBetween_stack.
    - now rewrite destroyBetween_index.
    - apply destroyBetween_info.
    - rewrite destroyBetween_children by lia. f_equal. now apply skipn_nth.
    - eapply matchesNode_notMark; eauto.
    - eapply matchesNode_notMark; eauto. }
  assert (Hscan : match scan with
                  | Some f => Some (with_index (S (index (destroyBetween (index u) f u)))
                                               (destroyBetween (index u) f u))
                  | None => None
                  end = Some u' ->
                  exists D c P',
                    Step u u' D (Some c) c P' /\ matchesNode c node od idc = true
                    /\ (forall j p, nth_error (preMatched u) j = Some p -> p = c ->
                                    Z.of_nat (preMatchOffset u + j) = idx)).
  { destruct scan as [f|] eqn:Es; [|discriminate]. unfold scan in Es.
    apply findFrom_Some in Es. destruct Es as [Hr (c & Hc & Hp)].
    apply andb_prop in Hp. destruct Hp as [Hm Hn].
    apply (Hfin f c); auto; [lia|].
    intros j p Hj ->. exfalso.
    destruct (indexOf c (preMatched u)) eqn:Ei; [discriminate|].
    apply indexOf_None in Ei. apply Ei. apply in_map. eapply nth_error_In; eauto. }
  destruct (if Z.ltb idx 0 then None else getPreMatch u idx) as [p|] eqn:Eg; [|exact Hscan].
  destruct (matchesNode p node od idc) eqn:Em; [|exact Hscan].
  destruct (Z.ltb_spec idx 0) as [Hneg|Hpos]; [discriminate|].
  destruct (getPreMatch_Some _ _ Eg) as (j & Hj & Ej).
  destruct (indexOf p cs) as [f|] eqn:Ei; [|discriminate].
  assert (Hl : lb <= Z.of_nat (preMatchOffset u + j)) by (rewrite Ej; auto).
  edestruct pend_found as [Hle Hc]; [exact I|exact Hj|exact Hl|exact Ei|].
  apply (Hfin f p); auto.
  intros j' p' Hj' ->.
  assert (Ejj : j' = j); [|rewrite Ejj; exact Ej].
  eapply (@uniq_nth (preMatched u) j' j p p); eauto.
  apply NoDup_cnt. apply (inv_pm_uniq I).
Qed.

Lemma splice_replace (A : Type) (l : list A) a i x :
  (a <= i < List.length l)%nat ->
  firstn a (replace_nth i x l) ++ skipn i (replace_nth i x l)
  = firstn a l ++ x :: skipn (S i) l.
Proof.
  intros H. unfold replace_nth. f_equal.
  - rewrite firstn_app, length_firstn, Nat.min_l by lia.
    replace (a - i)%nat with 0%nat by lia. cbn. rewrite app_nil_r.
    rewrite firstn_firstn. now rewrite Nat.min_l by lia.
  - rewrite skipn_app, length_firstn, Nat.min_l by lia.
    rewrite Nat.sub_diag. cbn. rewrite skipn_all2 by (rewrite length_firstn; lia).
    reflexivity.
Qed.

Lemma pending_old lb u c :
  Inv lb u -> In c (skipn (index u) (children (top u))) -> oldOK c = true.
Proof.
  intros I H. pose proof (inv_old I) as F. rewrite Forall_forall in F.
  apply F. unfold allPending. apply in_or_app. now left.
Qed.

Lemma oldOK_unfold d :
  oldOK d
  = widgetRendered d
    && match kind d with
       | KText n _ i => node_isText n && DecorationSet_eq DecorationSet_empty i
       | _ => true
       end
    && (if isMarkViewDesc d then forallb oldOK (children d) else true).
Proof. destruct d as [u k dd cs f]. unfold isMarkViewDesc. destruct k; reflexivity. Qed.

Lemma sameMarkup_text a b : sameMarkup a b = true -> node_isText b = true -> node_isLeaf a = true.
Proof. destruct a, b; cbn; auto; discriminate. Qed.

Lemma update_text_markup node od idc pos d w r w' :
  update view rec node od idc pos d w = Some (Ok (Some r, w')) ->
  isTextViewDesc d = true ->
  exists n, desc_node d = Some n /\ sameMarkup node n = true.
Proof.
  unfold update, isTextViewDesc. destruct (kind d) eqn:K; try discriminate.
  intros H _. unfold ret in H. injection H as H. unfold TextViewDesc_update in H.
  unfold desc_node in *. rewrite K in *. exists node0. split; [reflexivity|].
  destruct (sameMarkup node node0); [reflexivity|].
  rewrite !orb_true_r in H. cbn in H. discriminate.
Qed.

(** [updateNextNode] updates the next node descriptor in place, and never
    one that the pre-match holds for another index. *)
Lemma updateNextNode_step lb node od idc idx u u' :
  Inv lb u -> (node_isLeaf node = true -> idc = DecorationSet_empty) ->
  updateNextNode view rec node od idc idx u = Some (Ok (Some u')) ->
  exists D c x P',
    Step u u' D (Some c) x P' /\ matchesNode x node od idc = true
    /\ (forall j p, nth_error (preMatched u) j = Some p -> p = c ->
                    Z.of_nat (preMatchOffset u + j) = idx).
Proof.
  intros I Hleaf. unfold updateNextNode.
  set (cs := children (top u)).
  destruct (findFrom isNodeViewDesc cs (index u) (List.length cs)) as [i|] eqn:Ef;
    [|discriminate].
  apply findFrom_Some in Ef. destruct Ef as [Hr (next & Hn & Hnode)].
  rewrite Hn.
  destruct (match indexOf next (preMatched u) with
            | Some p => negb (Z.eqb (Z.of_nat (p + preMatchOffset u)) idx)
            | None => false
            end) eqn:Eheld; [discriminate|].
  destruct (isLocked (lock u) next node od); [discriminate|].
  unfold bind.
  destruct (update view rec node od idc _ next (world u)) as [[[[next'|] w']|e]|] eqn:Eu;
    try discriminate.
  intros H. injection H as <-.
  assert (Hlen : (i < List.length cs)%nat) by (apply nth_error_Some; congruence).
  assert (Hin : In next (skipn (index u) cs)).
  { rewrite (skipn_split cs (i := index u) (f := i) (c := next)) by (lia || auto).
    apply in_or_app. right. now left. }
  pose proof (@pending_old lb u next I Hin) as Hold.
  apply update_spec in Eu as Hs. destruct Hs as (Hup & Hm & Hf & _).
  assert (Hpre : isTextViewDesc next = true ->
                 DecorationSet_eq idc (desc_innerDeco next) = true); [|specialize (Hm Hpre)].
  2: {
    exists (firstn (i - index u) (skipn (index u) cs)), next, next', (skipn (S i) cs).
    split; [|split; [exact Hm|]].
    + set (u1 := with_world w' (with_top (set_children (replace_nth i next' cs) (top u)) u)).
      set (u2 := destroyBetween (index u1) i u1).
      assert (S2 : sameStatic u u2).
      { apply sameStatic_trans with u1; [|apply (destroyBetween_static (index u1) i u1)].
        unfold sameStatic, u1. cbn. auto 10. }
      assert (C2 : children (top u2) = firstn (index u) cs ++ next' :: skipn (S i) cs).
      { unfold u2. rewrite destroyBetween_children by (cbn; lia). cbn.
        apply splice_replace. lia. }
      assert (G : forall u3, sameStatic u2 u3 -> stack u3 = stack u2 ->
                             index u3 = index u2 -> top u3 = top u2 ->
                  Step u (with_index (S (index u3)) u3)
                       (firstn (i - index u) (skipn (index u) cs)) (Some next) next'
                       (skipn (S i) cs)).
      { intros u3 S3 St3 I3 T3. apply Step_take; cbn; auto.
        - lia.
        - eapply sameStatic_trans; [exact S2|]. exact S3.
        - rewrite St3. unfold u2. now rewrite destroyBetween_stack.
        - rewrite I3. unfold u2. now rewrite destroyBetween_index.
        - rewrite T3. unfold u2. now rewrite destroyBetween_info.
        - rewrite T3. exact C2.
        - eapply updatedTo_node; eauto.
        - apply Hup.
        - unfold isMarkViewDesc. unfold isNodeViewDesc, desc_node in Hnode.
          destruct (kind next); congruence. }
      destruct (negb (Nat.eqb (dom (domf next')) (dom (domf next)))).
      * apply (G (with_changed true u2)); try reflexivity. unfold sameStatic. auto 10.
      * apply (G u2); try reflexivity. apply sameStatic_refl.
    + intros j p Hj ->.
      assert (Hi : indexOf next (preMatched u) = Some j).
      { eapply indexOf_first; eauto. apply NoDup_cnt. apply (inv_pm_uniq I). }
      rewrite Hi in Eheld. apply negb_false_iff in Eheld. apply Z.eqb_eq in Eheld. lia. }
  intros Ht. edestruct update_text_markup as (n & En & Hsm); [exact Eu|exact Ht|].
  rewrite oldOK_unfold in Hold. unfold isTextViewDesc in Ht.
  unfold desc_node, desc_innerDeco in *.
  destruct (kind next); try discriminate. injection En as ->.
  apply andb_prop in Hold. destruct Hold as [Hold _].
  apply andb_prop in Hold. destruct Hold as [_ Hold].
  apply andb_prop in Hold. destruct Hold as [Ht' Hd].
  rewrite (Hleaf (sameMarkup_text _ _ Hsm Ht')). exact Hd.
Qed.

Lemma addNode_step node od idc pos u u' :
  addNode view rec node od idc pos u = Some (Ok u') ->
  exists x, Step u u' [] None x (skipn (index u) (children (top u)))
            /\ matchesNode x node od idc = true.
Proof.
  unfold addNode, bind.
  destruct (NodeViewDesc_create view rec node od idc pos (world u)) as [[[d w]|e]|] eqn:Ec;
    try discriminate.
  intros H. injection H as <-. apply NodeViewDesc_create_spec in Ec.
  destruct Ec as (U & F & Hm & Hk). exists d. split; [|exact Hm].
  apply Step_new; cbn; auto; [|lia]. unfold sameStatic. cbn. repeat split; auto. lia.
Qed.

Lemma Step_over u c :
  nth_error (children (top u)) (index u) = Some c ->
  isMarkViewDesc c = false ->
  Step u (with_index (S (index u)) u) [] (Some c) c (skipn (S (index u)) (children (top u))).
Proof.
  intros Hc Hm.
  replace (@nil ViewDesc)
    with (firstn (index u - index u) (skipn (index u) (children (top u))))
    by (now rewrite Nat.sub_diag).
  apply Step_take; cbn; auto.
  - unfold sameStatic. cbn. auto 10.
  - rewrite <- (firstn_skipn (index u) (children (top u))) at 1. f_equal.
    now apply skipn_nth.
Qed.

Lemma DecoType_widget_refl t : DecoType_eq t t = true.
Proof. apply DecoType_eq_refl. Qed.

(** [placeWidget] keeps a widget descriptor the next pass keeps as well. *)
Lemma placeWidget_step lb widget u u' :
  Inv lb u -> placeWidget widget u = Some (Ok u') ->
  exists c x P',
    Step u u' [] c x P' /\ widgetKept x widget /\ isNodeViewDesc x = false
    /\ (c = None \/ c = Some x).
Proof.
  intros I. unfold placeWidget.
  destruct (nth_error (children (top u)) (index u)) as [next|] eqn:En.
  - destruct (matchesWidget next widget
              && (match desc_widget next with
                  | Some nw => Decoration_same widget nw
                  | None => false
                  end || negb (toDOM_hasParent next))) eqn:Er.
    + unfold ret. intros H. injection H as <-.
      apply andb_prop in Er. destruct Er as [Hm Hs].
      assert (Hk : isMarkViewDesc next = false /\ isNodeViewDesc next = false).
      { unfold matchesWidget in Hm. unfold isMarkViewDesc, isNodeViewDesc, desc_node.
        destruct (kind next); try discriminate. auto. }
      exists (Some next), next, (skipn (S (index u)) (children (top u))).
      split; [apply Step_over; tauto|]. split; [|split; [tauto|now right]].
      split; [exact Hm|]. apply orb_prop in Hs. destruct Hs as [Hs|Hs].
      * left. destruct (desc_widget next); [exact Hs|discriminate].
      * right. assert (Hold : oldOK next = true).
        { apply (@pending_old lb u next I). rewrite (skipn_nth _ _ En). now left. }
        rewrite oldOK_unfold in Hold. apply andb_prop in Hold. destruct Hold as [Hold _].
        apply andb_prop in Hold. destruct Hold as [Hold _]. unfold widgetRendered in Hold.
        apply negb_true_iff in Hs. rewrite Hs, orb_false_r in Hold. exact Hold.
    + unfold bind. destruct (WidgetViewDesc_new widget (world u)) as [[[d w]|e]|] eqn:Ew;
        try discriminate.
      intros H. injection H as <-.
      unfold WidgetViewDesc_new in Ew. destruct (deco_type widget) eqn:Et; try discriminate.
      cbn [alloc] in Ew.
      assert (Hd : uid d = fresh (world u) /\ kind d = KWidget widget /\ dirty d = NOT_DIRTY
                   /\ (fresh (world u) < fresh w)%nat).
      { destruct toDOM; cbn in Ew; injection Ew as <- <-; cbn; repeat split; lia. }
      destruct Hd as (U & K & D & F).
      exists None, d, (skipn (index u) (children (top u))).
      split; [|split; [|split; [|now left]]].
      * apply Step_new; cbn; auto; [| |lia].
        -- unfold sameStatic. cbn. repeat split; auto. lia.
        -- unfold isMarkViewDesc. now rewrite K.
      * unfold widgetKept, matchesWidget, desc_widget. rewrite K, D, Et. cbn.
        split; [apply (DecoType_widget_refl (WidgetType key side wmarks toDOM))|].
        left. apply Decoration_same_refl.
      * unfold isNodeViewDesc, desc_node. now rewrite K.
  - cbn [andb]. unfold bind.
    destruct (WidgetViewDesc_new widget (world u)) as [[[d w]|e]|] eqn:Ew;
      try discriminate.
    intros H. injection H as <-.
    unfold WidgetViewDesc_new in Ew. destruct (deco_type widget) eqn:Et; try discriminate.
    cbn [alloc] in Ew.
    assert (Hd : uid d = fresh (world u) /\ kind d = KWidget widget /\ dirty d = NOT_DIRTY
                 /\ (fresh (world u) < fresh w)%nat).
    { destruct toDOM; cbn in Ew; injection Ew as <- <-; cbn; repeat split; lia. }
    destruct Hd as (U & K & D & F).
    exists None, d, (skipn (index u) (children (top u))).
    split; [|split; [|split; [|now left]]].
    * apply Step_new; cbn; auto; [| |lia].
      -- unfold sameStatic. cbn. repeat split; auto. lia.
      -- unfold isMarkViewDesc. now rewrite K.
    * unfold widgetKept, matchesWidget, desc_widget. rewrite K, D, Et. cbn.
      split; [apply (DecoType_widget_refl (WidgetType key side wmarks toDOM))|].
      left. apply Decoration_same_refl.
    * unfold isNodeViewDesc, desc_node. now rewrite K.
Qed.

Lemma insertHack_step u :
  exists x, Step u (insertHack u) [] None x (skipn (index u) (children (top u)))
            /\ matchesHack x = true /\ isNodeViewDesc x = false.
Proof.
  unfold insertHack. cbn [alloc]. eexists. split; [|split].
  - apply Step_new; cbn; auto; try lia.
    unfold sameStatic. cbn. repeat split; auto.
  - reflexivity.
  - reflexivity.
Qed.

(** [addTextblockHacks] leaves the updater alone or steps over a hack. *)
Lemma addTextblockHacks_step u :
  (needsHack u = false /\ addTextblockHacks u = u)
  \/ (needsHack u = true
      /\ exists c x P',
          Step u (addTextblockHacks u) [] c x P' /\ matchesHack x = true
          /\ isNodeViewDesc x = false /\ (c = None \/ c = Some x)).
Proof.
  unfold addTextblockHacks. destruct (needsHack u); [right|left; auto].
  split; [reflexivity|].
  destruct (nth_error (children (top u)) (index u)) as [c|] eqn:En.
  - destruct (matchesHack c) eqn:Eh.
    + exists (Some c), c, (skipn (S (index u)) (children (top u))).
      assert (Hk : isMarkViewDesc c = false /\ isNodeViewDesc c = false).
      { unfold matchesHack in Eh. unfold isMarkViewDesc, isNodeViewDesc, desc_node.
        destruct (kind c); try discriminate. auto. }
      split; [apply Step_over; tauto|]. split; [exact Eh|]. split; [tauto|now right].
    + destruct (insertHack_step u) as (x & S1 & S2 & S3).
      exists None, x, (skipn (index u) (children (top u))). auto.
  - destruct (insertHack_step u) as (x & S1 & S2 & S3).
    exists None, x, (skipn (index u) (children (top u))). auto.
Qed.

(** ** A step keeps the invariants *)

Ltac cnt_norm :=
  repeat (rewrite ?cnt_app, ?uidsOf_app, ?uidsOf_cons, ?cnt_cons, ?cnt_nil).
Ltac cnt_norm_in H :=
  repeat (rewrite ?cnt_app, ?uidsOf_app, ?uidsOf_cons, ?cnt_cons, ?cnt_nil in H).


Lemma liveInfo_iff d :
  liveInfo (info d) <-> isMarkViewDesc d = true /\ dirty d <> NODE_DIRTY.
Proof.
  unfold liveInfo, info, isMarkViewDesc. destruct (kind d); split; intros H; try tauto;
    try (destruct H; discriminate).
Qed.

Lemma liveOK_iff u : liveOK u <-> Forall liveInfo (map info (liveMarks u)).
Proof.
  unfold liveOK. rewrite Forall_map. split; intros H; eapply Forall_impl; try exact H;
    intros d Hd; now apply liveInfo_iff.
Qed.

Lemma Forall_removelast (A : Type) (P : A -> Prop) (l : list A) :
  Forall P l -> Forall P (removelast l).
Proof.
  induction l as [|x r IH]; intros H; [constructor|]. inversion H; subst.
  cbn. destruct r; [constructor|]. constructor; auto.
Qed.

Lemma Step_children u u' D c x P' :
  (index u <= List.length (children (top u)))%nat ->
  Step u u' D c x P' ->
  children (top u) = firstn (index u) (children (top u)) ++ D ++ consumed c P'
  /\ skipn (index u') (children (top u')) = P'.
Proof.
  intros Hi (_ & _ & Hidx & _ & Hsk & Hch & _). split.
  - rewrite <- Hsk. now rewrite firstn_skipn.
  - rewrite Hidx, Hch. rewrite skipn_app, length_firstn_le by exact Hi.
    replace (S (index u) - index u)%nat with 1%nat by lia.
    rewrite skipn_all2 by (rewrite length_firstn; lia). reflexivity.
Qed.

Lemma Step_uids u u' D c x P' y :
  (index u <= List.length (children (top u)))%nat ->
  Step u u' D c x P' ->
  cnt y (allUids u) = (cnt y (uidsOf (firstn (index u) (children (top u))))
                       + cnt y (uidsOf D) + cnt y (uidsOf (consumed c [])) + cnt y (uidsOf P')
                       + cnt y (frameUids (stack u) (top u)))%nat
  /\ cnt y (allUids u') = (cnt y (uidsOf (firstn (index u) (children (top u))))
                           + cnt y [uid x] + cnt y (uidsOf P')
                           + cnt y (frameUids (stack u) (top u)))%nat.
Proof.
  intros Hi HS. destruct (Step_children Hi HS) as [C1 _].
  destruct HS as (_ & Hst & Hidx & Hinfo & Hsk & Hch & Hx & Hc).
  unfold allUids. rewrite Hst, Hch.
  rewrite (frameUids_info (stack u) (top u') (top u)) by (apply info_eq in Hinfo; tauto).
  split.
  - rewrite C1 at 1. destruct c as [c0|]; cbn [consumed]; cnt_norm; lia.
  - cnt_norm. rewrite (deepUids_leaf _ Hx). cnt_norm. lia.
Qed.

Lemma Step_uidsOK u u' D c x P' :
  (index u <= List.length (children (top u)))%nat ->
  Step u u' D c x P' -> uidsOK u -> uidsOK u'.
Proof.
  intros Hi HS U y. destruct (Step_uids y Hi HS) as [E1 E2]. specialize (U y).
  rewrite E2. rewrite E1 in U.
  destruct HS as ((_ & _ & _ & _ & Hf) & _ & _ & _ & _ & _ & Hx & Hc).
  destruct c as [c0|]; cbn [consumed] in U.
  - destruct Hc as [Eu Hm]. cnt_norm_in U. rewrite (deepUids_leaf _ Hm) in U.
    cnt_norm_in U. rewrite Eu. cnt_norm.
    destruct (Nat.ltb_spec y (fresh (world u))), (Nat.ltb_spec y (fresh (world u'))); lia.
  - cnt_norm. cnt_norm_in U.
    destruct (Nat.eqb_spec (uid x) y), (Nat.ltb_spec y (fresh (world u))),
      (Nat.ltb_spec y (fresh (world u'))); lia.
Qed.

Lemma Step_rootPending u u' D c x P' :
  (index u <= List.length (children (top u)))%nat ->
  Step u u' D c x P' ->
  (stack u <> [] /\ rootPending u' = rootPending u)
  \/ (stack u = [] /\ rootPending u = D ++ consumed c P' /\ rootPending u' = P').
Proof.
  intros Hi HS. destruct (Step_children Hi HS) as [_ C2].
  destruct HS as (_ & Hst & Hidx & Hinfo & Hsk & Hch & Hx & Hc).
  unfold rootPending. rewrite Hst. destruct (stack u) as [|fr r] eqn:Est.
  - right. cbn. auto.
  - left. split; [discriminate|]. apply rootPending_of_frames. discriminate.
Qed.

Lemma Inv_step lb lb' u u' D c x P' :
  Inv lb u -> Step u u' D c x P' -> lb <= lb' ->
  (forall c0 j p, c = Some c0 -> nth_error (preMatched u) j = Some p -> p = c0 ->
                  Z.of_nat (preMatchOffset u + j) < lb') ->
  Inv lb' u'.
Proof.
  intros I HS Hlb Hside. pose proof (inv_pos I) as [Hi Hfr].
  destruct (Step_children Hi HS) as [C1 C2].
  pose proof HS as (Hstat & Hst & Hidx & Hinfo & Hsk & Hch & Hx & Hc).
  destruct Hstat as (Hpm & Hoff & _ & _ & Hf).
  constructor.
  - split; [|rewrite Hst; exact Hfr].
    rewrite Hidx, Hch, length_app, length_firstn_le by exact Hi. cbn. lia.
  - apply liveOK_iff. unfold liveMarks. rewrite Hst.
    rewrite (@liveMarks_of_info (stack u) (top u') (top u) Hinfo).
    apply liveOK_iff. apply (inv_live I).
  - eapply Step_uidsOK; eauto. apply (inv_uids I).
  - pose proof (inv_old I) as O. unfold allPending in *. rewrite Hst, C2.
    rewrite Hsk in O. apply Forall_app in O. destruct O as [O1 O2].
    apply Forall_app. split; [|exact O2].
    apply Forall_app in O1. destruct O1 as [_ O1].
    destruct c; cbn [consumed] in O1; [now inversion O1|exact O1].
  - rewrite Hpm. apply (inv_pm_node I).
  - rewrite Hpm. apply (inv_pm_uniq I).
  - rewrite Hpm. eapply Forall_impl; [|apply (inv_pm_old I)]. cbn. intros; lia.
  - intros j p Hj Hl Hin. rewrite Hpm in Hj. rewrite Hoff in Hl.
    assert (Hold : (uid p < fresh (world u))%nat).
    { pose proof (inv_pm_old I) as F. rewrite Forall_forall in F. apply F.
      eapply nth_error_In; eauto. }
    destruct (Step_uids (uid p) Hi HS) as [E1 E2].
    pose proof (uidsOK_le1 (uid p) (inv_uids I)) as U1.
    apply cnt_In in Hin.
    assert (Hx0 : cnt (uid p) [uid x] = cnt (uid p) (uidsOf (consumed c []))).
    { destruct c as [c0|]; cbn [consumed].
      - destruct Hc as [Eu Hm]. cnt_norm. rewrite (deepUids_leaf _ Hm). cnt_norm.
        now rewrite Eu.
      - cnt_norm. destruct (Nat.eqb_spec (uid x) (uid p)); lia. }
    assert (Hin0 : In (uid p) (allUids u)) by (apply cnt_In; lia).
    assert (Hl0 : lb <= Z.of_nat (preMatchOffset u + j)) by lia.
    pose proof (inv_pend I j Hj Hl0 Hin0) as Hr.
    destruct (Step_rootPending Hi HS) as [[_ E]|(_ & Er & Er')].
    + now rewrite E.
    + rewrite Er'. rewrite Er in Hr. apply in_app_or in Hr. destruct Hr as [Hr|Hr].
      * exfalso. apply In_uidsOf, cnt_In in Hr. lia.
      * destruct c as [c0|]; cbn [consumed] in Hr; [|exact Hr].
        destruct Hr as [Hr|Hr]; [|exact Hr]. exfalso.
        specialize (Hside c0 j p eq_refl Hj (eq_sym Hr)). lia.
Qed.

(** ** Entering and leaving a mark keeps the invariants *)

Lemma Enter_lists u u' p1 P' :
  (index u <= List.length (children (top u)))%nat ->
  children p1 = firstn (index u) (children (top u)) ++ top u' :: P' ->
  firstn (S (index u) - 1) (children p1) = firstn (index u) (children (top u))
  /\ skipn (S (index u)) (children p1) = P'
  /\ List.length (children p1) = (index u + S (List.length P'))%nat.
Proof.
  intros Hi Hch. rewrite Hch. replace (S (index u) - 1)%nat with (index u) by lia.
  split; [|split].
  - rewrite firstn_app, length_firstn_le, Nat.sub_diag by exact Hi. cbn.
    rewrite app_nil_r, firstn_firstn. now rewrite Nat.min_id.
  - rewrite skipn_app, length_firstn_le by exact Hi.
    replace (S (index u) - index u)%nat with 1%nat by lia.
    rewrite skipn_all2 by (rewrite length_firstn; lia). reflexivity.
  - rewrite length_app, length_firstn_le by exact Hi. reflexivity.
Qed.

Lemma Enter_uids u u' D c P' y :
  (index u <= List.length (children (top u)))%nat ->
  Enter u u' D c P' ->
  cnt y (allUids u) = (cnt y (uidsOf (firstn (index u) (children (top u))))
                       + cnt y (uidsOf D) + cnt y (uidsOf (consumed c [])) + cnt y (uidsOf P')
                       + cnt y (frameUids (stack u) (top u)))%nat
  /\ cnt y (allUids u') = (cnt y (uidsOf (firstn (index u) (children (top u))))
                           + cnt y (deepUids (top u')) + cnt y (uidsOf P')
                           + cnt y (frameUids (stack u) (top u)))%nat.
Proof.
  intros Hi (_ & p1 & Hst & Hidx & Hinfo & Hsk & Hch & Hm & _ & Hc).
  destruct (@Enter_lists u u' p1 P' Hi Hch) as (L1 & L2 & _).
  unfold allUids. rewrite Hst. cbn [frameUids]. rewrite L1, L2.
  rewrite (frameUids_info (stack u) p1 (top u)) by (apply info_eq in Hinfo; tauto).
  split.
  - rewrite <- (firstn_skipn (index u) (children (top u))) at 1. rewrite Hsk.
    destruct c as [c0|]; cbn [consumed]; cnt_norm; lia.
  - rewrite (deepUids_unfold (top u')), Hm. cnt_norm. lia.
Qed.

Lemma oldOK_children d :
  oldOK d = true -> isMarkViewDesc d = true -> Forall (fun x => oldOK x = true) (children d).
Proof.
  intros H Hm. rewrite oldOK_unfold, Hm in H. apply andb_prop in H. destruct H as [_ H].
  apply Forall_forall. intros x Hx. rewrite forallb_forall in H. now apply H.
Qed.

Lemma Inv_enter lb u u' D c P' :
  Inv lb u -> Enter u u' D c P' -> Inv lb u'.
Proof.
  intros I HE. pose proof (inv_pos I) as [Hi Hfr].
  pose proof HE as (Hstat & p1 & Hst & Hidx & Hinfo & Hsk & Hch & Hm & Hd & Hc).
  destruct (@Enter_lists u u' p1 P' Hi Hch) as (L1 & L2 & L3).
  destruct Hstat as (Hpm & Hoff & _ & _ & Hf).
  constructor.
  - split; [rewrite Hidx; lia|]. rewrite Hst. cbn. split; [lia|exact Hfr].
  - apply liveOK_iff. unfold liveMarks. rewrite Hst. cbn [liveMarks_of].
    rewrite map_app. apply Forall_app. split.
    + rewrite (@liveMarks_of_info (stack u) p1 (top u) Hinfo).
      apply liveOK_iff. apply (inv_live I).
    + constructor; [|constructor]. apply liveInfo_iff. auto.
  - intros y. destruct (Enter_uids y Hi HE) as [E1 E2].
    pose proof (inv_uids I y) as U. rewrite E2. rewrite E1 in U.
    destruct c as [c0|]; cbn [consumed] in U.
    + subst c0. cnt_norm_in U.
      destruct (Nat.ltb_spec y (fresh (world u))), (Nat.ltb_spec y (fresh (world u'))); lia.
    + destruct Hc as [Hc0 Hfresh]. rewrite deepUids_unfold, Hm, Hc0. cnt_norm.
      cnt_norm_in U.
      destruct (Nat.eqb_spec (uid (top u')) y), (Nat.ltb_spec y (fresh (world u))),
        (Nat.ltb_spec y (fresh (world u'))); lia.
  - pose proof (inv_old I) as O. unfold allPending in *. rewrite Hst, Hidx.
    cbn [framesPending]. rewrite skipn_O, L2.
    rewrite Hsk in O. apply Forall_app in O. destruct O as [O1 O2].
    apply Forall_app in O1. destruct O1 as [_ O1].
    apply Forall_app. split; [|apply Forall_app; split; [|exact O2]].
    + destruct c as [c0|]; cbn [consumed] in O1.
      * subst c0. inversion O1; subst. now apply oldOK_children.
      * destruct Hc as [-> _]. constructor.
    + destruct c; cbn [consumed] in O1; [now inversion O1|exact O1].
  - rewrite Hpm. apply (inv_pm_node I).
  - rewrite Hpm. apply (inv_pm_uniq I).
  - rewrite Hpm. eapply Forall_impl; [|apply (inv_pm_old I)]. cbn. intros; lia.
  - intros j p Hj Hl Hin. rewrite Hpm in Hj. rewrite Hoff in Hl.
    assert (Hold : (uid p < fresh (world u))%nat).
    { pose proof (inv_pm_old I) as F. rewrite Forall_forall in F. apply F.
      eapply nth_error_In; eauto. }
    destruct (Enter_uids (uid p) Hi HE) as [E1 E2].
    pose proof (uidsOK_le1 (uid p) (inv_uids I)) as U1.
    apply cnt_In in Hin.
    assert (Hx0 : cnt (uid p) (deepUids (top u')) = cnt (uid p) (uidsOf (consumed c []))).
    { destruct c as [c0|]; cbn [consumed].
      - subst c0. cnt_norm. lia.
      - destruct Hc as [Hc0 Hfresh]. rewrite deepUids_unfold, Hm, Hc0. cnt_norm.
        destruct (Nat.eqb_spec (uid (top u')) (uid p)); lia. }
    assert (Hin0 : In (uid p) (allUids u)) by (apply cnt_In; lia).
    pose proof (inv_pend I j Hj Hl Hin0) as Hr.
    unfold rootPending in *. rewrite Hst. cbn [rootPending_of]. rewrite L2.
    destruct (stack u) as [|fr r] eqn:Est; [|exact Hr].
    cbn [rootPending_of] in *. rewrite Hsk in Hr.
    apply in_app_or in Hr. destruct Hr as [Hr|Hr].
    + exfalso. apply In_uidsOf, cnt_In in Hr. lia.
    + destruct c as [c0|]; cbn [consumed] in Hr; [|exact Hr].
      destruct Hr as [Hr|Hr]; [|exact Hr]. exfalso. subst c0. subst p.
      pose proof (inv_pm_node I) as F. rewrite Forall_forall in F.
      assert (Hn : isNodeViewDesc (top u') = true) by (apply F; eapply nth_error_In; eauto).
      unfold isNodeViewDesc, desc_node, isMarkViewDesc in *.
      destruct (kind (top u')); discriminate.
Qed.

(** What [leaveMark] does when there is a mark to leave. *)
Lemma leaveMark_spec u p i st :
  positions_ok u -> stack u = (p, i) :: st ->
  let u' := leaveMark u in
  sameStatic u u' /\ stack u' = st /\ index u' = i /\ info (top u') = info p
  /\ exists t',
      children (top u') = firstn (i - 1) (children p) ++ t' :: skipn i (children p)
      /\ uid t' = uid (top u) /\ kind t' = kind (top u) /\ dirty t' = NOT_DIRTY
      /\ children t' = firstn (index u) (children (top u)).
Proof.
  intros [Hi Hfr] Hst. rewrite Hst in Hfr. cbn in Hfr. destruct Hfr as [[H1 H2] _].
  destruct (destroyRest_top u Hi) as (Dc & Du & Dk & Dd & _ & Ds & Dx).
  cbn zeta. unfold leaveMark. rewrite Ds, Hst.
  split; [|split; [reflexivity|split; [reflexivity|split; [reflexivity|]]]].
  - pose proof (destroyBetween_static (index u) (List.length (children (top u))) u) as S0.
    unfold sameStatic in *. cbn. exact S0.
  - exists (set_dirty NOT_DIRTY (top (destroyRest u))). cbn.
    split; [|split; [exact Du|split; [exact Dk|split; [reflexivity|exact Dc]]]].
    unfold replace_nth. now replace (S (i - 1)) with i by lia.
Qed.

Lemma Inv_leave lb u :
  Inv lb u -> stack u <> [] -> Inv lb (leaveMark u).
Proof.
  intros I Hne. pose proof (inv_pos I) as Hpos. pose proof Hpos as [Hi Hfr].
  destruct (stack u) as [|[p i] st] eqn:Est; [contradiction|].
  destruct (leaveMark_spec Hpos Est) as (Hstat & Hst & Hidx & Hinfo & t' & Hch & Ut & Kt & Dt & Ct).
  cbn in Hfr. destruct Hfr as [[H1 H2] Hfr'].
  destruct Hstat as (Hpm & Hoff & _ & _ & Hf).
  assert (Hmark : isMarkViewDesc (top u) = true).
  { pose proof (inv_live I) as L. unfold liveOK, liveMarks in L. rewrite Est in L.
    cbn [liveMarks_of] in L. apply Forall_app in L. destruct L as [_ L].
    inversion L; subst. tauto. }
  assert (Hmt : isMarkViewDesc t' = true).
  { unfold isMarkViewDesc in *. now rewrite Kt. }
  assert (Hsk : skipn i (children (top (leaveMark u))) = skipn i (children p)).
  { rewrite Hch. rewrite skipn_app, length_firstn_le by lia.
    replace (i - (i - 1))%nat with 1%nat by lia.
    rewrite skipn_all2 by (rewrite length_firstn; lia). reflexivity. }
  assert (Huids : forall y,
             cnt y (allUids (leaveMark u))
             = (cnt y (uidsOf (firstn (i - 1) (children p))) + cnt y [uid (top u)]
                + cnt y (uidsOf (firstn (index u) (children (top u))))
                + cnt y (uidsOf (skipn i (children p))) + cnt y (frameUids st p))%nat
             /\ cnt y (allUids u)
                = (cnt y (uidsOf (firstn (index u) (children (top u))))
                   + cnt y (uidsOf (skipn (index u) (children (top u))))
                   + cnt y [uid (top u)] + cnt y (uidsOf (firstn (i - 1) (children p)))
                   + cnt y (uidsOf (skipn i (children p))) + cnt y (frameUids st p))%nat).
  { intros y. unfold allUids. rewrite Hst, Hch, Est. cbn [frameUids].
    rewrite (frameUids_info st (top (leaveMark u)) p) by (apply info_eq in Hinfo; tauto).
    split.
    - cnt_norm. rewrite (deepUids_unfold t'), Hmt, Ct, Ut. cnt_norm. lia.
    - cnt_norm. rewrite (cnt_firstn_skipn y (children (top u)) (index u)). lia. }
  constructor.
  - now apply leaveMark_positions.
  - apply liveOK_iff. destruct (@leaveMark_live u) as [E _]; [rewrite Est; discriminate|].
    rewrite E. apply Forall_removelast. apply liveOK_iff. apply (inv_live I).
  - intros y. destruct (Huids y) as [E1 E2]. pose proof (inv_uids I y) as U.
    rewrite E1. rewrite E2 in U.
    destruct (Nat.ltb_spec y (fresh (world u))), (Nat.ltb_spec y (fresh (world (leaveMark u))));
      lia.
  - pose proof (inv_old I) as O. unfold allPending in *. rewrite Hst, Hidx, Hsk.
    rewrite Est in O. cbn [framesPending] in O. apply Forall_app in O. tauto.
  - rewrite Hpm. apply (inv_pm_node I).
  - rewrite Hpm. apply (inv_pm_uniq I).
  - rewrite Hpm. eapply Forall_impl; [|apply (inv_pm_old I)]. cbn. intros; lia.
  - intros j q Hj Hl Hin. rewrite Hpm in Hj. rewrite Hoff in Hl.
    destruct (Huids (uid q)) as [E1 E2]. apply cnt_In in Hin.
    assert (Hin0 : In (uid q) (allUids u)) by (apply cnt_In; lia).
    pose proof (inv_pend I j Hj Hl Hin0) as Hr.
    unfold rootPending in *. rewrite Hst, Hidx, Hsk. rewrite Est in Hr. exact Hr.
Qed.

(** ** Syncing to marks keeps the invariants *)

Lemma syncToMarks_ind (P : Updater -> Prop) marks u :
  P u ->
  (forall v, P v -> stack v <> [] -> P (leaveMark v)) ->
  (forall m v, P v -> P (enterMark m v)) ->
  P (syncToMarks marks u).
Proof.
  intros H0 Hl He. unfold syncToMarks.
  destruct (countKeep_bound (liveMarks u) marks) as [B1 _].
  unfold liveMarks in B1 at 2. rewrite liveMarks_of_length in B1.
  set (n := (List.length (stack u) - countKeep (liveMarks u) marks)%nat).
  assert (Hn : (n <= List.length (stack u))%nat) by (unfold n; lia).
  clearbody n.
  assert (Hit : P (Nat.iter n leaveMark u)).
  { induction n as [|n IH]; [exact H0|].
    change (Nat.iter (S n) leaveMark u) with (leaveMark (Nat.iter n leaveMark u)).
    apply Hl; [apply IH; lia|].
    destruct (@iter_leaveMark_live n u) as [_ E]; [lia|].
    intros Hs. rewrite Hs in E. cbn in E. lia. }
  generalize (skipn (countKeep (liveMarks u) marks) marks). intros ms.
  revert Hit. generalize (Nat.iter n leaveMark u). clear - He.
  induction ms as [|m ms IH]; intros v Hv; cbn; [exact Hv|].
  apply IH. now apply He.
Qed.

Lemma Inv_sync lb marks u : Inv lb u -> Inv lb (syncToMarks marks u).
Proof.
  intros I. apply syncToMarks_ind; auto.
  - intros v Iv Hs. now apply Inv_leave.
  - intros m v Iv. destruct (@enterMark_Enter m v) as (D & c & P' & HE & _);
      [apply (inv_pos Iv)|].
    eapply Inv_enter; eauto.
Qed.

Lemma rootVisited_of_frames st : forall a b,
  st <> [] -> rootVisited_of st a = rootVisited_of st b.
Proof. destruct st as [|[p i] r]; intros a b H; [contradiction|reflexivity]. Qed.

Lemma rootNodes_enter u u' D c P' :
  (index u <= List.length (children (top u)))%nat ->
  Enter u u' D c P' -> rootNodes u' = rootNodes u.
Proof.
  intros Hi (_ & p1 & Hst & Hidx & Hinfo & Hsk & Hch & _).
  destruct (@Enter_lists u u' p1 P' Hi Hch) as (L1 & _).
  unfold rootNodes, rootVisited. rewrite Hst. cbn [rootVisited_of]. now rewrite L1.
Qed.

Lemma rootNodes_leave lb u :
  Inv lb u -> stack u <> [] -> rootNodes (leaveMark u) = rootNodes u.
Proof.
  intros I Hne. pose proof (inv_pos I) as Hpos. pose proof Hpos as [Hi Hfr].
  destruct (stack u) as [|[p i] st] eqn:Est; [contradiction|].
  destruct (leaveMark_spec Hpos Est) as (_ & Hst & Hidx & Hinfo & t' & Hch & Ut & Kt & Dt & Ct).
  cbn in Hfr. destruct Hfr as [[H1 H2] Hfr'].
  assert (Hmark : isMarkViewDesc (top u) = true).
  { pose proof (inv_live I) as L. unfold liveOK, liveMarks in L. rewrite Est in L.
    cbn [liveMarks_of] in L. apply Forall_app in L. destruct L as [_ L].
    inversion L; subst. tauto. }
  unfold rootNodes, rootVisited. rewrite Hst, Hidx, Est. cbn [rootVisited_of].
  destruct st as [|fr r].
  - cbn [rootVisited_of]. rewrite Hch.
    rewrite firstn_app, length_firstn_le by lia.
    replace (i - (i - 1))%nat with 1%nat by lia. cbn [firstn].
    rewrite firstn_all2 by (rewrite length_firstn; lia).
    rewrite filter_app. cbn [filter].
    assert (E : isNodeViewDesc t' = false).
    { unfold isNodeViewDesc, desc_node, isMarkViewDesc in *. rewrite Kt.
      destruct (kind (top u)); congruence. }
    rewrite E. now rewrite app_nil_r.
  - erewrite rootVisited_of_frames; [reflexivity|discriminate].
Qed.

Lemma rootNodes_sync lb marks u :
  Inv lb u -> rootNodes (syncToMarks marks u) = rootNodes u.
Proof.
  intros I.
  apply (@syncToMarks_ind (fun v => Inv lb v /\ rootNodes v = rootNodes u) marks u); auto.
  - intros v [Iv E] Hs. split; [now apply Inv_leave|].
    rewrite <- E. eapply rootNodes_leave; eauto.
  - intros m v [Iv E]. destruct (@enterMark_Enter m v) as (D & c & P' & HE & _);
      [apply (inv_pos Iv)|].
    split; [eapply Inv_enter; eauto|]. rewrite <- E.
    eapply rootNodes_enter; eauto. apply (inv_pos Iv).
Qed.

Lemma rootNodes_step u u' D c x P' :
  (index u <= List.length (children (top u)))%nat ->
  Step u u' D c x P' ->
  rootNodes u' = if match stack u with [] => isNodeViewDesc x | _ => false end
                 then rootNodes u ++ [x] else rootNodes u.
Proof.
  intros Hi (_ & Hst & Hidx & _ & _ & Hch & _).
  unfold rootNodes, rootVisited. rewrite Hst, Hidx.
  destruct (stack u) as [|fr r] eqn:Est.
  - cbn [rootVisited_of]. rewrite Hch.
    rewrite firstn_app. rewrite length_firstn_le by exact Hi.
    rewrite (@firstn_all2 _ (S (index u)) (firstn (index u) (children (top u))))
      by (rewrite length_firstn; lia).
    replace (S (index u) - index u)%nat with 1%nat by lia. cbn [firstn].
    rewrite filter_app. cbn [filter]. destruct (isNodeViewDesc x); [reflexivity|].
    now rewrite app_nil_r.
  - erewrite rootVisited_of_frames; [reflexivity|discriminate].
Qed.

Lemma syncToMarks_depth marks u :
  List.length (stack (syncToMarks marks u)) = List.length marks.
Proof. destruct (syncToMarks_live marks u) as (cs & _ & _ & E). exact E. Qed.

(** ** One event of the first pass *)

Lemma bind_Ok (A B : Type) (m : M A) (k : A -> M B) r :
  bind m k = Some (Ok r) -> exists a, m = Some (Ok a) /\ k a = Some (Ok r).
Proof.
  unfold bind. destruct m as [[a|e]|]; try discriminate. intros H. exists a. auto.
Qed.

Lemma onNode_shape lb child od idc idx off u u' :
  Inv lb u -> (0 <= idx -> lb <= idx) ->
  (node_isLeaf child = true -> idc = DecorationSet_empty) ->
  onNode view rec child od idc idx off u = Some (Ok u') ->
  exists D c x P',
    Step (syncToMarks (node_marks child) u) u' D c x P'
    /\ matchesNode x child od idc = true
    /\ Inv (if Z.ltb idx 0 then lb else idx + 1) u'.
Proof.
  intros I Hlb Hleaf. unfold onNode.
  pose proof (Inv_sync (node_marks child) I) as Is.
  set (us := syncToMarks (node_marks child) u) in *.
  assert (Hl' : lb <= (if Z.ltb idx 0 then lb else idx + 1)).
  { destruct (Z.ltb_spec idx 0); lia. }
  assert (Hside : forall (c0 : ViewDesc),
             (forall j p, nth_error (preMatched us) j = Some p -> p = c0 ->
                          Z.of_nat (preMatchOffset us + j) = idx) ->
             forall c1 j p, Some c0 = Some c1 -> nth_error (preMatched us) j = Some p ->
                            p = c1 ->
                            Z.of_nat (preMatchOffset us + j) < (if Z.ltb idx 0 then lb else idx + 1)).
  { intros c0 H c1 j p E Hj Hp. injection E as <-. specialize (H j p Hj Hp).
    destruct (Z.ltb_spec idx 0); lia. }
  destruct (findNodeMatch child od idc idx us) as [u1|] eqn:Ef.
  - unfold ret. intros H. injection H as <-.
    edestruct findNodeMatch_step as (D & c & P' & HS & Hm & Hsc); [exact Is|exact Hlb|exact Ef|].
    exists D, (Some c), c, P'. split; [exact HS|]. split; [exact Hm|].
    eapply Inv_step; eauto.
  - intros H. apply bind_Ok in H. destruct H as ([u1|] & Eu & H).
    + unfold ret in H. injection H as <-.
      edestruct updateNextNode_step as (D & c & x & P' & HS & Hm & Hsc); [exact Is|exact Hleaf|exact Eu|].
      exists D, (Some c), x, P'. split; [exact HS|]. split; [exact Hm|].
      eapply Inv_step; eauto.
    + edestruct addNode_step as (x & HS & Hm); [exact H|].
      exists [], None, x, (skipn (index us) (children (top us))).
      split; [exact HS|]. split; [exact Hm|].
      eapply Inv_step; eauto. intros; discriminate.
Qed.

Lemma incrOK_head lb e r :
  incrOK lb (e :: r) ->
  match e with
  | OnNode _ _ _ idx => 0 <= idx -> lb <= idx
  | OnWidget _ _ _ => True
  end /\ incrOK (nextLb lb e) r.
Proof.
  destruct e as [w i b|c od idc idx]; cbn; [tauto|].
  destruct (Z.ltb_spec idx 0); [split; [lia|auto]|]. intros [H1 H2]. auto.
Qed.

(** What an event does in the first pass: the updater syncs to the marks,
    then steps over the descriptor of the event. *)
Lemma event_shape lb parent e u off u' off' :
  Inv lb u ->
  match e with
  | OnNode _ _ _ idx => 0 <= idx -> lb <= idx
  | OnWidget _ _ _ => True
  end ->
  leafInner e ->
  onEvent view rec parent e (u, off) = Some (Ok (u', off')) ->
  Inv lb (eventSync parent e u)
  /\ rootNodes (eventSync parent e u) = rootNodes u
  /\ off' = match e with OnNode c _ _ _ => off + nodeSize c | _ => off end
  /\ exists D c x P',
      Step (eventSync parent e u) u' D c x P' /\ itemFor x e
      /\ Inv (nextLb lb e) u'.
Proof.
  intros I Hlb Hleaf H. cbn [onEvent] in H. destruct e as [widget i inside|child od idc idx].
  - apply bind_Ok in H. destruct H as (u1 & Ew & H). unfold ret in H. injection H as <- <-.
    unfold onWidget in Ew. cbn [eventSync nextLb].
    set (us := match deco_type widget with
               | WidgetType _ side (Some marks) _ => syncToMarks marks u
               | WidgetType _ side None _ =>
                   if Z.geb side 0 && negb inside
                   then syncToMarks (match nth_error (node_content parent) i with
                                     | Some c => node_marks c
                                     | None => []
                                     end) u
                   else u
               | _ => u
               end) in *.
    assert (Is : Inv lb us /\ rootNodes us = rootNodes u).
    { unfold us. destruct (deco_type widget) as [k side [marks|] td| |]; auto.
      - split; [now apply Inv_sync|eapply rootNodes_sync; eauto].
      - destruct (_ && _); auto. split; [now apply Inv_sync|eapply rootNodes_sync; eauto]. }
    destruct Is as [Is Er]. split; [exact Is|]. split; [exact Er|]. split; [reflexivity|].
    edestruct placeWidget_step as (c & x & P' & HS & Hk & Hn & Hc); [exact Is|exact Ew|].
    exists [], c, x, P'. split; [exact HS|]. split; [split; auto|].
    eapply Inv_step; eauto; [lia|].
    intros c0 j p E Hj Hp. exfalso. subst p.
    destruct Hc as [Hc|Hc]; rewrite Hc in E; [discriminate|]. injection E as <-.
    pose proof (inv_pm_node Is) as F. rewrite Forall_forall in F.
    assert (isNodeViewDesc x = true) by (apply F; eapply nth_error_In; eauto). congruence.
  - apply bind_Ok in H. destruct H as (u1 & En & H). unfold ret in H. injection H as <- <-.
    cbn [eventSync nextLb leafInner] in *.
    split; [now apply Inv_sync|]. split; [eapply rootNodes_sync; eauto|].
    split; [reflexivity|].
    edestruct onNode_shape as (D & c & x & P' & HS & Hm & I'); [exact I|exact Hlb|exact Hleaf|exact En|].
    exists D, c, x, P'. auto.
Qed.

Lemma Forall2_snoc (A B : Type) (R : A -> B -> Prop) l l' a b :
  Forall2 R l l' -> R a b -> Forall2 R (l ++ [a]) (l' ++ [b]).
Proof. intros H Hab. apply Forall2_app; [exact H|]. constructor; [exact Hab|constructor]. Qed.

Lemma event_Tr lb parent e u off u' off' done :
  Inv lb u ->
  match e with
  | OnNode _ _ _ idx => 0 <= idx -> lb <= idx
  | OnWidget _ _ _ => True
  end ->
  leafInner e ->
  onEvent view rec parent e (u, off) = Some (Ok (u', off')) ->
  Tr u done -> Tr u' (done ++ [e]).
Proof.
  intros I Hlb Hleaf H T.
  edestruct event_shape as (Is & Er & _ & D & c & x & P' & HS & Hit & _); [exact I|exact Hlb|exact Hleaf|exact H|].
  unfold Tr in *. rewrite (rootNodes_step (proj1 (inv_pos Is)) HS), Er, filter_app.
  destruct e as [widget i inside|child od idc idx]; cbn [itemFor rootNodeEv filter] in *.
  - rewrite app_nil_r. destruct Hit as [_ Hn]. rewrite Hn.
    destruct (stack _); exact T.
  - cbn [eventSync] in *. pose proof (syncToMarks_depth (node_marks child) u) as Hd.
    rewrite (matchesNode_isNode _ _ _ _ Hit).
    destruct (stack (syncToMarks (node_marks child) u)) as [|fr r],
      (node_marks child) as [|m ms]; try discriminate.
    + apply Forall2_snoc; [exact T|exact Hit].
    + rewrite app_nil_r. exact T.
Qed.

Lemma event_Inv lb parent e u off u' off' :
  Inv lb u ->
  match e with
  | OnNode _ _ _ idx => 0 <= idx -> lb <= idx
  | OnWidget _ _ _ => True
  end ->
  leafInner e ->
  onEvent view rec parent e (u, off) = Some (Ok (u', off')) ->
  Inv (nextLb lb e) u'.
Proof.
  intros I Hlb Hleaf H.
  edestruct event_shape as (_ & _ & _ & D & c & x & P' & _ & _ & I');
    [exact I|exact Hlb|exact Hleaf|exact H|]. exact I'.
Qed.

(** The events of the first pass, one after the other. *)
Lemma events_fwd parent evs : forall lb done u off u' off',
  Inv lb u -> incrOK lb evs -> Forall leafInner evs -> Tr u done ->
  onEvents view rec parent evs (u, off) = Some (Ok (u', off')) ->
  exists lb', Inv lb' u' /\ Tr u' (done ++ evs).
Proof.
  induction evs as [|e r IH]; intros lb done u off u' off' I Hinc Hleaf HT H.
  - cbn in H. injection H as <- <-. exists lb. rewrite app_nil_r. auto.
  - cbn [onEvents] in H. apply bind_Ok in H. destruct H as ([u1 off1] & He & Hr).
    apply incrOK_head in Hinc. destruct Hinc as [Hlb Hinc].
    apply Forall_cons_iff in Hleaf. destruct Hleaf as [H1 H2].
    assert (I1 : Inv (nextLb lb e) u1) by (eapply event_Inv; [exact I|exact Hlb|exact H1|exact He]).
    assert (T1 : Tr u1 (done ++ [e])) by (eapply event_Tr; [exact I|exact Hlb|exact H1|exact He|exact HT]).
    edestruct IH as (lb' & I' & T'); [exact I1|exact Hinc|exact H2|exact T1|exact Hr|].
    exists lb'. split; [exact I'|]. now rewrite <- app_assoc in T'.
Qed.

(** ** What a pass keeps whatever the children are like *)

Lemma Weak_refl u : Weak u u.
Proof. split; [apply sameStatic_refl|reflexivity]. Qed.

Lemma Weak_trans a b c : Weak a b -> Weak b c -> Weak a c.
Proof.
  intros [S1 R1] [S2 R2]. split; [eapply sameStatic_trans; eauto|congruence].
Qed.

Lemma rootInfo_eq u u' :
  stack u' = stack u -> info (top u') = info (top u) -> rootInfo u' = rootInfo u.
Proof. intros Hs Hi. unfold rootInfo. rewrite Hs. now apply rootInfo_of_info. Qed.

Lemma destroyBetween_Weak a b u : Weak u (destroyBetween a b u).
Proof.
  split; [apply destroyBetween_static|].
  apply rootInfo_eq; [apply destroyBetween_stack|apply destroyBetween_info].
Qed.

Lemma Step_Weak u u' D c x P' : Step u u' D c x P' -> Weak u u'.
Proof. intros (S1 & Hst & _ & Hinfo & _). split; [exact S1|now apply rootInfo_eq]. Qed.

Lemma leaveMark_Weak u : Weak u (leaveMark u).
Proof.
  unfold leaveMark.
  pose proof (destroyBetween_Weak (index u) (List.length (children (top u))) u) as W0.
  fold (destroyRest u) in W0. set (v := destroyRest u) in *.
  destruct (stack v) as [|[p i] st] eqn:Est; [exact W0|].
  eapply Weak_trans; [exact W0|]. split; [unfold sameStatic; cbn; auto 10|].
  unfold rootInfo. cbn. rewrite Est. cbn. now apply rootInfo_of_info.
Qed.

Lemma enterMark_Weak m u : Weak u (enterMark m u).
Proof.
  unfold enterMark.
  destruct (findFrom _ (children (top u)) (index u) 3) as [found|].
  - set (u1 := if Nat.ltb (index u) found
               then destroyBetween (index u) found (with_changed true u) else u).
    assert (W1 : Weak u u1).
    { unfold u1. destruct (Nat.ltb _ _); [|apply Weak_refl].
      eapply Weak_trans; [|apply destroyBetween_Weak].
      split; [unfold sameStatic; cbn; auto 10|reflexivity]. }
    destruct (nth_error (children (top u1)) (index u1)) as [child|]; [|exact W1].
    eapply Weak_trans; [exact W1|]. split; [unfold sameStatic; cbn; auto 10|reflexivity].
  - unfold MarkViewDesc_create. cbn. split; [unfold sameStatic; cbn; auto 10|].
    unfold rootInfo. cbn. now apply rootInfo_of_info.
Qed.

Lemma syncToMarks_Weak marks u : Weak u (syncToMarks marks u).
Proof.
  apply (@syncToMarks_ind (fun v => Weak u v)).
  - apply Weak_refl.
  - intros v Hv _. eapply Weak_trans; [exact Hv|apply leaveMark_Weak].
  - intros m v Hv. eapply Weak_trans; [exact Hv|apply enterMark_Weak].
Qed.

Lemma findNodeMatch_Weak node od idc idx u u' :
  findNodeMatch node od idc idx u = Some u' -> Weak u u'.
Proof.
  unfold findNodeMatch.
  match goal with |- match ?found with _ => _ end = _ -> _ => destruct found as [g|] end;
    [|discriminate].
  intros H. injection H as <-. eapply Weak_trans; [apply (destroyBetween_Weak (index u) g u)|].
  split; [unfold sameStatic; cbn; auto 10|reflexivity].
Qed.

Lemma updateNextNode_Weak node od idc idx u u' :
  updateNextNode view rec node od idc idx u = Some (Ok (Some u')) -> Weak u u'.
Proof.
  unfold updateNextNode.
  destruct (findFrom _ _ _ _) as [i|]; [|discriminate].
  destruct (nth_error _ i) as [next|]; [|discriminate].
  destruct (match indexOf next (preMatched u) with Some _ => _ | None => _ end);
    [discriminate|].
  destruct (isLocked _ _ _ _); [discriminate|].
  unfold bind.
  destruct (update view rec node od idc _ next (world u)) as [[[[next'|] w']|e]|] eqn:Eu;
    try discriminate.
  apply update_spec in Eu. destruct Eu as (_ & _ & Hf & _).
  intros H. injection H as <-.
  set (u1 := with_world w' (with_top (set_children (replace_nth i next' (children (top u)))
                                                   (top u)) u)).
  assert (W1 : Weak u u1).
  { split; [unfold sameStatic; cbn; auto 10|]. unfold rootInfo. cbn.
    now apply rootInfo_of_info. }
  pose proof (destroyBetween_Weak (index u1) i u1) as W2.
  set (u2 := destroyBetween (index u1) i u1) in *.
  eapply Weak_trans; [exact W1|]. eapply Weak_trans; [exact W2|].
  destruct (negb _); split; try (unfold sameStatic; cbn; auto 10); reflexivity.
Qed.

Lemma placeWidget_Weak widget u u' :
  placeWidget widget u = Some (Ok u') -> Weak u u'.
Proof.
  unfold placeWidget.
  destruct (match nth_error (children (top u)) (index u) with Some _ => _ | None => _ end).
  - unfold ret. intros H. injection H as <-.
    split; [unfold sameStatic; cbn; auto 10|reflexivity].
  - unfold bind. destruct (WidgetViewDesc_new widget (world u)) as [[[d w]|e]|] eqn:Ew;
      try discriminate.
    intros H. injection H as <-.
    assert (F : (fresh (world u) <= fresh w)%nat).
    { unfold WidgetViewDesc_new in Ew. destruct (deco_type widget); try discriminate.
      cbn [alloc] in Ew. destruct toDOM; cbn in Ew; injection Ew as <- <-; cbn; lia. }
    split; [unfold sameStatic; cbn; auto 10|]. unfold rootInfo. cbn.
    now apply rootInfo_of_info.
Qed.

Lemma addTextblockHacks_Weak u : Weak u (addTextblockHacks u).
Proof.
  destruct (addTextblockHacks_step u) as [[_ ->]|(_ & c & x & P' & HS & _)].
  - apply Weak_refl.
  - eapply Step_Weak; eauto.
Qed.

Lemma onEvent_Weak parent e u off u' off' :
  onEvent view rec parent e (u, off) = Some (Ok (u', off')) -> Weak u u'.
Proof.
  intros H. cbn [onEvent] in H. destruct e as [widget i inside|child od idc idx].
  - apply bind_Ok in H. destruct H as (u1 & Ew & H). unfold ret in H. injection H as <- <-.
    unfold onWidget in Ew. apply placeWidget_Weak in Ew.
    eapply Weak_trans; [|exact Ew].
    destruct (deco_type widget) as [k side [marks|] td| |]; try apply Weak_refl.
    + apply syncToMarks_Weak.
    + destruct (_ && _); [apply syncToMarks_Weak|apply Weak_refl].
  - apply bind_Ok in H. destruct H as (u1 & En & H). unfold ret in H. injection H as <- <-.
    unfold onNode in En.
    eapply Weak_trans; [apply (syncToMarks_Weak (node_marks child) u)|].
    destruct (findNodeMatch _ _ _ _ _) as [u2|] eqn:Ef.
    + injection En as <-. eapply findNodeMatch_Weak; eauto.
    + apply bind_Ok in En. destruct En as ([u2|] & Eu & En).
      * injection En as <-. eapply updateNextNode_Weak; eauto.
      * edestruct addNode_step as (x & HS & _); [exact En|]. eapply Step_Weak; eauto.
Qed.

Lemma onEvents_Weak parent evs : forall u off u' off',
  onEvents view rec parent evs (u, off) = Some (Ok (u', off')) -> Weak u u'.
Proof.
  induction evs as [|e r IH]; intros u off u' off' H.
  - cbn in H. injection H as <- <-. apply Weak_refl.
  - cbn [onEvents] in H. apply bind_Ok in H. destruct H as ([u1 off1] & He & Hr).
    eapply Weak_trans; [eapply onEvent_Weak; eauto|eapply IH; eauto].
Qed.

(** ** A whole pass *)

Lemma syncChildren_inv node d pos w uF :
  syncChildren view rec node d pos w = Some (Ok uF) ->
  exists evs uE offE,
    iterDeco node (desc_innerDeco d) = Some evs
    /\ onEvents view rec node evs (newUpdater d (compositionOf view node pos) pos w, pos)
       = Some (Ok (uE, offE))
    /\ uF = finishPass node uE.
Proof.
  unfold syncChildren. destruct (iterDeco node (desc_innerDeco d)) as [evs|]; [|discriminate].
  intros H. apply bind_Ok in H. destruct H as ([uE offE] & He & H).
  unfold ret in H. injection H as <-. exists evs, uE, offE. auto.
Qed.

Lemma Inv_newUpdater d lk pos w :
  wellFormed d w = true -> Inv 0 (newUpdater d lk pos w).
Proof.
  intros H. apply wellFormed_spec in H. destruct H as [HU HO].
  unfold newUpdater.
  set (frag := match desc_node d with Some n => node_content n | None => [] end).
  destruct (preMatch_spec frag (children d)) as (R0 & S0 & Ecs & Epm & _ & _).
  set (pm := fst (preMatch frag (children d))) in *.
  assert (Hin : forall p, In p pm -> In p (children d)).
  { intros p Hp. rewrite Epm in Hp. apply filter_In in Hp. rewrite Ecs.
    apply in_or_app. tauto. }
  constructor; cbn.
  - split; [cbn; lia|exact I].
  - constructor.
  - intros y. unfold allUids. cbn. rewrite app_nil_r. apply HU.
  - unfold allPending. cbn. rewrite app_nil_r. exact HO.
  - apply Forall_forall. intros p Hp. fold pm in Hp. rewrite Epm in Hp.
    apply filter_In in Hp. tauto.
  - fold pm. apply NoDup_cnt. intros y. rewrite Epm.
    pose proof (cnt_filter_le y isNodeViewDesc S0) as H1.
    pose proof (cnt_uidsOf_map y (children d)) as H2. specialize (HU y).
    assert (H3 : (cnt y (map uid S0) <= cnt y (map uid (children d)))%nat).
    { rewrite Ecs, map_app, cnt_app. lia. }
    destruct (Nat.ltb _ _); lia.
  - apply Forall_forall. intros p Hp. fold pm in Hp. apply Hin in Hp.
    apply In_uidsOf, cnt_In in Hp. specialize (HU (uid p)).
    destruct (Nat.ltb_spec (uid p) (fresh w)); lia.
  - intros j p Hj _ _. unfold rootPending. cbn. apply Hin. eapply nth_error_In; eauto.
Qed.

(** The end of a pass: the marks are left, a hack is added to a textblock
    that needs one. *)
Lemma finish_shape lb node uE :
  Inv lb uE ->
  let uS := syncToMarks [] uE in
  let uH := if node_isTextblock node then addTextblockHacks uS else uS in
  Inv lb uS /\ stack uS = [] /\ rootNodes uS = rootNodes uE
  /\ Inv lb uH /\ stack uH = [] /\ rootNodes uH = rootNodes uS
  /\ ((uH = uS /\ (node_isTextblock node = true -> needsHack uS = false))
      \/ (node_isTextblock node = true /\ needsHack uS = true
          /\ exists c x P', Step uS uH [] c x P' /\ matchesHack x = true)).
Proof.
  intros I uS uH.
  assert (Is : Inv lb uS) by (now apply Inv_sync).
  assert (Hst : stack uS = []).
  { pose proof (syncToMarks_depth [] uE) as H. fold uS in H.
    destruct (stack uS); [reflexivity|discriminate]. }
  assert (Hr : rootNodes uS = rootNodes uE) by (eapply rootNodes_sync; eauto).
  split; [exact Is|]. split; [exact Hst|]. split; [exact Hr|].
  unfold uH. destruct (node_isTextblock node).
  - destruct (addTextblockHacks_step uS) as [[Hn ->]|(Hn & c & x & P' & HS & Hm & Hx & Hc)].
    + split; [exact Is|]. split; [exact Hst|]. split; [reflexivity|]. left. auto.
    + assert (Ih : Inv lb (addTextblockHacks uS)).
      { eapply Inv_step; eauto; [lia|].
        intros c0 j p E Hj Hp. exfalso. subst p.
        destruct Hc as [Hc|Hc]; rewrite Hc in E; [discriminate|]. injection E as <-.
        pose proof (inv_pm_node Is) as F. rewrite Forall_forall in F.
        assert (isNodeViewDesc x = true) by (apply F; eapply nth_error_In; eauto).
        congruence. }
      split; [exact Ih|]. split; [destruct HS as (_ & -> & _); exact Hst|].
      split; [|right; split; [reflexivity|split; [exact Hn|eauto]]].
      rewrite (rootNodes_step (proj1 (inv_pos Is)) HS), Hst, Hx. reflexivity.
  - split; [exact Is|]. split; [exact Hst|]. split; [reflexivity|]. left.
    split; [reflexivity|discriminate].
Qed.

(** What a pass leaves: the descriptors of the unmarked node events, in
    order, among children that occur once. *)
Lemma pass_fwd node d lk pos w evs uE offE :
  wellFormed d w = true -> incrOK 0 evs -> Forall leafInner evs ->
  onEvents view rec node evs (newUpdater d lk pos w, pos) = Some (Ok (uE, offE)) ->
  let uF := finishPass node uE in
  stack uF = [] /\ index uF = List.length (children (top uF))
  /\ Forall2 itemOf (filter isNodeViewDesc (children (top uF))) (filter rootNodeEv evs)
  /\ (forall y, (cnt y (uidsOf (children (top uF))) <= 1)%nat)
  /\ info (top uF) = info d
  /\ (fresh w <= fresh (world uF))%nat.
Proof.
  intros Hwf Hinc Hleaf He uF.
  pose proof (@Inv_newUpdater d lk pos w Hwf) as I0.
  assert (T0 : Tr (newUpdater d lk pos w) []) by constructor.
  edestruct events_fwd as (lb & IE & TE); [exact I0|exact Hinc|exact Hleaf|exact T0|exact He|].
  cbn [app] in TE.
  destruct (@finish_shape lb node uE IE) as (Is & Hst & Hrs & Ih & Hsth & Hrh & _).
  set (uH := if node_isTextblock node then addTextblockHacks (syncToMarks [] uE)
             else syncToMarks [] uE) in *.
  pose proof (inv_pos Ih) as [Hi _].
  destruct (destroyRest_top uH Hi) as (Dc & Du & Dk & Dd & _ & Ds & Dx).
  assert (EF : uF = destroyRest uH) by reflexivity.
  assert (WE : Weak (newUpdater d lk pos w) uE) by (eapply onEvents_Weak; eauto).
  assert (WH : Weak uE uH).
  { eapply Weak_trans; [apply (syncToMarks_Weak [] uE)|]. unfold uH.
    destruct (node_isTextblock node); [apply addTextblockHacks_Weak|apply Weak_refl]. }
  assert (WF : Weak uH uF).
  { rewrite EF. apply destroyBetween_Weak. }
  pose proof (Weak_trans WE (Weak_trans WH WF)) as [(_ & _ & _ & _ & Hfresh) Hroot].
  rewrite EF in *. rewrite Ds, Hsth, Dx, Dc.
  split; [reflexivity|]. split; [rewrite length_firstn; lia|].
  split; [|split; [|split; [|exact Hfresh]]].
  - unfold Tr in TE. rewrite <- Hrs, <- Hrh in TE. unfold rootNodes, rootVisited in TE.
    rewrite Hsth in TE. exact TE.
  - intros y. pose proof (uidsOK_le1 y (inv_uids Ih)) as H1. unfold allUids in H1.
    rewrite Hsth in H1. cbn in H1. rewrite app_nil_r in H1.
    rewrite (cnt_firstn_skipn y (children (top uH)) (index uH)) in H1. lia.
  - unfold rootInfo in Hroot. rewrite Ds, Hsth in Hroot. exact Hroot.
Qed.

(** ** A pass keeps the host facts of the descriptor it updates *)

Lemma rootDomf_of_eq st : forall t t', domf t = domf t' -> rootDomf_of st t = rootDomf_of st t'.
Proof. destruct st as [|[p i] r]; intros t t' E; cbn; auto. Qed.

Lemma rootDomf_eq u u' :
  stack u' = stack u -> domf (top u') = domf (top u) -> rootDomf u' = rootDomf u.
Proof. intros Hs Hd. unfold rootDomf. rewrite Hs. now apply rootDomf_of_eq. Qed.

Lemma destroyBetween_domf a b u : rootDomf (destroyBetween a b u) = rootDomf u.
Proof.
  apply rootDomf_eq; [apply destroyBetween_stack|].
  unfold destroyBetween. destruct (Nat.eqb a b); reflexivity.
Qed.

Lemma leaveMark_domf u : rootDomf (leaveMark u) = rootDomf u.
Proof.
  unfold leaveMark.
  pose proof (destroyBetween_domf (index u) (List.length (children (top u))) u) as W0.
  fold (destroyRest u) in W0. set (v := destroyRest u) in *.
  destruct (stack v) as [|[p i] st] eqn:Est; [exact W0|].
  rewrite <- W0. unfold rootDomf. cbn. rewrite Est. cbn. now apply rootDomf_of_eq.
Qed.

Lemma enterMark_domf m u : rootDomf (enterMark m u) = rootDomf u.
Proof.
  unfold enterMark.
  destruct (findFrom _ (children (top u)) (index u) 3) as [found|].
  - set (u1 := if Nat.ltb (index u) found
               then destroyBetween (index u) found (with_changed true u) else u).
    assert (W1 : rootDomf u1 = rootDomf u).
    { unfold u1. destruct (Nat.ltb _ _); [|reflexivity].
      now rewrite destroyBetween_domf. }
    destruct (nth_error (children (top u1)) (index u1)) as [child|]; [|exact W1].
    rewrite <- W1. reflexivity.
  - unfold MarkViewDesc_create. cbn. unfold rootDomf. cbn. now apply rootDomf_of_eq.
Qed.

Lemma syncToMarks_domf marks u : rootDomf (syncToMarks marks u) = rootDomf u.
Proof.
  apply (@syncToMarks_ind (fun v => rootDomf v = rootDomf u)).
  - reflexivity.
  - intros v Hv _. now rewrite leaveMark_domf.
  - intros m v Hv. now rewrite enterMark_domf.
Qed.

Lemma findNodeMatch_domf node od idc idx u u' :
  findNodeMatch node od idc idx u = Some u' -> rootDomf u' = rootDomf u.
Proof.
  unfold findNodeMatch.
  match goal with |- match ?found with _ => _ end = _ -> _ => destruct found as [g|] end;
    [|discriminate].
  intros H. injection H as <-. rewrite <- (destroyBetween_domf (index u) g u). reflexivity.
Qed.

Lemma updateNextNode_domf node od idc idx u u' :
  updateNextNode view rec node od idc idx u = Some (Ok (Some u')) -> rootDomf u' = rootDomf u.
Proof.
  unfold updateNextNode.
  destruct (findFrom _ _ _ _) as [i|]; [|discriminate].
  destruct (nth_error _ i) as [next|]; [|discriminate].
  destruct (match indexOf next (preMatched u) with Some _ => _ | None => _ end);
    [discriminate|].
  destruct (isLocked _ _ _ _); [discriminate|].
  unfold bind.
  destruct (update view rec node od idc _ next (world u)) as [[[[next'|] w']|e]|] eqn:Eu;
    try discriminate.
  intros H. injection H as <-.
  set (u1 := with_world w' (with_top (set_children (replace_nth i next' (children (top u)))
                                                   (top u)) u)).
  assert (W1 : rootDomf u1 = rootDomf u).
  { unfold rootDomf. cbn. now apply rootDomf_of_eq. }
  pose proof (destroyBetween_domf (index u1) i u1) as W2.
  set (u2 := destroyBetween (index u1) i u1) in *.
  rewrite <- W1, <- W2. destruct (negb _); reflexivity.
Qed.

Lemma addNode_domf node od idc pos u u' :
  addNode view rec node od idc pos u = Some (Ok u') -> rootDomf u' = rootDomf u.
Proof.
  unfold addNode, bind.
  destruct (NodeViewDesc_create view rec node od idc pos (world u)) as [[[d w]|e]|];
    try discriminate.
  intros H. injection H as <-. unfold rootDomf. cbn. now apply rootDomf_of_eq.
Qed.

Lemma placeWidget_domf widget u u' :
  placeWidget widget u = Some (Ok u') -> rootDomf u' = rootDomf u.
Proof.
  unfold placeWidget.
  destruct (match nth_error (children (top u)) (index u) with Some _ => _ | None => _ end).
  - unfold ret. intros H. injection H as <-. reflexivity.
  - unfold bind. destruct (WidgetViewDesc_new widget (world u)) as [[[d w]|e]|];
      try discriminate.
    intros H. injection H as <-. unfold rootDomf. cbn. now apply rootDomf_of_eq.
Qed.

Lemma addTextblockHacks_domf u : rootDomf (addTextblockHacks u) = rootDomf u.
Proof.
  unfold addTextblockHacks. destruct (needsHack u); [|reflexivity].
  assert (H : rootDomf (insertHack u) = rootDomf u).
  { unfold insertHack. cbn. unfold rootDomf. cbn. now apply rootDomf_of_eq. }
  destruct (nth_error (children (top u)) (index u)) as [c|]; [|exact H].
  destruct (matchesHack c); [reflexivity|exact H].
Qed.

Lemma onEvent_domf parent e u off u' off' :
  onEvent view rec parent e (u, off) = Some (Ok (u', off')) -> rootDomf u' = rootDomf u.
Proof.
  intros H. cbn [onEvent] in H. destruct e as [widget i inside|child od idc idx].
  - apply bind_Ok in H. destruct H as (u1 & Ew & H). unfold ret in H. injection H as <- <-.
    unfold onWidget in Ew. apply placeWidget_domf in Ew. rewrite Ew.
    destruct (deco_type widget) as [k side [marks|] td| |]; try reflexivity.
    + apply syncToMarks_domf.
    + destruct (_ && _); [apply syncToMarks_domf|reflexivity].
  - apply bind_Ok in H. destruct H as (u1 & En & H). unfold ret in H. injection H as <- <-.
    unfold onNode in En.
    rewrite <- (syncToMarks_domf (node_marks child) u).
    destruct (findNodeMatch _ _ _ _ _) as [u2|] eqn:Ef.
    + injection En as <-. eapply findNodeMatch_domf; eauto.
    + apply bind_Ok in En. destruct En as ([u2|] & Eu & En).
      * injection En as <-. eapply updateNextNode_domf; eauto.
      * eapply addNode_domf; eauto.
Qed.

Lemma onEvents_domf parent evs : forall u off u' off',
  onEvents view rec parent evs (u, off) = Some (Ok (u', off')) -> rootDomf u' = rootDomf u.
Proof.
  induction evs as [|e r IH]; intros u off u' off' H.
  - cbn in H. injection H as <- <-. reflexivity.
  - cbn [onEvents] in H. apply bind_Ok in H. destruct H as ([u1 off1] & He & Hr).
    rewrite (IH _ _ _ _ Hr). eapply onEvent_domf; eauto.
Qed.

(** What [syncChildren] keeps of the descriptor it syncs. *)
Lemma syncChildren_keeps node d pos w uF :
  syncChildren view rec node d pos w = Some (Ok uF) ->
  info (top uF) = info d /\ domf (top uF) = domf d
  /\ (fresh w <= fresh (world uF))%nat.
Proof.
  intros H. apply syncChildren_inv in H. destruct H as (evs & uE & offE & _ & He & ->).
  unfold finishPass.
  set (uS := syncToMarks [] uE).
  set (uH := if node_isTextblock node then addTextblockHacks uS else uS).
  assert (Hst : stack (destroyRest uH) = []).
  { unfold destroyRest. rewrite destroyBetween_stack. unfold uH.
    assert (Hs : stack uS = []).
    { pose proof (syncToMarks_depth [] uE) as Hd. fold uS in Hd.
      destruct (stack uS); [reflexivity|discriminate]. }
    destruct (node_isTextblock node); [|exact Hs].
    destruct (addTextblockHacks_step uS) as [[_ ->]|(_ & c & x & P' & HS & _)]; [exact Hs|].
    destruct HS as (_ & -> & _). exact Hs. }
  assert (WE : Weak (newUpdater d (compositionOf view node pos) pos w) uE)
    by (eapply onEvents_Weak; eauto).
  assert (WH : Weak uE uH).
  { eapply Weak_trans; [apply (syncToMarks_Weak [] uE)|]. unfold uH.
    destruct (node_isTextblock node); [apply addTextblockHacks_Weak|apply Weak_refl]. }
  assert (WF : Weak uH (destroyRest uH)) by apply destroyBetween_Weak.
  pose proof (Weak_trans WE (Weak_trans WH WF)) as [(_ & _ & _ & _ & Hfresh) Hroot].
  assert (DF : rootDomf (destroyRest uH) = domf d).
  { unfold destroyRest. rewrite destroyBetween_domf. unfold uH.
    assert (Hs : rootDomf uS = domf d).
    { unfold uS. rewrite syncToMarks_domf. now rewrite (onEvents_domf _ _ _ _ He). }
    destruct (node_isTextblock node); [|exact Hs]. now rewrite addTextblockHacks_domf. }
  unfold rootInfo in Hroot. unfold rootDomf in DF. rewrite Hst in Hroot, DF.
  split; [exact Hroot|]. split; [exact DF|exact Hfresh].
Qed.

(** ** One event of the second pass *)

Lemma cnt_deep (l : list ViewDesc) : forall i t y,
  nth_error l i = Some t -> isMarkViewDesc t = true ->
  (cnt y (map uid l) + cnt y (uidsOf (children t)) <= cnt y (uidsOf l))%nat.
Proof.
  induction l as [|x r IH]; intros [|i] t y Ht Hm; try discriminate; cbn in Ht.
  - injection Ht as ->. cbn [map]. rewrite uidsOf_cons, cnt_app, deepUids_unfold, Hm.
    cnt_norm. pose proof (cnt_uidsOf_map y r). lia.
  - cbn [map]. rewrite uidsOf_cons, cnt_app, deepUids_unfold. cnt_norm.
    specialize (IH i t y Ht Hm). lia.
Qed.

Lemma linked_deep st1 : forall st2 t1 t2 T y,
  linked st1 st2 t2 T -> st1 <> [] -> kind t1 = kind t2 ->
  Forall (fun d => isMarkViewDesc d = true) (liveMarks_of st1 t1) ->
  (cnt y (map uid (children T)) + cnt y (uidsOf (children t2))
   <= cnt y (uidsOf (children T)))%nat.
Proof.
  induction st1 as [|[p1 i1] r1 IH]; intros st2 t1 t2 T y HL Hne Hk HF; [contradiction|].
  destruct st2 as [|[p2 i2] r2]; [contradiction|].
  cbn in HL. destruct HL as (_ & Hi & Hn & _ & [_ Hkp] & _ & HL).
  cbn [liveMarks_of] in HF. apply Forall_app in HF. destruct HF as [HF1 HF2].
  assert (Hm : isMarkViewDesc t2 = true).
  { inversion HF2; subst. unfold isMarkViewDesc in *. now rewrite <- Hk. }
  destruct r1 as [|fr r1'].
  - destruct r2; [|contradiction]. cbn in HL. subst p2. eapply cnt_deep; eauto.
  - specialize (IH r2 p1 p2 T y HL ltac:(discriminate) Hkp HF1).
    pose proof (cnt_deep _ _ y Hn Hm). lia.
Qed.

Lemma filter_nth (A : Type) (f : A -> bool) (l : list A) : forall q d,
  nth_error l q = Some d -> f d = true ->
  nth_error (filter f l) (List.length (filter f (firstn q l))) = Some d.
Proof.
  induction l as [|x r IH]; intros [|q] d Hd Hf; try discriminate; cbn in Hd.
  - injection Hd as ->. cbn. now rewrite Hf.
  - cbn. destruct (f x); cbn; now apply IH.
Qed.

Lemma isNode_strip d : isNodeViewDesc (strip d) = isNodeViewDesc d.
Proof. destruct d; reflexivity. Qed.

Lemma filter_strip_length (a : list ViewDesc) : forall b,
  map strip a = map strip b ->
  List.length (filter isNodeViewDesc a) = List.length (filter isNodeViewDesc b).
Proof.
  induction a as [|x r IH]; intros [|y s] H; try discriminate; [reflexivity|].
  cbn in H. injection H as Hxy Hr. cbn.
  rewrite <- (isNode_strip x), Hxy, isNode_strip. destruct (isNodeViewDesc y); cbn; auto.
Qed.

Lemma nth_filter_app (A : Type) (f : A -> bool) (done rest : list A) e :
  f e = true ->
  nth_error (filter f (done ++ e :: rest)) (List.length (filter f done)) = Some e.
Proof.
  intros H. rewrite filter_app. cbn. rewrite H.
  rewrite nth_error_app2 by lia. now rewrite Nat.sub_diag.
Qed.

Section SecondSim.
Variable pm2 : list ViewDesc.
Variable off2 : nat.
Variable lk2 : option Composition.
Variable pos2 : Z.
Variable w2 : World.
Variable T : ViewDesc.
Variable evs_all : list Event.
Hypothesis PM : PMfacts pm2 off2 T evs_all.

Lemma T_uniq : forall y, (cnt y (map uid (children T)) <= 1)%nat.
Proof.
  intros y. pose proof (pm_uniq PM y). pose proof (cnt_uidsOf_map y (children T)). lia.
Qed.

Lemma prematch_root d2 q child od idc idx done rest :
  evs_all = done ++ OnNode child od idc idx :: rest ->
  node_marks child = [] ->
  nth_error (children T) q = Some d2 ->
  matchesNode d2 child od idc = true ->
  List.length (filter isNodeViewDesc (firstn q (children T)))
  = List.length (filter rootNodeEv done) ->
  prematchAgrees pm2 off2 (children T) q d2 child od idc idx.
Proof.
  intros Eall Hm Hq Hmatch Hlen.
  assert (Hk : nth_error (filter isNodeViewDesc (children T))
                         (List.length (filter rootNodeEv done)) = Some d2).
  { rewrite <- Hlen. apply filter_nth; [exact Hq|]. eapply matchesNode_isNode; eauto. }
  assert (He : nth_error (filter rootNodeEv evs_all) (List.length (filter rootNodeEv done))
               = Some (OnNode child od idc idx)).
  { rewrite Eall. apply nth_filter_app. cbn. now rewrite Hm. }
  pose proof (pm_root PM _ He Hk) as Hok. unfold PMok, getPM in Hok. cbn [evIndex] in Hok.
  unfold prematchAgrees.
  destruct (if Z.ltb idx 0 then None
            else if Z.geb idx (Z.of_nat off2)
                 then nth_error pm2 (Z.to_nat (idx - Z.of_nat off2)) else None) as [p|];
    [|exact Hok].
  subst p. rewrite Hmatch. eapply indexOf_first; eauto. apply T_uniq.
Qed.

Lemma prematch_deep u1 t2 st2 d2 q child od idc idx :
  In (OnNode child od idc idx) evs_all -> node_marks child <> [] ->
  FocusAt u1 t2 st2 T -> stack u1 <> [] -> liveOK u1 ->
  nth_error (children t2) q = Some d2 ->
  prematchAgrees pm2 off2 (children t2) q d2 child od idc idx.
Proof.
  intros Hin Hm (Hh & _ & HL) Hne Hlive Hq.
  pose proof (pm_deep PM _ _ _ _ Hin Hm) as Hg. unfold getPM in Hg.
  unfold prematchAgrees. rewrite Hg.
  apply indexOf_None. intros Hc. apply in_map_iff in Hc. destruct Hc as (p & Ep & Hp).
  apply (pm_sub PM) in Hp.
  assert (H1 : In (uid d2) (map uid (children T))) by (rewrite <- Ep; now apply in_map).
  assert (Hf : Forall (fun d => isMarkViewDesc d = true) (liveMarks_of (stack u1) (top u1))).
  { eapply Forall_impl; [|exact Hlive]. cbn. tauto. }
  pose proof (@linked_deep (stack u1) st2 (top u1) t2 T (uid d2) HL Hne (proj2 Hh) Hf) as H2.
  pose proof (pm_uniq PM (uid d2)) as H3.
  assert (H4 : In (uid d2) (uidsOf (children t2))).
  { apply In_uidsOf. eapply nth_error_In; eauto. }
  apply cnt_In in H1, H4. lia.
Qed.

Lemma liveOK_clean u :
  liveOK u -> Forall (fun d => dirty d <> NODE_DIRTY) (liveMarks u).
Proof. intros H. eapply Forall_impl; [|exact H]. cbn. tauto. Qed.

Lemma sim_eventSync lb parent e u t2' st2' :
  Inv lb u ->
  FocusAt (eventSync parent e u) t2' st2' T ->
  exists t2 st2,
    FocusAt u t2 st2 T
    /\ eventSync parent e (secondPass pm2 off2 lk2 pos2 w2 t2 (index u) st2)
       = secondPass pm2 off2 lk2 pos2 w2 t2' (index (eventSync parent e u)) st2'.
Proof.
  intros I HF.
  assert (Hs : forall marks,
             FocusAt (syncToMarks marks u) t2' st2' T ->
             exists t2 st2,
               FocusAt u t2 st2 T
               /\ syncToMarks marks (secondPass pm2 off2 lk2 pos2 w2 t2 (index u) st2)
                  = secondPass pm2 off2 lk2 pos2 w2 t2' (index (syncToMarks marks u)) st2').
  { intros marks H. apply sim_syncToMarks; auto; [apply (inv_pos I)|].
    apply liveOK_clean, (inv_live I). }
  destruct e as [widget i inside|child od idc idx]; cbn [eventSync] in *.
  - destruct (deco_type widget) as [k side [marks|] td| |]; auto.
    + destruct (_ && _); auto. exists t2', st2'. auto.
    + exists t2', st2'. auto.
    + exists t2', st2'. auto.
  - auto.
Qed.

(** The second pass handles the event like the first, and changes nothing. *)
Lemma event_sim lb parent e u off u' off' done rest t2' st2' :
  evs_all = done ++ e :: rest ->
  Inv lb u ->
  match e with
  | OnNode _ _ _ idx => 0 <= idx -> lb <= idx
  | OnWidget _ _ _ => True
  end ->
  leafInner e -> Tr u done ->
  onEvent view rec parent e (u, off) = Some (Ok (u', off')) ->
  FocusAt u' t2' st2' T ->
  exists t2 st2,
    FocusAt u t2 st2 T
    /\ onEvent view rec parent e (secondPass pm2 off2 lk2 pos2 w2 t2 (index u) st2, off)
       = ret (secondPass pm2 off2 lk2 pos2 w2 t2' (index u') st2', off').
Proof.
  intros Eall I Hlb Hleaf HT H HF.
  edestruct event_shape as (Is & Er & Eoff & D & c & x & P' & HS & Hit & _);
    [exact I|exact Hlb|exact Hleaf|exact H|].
  pose proof (inv_pos Is) as Hpos.
  pose proof (Step_Advanced (proj1 Hpos) HS) as Hadv.
  destruct (sim_advance Hpos Hadv HF) as (HFs & d2 & Hd2 & Estrip).
  destruct (sim_eventSync parent e I HFs) as (t2 & st2 & HFu & Esync).
  exists t2, st2. split; [exact HFu|].
  assert (Hidx : index u' = S (index (eventSync parent e u))) by apply HS.
  destruct e as [widget i inside|child od idc idx]; cbn [onEvent itemFor] in *.
  - change (onWidget parent widget i inside
                     (secondPass pm2 off2 lk2 pos2 w2 t2 (index u) st2))
      with (placeWidget widget
              (eventSync parent (OnWidget widget i inside)
                         (secondPass pm2 off2 lk2 pos2 w2 t2 (index u) st2))).
    rewrite Esync.
    assert (HK : widgetKept d2 widget).
    { eapply widgetKept_strip; [exact Estrip|apply Hit]. }
    rewrite (@second_placeWidget pm2 off2 lk2 pos2 w2 t2' _ st2' d2 widget Hd2 HK).
    cbn. rewrite Hidx, Eoff. reflexivity.
  - unfold onNode.
    change (syncToMarks (node_marks child) (secondPass pm2 off2 lk2 pos2 w2 t2 (index u) st2))
      with (eventSync parent (OnNode child od idc idx)
                      (secondPass pm2 off2 lk2 pos2 w2 t2 (index u) st2)).
    rewrite Esync.
    assert (Hm2 : matchesNode d2 child od idc = true).
    { rewrite <- matchesNode_strip, Estrip, matchesNode_strip. exact Hit. }
    assert (HP : prematchAgrees pm2 off2 (children t2')
                                (index (eventSync parent (OnNode child od idc idx) u))
                                d2 child od idc idx).
    2: { rewrite (@second_findNodeMatch pm2 off2 lk2 pos2 w2 t2' _ st2' d2 child od idc idx
                                        Hd2 Hm2 HP).
         cbn. rewrite Hidx, Eoff. reflexivity. }
    { cbn [eventSync] in *.
      pose proof (syncToMarks_depth (node_marks child) u) as Hdepth.
      destruct (node_marks child) as [|m ms] eqn:Em.
      - destruct (stack (syncToMarks [] u)) as [|fr r] eqn:Est; [|discriminate].
        destruct HFs as (Hh & Hpre & HL). rewrite Est in HL.
        destruct st2' as [|fr2 r2]; [|destruct fr2; contradiction]. cbn in HL. subst t2'.
        eapply prematch_root; eauto.
        rewrite (filter_strip_length _ _ Hpre).
        unfold Tr in HT. apply Forall2_length in HT. rewrite <- HT, <- Er.
        unfold rootNodes, rootVisited. rewrite Est. reflexivity.
      - eapply prematch_deep; eauto.
        + rewrite Eall. apply in_or_app. right. left. reflexivity.
        + rewrite Em. discriminate.
        + intros Hs. rewrite Hs in Hdepth. discriminate.
        + apply (inv_live Is). }
Qed.

Lemma events_sim parent evs : forall lb done u off u' off' t2' st2',
  evs_all = done ++ evs ->
  Inv lb u -> incrOK lb evs -> Forall leafInner evs -> Tr u done ->
  onEvents view rec parent evs (u, off) = Some (Ok (u', off')) ->
  FocusAt u' t2' st2' T ->
  exists t2 st2,
    FocusAt u t2 st2 T
    /\ onEvents view rec parent evs (secondPass pm2 off2 lk2 pos2 w2 t2 (index u) st2, off)
       = ret (secondPass pm2 off2 lk2 pos2 w2 t2' (index u') st2', off').
Proof.
  induction evs as [|e r IH]; intros lb done u off u' off' t2' st2' Eall I Hinc Hleaf HT H HF.
  - cbn in H. injection H as <- <-. exists t2', st2'. split; [exact HF|reflexivity].
  - cbn [onEvents] in H. apply bind_Ok in H. destruct H as ([u1 off1] & He & Hr).
    apply incrOK_head in Hinc. destruct Hinc as [Hlb Hinc].
    apply Forall_cons_iff in Hleaf. destruct Hleaf as [H1 H2].
    assert (I1 : Inv (nextLb lb e) u1) by (eapply event_Inv; [exact I|exact Hlb|exact H1|exact He]).
    assert (T1 : Tr u1 (done ++ [e])) by (eapply event_Tr; [exact I|exact Hlb|exact H1|exact He|exact HT]).
    assert (Eall' : evs_all = (done ++ [e]) ++ r) by (now rewrite <- app_assoc).
    edestruct IH as (t2m & st2m & HFm & Em); [exact Eall'|exact I1|exact Hinc|exact H2|exact T1|exact Hr|exact HF|].
    edestruct event_sim as (t2 & st2 & HFu & Ee);
      [exact Eall|exact I|exact Hlb|exact H1|exact HT|exact He|exact HFm|].
    exists t2, st2. split; [exact HFu|].
    cbn [onEvents]. rewrite Ee. cbn. exact Em.
Qed.

(** The second pass over the tree the first pass leaves repeats the first
    pass step by step and changes nothing. *)
Lemma pass_sim node d lk pos w evs uE offE :
  evs_all = evs ->
  wellFormed d w = true -> incrOK 0 evs -> Forall leafInner evs ->
  onEvents view rec node evs (newUpdater d lk pos w, pos) = Some (Ok (uE, offE)) ->
  same_head (top (finishPass node uE)) T ->
  map strip (children T) = map strip (children (top (finishPass node uE))) ->
  exists tE stE,
    onEvents view rec node evs (secondPass pm2 off2 lk2 pos2 w2 T 0 [], pos)
    = ret (secondPass pm2 off2 lk2 pos2 w2 tE (index uE) stE, offE)
    /\ finishPass node (secondPass pm2 off2 lk2 pos2 w2 tE (index uE) stE)
       = secondPass pm2 off2 lk2 pos2 w2 T (List.length (children T)) [].
Proof.
  intros Eall Hwf Hinc Hleaf He Hhead Hstrip.
  pose proof (@Inv_newUpdater d lk pos w Hwf) as I0.
  assert (T0 : Tr (newUpdater d lk pos w) []) by constructor.
  edestruct events_fwd as (lb & IE & TE); [exact I0|exact Hinc|exact Hleaf|exact T0|exact He|].
  destruct (@finish_shape lb node uE IE) as (Is & Hst & Hrs & Ih & Hsth & Hrh & Hcase).
  unfold finishPass in *.
  set (uS := syncToMarks [] uE) in *.
  set (uH := if node_isTextblock node then addTextblockHacks uS else uS) in *.
  pose proof (inv_pos Ih) as [Hi _].
  destruct (destroyRest_top uH Hi) as (Dc & Du & Dk & Dd & _ & Ds & Dx).
  assert (Hlen : List.length (children T) = index uH).
  { rewrite <- (length_map strip), Hstrip, length_map, Dc, length_firstn. lia. }
  (* the place of the first pass before destroyRest *)
  assert (FH : FocusAt uH T [] T).
  { split; [|split].
    - destruct Hhead as [H1 H2]. split; congruence.
    - rewrite <- firstn_map, Hstrip, Dc, firstn_map, firstn_firstn, Nat.min_id. reflexivity.
    - rewrite Hsth. reflexivity. }
  (* the hack *)
  assert (FS : FocusAt uS T [] T
               /\ (if node_isTextblock node
                   then addTextblockHacks (secondPass pm2 off2 lk2 pos2 w2 T (index uS) [])
                   else secondPass pm2 off2 lk2 pos2 w2 T (index uS) [])
                  = secondPass pm2 off2 lk2 pos2 w2 T (index uH) []).
  { destruct Hcase as [[EH Hn]|(Htb & Hn & c & x & P' & HS & Hm)].
    - rewrite EH in *. split; [exact FH|]. destruct (node_isTextblock node); [|reflexivity].
      unfold addTextblockHacks.
      rewrite (@needsHack_strip uS (secondPass pm2 off2 lk2 pos2 w2 T (index uS) []));
        [now rewrite Hn|reflexivity|apply FH].
    - rewrite Htb in *.
      pose proof (Step_Advanced (proj1 (inv_pos Is)) HS) as Hadv.
      destruct (sim_advance (inv_pos Is) Hadv FH) as (FS & d2 & Hd2 & Estrip).
      split; [exact FS|].
      assert (Hm2 : matchesHack d2 = true).
      { rewrite <- matchesHack_strip, Estrip, matchesHack_strip. exact Hm. }
      assert (Hn2 : needsHack (secondPass pm2 off2 lk2 pos2 w2 T (index uS) []) = true).
      { rewrite (@needsHack_strip uS (secondPass pm2 off2 lk2 pos2 w2 T (index uS) []));
          [exact Hn|reflexivity|apply FS]. }
      rewrite (@second_hack pm2 off2 lk2 pos2 w2 T (index uS) [] d2 Hd2 Hm2 Hn2).
      destruct HS as (_ & _ & -> & _). reflexivity. }
  destruct FS as [FS Ehack].
  (* leaving the marks *)
  destruct (@sim_syncToMarks pm2 off2 lk2 pos2 w2 [] uE T [] T (inv_pos IE)
                             (liveOK_clean (inv_live IE)) FS) as (tE & stE & FE & Esync).
  fold uS in Esync.
  (* the events *)
  edestruct events_sim as (t0 & st0 & F0 & Eev);
    [rewrite app_nil_l; exact Eall|exact I0|exact Hinc|exact Hleaf|exact T0|exact He|exact FE|].
  destruct F0 as (_ & _ & HL0). cbn in HL0.
  destruct st0 as [|fr0 r0]; [|contradiction]. subst t0. cbn [index newUpdater] in Eev.
  exists tE, stE. split; [exact Eev|].
  rewrite Esync, Ehack.
  rewrite (@second_destroyRest pm2 off2 lk2 pos2 w2 T (index uH) [] Hlen).
  now rewrite Hlen.
Qed.
End SecondSim.
End FirstPass.

(** ** The pre-match of the second pass *)

Lemma sameSet_nil_l l : sameSet [] l = true -> l = [].
Proof. destruct l; [reflexivity|discriminate]. Qed.

Lemma sameSet_nil_r l : sameSet l [] = true -> l = [].
Proof. destruct l; [reflexivity|discriminate]. Qed.

Lemma Node_eq_proj a b :
  Node_eq a b = true ->
  sameSet (node_marks a) (node_marks b) = true /\ node_text a = node_text b.
Proof.
  destruct a, b; cbn; try discriminate; intros H.
  - apply andb_prop in H. destruct H as [H1 H2]. apply String.eqb_eq in H2. auto.
  - apply andb_prop in H. destruct H as [_ H]. auto.
  - apply andb_prop in H. destruct H as [H _].
    apply andb_prop in H. destruct H as [_ H]. auto.
Qed.

Lemma Forall2_snoc_inv (A B : Type) (R : A -> B -> Prop) (l : list A) a (m : list B) :
  Forall2 R (l ++ [a]) m -> exists m' b, m = m' ++ [b] /\ Forall2 R l m' /\ R a b.
Proof.
  intros H. apply Forall2_app_inv_l in H. destruct H as (m1 & m2 & H1 & H2 & ->).
  inversion H2 as [|? b ? r Hab Hr]; subst. inversion Hr; subst.
  exists m1, b. auto.
Qed.

Lemma CoversN_snoc F : forall i f E,
  CoversN i (F ++ [f]) E ->
  exists E' g, E = E' ++ g /\ Group (i + List.length F) f g /\ CoversN i F E'.
Proof.
  induction F as [|x r IH]; intros i f E H; cbn in H.
  - inversion H as [|? ? ? g rest Hg Hr]; subst. inversion Hr; subst.
    exists [], g. rewrite app_nil_r. cbn. rewrite Nat.add_0_r. split; [reflexivity|].
    split; [exact Hg|constructor].
  - inversion H as [|? ? ? g rest Hg Hr]; subst.
    destruct (IH _ _ _ Hr) as (E' & g' & -> & Hg' & Hc).
    exists (g ++ E'), g'. rewrite app_assoc. split; [reflexivity|].
    cbn [List.length]. replace (i + S (List.length r))%nat with (S i + List.length r)%nat by lia.
    split; [exact Hg'|]. constructor; auto.
Qed.

Lemma Group_index i f g e :
  Group i f g -> In e g -> evIndex e = -1 \/ evIndex e = Z.of_nat i.
Proof.
  intros [(od & idc & ->)|[_ H]] He.
  - destruct He as [<-|[]]. now right.
  - rewrite Forall_forall in H. specialize (H e He). destruct e; cbn in *; [tauto|].
    left. tauto.
Qed.

Lemma CoversN_index i F E :
  CoversN i F E -> forall e, In e E -> evIndex e < Z.of_nat (i + List.length F).
Proof.
  induction 1 as [|i f fr g rest Hg Hc IH]; intros e He; [contradiction|].
  apply in_app_or in He. destruct He as [He|He].
  - destruct (@Group_index i f g e Hg He) as [E1|E1]; rewrite E1; cbn [List.length]; lia.
  - specialize (IH e He). cbn [List.length]. lia.
Qed.

Lemma Group_marks i f g e :
  Group i f g -> In e g -> rootNodeEv e = match node_marks f with [] => true | _ => false end.
Proof.
  intros [(od & idc & ->)|[_ H]] He.
  - destruct He as [<-|[]]. reflexivity.
  - rewrite Forall_forall in H. specialize (H e He). destruct e; cbn in *; [tauto|].
    destruct H as (_ & -> & _). reflexivity.
Qed.

Lemma filter_all (A : Type) (f : A -> bool) (l : list A) :
  (forall x, In x l -> f x = true) -> filter f l = l.
Proof.
  induction l as [|x r IH]; intros H; [reflexivity|]. cbn.
  rewrite (H x (or_introl eq_refl)). f_equal. apply IH. intros y Hy. apply H. now right.
Qed.

Lemma filter_none (A : Type) (f : A -> bool) (l : list A) :
  (forall x, In x l -> f x = false) -> filter f l = [].
Proof.
  induction l as [|x r IH]; intros H; [reflexivity|]. cbn.
  rewrite (H x (or_introl eq_refl)). apply IH. intros y Hy. apply H. now right.
Qed.

Lemma itemOf_marks s e f :
  itemOf s e -> rootNodeEv e = true -> holdsNode s f -> node_marks f = [].
Proof.
  destruct e as [|c od idc idx]; cbn; [contradiction|]. intros Hm Hr (n & Hn & Hs).
  rewrite matchesNode_unfold, Hn in Hm.
  apply andb_prop in Hm. destruct Hm as [Hm _]. apply andb_prop in Hm. destruct Hm as [Hm _].
  apply andb_prop in Hm. destruct Hm as [_ Hm]. apply Node_eq_proj in Hm.
  destruct Hm as [Hm _]. destruct (node_marks c); [|discriminate].
  apply sameSet_nil_l in Hm. unfold PNode_same in Hs. apply andb_prop in Hs.
  destruct Hs as [_ Hs]. apply Node_eq_proj in Hs. destruct Hs as [Hs _].
  rewrite Hm in Hs. now apply sameSet_nil_l in Hs.
Qed.

Lemma itemOf_text s e f :
  itemOf s e -> holdsNode s f ->
  match e with OnNode c _ _ _ => node_text c = node_text f | _ => False end.
Proof.
  destruct e as [|c od idc idx]; cbn; [contradiction|]. intros Hm (n & Hn & Hs).
  rewrite matchesNode_unfold, Hn in Hm.
  apply andb_prop in Hm. destruct Hm as [Hm _]. apply andb_prop in Hm. destruct Hm as [Hm _].
  apply andb_prop in Hm. destruct Hm as [_ Hm]. apply Node_eq_proj in Hm.
  destruct Hm as [_ Hm]. unfold PNode_same in Hs. apply andb_prop in Hs.
  destruct Hs as [_ Hs]. apply Node_eq_proj in Hs. destruct Hs as [_ Hs]. congruence.
Qed.

(** The descriptors the pre-match holds are those of the last children,
    which the events hand over whole and without marks. *)
Lemma align S : forall Fs,
  Forall2 holdsNode S Fs ->
  forall R0 F0 NE,
    Forall2 itemOf (R0 ++ S) (filter rootNodeEv NE) ->
    CoversN 0 (F0 ++ Fs) NE ->
    exists E0 W,
      NE = E0 ++ W /\ WholeRun (List.length F0) Fs W /\ CoversN 0 F0 E0
      /\ Forall2 itemOf R0 (filter rootNodeEv E0).
Proof.
  induction S as [|s S1 IH]; intros Fs HP R0 F0 NE HT HC.
  - inversion HP; subst. rewrite app_nil_r in *. exists NE, [].
    rewrite app_nil_r. split; [reflexivity|]. split; [constructor|]. auto.
  - inversion HP as [|? f ? Fs1 Hsf HP1]; subst.
    replace (R0 ++ s :: S1) with ((R0 ++ [s]) ++ S1) in HT by (now rewrite <- app_assoc).
    replace (F0 ++ f :: Fs1) with ((F0 ++ [f]) ++ Fs1) in HC by (now rewrite <- app_assoc).
    destruct (IH Fs1 HP1 _ _ _ HT HC) as (E1 & W1 & -> & HW & HC1 & HT1).
    apply CoversN_snoc in HC1. destruct HC1 as (E0 & g & -> & Hg & HC0). cbn in Hg.
    rewrite filter_app in HT1.
    assert (Hroot : node_marks f = [] -> filter rootNodeEv g = g).
    { intros Hm. apply filter_all. intros e He. rewrite (@Group_marks _ f g e Hg He). now rewrite Hm. }
    assert (Hdeep : node_marks f <> [] -> filter rootNodeEv g = []).
    { intros Hm. apply filter_none. intros e He. rewrite (@Group_marks _ f g e Hg He).
      destruct (node_marks f); [contradiction|reflexivity]. }
    assert (Hm : node_marks f = []).
    { destruct (node_marks f) as [|m ms] eqn:Em; [reflexivity|]. exfalso.
      rewrite Hdeep, app_nil_r in HT1 by discriminate.
      apply Forall2_snoc_inv in HT1. destruct HT1 as (m' & e & Ee & _ & Hit).
      assert (He : In e (filter rootNodeEv E0)) by (rewrite Ee; apply in_or_app; right; now left).
      apply filter_In in He. destruct He as [_ He].
      pose proof (@itemOf_marks s e f Hit He Hsf). congruence. }
    rewrite (Hroot Hm) in HT1.
    destruct Hg as [(od & idc & ->)|[Hne Hpieces]].
    + apply Forall2_app_inv_l in HT1. destruct HT1 as (m1 & m2 & H1 & H2 & E12).
      assert (Hlen : List.length m2 = 1%nat).
      { apply Forall2_length in H2. cbn in H2. lia. }
      destruct m2 as [|b [|b' m2]]; try discriminate.
      apply app_inj_tail in E12. destruct E12 as [<- <-].
      exists E0, (OnNode f od idc (Z.of_nat (List.length F0)) :: W1).
      rewrite <- app_assoc. cbn.
      split; [reflexivity|]. split; [|split; [exact HC0|exact H1]].
      constructor; [exact Hm|]. rewrite length_app in HW. cbn in HW.
      now replace (S (List.length F0)) with (List.length F0 + 1)%nat by lia.
    + exfalso. destruct (exists_last Hne) as (g' & e & ->).
      rewrite app_assoc in HT1. apply Forall2_snoc_inv in HT1.
      destruct HT1 as (m' & e' & Ee & _ & Hit). apply app_inj_tail in Ee. destruct Ee as [_ <-].
      rewrite Forall_forall in Hpieces.
      assert (Hp : PieceEv f e) by (apply Hpieces; apply in_or_app; right; now left).
      pose proof (@itemOf_text s e f Hit Hsf) as Ht. destruct e as [|c od idc idx]; [contradiction|].
      cbn in Hp. destruct Hp as (_ & _ & Hl). rewrite Ht in Hl. lia.
Qed.

Lemma WholeRun_nth i Fs W :
  WholeRun i Fs W ->
  forall l e, nth_error W l = Some e ->
              evIndex e = Z.of_nat (i + l) /\ rootNodeEv e = true.
Proof.
  induction 1 as [|i f fs od idc W Hm HW IH]; intros l e He; [destruct l; discriminate|].
  destruct l as [|l]; cbn in He.
  - injection He as <-. cbn. rewrite Hm. split; [f_equal; lia|reflexivity].
  - destruct (IH l e He) as [E1 E2]. split; [rewrite E1; f_equal; lia|exact E2].
Qed.

Lemma WholeRun_length i Fs W : WholeRun i Fs W -> List.length W = List.length Fs.
Proof. induction 1; cbn; auto. Qed.

Lemma rootNodeEv_isOnNode e : rootNodeEv e = true -> isOnNode e = true.
Proof. destruct e; [discriminate|reflexivity]. Qed.

Lemma filter_root_onNode evs :
  filter rootNodeEv (filter isOnNode evs) = filter rootNodeEv evs.
Proof.
  induction evs as [|e r IH]; [reflexivity|]. cbn.
  destruct (isOnNode e) eqn:E1; cbn; [now rewrite IH|].
  destruct (rootNodeEv e) eqn:E2; [|exact IH].
  apply rootNodeEv_isOnNode in E2. congruence.
Qed.

Lemma PMfacts_intro frag T evs :
  Forall2 itemOf (filter isNodeViewDesc (children T)) (filter rootNodeEv evs) ->
  CoversN 0 frag (filter isOnNode evs) ->
  (forall y, (cnt y (uidsOf (children T)) <= 1)%nat) ->
  PMfacts (fst (preMatch frag (children T))) (snd (preMatch frag (children T))) T evs.
Proof.
  intros HT HC HU.
  destruct (preMatch_spec frag (children T)) as (R0 & S & Ecs & Epm & Elen & Eholds).
  set (pm := fst (preMatch frag (children T))) in *.
  set (off := snd (preMatch frag (children T))) in *.
  assert (Efrag : frag = firstn off frag ++ skipn off frag) by (now rewrite firstn_skipn).
  assert (HlenF0 : List.length (firstn off frag) = off) by (rewrite length_firstn; lia).
  rewrite Ecs, filter_app, <- Epm, <- filter_root_onNode in HT.
  rewrite Efrag in HC.
  destruct (align Eholds _ _ HT HC) as (E0 & W & ENE & HW & HC0 & HT0).
  rewrite HlenF0 in HW.
  assert (HWroot : filter rootNodeEv W = W).
  { apply filter_all. intros e He. apply In_nth_error in He. destruct He as [l Hl].
    now destruct (WholeRun_nth HW _ Hl). }
  assert (Hroot : filter rootNodeEv evs = filter rootNodeEv E0 ++ W).
  { rewrite <- filter_root_onNode, ENE, filter_app, HWroot. reflexivity. }
  assert (HE0 : forall e, In e E0 -> evIndex e < Z.of_nat off).
  { intros e He. pose proof (CoversN_index HC0 e He) as H. rewrite HlenF0 in H. exact H. }
  assert (Hnone : forall i, i < Z.of_nat off -> getPM pm off i = None).
  { intros i Hi. unfold getPM. destruct (Z.ltb i 0); [reflexivity|].
    destruct (Z.geb_spec i (Z.of_nat off)); [lia|reflexivity]. }
  assert (HUn : forall y, (cnt y (map uid (filter isNodeViewDesc R0 ++ pm)) <= 1)%nat).
  { intros y. rewrite Epm, <- filter_app, <- Ecs.
    pose proof (cnt_filter_le y isNodeViewDesc (children T)).
    pose proof (cnt_uidsOf_map y (children T)). specialize (HU y). lia. }
  assert (Ha : List.length (filter isNodeViewDesc R0) = List.length (filter rootNodeEv E0)).
  { now apply Forall2_length in HT0. }
  constructor.
  - intros k e d He Hd. rewrite Hroot in He. rewrite Ecs, filter_app, <- Epm in Hd.
    unfold PMok.
    destruct (Nat.lt_ge_cases k (List.length (filter isNodeViewDesc R0))) as [Hk|Hk].
    + rewrite nth_error_app1 in He by lia.
      assert (HeIn : In e E0).
      { apply nth_error_In in He. apply filter_In in He. tauto. }
      rewrite (Hnone _ (HE0 e HeIn)).
      apply indexOf_None. intros Hc. apply in_map_iff in Hc. destruct Hc as (p & Ep & Hp).
      apply In_nth_error in Hp. destruct Hp as [l Hl].
      assert (Hl' : nth_error (filter isNodeViewDesc R0 ++ pm)
                              (List.length (filter isNodeViewDesc R0) + l) = Some p).
      { rewrite nth_error_app2 by lia. now replace (_ + l - _)%nat with l by lia. }
      pose proof (uniq_nth _ _ _ HUn Hd Hl' (eq_sym Ep)). lia.
    + rewrite nth_error_app2 in He, Hd by lia. rewrite <- Ha in He.
      destruct (WholeRun_nth HW _ He) as [Ei _]. rewrite Ei.
      unfold getPM. destruct (Z.ltb_spec (Z.of_nat (off + (k - List.length (filter isNodeViewDesc R0)))) 0);
        [lia|].
      destruct (Z.geb_spec (Z.of_nat (off + (k - List.length (filter isNodeViewDesc R0))))
                           (Z.of_nat off)); [|lia].
      replace (Z.to_nat _) with (k - List.length (filter isNodeViewDesc R0))%nat by lia.
      rewrite Hd. reflexivity.
  - intros c od idc idx Hin Hm.
    assert (HinNE : In (OnNode c od idc idx) (filter isOnNode evs)).
    { apply filter_In. split; [exact Hin|reflexivity]. }
    rewrite ENE in HinNE. apply in_app_or in HinNE. destruct HinNE as [H|H].
    + apply Hnone. apply (HE0 _ H).
    + exfalso. apply In_nth_error in H. destruct H as [l Hl].
      destruct (WholeRun_nth HW _ Hl) as [_ Hr]. cbn in Hr.
      destruct (node_marks c); [contradiction|discriminate].
  - intros p Hp. rewrite Ecs. apply in_or_app. right. rewrite Epm in Hp.
    apply filter_In in Hp. tauto.
  - exact HU.
Qed.

(** ** The events [iterDeco] makes *)

Lemma leafInner_forChild deco offset c od idx :
  leafInner (OnNode c od (forChild deco offset c) idx).
Proof. cbn. unfold forChild. intros ->. reflexivity. Qed.

Lemma leafInner_widgets (ws : list Decoration) i b :
  Forall leafInner (map (fun w => OnWidget w i b) ws).
Proof. apply Forall_forall. intros e He. apply in_map_iff in He. destruct He as (w & <- & _). exact I. Qed.

Lemma iterDeco_simple_leaf deco cs : forall i off,
  Forall leafInner (iterDeco_simple deco cs i off).
Proof.
  induction cs as [|c r IH]; intros i off; cbn; constructor; auto.
  apply leafInner_forChild.
Qed.

Lemma iterDeco_loop_leaf fuel : forall deco ls active restNode cs parentIndex offset evs,
  iterDeco_loop fuel deco ls active restNode cs parentIndex offset = Some evs ->
  Forall leafInner evs.
Proof.
  induction fuel as [|fuel IH]; intros deco ls active restNode cs parentIndex offset evs H;
    [discriminate|].
  cbn [iterDeco_loop] in H.
  destruct (takeEndingAt offset ls) as [widgets ls1].
  assert (G : forall child index cs' pi' wev,
             Forall leafInner wev ->
             (let active0 := filter (fun a => negb (Z.leb (deco_to a) offset)) active in
              let '(more, ls0) := takeCovering offset ls1 in
              let active1 := active0 ++ more in
              let end_ := offset + nodeSize child in
              let cutAt := if node_isText child then cutAt_of end_ ls0 active1 else end_ in
              let '(restNode0, child0, end_0, index0) :=
                if node_isText child && Z.ltb cutAt end_
                then (Some (cut child (cutAt - offset) None),
                      cut child 0 (Some (cutAt - offset)), cutAt, (-1))
                else (None, child, end_, index) in
              match iterDeco_loop fuel deco ls0 active1 restNode0 cs' pi' end_0 with
              | None => None
              | Some evs0 =>
                  Some (wev ++ OnNode child0 active1 (forChild deco offset child0) index0
                            :: evs0)
              end) = Some evs ->
             Forall leafInner evs).
  { intros child index cs' pi' wev Hw. cbn zeta.
    destruct (takeCovering offset ls1) as [more ls0].
    destruct (node_isText child && _).
    - destruct (iterDeco_loop fuel _ _ _ _ _ _ _) as [evs0|] eqn:Er; [|discriminate].
      intros E. injection E as <-. apply Forall_app. split; [exact Hw|].
      constructor; [apply leafInner_forChild|eapply IH; eauto].
    - destruct (iterDeco_loop fuel _ _ _ _ _ _ _) as [evs0|] eqn:Er; [|discriminate].
      intros E. injection E as <-. apply Forall_app. split; [exact Hw|].
      constructor; [apply leafInner_forChild|eapply IH; eauto]. }
  destruct restNode as [r|].
  - eapply G; [|exact H]. apply leafInner_widgets.
  - destruct cs as [|c cs'].
    + injection H as <-. apply leafInner_widgets.
    + eapply G; [|exact H]. apply leafInner_widgets.
Qed.

Lemma iterDeco_leaf node deco evs :
  iterDeco node deco = Some evs -> Forall leafInner evs.
Proof.
  unfold iterDeco. destruct (locals deco) as [|l ls].
  - intros H. injection H as <-. apply iterDeco_simple_leaf.
  - apply iterDeco_loop_leaf.
Qed.

Lemma incrOK_filter evs : forall lb, incrOK lb (filter isOnNode evs) <-> incrOK lb evs.
Proof.
  induction evs as [|e r IH]; intros lb; [reflexivity|].
  destruct e as [w i b|c od idc idx]; cbn; [apply IH|].
  destruct (Z.ltb idx 0); [apply IH|]. rewrite IH. reflexivity.
Qed.

Lemma incrOK_mono evs : forall lb lb', lb <= lb' -> incrOK lb' evs -> incrOK lb evs.
Proof.
  induction evs as [|e r IH]; intros lb lb' Hle H; [exact I|].
  destruct e as [w i b|c od idc idx]; cbn in *; [eapply IH; eauto|].
  destruct (Z.ltb idx 0); [eapply IH; eauto|]. destruct H. split; [lia|auto].
Qed.

Lemma incrOK_pieces f g : forall lb rest,
  Forall (PieceEv f) g -> incrOK lb rest -> incrOK lb (g ++ rest).
Proof.
  induction g as [|e g IH]; intros lb rest Hg Hr; [exact Hr|].
  inversion Hg as [|? ? He Hg']; subst. destruct e as [|c od idc idx]; [contradiction|].
  cbn in He. destruct He as (-> & _). cbn. now apply IH.
Qed.

Lemma CoversN_incrOK i F NE : CoversN i F NE -> incrOK (Z.of_nat i) NE.
Proof.
  induction 1 as [|i f fr g rest Hg Hc IH]; [exact I|].
  destruct Hg as [(od & idc & ->)|[_ Hp]].
  - cbn. destruct (Z.ltb_spec (Z.of_nat i) 0); [lia|]. split; [lia|].
    now replace (Z.of_nat i + 1) with (Z.of_nat (S i)) by lia.
  - eapply incrOK_pieces; [exact Hp|]. eapply incrOK_mono; [|exact IH]. lia.
Qed.

(** Without decorations between the children every child is handed over
    whole. *)
Lemma iterDeco_simple_covers deco cs : forall i off,
  CoversN i cs (filter isOnNode (iterDeco_simple deco cs i off)).
Proof.
  induction cs as [|c r IH]; intros i off; cbn; [constructor|].
  apply (@cov_group i c r [OnNode c [] (forChild deco off c) (Z.of_nat i)]); [|apply IH].
  left. eauto.
Qed.

Lemma iterDeco_plain_covers node deco :
  locals deco = [] ->
  exists evs, iterDeco node deco = Some evs
              /\ CoversN 0 (node_content node) (filter isOnNode evs).
Proof.
  intros H. unfold iterDeco. rewrite H. eexists. split; [reflexivity|].
  apply iterDeco_simple_covers.
Qed.

(** ** Updating twice *)

Lemma compositionOf_off view node pos :
  composing view = false -> compositionOf view node pos = None.
Proof. intros H. unfold compositionOf. rewrite H, andb_false_r. reflexivity. Qed.

(** What [updateChildren] returns, when no composition is in progress: the
    descriptor the pass ends with, its children rendered if the pass
    changed something. *)
Lemma updateChildren_body_inv view rec fuel d pos w d' w' :
  composing view = false ->
  updateChildren_body view rec fuel d pos w = Some (Ok (d', w')) ->
  exists node uF,
    desc_node d = Some node
    /\ syncChildren view rec node d pos w = Some (Ok uF)
    /\ info d' = info (top uF) /\ domf d' = domf (top uF)
    /\ map strip (children d') = map strip (children (top uF))
    /\ fresh w' = fresh (world uF)
    /\ (changed uF = false -> dirty (top uF) <> CONTENT_DIRTY ->
        d' = top uF /\ w' = world uF).
Proof.
  intros Hc. unfold updateChildren_body. destruct (desc_node d) as [node|]; [|discriminate].
  intros H. apply bind_Ok in H. destruct H as (uF & Hs & H).
  exists node, uF. split; [reflexivity|]. split; [exact Hs|].
  rewrite (compositionOf_off view node pos Hc) in H.
  destruct (changed uF || Z.eqb (dirty (top uF)) CONTENT_DIRTY) eqn:Ech.
  - cbn [bind ret] in H. destruct (contentDOM (domf (top uF))) as [cdom|]; [|discriminate].
    injection H as <- <-. cbn [set_children info uid kind dirty domf children].
    split; [reflexivity|]. split; [reflexivity|]. split; [apply strip_renderDescs|].
    split; [destruct (ios view); reflexivity|].
    intros H1 H2. rewrite H1 in Ech. cbn in Ech. apply Z.eqb_eq in Ech. contradiction.
  - injection H as <- <-. repeat split; auto.
Qed.

Lemma updateChildren_keeps view :
  composing view = false ->
  forall fuel d pos w d' w',
    updateChildren fuel view d pos w = Some (Ok (d', w')) ->
    info d' = info d /\ domf d' = domf d /\ (fresh w <= fresh w')%nat.
Proof.
  intros Hc. induction fuel as [|fuel IH]; intros d pos w d' w' H; [discriminate|].
  cbn [updateChildren] in H.
  edestruct updateChildren_body_inv as (node & uF & Hn & Hs & Hi & Hd & _ & Hf & _);
    [exact Hc|exact H|].
  assert (rec_ok : forall d pos w d' w',
             updateChildren fuel view d pos w = Some (Ok (d', w')) ->
             uid d' = uid d /\ kind d' = kind d /\ dirty d' = dirty d
             /\ (fresh w <= fresh w')%nat).
  { intros d0 pos0 w0 d0' w0' H0. edestruct IH as (I0 & _ & F0); [exact H0|].
    apply info_eq in I0. tauto. }
  edestruct syncChildren_keeps as (Ki & Kd & Kf); [exact rec_ok|exact Hs|].
  split; [congruence|]. split; [congruence|lia].
Qed.

Lemma updateChildren_ok view :
  composing view = false ->
  forall fuel d pos w d' w',
    updateChildren fuel view d pos w = Some (Ok (d', w')) ->
    uid d' = uid d /\ kind d' = kind d /\ dirty d' = dirty d
    /\ (fresh w <= fresh w')%nat.
Proof.
  intros Hc fuel d pos w d' w' H.
  edestruct updateChildren_keeps as (I0 & _ & F0); [exact Hc|exact H|].
  apply info_eq in I0. tauto.
Qed.

Lemma itemOf_strip_transfer (a : list ViewDesc) : forall b E,
  map strip a = map strip b ->
  Forall2 itemOf (filter isNodeViewDesc a) E ->
  Forall2 itemOf (filter isNodeViewDesc b) E.
Proof.
  induction a as [|x r IH]; intros [|y s] E Hs H; try discriminate; [exact H|].
  cbn in Hs. injection Hs as Hxy Hr. cbn [filter] in *.
  rewrite <- (isNode_strip y), <- Hxy, isNode_strip.
  destruct (isNodeViewDesc x); [|eapply IH; eauto].
  inversion H as [|? e ? E' Hxe HrE]; subst. constructor; [|eapply IH; eauto].
  destruct e as [|c od idc idx]; [contradiction|]. cbn in *.
  rewrite <- matchesNode_strip, <- Hxy, matchesNode_strip. exact Hxe.
Qed.

Lemma desc_fields_kind_eq a b :
  kind a = kind b ->
  desc_node a = desc_node b /\ desc_outerDeco a = desc_outerDeco b
  /\ desc_innerDeco a = desc_innerDeco b.
Proof.
  unfold desc_node, desc_outerDeco, desc_innerDeco. intros ->. auto.
Qed.

(** The children of a descriptor that has just been updated, updated again
    with the same node and decorations: every event finds its descriptor,
    the updater changes nothing, and the descriptor is returned as it is. *)
Lemma updateChildren_twice fuel view node d pos w dR wR evs :
  composing view = false ->
  desc_node d = Some node -> wellFormed d w = true ->
  iterDeco node (desc_innerDeco d) = Some evs ->
  CoversN 0 (node_content node) (filter isOnNode evs) ->
  updateChildren fuel view d pos w = Some (Ok (dR, wR)) ->
  exists f' u2,
    fuel = S f'
    /\ syncChildren view (updateChildren f' view) node (set_dirty NOT_DIRTY dR) pos wR
       = Some (Ok u2)
    /\ changed u2 = false /\ top u2 = set_dirty NOT_DIRTY dR /\ world u2 = wR
    /\ updateChildren fuel view (set_dirty NOT_DIRTY dR) pos wR
       = Some (Ok (set_dirty NOT_DIRTY dR, wR)).
Proof.
  intros Hc Hn Hwf Hit Hcov H. destruct fuel as [|f']; [discriminate|].
  cbn [updateChildren] in H.
  assert (rec_ok : forall d pos w d' w',
             updateChildren f' view d pos w = Some (Ok (d', w')) ->
             uid d' = uid d /\ kind d' = kind d /\ dirty d' = dirty d
             /\ (fresh w <= fresh w')%nat).
  { intros. eapply updateChildren_ok; eauto. }
  edestruct updateChildren_body_inv as (node' & uF & Hn' & Hs & Hi & Hd & Hstrip & Hf & _);
    [exact Hc|exact H|].
  rewrite Hn in Hn'. injection Hn' as <-.
  edestruct syncChildren_inv as (evs' & uE & offE & Hit' & He & EF); [exact Hs|].
  rewrite Hit in Hit'. injection Hit' as <-.
  rewrite (compositionOf_off view node pos Hc) in He.
  assert (Hinc : incrOK 0 evs).
  { apply incrOK_filter. apply CoversN_incrOK in Hcov. exact Hcov. }
  assert (Hleaf : Forall leafInner evs) by (eapply iterDeco_leaf; eauto).
  edestruct pass_fwd as (Fst & Fidx & Ftr & Fun & Finfo & _);
    [exact rec_ok|exact Hwf|exact Hinc|exact Hleaf|exact He|].
  rewrite <- EF in *.
  set (d1 := set_dirty NOT_DIRTY dR).
  assert (Hs1 : map strip (children d1) = map strip (children (top uF))) by exact Hstrip.
  assert (Hk1 : kind d1 = kind d).
  { apply info_eq in Hi, Finfo. cbn. destruct Hi as (_ & -> & _). tauto. }
  destruct (desc_fields_kind_eq _ _ Hk1) as (N1 & _ & I1).
  assert (Hh1 : same_head (top uF) d1).
  { apply info_eq in Hi. split; cbn; symmetry; tauto. }
  assert (PM : PMfacts (fst (preMatch (node_content node) (children d1)))
                       (snd (preMatch (node_content node) (children d1))) d1 evs).
  { apply PMfacts_intro; [|exact Hcov|].
    - eapply itemOf_strip_transfer; [symmetry; exact Hs1|exact Ftr].
    - intros y. rewrite (@uidsOf_strip_eq (children d1) (children (top uF)) Hs1). apply Fun. }
  rewrite EF in Hh1, Hs1.
  destruct (@pass_sim view (updateChildren f' view) rec_ok _ _ None pos wR d1 evs PM
                      node d None pos w evs uE offE eq_refl Hwf Hinc Hleaf He Hh1 Hs1)
    as (tE & stE & Eev & Efin).
  assert (Esync : syncChildren view (updateChildren f' view) node d1 pos wR
                  = Some (Ok (secondPass (fst (preMatch (node_content node) (children d1)))
                                         (snd (preMatch (node_content node) (children d1)))
                                         None pos wR d1 (List.length (children d1)) []))).
  { unfold syncChildren. rewrite I1, Hit.
    rewrite (compositionOf_off view node pos Hc).
    replace (newUpdater d1 None pos wR)
      with (secondPass (fst (preMatch (node_content node) (children d1)))
                       (snd (preMatch (node_content node) (children d1)))
                       None pos wR d1 0 []).
    2: { unfold newUpdater, secondPass. rewrite N1, Hn. reflexivity. }
    rewrite Eev. cbn [bind ret]. unfold finishPass in Efin. rewrite Efin. reflexivity. }
  exists f', (secondPass (fst (preMatch (node_content node) (children d1)))
                         (snd (preMatch (node_content node) (children d1)))
                         None pos wR d1 (List.length (children d1)) []).
  split; [reflexivity|]. split; [exact Esync|]. split; [reflexivity|].
  split; [reflexivity|]. split; [reflexivity|].
  cbn [updateChildren]. unfold updateChildren_body. rewrite N1, Hn, Esync.
  cbn. reflexivity.
Qed.

Lemma set_node_id d n : desc_node d = Some n -> set_node n d = d.
Proof.
  destruct d as [u k dd cs f]. unfold desc_node, set_node, set_kind. cbn.
  destruct k; intros H; try discriminate; injection H as ->; reflexivity.
Qed.

Lemma set_innerDeco_id d i :
  isNodeViewDesc d = true -> desc_innerDeco d = i -> set_innerDeco i d = d.
Proof.
  destruct d as [u k dd cs f]. unfold isNodeViewDesc, desc_node, desc_innerDeco,
    set_innerDeco, set_kind. cbn.
  destruct k; intros H E; try discriminate; subst; reflexivity.
Qed.

Lemma updateOuterDeco_same view od d w :
  sameOuterDeco od (desc_outerDeco d) = true -> updateOuterDeco view od d w = (d, w).
Proof. intros H. unfold updateOuterDeco. now rewrite H. Qed.

Lemma updateOuterDeco_children view od d w :
  children (fst (updateOuterDeco view od d w)) = children d.
Proof. unfold updateOuterDeco. destruct (sameOuterDeco _ _); reflexivity. Qed.

Lemma wellFormed_same d w d' w' :
  children d' = children d -> fresh w' = fresh w -> wellFormed d' w' = wellFormed d w.
Proof. intros Hc Hf. unfold wellFormed. now rewrite Hc, Hf. Qed.

(** A descriptor whose node, decorations and dirty level are those asked
    for is left as it is by the bookkeeping of [updateInner]. *)
Lemma updateInner_settled view rec node od idc pos d w :
  desc_node d = Some node -> desc_innerDeco d = idc -> dirty d = NOT_DIRTY ->
  sameOuterDeco od (desc_outerDeco d) = true ->
  (contentDOM (domf d) <> None -> rec d pos w = Some (Ok (d, w))) ->
  updateInner view rec node od idc pos d w = Some (Ok (d, w)).
Proof.
  intros Hn Hi Hd Ho Hrec. unfold updateInner.
  rewrite (updateOuterDeco_same view od d w Ho).
  rewrite (set_node_id d Hn).
  rewrite set_innerDeco_id; [|unfold isNodeViewDesc; now rewrite Hn|exact Hi].
  destruct (contentDOM (domf d)) as [c|].
  - rewrite Hrec by discriminate. cbn. rewrite <- Hd at 1. now rewrite set_dirty_same.
  - cbn. rewrite <- Hd at 1. now rewrite set_dirty_same.
Qed.

Lemma updateInner_twice fuel view node od idc pos d w d1 w1 evs :
  composing view = false ->
  isNodeViewDesc d = true -> wellFormed d w = true ->
  iterDeco node idc = Some evs ->
  CoversN 0 (node_content node) (filter isOnNode evs) ->
  updateInner view (updateChildren fuel view) node od idc pos d w = Some (Ok (d1, w1)) ->
  updateInner view (updateChildren fuel view) node od idc pos d1 w1 = Some (Ok (d1, w1))
  /\ contentDOM (domf d1) = contentDOM (domf d)
  /\ kind d1 = kind (set_innerDeco idc (set_node node (fst (updateOuterDeco view od d w))))
  /\ dirty d1 = NOT_DIRTY
  /\ (contentDOM (domf d1) <> None ->
      exists f' u2,
        fuel = S f'
        /\ syncChildren view (updateChildren f' view) node d1 pos w1 = Some (Ok u2)
        /\ changed u2 = false /\ top u2 = d1 /\ world u2 = w1).
Proof.
  intros Hc Hnode Hwf Hit Hcov H.
  assert (rec_ok : forall d pos w d' w',
             updateChildren fuel view d pos w = Some (Ok (d', w')) ->
             uid d' = uid d /\ kind d' = kind d /\ dirty d' = dirty d
             /\ (fresh w <= fresh w')%nat).
  { intros. eapply updateChildren_ok; eauto. }
  edestruct updateInner_spec as ((_ & D1 & N1 & O1) & I1 & _);
    [exact rec_ok|exact Hnode|exact H|].
  unfold updateInner in H.
  pose proof (updateOuterDeco_spec view od d w) as S1.
  pose proof (updateOuterDeco_children view od d w) as C1.
  destruct (updateOuterDeco view od d w) as [dA wA]. cbn [fst snd] in *.
  destruct S1 as (UA & DA & NA & IA & OA & FA & _ & CA).
  assert (HnA : isNodeViewDesc dA = true) by (unfold isNodeViewDesc in *; now rewrite NA).
  destruct (set_node_spec node dA HnA) as (N2 & O2 & I2).
  assert (Hn2 : isNodeViewDesc (set_node node dA) = true)
    by (unfold isNodeViewDesc; now rewrite N2).
  destruct (set_innerDeco_spec idc (set_node node dA) Hn2) as (N3 & O3 & I3).
  set (dB := set_innerDeco idc (set_node node dA)) in *.
  assert (CB : contentDOM (domf dB) = contentDOM (domf d)) by exact CA.
  assert (WB : wellFormed dB wA = true).
  { rewrite <- Hwf. apply wellFormed_same; [exact C1|exact FA]. }
  apply bind_Ok in H. destruct H as ([dR wR] & Hr & H). unfold ret in H. injection H as <- <-.
  revert Hr CB. destruct (contentDOM (domf dB)) as [c|] eqn:EcB; intros Hr CB.
  - edestruct updateChildren_keeps as (KI & KD & _); [exact Hc|exact Hr|].
    edestruct updateChildren_twice as (f' & u2 & Ef & Es2 & Ec2 & Et2 & Ew2 & Htw);
      [exact Hc|rewrite N3, N2; reflexivity|exact WB|rewrite I3; exact Hit|exact Hcov|exact Hr|].
    split; [|split; [|split; [|split]]].
    + apply updateInner_settled; auto.
    + change (contentDOM (domf dR) = contentDOM (domf d)). rewrite KD, EcB. exact CB.
    + change (kind dR = kind dB). apply info_eq in KI. tauto.
    + exact D1.
    + intros _. exists f', u2. auto.
  - injection Hr as <- <-. split; [|split; [|split; [|split]]].
    + apply updateInner_settled; auto. intros E. exfalso. apply E. exact EcB.
    + change (contentDOM (domf dB) = contentDOM (domf d)). rewrite EcB. exact CB.
    + reflexivity.
    + exact D1.
    + intros E. exfalso. apply E. exact EcB.
Qed.

Lemma TextViewDesc_update_twice view node od d w d1 w1 :
  TextViewDesc_update view node od d w = (Some d1, w1) ->
  TextViewDesc_update view node od d1 w1 = (Some d1, w1).
Proof.
  intros H. apply TextViewDesc_update_spec in H. destruct H as ((_ & D1 & N1 & O1) & _).
  unfold TextViewDesc_update. rewrite N1, D1, sameMarkup_refl.
  change (Z.eqb NOT_DIRTY NODE_DIRTY) with false.
  change (Z.eqb NOT_DIRTY NOT_DIRTY) with true. cbn [negb orb andb].
  rewrite (updateOuterDeco_same view od d1 w1 O1). rewrite D1.
  change (Z.eqb NOT_DIRTY NOT_DIRTY) with true. rewrite String.eqb_refl. cbn [negb orb andb].
  rewrite (set_node_id d1 N1). rewrite <- D1 at 1. now rewrite set_dirty_same.
Qed.

Lemma kind_settled view node od idc d w :
  match kind d with
  | KNode _ _ _ =>
      exists o, kind (set_innerDeco idc (set_node node (fst (updateOuterDeco view od d w))))
                = KNode node o idc
  | KText _ _ _ =>
      exists o, kind (set_innerDeco idc (set_node node (fst (updateOuterDeco view od d w))))
                = KText node o idc
  | KCustom _ _ _ s =>
      exists o, kind (set_innerDeco idc (set_node node (fst (updateOuterDeco view od d w))))
                = KCustom node o idc s
  | _ => True
  end.
Proof.
  destruct d as [u k dd cs f]. unfold updateOuterDeco.
  destruct (sameOuterDeco od _); destruct k; cbn; eauto.
Qed.

Lemma TextViewDesc_update_kind view node od d w d1 w1 :
  TextViewDesc_update view node od d w = (Some d1, w1) ->
  isTextViewDesc d = true -> isTextViewDesc d1 = true.
Proof.
  destruct d as [u k dd cs f]. unfold isTextViewDesc. cbn [kind].
  destruct k; try discriminate. intros H _.
  unfold TextViewDesc_update, updateOuterDeco, desc_node in H. cbn [kind] in H.
  destruct (_ || _); [discriminate|].
  destruct (sameOuterDeco od _); cbn in H;
    match type of H with
    | context [if ?c then _ else _] => destruct c
    end; injection H as <- <-; reflexivity.
Qed.




(** ** Further properties of positions in the descriptor tree *)

Lemma sizes_all_nonneg cs : 0 <= sizes cs.
Proof. apply sizes_nonneg, Forall_forall. intros x _. apply size_nonneg. Qed.

Lemma border_cases d : border d = 0 \/ border d = 1.
Proof.
  unfold border. destruct (desc_node d) as [n|]; [|now left].
  destruct (node_isLeaf n); auto.
Qed.

Lemma skipn_cons_nth (A : Type) (l : list A) n x r :
  skipn n l = x :: r -> nth_error l n = Some x /\ skipn (S n) l = r.
Proof.
  revert l. induction n as [|n IH]; intros [|y l] H; try discriminate.
  - injection H as -> ->. now split.
  - apply IH. exact H.
Qed.

Lemma sizes_firstn_S cs n c :
  nth_error cs n = Some c ->
  sizes (firstn (S n) cs) = sizes (firstn n cs) + size c.
Proof.
  revert cs. induction n as [|n IH]; intros [|x cs] H; try discriminate.
  - injection H as ->. simpl. lia.
  - change (firstn (S (S n)) (x :: cs)) with (x :: firstn (S n) cs).
    change (firstn (S n) (x :: cs)) with (x :: firstn n cs).
    cbn [sizes]. rewrite (IH cs H). lia.
Qed.

(** The descent of [descAt] into first children stays at the position
    before the child it starts from. *)
Lemma firstDescent_path c :
  exists path,
    descAtPath c path = Some (firstDescent c)
    /\ forall s, posAtStart_from s c path
                 = Some (s - border c + border (firstDescent c)).
Proof.
  induction c as [u k dd cs df IH] using ViewDesc_tree_ind.
  set (c := mkDesc u k dd cs df).
  change (firstDescent c)
    with (if Z.eqb (border c) 0
          then match cs with x :: _ => firstDescent x | [] => c end
          else c).
  destruct (Z.eqb_spec (border c) 0) as [Hb|Hb].
  - destruct cs as [|x r].
    + exists []. split; [reflexivity|]. intros s. simpl. f_equal. lia.
    + apply Forall_cons_iff in IH. destruct IH as [IHx _].
      destruct IHx as (p & Hd & Hp).
      exists (0%nat :: p). split; [exact Hd|]. intros s.
      cbn [posAtStart_from nth_error children c]. unfold posBeforeChild.
      cbn [firstn sizes children]. rewrite Hp. f_equal. lia.
  - exists []. split; [reflexivity|]. intros s. simpl. f_equal. lia.
Qed.

(** What [descAt] finds lies at a place of the tree whose position before
    is the position asked for. *)
Definition startsAt (d : ViewDesc) (pos : Z) (r : ViewDesc) : Prop :=
  exists path, path <> []
    /\ descAtPath d path = Some r
    /\ forall s, posAtStart_from s d path = Some (s + pos + border r).

Lemma descAt_loop_path parent pos :
  Forall (fun c => forall p r, descAt c p = Some r -> startsAt c p r)
         (children parent) ->
  forall cs n offset r,
    skipn n (children parent) = cs ->
    offset = sizes (firstn n (children parent)) ->
    descAt_loop descAt pos cs offset = Some r ->
    startsAt parent pos r.
Proof.
  intros IH cs.
  induction cs as [|child rest IHcs]; intros n offset r Hs Ho H; [discriminate|].
  destruct (skipn_cons_nth _ _ Hs) as [Hn Hs'].
  cbn [descAt_loop] in H.
  destruct (Z.eqb offset pos && negb (Z.eqb (offset + size child) offset)) eqn:E1.
  - apply andb_true_iff in E1. destruct E1 as [E1 _].
    apply Z.eqb_eq in E1. injection H as <-.
    destruct (firstDescent_path child) as (p & Hd & Hp).
    exists (n :: p). split; [discriminate|]. split.
    + cbn [descAtPath]. now rewrite Hn.
    + intros s. cbn [posAtStart_from]. rewrite Hn, Hp.
      unfold posBeforeChild. f_equal. lia.
  - destruct (Z.ltb pos (offset + size child)).
    + rewrite Forall_forall in IH.
      destruct (IH child (nth_error_In _ _ Hn) _ _ H) as (p & _ & Hd & Hp).
      exists (n :: p). split; [discriminate|]. split.
      * cbn [descAtPath]. now rewrite Hn.
      * intros s. cbn [posAtStart_from]. rewrite Hn, Hp.
        unfold posBeforeChild. f_equal. lia.
    + eapply IHcs; [exact Hs' | | exact H].
      rewrite (@sizes_firstn_S _ _ _ Hn). lia.
Qed.

Lemma descAt_startsAt d : forall pos r, descAt d pos = Some r -> startsAt d pos r.
Proof.
  induction d as [u k dd cs df IH] using ViewDesc_tree_ind.
  intros pos r H.
  apply (@descAt_loop_path (mkDesc u k dd cs df) pos IH cs 0%nat 0 r);
    [reflexivity | reflexivity | exact H].
Qed.

Lemma descAt_loop_outside rec pos cs :
  forall offset,
    (forall c p, In c cs -> p < 0 -> rec c p = None) ->
    pos < offset \/ offset + sizes cs <= pos ->
    (forall c, In c cs -> pos < offset -> border c = 0 \/ border c = 1) ->
    descAt_loop rec pos cs offset = None.
Proof.
  induction cs as [|c rest IH]; intros offset Hrec Hout Hb; [reflexivity|].
  cbn [descAt_loop]. cbn [sizes] in Hout.
  pose proof (size_nonneg c). pose proof (sizes_all_nonneg rest).
  pose proof (border_cases c).
  destruct (Z.eqb_spec offset pos) as [E|E].
  - subst pos. destruct Hout as [?|Hout]; [lia|].
    assert (size c = 0) as -> by lia.
    rewrite Z.add_0_r, Z.eqb_refl. cbn [negb andb].
    rewrite Z.ltb_irrefl. apply IH.
    + intros; apply Hrec; [now right | assumption].
    + right. lia.
    + intros; apply border_cases.
  - cbn [andb]. destruct (Z.ltb_spec pos (offset + size c)) as [L|L].
    + destruct Hout as [Hout|Hout]; [|lia].
      apply Hrec; [now left | lia].
    + apply IH.
      * intros; apply Hrec; [now right | assumption].
      * destruct Hout; [lia | right; lia].
      * intros; apply border_cases.
Qed.

Lemma descAt_negative d : forall pos, pos < 0 -> descAt d pos = None.
Proof.
  induction d as [u k dd cs df IH] using ViewDesc_tree_ind.
  intros pos Hp. cbn [descAt children].
  apply descAt_loop_outside.
  - rewrite Forall_forall in IH. intros c p Hc Hlt. now apply IH.
  - left. exact Hp.
  - intros; apply border_cases.
Qed.

Lemma descAt_loop_found rec pos child :
  size child <> 0 ->
  forall cs rest offset,
    offset + sizes cs = pos ->
    descAt_loop rec pos (cs ++ child :: rest) offset = Some (firstDescent child).
Proof.
  intros Hsz cs. induction cs as [|c cs IH]; intros rest offset Ho.
  - cbn [sizes] in Ho. cbn [app descAt_loop].
    assert (offset = pos) as -> by lia.
    rewrite Z.eqb_refl.
    destruct (Z.eqb_spec (pos + size child) pos); [lia | reflexivity].
  - cbn [sizes] in Ho. cbn [app descAt_loop].
    pose proof (size_nonneg c). pose proof (sizes_all_nonneg cs).
    destruct (Z.eqb_spec offset pos) as [E|E].
    + assert (size c = 0) as Hc by lia. rewrite Hc, Z.add_0_r, Z.eqb_refl.
      cbn [negb andb]. subst offset. rewrite Z.ltb_irrefl.
      apply IH. lia.
    + cbn [andb]. destruct (Z.ltb_spec pos (offset + size c)); [lia|].
      apply IH. lia.
Qed.

(** X1: [descAt(pos)] only ever answers a descriptor of the tree whose
    position before is [pos] (positions counted from the start of the
    descriptor's content); for the position before a child that is not
    empty it answers that child, or its first descendant along children
    without border; and it answers [undefined] for a position that is
    negative or not before the end of the children. *)
Theorem descAt_position d pos :
  (forall r, descAt d pos = Some r ->
     exists path, path <> []
       /\ descAtPath d path = Some r
       /\ posAtStart d path = Some (pos + border r))
  /\ (forall n child,
        nth_error (children d) n = Some child ->
        sizes (firstn n (children d)) = pos -> size child <> 0 ->
        descAt d pos = Some (firstDescent child))
  /\ (pos < 0 \/ sizes (children d) <= pos -> descAt d pos = None).
Proof.
  split; [|split].
  - intros r H. destruct (descAt_startsAt _ _ H) as (p & Hne & Hd & Hp).
    exists p. repeat split; try assumption.
    unfold posAtStart. rewrite Hp. f_equal.
  - intros n child Hn Hp Hsz.
    destruct d as [u k dd cs df]. cbn [descAt children] in *.
    destruct (nth_error_split _ _ Hn) as (l1 & l2 & -> & <-).
    rewrite firstn_app, Nat.sub_diag, firstn_all in Hp.
    cbn [firstn] in Hp. rewrite app_nil_r in Hp.
    apply descAt_loop_found; [exact Hsz | lia].
  - intros [Hneg|Hbig]; [now apply descAt_negative|].
    destruct d as [u k dd cs df]. cbn [descAt children] in *.
    apply descAt_loop_outside.
    + intros c p _ Hp. now apply descAt_negative.
    + right. lia.
    + intros; apply border_cases.
Qed.

(** ** [domFromPos] inside the span *)

Lemma tiled_children d cdom :
  tiled d = true -> contentDOM (domf d) = Some cdom ->
  isTextViewDesc d = false -> (forall h t, kind d <> KComposition h t) ->
  sizes (children d) = size d - 2 * border d
  /\ forallb tiled (children d) = true.
Proof.
  destruct d as [u k dd cs df]. cbn [domf kind children isTextViewDesc].
  intros Ht Hc Hx Hk.
  assert (E : forall l, (fix all (l : list ViewDesc) : bool :=
                           match l with [] => true | x :: r => tiled x && all r end) l
                        = forallb tiled l).
  { induction l as [|x r IHl]; [reflexivity|]. cbn [forallb]. now rewrite IHl. }
  cbn [tiled kind domf children] in Ht. rewrite Hc, E in Ht.
  destruct k; try discriminate;
    try (apply andb_true_iff in Ht; destruct Ht as [H1 H2];
         apply Z.eqb_eq in H1; now split).
  now specialize (Hk textDOM text).
Qed.

Lemma domFromPos_loop_within parent cdom pos cs :
  Forall (fun c => tiled c = true ->
            forall p, 0 <= p <= size c - 2 * border c ->
                      exists loc, domFromPos c p = Ok loc) cs ->
  forallb tiled cs = true ->
  forall offset,
    offset <= pos <= offset + sizes cs ->
    exists loc, domFromPos_loop domFromPos parent cdom pos cs offset = Ok loc.
Proof.
  induction cs as [|c rest IH]; intros HF Ht offset Hpos.
  - cbn [sizes] in Hpos. cbn [domFromPos_loop].
    assert (offset = pos) as -> by lia. rewrite Z.eqb_refl.
    cbn [skipBefore]. eexists; reflexivity.
  - cbn [sizes] in Hpos. cbn [forallb] in Ht.
    apply andb_true_iff in Ht. destruct Ht as [Htc Htr].
    apply Forall_cons_iff in HF. destruct HF as [Hc Hr].
    cbn [domFromPos_loop].
    destruct (Z.eqb_spec offset pos) as [E|E].
    + destruct (skipBefore parent (c :: rest)); eexists; reflexivity.
    + destruct (Z.ltb_spec pos (offset + size c)) as [L|L].
      * apply Hc; [exact Htc|]. destruct (border_cases c); lia.
      * apply IH; [exact Hr | exact Htr | lia].
Qed.

(** X2: in a tree whose descriptors tile their content, [domFromPos]
    answers a host location for every position from the start to the end
    of the content; it does not raise. *)
Theorem domFromPos_within d :
  forall pos,
    tiled d = true ->
    0 <= pos <= size d - 2 * border d ->
    exists loc, domFromPos d pos = Ok loc.
Proof.
  induction d as [u k dd cs df IH] using ViewDesc_tree_ind.
  intros pos Ht Hpos. set (d := mkDesc u k dd cs df) in *.
  destruct (contentDOM df) as [cdom|] eqn:Hc.
  - destruct k;
      try (cbn [domFromPos kind]; eexists; reflexivity);
      (destruct (@tiled_children d cdom Ht Hc) as [Hs Hall];
       [reflexivity | discriminate |];
       cbn [domFromPos kind domf children d]; rewrite Hc;
       apply domFromPos_loop_within;
         [eapply Forall_impl; [|exact IH]; intros c Hc' Htc p Hp; now apply Hc'
         | exact Hall |];
       cbn [children d] in Hs; lia).
  - destruct k; cbn [domFromPos kind domf d]; rewrite ?Hc; eexists; reflexivity.
Qed.

Lemma domFromPos_within_witness :
  exists loc, domFromPos marked_para_tree 3 = Ok loc.
Proof.
  apply (@domFromPos_within marked_para_tree 3).
  - vm_compute. reflexivity.
  - vm_compute. split; discriminate.
Defined.

(** ** Round trips between positions and host locations *)

(** X3: for a text descriptor (of a text node), the host location
    [domFromPos] gives for an offset inside the text is read back by
    [localPosFromDOM] as the position of that offset; an offset beyond the
    text is read back as the end of the text. *)
Theorem text_position_round_trip generic d n start pos bias loc :
  isTextViewDesc d = true ->
  desc_node d = Some n -> node_isText n = true ->
  0 <= pos ->
  domFromPos d pos = Ok loc ->
  TextViewDesc_localPosFromDOM generic d start (loc_node loc) (loc_offset loc) bias
  = start + Z.min pos (size d)
  /\ (pos <= size d ->
      TextViewDesc_localPosFromDOM generic d start (loc_node loc) (loc_offset loc) bias
      = start + pos).
Proof.
  intros Ht Hn Hx Hpos H.
  destruct d as [u k dd cs df]. unfold isTextViewDesc in Ht. cbn [kind] in Ht.
  destruct k; try discriminate.
  unfold desc_node in Hn. cbn [kind] in Hn. injection Hn as ->.
  cbn [domFromPos kind domf] in H. injection H as <-.
  unfold TextViewDesc_localPosFromDOM. cbn [kind domf loc_node loc_offset].
  rewrite Nat.eqb_refl.
  assert (Hs : size (mkDesc u (KText n outerDeco innerDeco) dd cs df)
               = length_Z (node_text n)).
  { cbn [size kind]. destruct n; try discriminate. reflexivity. }
  split.
  - rewrite Hs. reflexivity.
  - intros Hle. rewrite Hs in Hle. f_equal. lia.
Qed.

Lemma text_position_round_trip_witness :
  TextViewDesc_localPosFromDOM (fun _ _ _ _ _ => 0) text_ab_desc 1 11 1 1 = 1 + 1.
Proof.
  apply (@text_position_round_trip (fun _ _ _ _ _ => 0) text_ab_desc text_ab 1 1 1
           (mkLoc 11 1));
    try reflexivity; vm_compute; discriminate.
Defined.

(** X4: for a composition descriptor, [localPosFromDOM] reads the location
    [domFromPos] gives for an offset back as the position of that offset;
    a location in another host node is read as the start for offset 0 and
    as the end otherwise. *)
Theorem composition_position_round_trip d textDOM text start :
  kind d = KComposition textDOM text ->
  (forall pos loc,
     domFromPos d pos = Ok loc ->
     CompositionViewDesc_localPosFromDOM d start (loc_node loc) (loc_offset loc)
     = Some (start + pos))
  /\ (forall h offset,
        h <> textDOM ->
        CompositionViewDesc_localPosFromDOM d start h offset
        = Some (if Z.eqb offset 0 then start else start + length_Z text)).
Proof.
  intros Hk. destruct d as [u k dd cs df]. cbn [kind] in Hk. subst k. split.
  - intros pos loc H. cbn [domFromPos kind] in H. injection H as <-.
    unfold CompositionViewDesc_localPosFromDOM. cbn [kind loc_node loc_offset].
    now rewrite Nat.eqb_refl.
  - intros h offset Hh.
    unfold CompositionViewDesc_localPosFromDOM. cbn [kind size].
    destruct (Nat.eqb_spec h textDOM) as [E|E]; [contradiction|].
    cbn [negb]. destruct (Z.eqb offset 0); cbn [negb]; f_equal; lia.
Qed.

Lemma composition_position_round_trip_witness :
  CompositionViewDesc_localPosFromDOM
    (mkDesc 9 (KComposition 11 "ab") NOT_DIRTY [] dom0) 5 11 1 = Some (5 + 1).
Proof.
  apply (proj1 (@composition_position_round_trip
                  (mkDesc 9 (KComposition 11 "ab") NOT_DIRTY [] dom0) 11 "ab" 5
                  eq_refl) 1 (mkLoc 11 1)).
  reflexivity.
Defined.

(** ** Further properties of the dirty marking *)

Lemma undirty_unfold d :
  undirty d = mkDesc (uid d) (kind d) NOT_DIRTY (map undirty (children d)) (domf d).
Proof. destruct d; reflexivity. Qed.

Lemma nth_error_decompose (A : Type) (l : list A) i x :
  nth_error l i = Some x -> l = firstn i l ++ x :: skipn (S i) l.
Proof.
  revert i. induction l as [|y r IH]; intros [|i] H; try discriminate.
  - injection H as ->. reflexivity.
  - cbn [firstn skipn app]. f_equal. now apply IH.
Qed.

Lemma map_replace_nth_same (A B : Type) (f : A -> B) (l : list A) i x y :
  nth_error l i = Some x -> f y = f x -> map f (replace_nth i y l) = map f l.
Proof.
  intros Hn Hf. rewrite (nth_error_decompose _ _ Hn) at 2.
  unfold replace_nth. rewrite !map_app. cbn [map]. now rewrite Hf.
Qed.

Lemma nth_error_replace_nth_ne (A : Type) (l : list A) i j x :
  i <> j -> (i < List.length l)%nat ->
  nth_error (replace_nth i x l) j = nth_error l j.
Proof.
  revert i j. induction l as [|y r IH]; intros i j Hij Hi; [cbn in Hi; lia|].
  destruct i as [|i], j as [|j]; try congruence; try reflexivity.
  unfold replace_nth in *. cbn [firstn skipn app nth_error].
  apply IH; [congruence | cbn in Hi; lia].
Qed.

Lemma strict_prefix_cons j p i q :
  strict_prefix (j :: p) (i :: q) = Nat.eqb j i && strict_prefix p q.
Proof.
  unfold strict_prefix. cbn [is_prefix List.length].
  change (S (List.length p) <? S (List.length q))%nat
    with (List.length p <? List.length q)%nat.
  now rewrite andb_assoc.
Qed.

(** X5: called on the descriptor at a place of the tree, [markParentsDirty]
    answers a tree in which only dirty levels differ; the parent's level is
    the larger of its old level and CONTENT_DIRTY, the level of every
    ancestor above it the larger of its old level and CHILD_DIRTY, and the
    descriptors that are no ancestor are what they were. *)
Theorem markParentsDirty_levels :
  forall path root d,
    descAtPath root path = Some d ->
    exists root',
      markParentsDirty root path = Some root'
      /\ undirty root' = undirty root
      /\ (forall p, strict_prefix p path = false ->
                    descAtPath root' p = descAtPath root p)
      /\ (forall p a,
            strict_prefix p path = true -> descAtPath root p = Some a ->
            exists a',
              descAtPath root' p = Some a'
              /\ dirty a' = Z.max (dirty a)
                                  (if Nat.eqb (S (List.length p)) (List.length path)
                                   then CONTENT_DIRTY else CHILD_DIRTY)).
Proof.
  induction path as [|i rest IH]; intros root d Hd.
  - exists root. repeat split; try reflexivity.
    intros p a Hp. unfold strict_prefix in Hp. cbn [List.length] in Hp.
    apply andb_true_iff in Hp. destruct Hp as [_ Hp].
    apply Nat.ltb_lt in Hp. lia.
  - cbn [descAtPath] in Hd.
    destruct (nth_error (children root) i) as [c|] eqn:Hn; [|discriminate].
    destruct (IH c d Hd) as (c' & Hm & Hu & Hsame & Hanc).
    assert (Hi : (i < List.length (children root))%nat).
    { apply nth_error_Some. congruence. }
    cbn [markParentsDirty]. rewrite Hn, Hm.
    eexists. split; [reflexivity|].
    set (lvl := if Nat.eqb (List.length (i :: rest)) 1 then CONTENT_DIRTY else CHILD_DIRTY).
    split; [|split].
    + rewrite (undirty_unfold root), undirty_unfold. cbn [uid kind children domf].
      f_equal. now apply map_replace_nth_same with (x := c).
    + intros p Hp. destruct p as [|j p].
      * unfold strict_prefix in Hp. cbn in Hp. discriminate.
      * rewrite strict_prefix_cons in Hp. cbn [descAtPath children].
        destruct (Nat.eqb_spec j i) as [->|Hji].
        -- cbn [andb] in Hp. rewrite nth_error_replace_nth by exact Hi.
           rewrite Hn. now apply Hsame.
        -- rewrite nth_error_replace_nth_ne by (auto; exact Hi). reflexivity.
    + intros p a Hp Ha. destruct p as [|j p].
      * cbn [descAtPath] in Ha. injection Ha as <-.
        eexists. split; [reflexivity|]. cbn [dirty List.length].
        fold lvl.
        assert (lvl = if Nat.eqb 1 (S (List.length rest))
                      then CONTENT_DIRTY else CHILD_DIRTY) as <-.
        { unfold lvl. cbn [List.length].
          now rewrite (Nat.eqb_sym (S (List.length rest)) 1). }
        destruct (Z.ltb_spec (dirty root) lvl); lia.
      * rewrite strict_prefix_cons in Hp. apply andb_true_iff in Hp.
        destruct Hp as [Hj Hp]. apply Nat.eqb_eq in Hj. subst j.
        cbn [descAtPath] in Ha. rewrite Hn in Ha.
        destruct (Hanc p a Hp Ha) as (a' & Ha' & Hdirty).
        exists a'. split.
        -- cbn [descAtPath children]. rewrite nth_error_replace_nth by exact Hi.
           exact Ha'.
        -- exact Hdirty.
Qed.

Lemma markParentsDirty_levels_witness :
  exists root',
    markParentsDirty para_ab_desc [0%nat] = Some root'
    /\ undirty root' = undirty para_ab_desc
    /\ (forall p, strict_prefix p [0%nat] = false ->
                  descAtPath root' p = descAtPath para_ab_desc p)
    /\ (forall p a,
          strict_prefix p [0%nat] = true -> descAtPath para_ab_desc p = Some a ->
          exists a',
            descAtPath root' p = Some a'
            /\ dirty a' = Z.max (dirty a)
                                (if Nat.eqb (S (List.length p)) 1
                                 then CONTENT_DIRTY else CHILD_DIRTY)).
Proof.
  apply (@markParentsDirty_levels [0%nat] para_ab_desc text_ab_desc).
  reflexivity.
Defined.

(** [markDirty] writes dirty levels only. *)
Lemma markDirty_loop_undirty parent from to cs :
  Forall (fun c => forall f t, undirty (fst (markDirty c f t)) = undirty c) cs ->
  forall offset,
    map undirty (snd (fst (markDirty_loop markDirty parent from to cs offset)))
    = map undirty cs.
Proof.
  induction cs as [|c rest IH]; intros HF offset; [reflexivity|].
  apply Forall_cons_iff in HF. destruct HF as [Hc Hr].
  specialize (IH Hr (offset + size c)).
  cbn [markDirty_loop].
  destruct (markDirty_loop markDirty parent from to rest (offset + size c))
    as [[l kids] m] eqn:El.
  cbn [fst snd] in IH.
  assert (Hs : undirty (set_dirty NODE_DIRTY c) = undirty c).
  { rewrite !undirty_unfold. reflexivity. }
  destruct (touches _ _ _ _).
  - destruct (_ && _).
    + destruct (_ && _ && _).
      * cbn [fst snd map]. now rewrite Hs.
      * specialize (Hc (from - (offset + border c)) (to - (offset + border c))).
        destruct (markDirty c _ _) as [c' mv]. cbn [fst snd map] in *.
        now rewrite Hc.
    + cbn [fst snd map]. now rewrite Hs, IH.
  - cbn [fst snd map]. now rewrite IH.
Qed.

Lemma size_undirty d : size (undirty d) = size d.
Proof.
  induction d as [u k dd cs df IH] using ViewDesc_tree_ind.
  rewrite undirty_unfold. cbn [uid kind children domf].
  assert (E : forall l, (fix sum (l : list ViewDesc) : Z :=
                 match l with [] => 0 | c :: r => size c + sum r end) l = sizes l).
  { induction l as [|x r IHl]; [reflexivity|]. cbn [sizes]. now rewrite IHl. }
  assert (Hs : sizes (map undirty cs) = sizes cs).
  { induction IH as [|x r Hx _ IHr]; [reflexivity|]. cbn [map sizes]. now rewrite Hx, IHr. }
  destruct k; cbn [size kind children]; rewrite ?E; try reflexivity; exact Hs.
Qed.

(** X6: [markDirty] changes nothing but dirty levels: the tree it leaves
    has the descriptors, kinds, children and host facts of the tree it was
    called on, and so the same sizes. *)
Theorem markDirty_only_dirty d :
  forall from to,
    undirty (fst (markDirty d from to)) = undirty d
    /\ size (fst (markDirty d from to)) = size d.
Proof.
  assert (H : forall d from to, undirty (fst (markDirty d from to)) = undirty d).
  { clear d. induction d as [u k dd cs df IH] using ViewDesc_tree_ind.
    intros from to.
    pose proof (@markDirty_loop_undirty (mkDesc u k dd cs df) from to cs IH 0) as Hl.
    cbn [markDirty children].
    destruct (markDirty_loop markDirty _ from to cs 0) as [[l kids] m].
    cbn [fst snd] in Hl. unfold markDirty_finish. cbn [kind uid domf].
    destruct k; try destruct (negb _); cbn [fst];
      rewrite (undirty_unfold (mkDesc u _ dd cs df)), undirty_unfold;
      cbn [uid kind children domf]; now rewrite Hl. }
  intros from to. split; [apply H|].
  rewrite <- (size_undirty (fst (markDirty d from to))), H. apply size_undirty.
Qed.

(** ** Further properties of [update] *)

Lemma MarkViewDesc_create_fresh m w :
  (fresh w <= fresh (snd (MarkViewDesc_create m w)))%nat.
Proof. unfold MarkViewDesc_create. cbn. lia. Qed.

Lemma replaceNodes_S fuel nodes from to r w :
  replaceNodes (S fuel) nodes from to r w
  = replaceLoop (sliceWith (replaceNodes fuel)) from to nodes 0 r w.
Proof. reflexivity. Qed.

Lemma sliceWith_fresh rn :
  (forall nodes from to r w cs w',
      rn nodes from to r w = Some (Ok (cs, w')) -> (fresh w <= fresh w')%nat) ->
  forall d a b w0 s w1,
    sliceWith rn d a b w0 = Some (Ok (s, w1)) -> (fresh w0 <= fresh w1)%nat.
Proof.
  intros IH d a b w0 s w1 Hs. unfold sliceWith in Hs.
  destruct (kind d); try discriminate.
  - cbn [MarkViewDesc_create alloc] in Hs.
    apply bind_Ok in Hs. destruct Hs as ([n1 w2] & H1 & Hs).
    apply bind_Ok in Hs. destruct Hs as ([n2 w3] & H2 & Hs).
    injection Hs as _ <-.
    assert (fresh (emit (ECreateDOM (fresh w0)) (mkWorld (S (fresh w0)) (effects w0)))
            <= fresh w2)%nat.
    { destruct (Z.ltb b (size d)); [eapply IH; exact H1|].
      injection H1 as _ <-. lia. }
    assert (fresh w2 <= fresh w3)%nat.
    { destruct (Z.gtb a 0); [eapply IH; exact H2|].
      injection H2 as _ <-. lia. }
    cbn [emit fresh] in *. lia.
  - cbn [alloc] in Hs. injection Hs as _ <-. cbn. lia.
Qed.

Lemma replaceLoop_fresh slice from to :
  (forall d a b w0 s w1,
      slice d a b w0 = Some (Ok (s, w1)) -> (fresh w0 <= fresh w1)%nat) ->
  forall nodes off r w cs w',
    replaceLoop slice from to nodes off r w = Some (Ok (cs, w')) ->
    (fresh w <= fresh w')%nat.
Proof.
  intros Hslice.
  induction nodes as [|child rest IHn]; intros off r w cs w' H.
  - injection H as _ <-. lia.
  - cbn [replaceLoop] in H.
    destruct (Z.geb off to || Z.leb (off + size child) from).
    + apply bind_Ok in H. destruct H as ([r1 w1] & H1 & H).
      injection H as _ <-. eapply IHn; exact H1.
    + apply bind_Ok in H. destruct H as ([before w1] & Hb & H).
      apply bind_Ok in H. destruct H as ([after w2] & Ha & H).
      apply bind_Ok in H. destruct H as ([r3 w3] & H3 & H).
      injection H as _ <-.
      assert (fresh w <= fresh w1)%nat.
      { destruct (Z.ltb off from).
        - apply bind_Ok in Hb. destruct Hb as ([s ws] & Hs & Hb).
          injection Hb as _ <-. eapply Hslice; exact Hs.
        - injection Hb as _ <-. lia. }
      assert (fresh w1 <= fresh w2)%nat.
      { destruct (Z.gtb (off + size child) to).
        - apply bind_Ok in Ha. destruct Ha as ([s ws] & Hs & Ha).
          injection Ha as _ <-. eapply Hslice; exact Hs.
        - injection Ha as _ <-. lia. }
      assert (fresh w2 <= fresh w3)%nat by (eapply IHn; exact H3).
      lia.
Qed.

(** [replaceNodes] only ever allocates. *)
Lemma replaceNodes_fresh fuel :
  forall nodes from to r w cs w',
    replaceNodes fuel nodes from to r w = Some (Ok (cs, w')) ->
    (fresh w <= fresh w')%nat.
Proof.
  induction fuel as [|fuel IH]; intros nodes from to r w cs w' H; [discriminate|].
  rewrite replaceNodes_S in H.
  eapply replaceLoop_fresh; [|exact H].
  apply sliceWith_fresh. exact IH.
Qed.

Lemma protectLocalComposition_keeps fuel c d w d' w' :
  protectLocalComposition fuel c d w = Some (Ok (d', w')) ->
  info d' = info d /\ domf d' = domf d /\ (fresh w <= fresh w')%nat.
Proof.
  unfold protectLocalComposition. destruct (hasDescFor (lock_node c) d).
  - intros H. injection H as <- <-. auto.
  - cbn [alloc]. intros H. apply bind_Ok in H. destruct H as ([cs w1] & Hr & H).
    injection H as <- <-. apply replaceNodes_fresh in Hr. cbn [emit fresh] in Hr.
    repeat split; try reflexivity. lia.
Qed.

(** Whatever the view, [updateChildren] keeps the identity, the class and
    the dirty level of the descriptor it is called on, and its host
    facts. *)
Lemma updateChildren_info view :
  forall fuel d pos w d' w',
    updateChildren fuel view d pos w = Some (Ok (d', w')) ->
    info d' = info d /\ domf d' = domf d /\ (fresh w <= fresh w')%nat.
Proof.
  induction fuel as [|fuel IH]; intros d pos w d' w' H; [discriminate|].
  cbn [updateChildren] in H.
  assert (rec_ok : forall d pos w d' w',
             updateChildren fuel view d pos w = Some (Ok (d', w')) ->
             uid d' = uid d /\ kind d' = kind d /\ dirty d' = dirty d
             /\ (fresh w <= fresh w')%nat).
  { intros d0 pos0 w0 d0' w0' H0. edestruct IH as (I0 & _ & F0); [exact H0|].
    apply info_eq in I0. tauto. }
  unfold updateChildren_body in H. destruct (desc_node d) as [node|]; [|discriminate].
  apply bind_Ok in H. destruct H as (uF & Hs & H).
  edestruct syncChildren_keeps as (Ki & Kd & Kf); [exact rec_ok|exact Hs|].
  destruct (changed uF || Z.eqb (dirty (top uF)) CONTENT_DIRTY).
  - apply bind_Ok in H. destruct H as ([d1 w1] & Hp & H).
    assert (Hk : info d1 = info (top uF) /\ domf d1 = domf (top uF)
                 /\ (fresh (world uF) <= fresh w1)%nat).
    { destruct (compositionOf view node pos) as [c|].
      - eapply protectLocalComposition_keeps; exact Hp.
      - injection Hp as <- <-. auto. }
    destruct Hk as (I1 & D1 & F1).
    destruct (contentDOM (domf d1)) as [cdom|]; [|discriminate].
    injection H as <- <-. cbn [set_children info uid kind dirty domf].
    split; [|split].
    + change (info (set_children (renderDescs cdom 0 (children d1)) d1)) with (info d1).
      congruence.
    + congruence.
    + destruct (ios view); cbn [emit fresh]; lia.
  - injection H as <- <-. split; [exact Ki|]. split; [exact Kd|exact Kf].
Qed.

Lemma updateChildren_rec_ok view fuel :
  forall d pos w d' w',
    updateChildren fuel view d pos w = Some (Ok (d', w')) ->
    uid d' = uid d /\ kind d' = kind d /\ dirty d' = dirty d
    /\ (fresh w <= fresh w')%nat.
Proof.
  intros d pos w d' w' H. edestruct updateChildren_info as (I0 & _ & F0); [exact H|].
  apply info_eq in I0. tauto.
Qed.

(** X7: when a descriptor's [update] succeeds, the descriptor it leaves is
    the same object, is clean, and matches what it was updated to:
    [matchesNode] holds for the node, the outer decorations and the inner
    decorations given; a text descriptor does not take the inner
    decorations, it matches with the ones it had. *)
Theorem update_then_matches fuel view node od idc pos d w d1 w1 :
  desc_update fuel view node od idc pos d w = Some (Ok (Some d1, w1)) ->
  uid d1 = uid d
  /\ dirty d1 = NOT_DIRTY
  /\ desc_node d1 = Some node
  /\ matchesNode d1 node od (if isTextViewDesc d then desc_innerDeco d else idc) = true.
Proof.
  intros H. unfold desc_update in H.
  destruct (isTextViewDesc d) eqn:Ht.
  - assert (H' : update view (updateChildren fuel view) node od (desc_innerDeco d) pos d w
                 = Some (Ok (Some d1, w1))).
    { unfold update in *. unfold isTextViewDesc in Ht.
      destruct (kind d); try discriminate. exact H. }
    destruct (@update_spec view (updateChildren fuel view)
                (@updateChildren_rec_ok view fuel) _ _ _ _ _ _ _ _ H')
      as ((U1 & U2 & U3 & _) & Hm & _).
    repeat split; try assumption. apply Hm. intros _. apply DecorationSet_eq_refl.
  - destruct (@update_spec view (updateChildren fuel view)
                (@updateChildren_rec_ok view fuel) _ _ _ _ _ _ _ _ H)
      as ((U1 & U2 & U3 & _) & Hm & _).
    repeat split; try assumption. apply Hm. intros Hx. congruence.
Qed.

Lemma update_then_matches_witness :
  matchesNode (fst swapped_result) swapped_para []
              (if isTextViewDesc marked_para_tree
               then desc_innerDeco marked_para_tree else swapped_para_deco) = true.
Proof.
  refine (proj2 (proj2 (proj2
            (@update_then_matches 6 plainView swapped_para [] swapped_para_deco 0
               marked_para_tree (mkWorld 200 []) (fst swapped_result)
               (snd swapped_result) _)))).
  vm_compute. reflexivity.
Defined.


(** ** Further properties of the updater *)

Lemma Forall2_nth_error_l (A B : Type) (R : A -> B -> Prop) (l : list A) (m : list B) :
  Forall2 R l m ->
  forall k a, nth_error l k = Some a -> exists b, nth_error m k = Some b /\ R a b.
Proof.
  induction 1 as [|x y l m Hxy _ IH]; intros [|k] a Hk; try discriminate.
  - injection Hk as <-. exists y. auto.
  - apply IH. exact Hk.
Qed.

Lemma nth_error_skipn_add (A : Type) (l : list A) n k :
  nth_error (skipn n l) k = nth_error l (n + k).
Proof.
  revert l. induction n as [|n IH]; intros [|x l]; try reflexivity.
  - now destruct k.
  - apply IH.
Qed.

(** X9: the pre-match of a new updater answers, for a child index, only a
    node descriptor among the children of the descriptor being updated
    whose node is the very child at that index; it answers nothing for an
    index below the pre-match offset. *)
Theorem getPreMatch_holds d lk pos w i p :
  getPreMatch (newUpdater d lk pos w) i = Some p ->
  exists n f,
    desc_node d = Some n
    /\ Z.of_nat (preMatchOffset (newUpdater d lk pos w)) <= i
    /\ nth_error (node_content n) (Z.to_nat i) = Some f
    /\ holdsNode p f
    /\ In p (children d).
Proof.
  unfold getPreMatch, newUpdater. cbn [preMatched preMatchOffset].
  set (frag := match desc_node d with Some n => node_content n | None => [] end).
  destruct (preMatch_spec frag (children d)) as (R0 & S0 & Hd & Hf & Hl & HF).
  set (pm := preMatch frag (children d)) in *.
  destruct (Z.geb_spec i (Z.of_nat (snd pm))) as [Hge|Hlt]; [|discriminate].
  intros Hp.
  destruct (Forall2_nth_error_l HF _ Hp) as (f & Hn & Hh).
  rewrite nth_error_skipn_add in Hn.
  replace (snd pm + Z.to_nat (i - Z.of_nat (snd pm)))%nat with (Z.to_nat i) in Hn by lia.
  assert (Hin : In p (children d)).
  { rewrite Hd. apply in_or_app. right.
    apply nth_error_In in Hp. rewrite Hf in Hp. apply filter_In in Hp. tauto. }
  destruct (desc_node d) as [n|] eqn:En.
  - exists n, f. repeat split; assumption.
  - unfold frag in Hn. destruct (Z.to_nat i); discriminate.
Qed.

Lemma getPreMatch_holds_witness :
  exists n f,
    desc_node para_ab_desc = Some n
    /\ Z.of_nat (preMatchOffset (newUpdater para_ab_desc None 0 (mkWorld 200 []))) <= 0
    /\ nth_error (node_content n) (Z.to_nat 0) = Some f
    /\ holdsNode text_ab_desc f
    /\ In text_ab_desc (children para_ab_desc).
Proof.
  apply (@getPreMatch_holds para_ab_desc None 0 (mkWorld 200 []) 0 text_ab_desc).
  vm_compute. reflexivity.
Defined.

Lemma countKeep_all live : forall marks,
  Forall2 (fun d m => matchesMark d m = true) live marks ->
  Forall (fun m => mark_spanning m = true) marks ->
  countKeep live marks = List.length marks.
Proof.
  induction live as [|d live IH]; intros marks H2 Hs; inversion H2; subst; [reflexivity|].
  apply Forall_cons_iff in Hs. destruct Hs as [Hy Hs].
  cbn [countKeep List.length]. rewrite H1, Hy. cbn [andb]. f_equal. now apply IH.
Qed.

(** X10: syncing the updater to marks it has just been synced to does
    nothing, when no mark is flagged non-spanning: no level is left, no
    wrapper is entered or made, nothing is destroyed. *)
Theorem syncToMarks_twice marks u :
  Forall (fun m => mark_spanning m = true) marks ->
  syncToMarks marks (syncToMarks marks u) = syncToMarks marks u.
Proof.
  intros Hs. set (u' := syncToMarks marks u).
  pose proof (syncToMarks_matches marks u) as Hm. fold u' in Hm.
  destruct (syncToMarks_live marks u) as (cs & _ & _ & Hl). fold u' in Hl.
  unfold syncToMarks at 1.
  rewrite (countKeep_all Hm Hs), Hl, Nat.sub_diag, skipn_all.
  reflexivity.
Qed.

Lemma syncToMarks_twice_witness :
  syncToMarks [markA; markC] (syncToMarks [markA; markC] updater_in_B)
  = syncToMarks [markA; markC] updater_in_B.
Proof.
  apply (@syncToMarks_twice [markA; markC] updater_in_B).
  repeat constructor.
Defined.

Lemma destroyRest_children u :
  (index u <= List.length (children (top u)))%nat ->
  children (top (destroyRest u)) = firstn (index u) (children (top u)).
Proof.
  intros Hi. unfold destroyRest, destroyBetween.
  destruct (Nat.eqb_spec (index u) (List.length (children (top u)))) as [E|E].
  - rewrite E. now rewrite firstn_all.
  - cbn [with_changed with_world with_top top set_children children].
    unfold splice_out.
    replace (index u + (List.length (children (top u)) - index u))%nat
      with (List.length (children (top u))) by lia.
    now rewrite skipn_all, app_nil_r.
Qed.

Lemma rev_firstn_S (A : Type) (l : list A) i c :
  nth_error l i = Some c -> exists r, rev (firstn (S i) l) = c :: r.
Proof.
  intros H. rewrite (nth_error_decompose _ _ H).
  assert (Hl : (i <= List.length l)%nat).
  { apply Nat.lt_le_incl, nth_error_Some. congruence. }
  rewrite firstn_app, length_firstn, Nat.min_l by exact Hl.
  replace (S i - i)%nat with 1%nat by lia.
  rewrite (@firstn_all2 A (S i) (firstn i l)) by (rewrite length_firstn; lia).
  cbn [firstn]. rewrite rev_app_distr. cbn. eauto.
Qed.

(** X11: when the hacks of a textblock have been added and the rest of the
    children destroyed, the children end, looking through mark wrappers,
    in a text descriptor whose text does not end with a newline, or in a
    clean BR hack. *)
Theorem textblock_ends_well u :
  (index u <= List.length (children (top u)))%nat ->
  endsWell (children (top (destroyRest (addTextblockHacks u)))) = true.
Proof.
  intros Hi. unfold addTextblockHacks.
  destruct (needsHack u) eqn:Hn.
  - assert (Hhack : forall u1 h,
               (index u1 <= List.length (children (top u1)))%nat ->
               (1 <= index u1)%nat ->
               nth_error (children (top u1)) (index u1 - 1) = Some h ->
               matchesHack h = true ->
               endsWell (children (top (destroyRest u1))) = true).
    { intros u1 h Hi1 H1 Hh Hm. rewrite destroyRest_children by exact Hi1.
      unfold endsWell, lastInline.
      destruct (@rev_firstn_S _ (children (top u1)) (index u1 - 1) h Hh) as (r & Hr).
      replace (S (index u1 - 1)) with (index u1) in Hr by lia. rewrite Hr.
      unfold matchesHack in Hm. destruct h as [uh kh dh ch fh]. cbn [kind dirty] in *.
      destruct kh; try discriminate. cbn [throughMarks kind dirty]. exact Hm. }
    assert (Hins : endsWell (children (top (destroyRest (insertHack u)))) = true).
    { unfold insertHack. cbn [alloc].
      eapply Hhack.
      - cbn [index top set_children children with_changed with_world with_index with_top].
        unfold splice_in. rewrite length_app, length_firstn. cbn [List.length].
        rewrite length_skipn. lia.
      - cbn [index with_changed with_world with_index with_top]. lia.
      - cbn [index top set_children children with_changed with_world with_index with_top].
        replace (S (index u) - 1)%nat with (index u) by lia.
        unfold splice_in. rewrite nth_error_app2 by (rewrite length_firstn; lia).
        rewrite length_firstn, Nat.min_l by exact Hi. rewrite Nat.sub_diag. reflexivity.
      - reflexivity. }
    destruct (nth_error (children (top u)) (index u)) as [c|] eqn:Ec; [|exact Hins].
    destruct (matchesHack c) eqn:Hm; [|exact Hins].
    eapply Hhack with (h := c).
    + cbn [index top with_index]. apply Nat.le_succ_l, nth_error_Some. congruence.
    + cbn [index with_index]. lia.
    + cbn [index top with_index]. replace (S (index u) - 1)%nat with (index u) by lia.
      exact Ec.
    + exact Hm.
  - rewrite destroyRest_children by exact Hi.
    unfold needsHack, hackLastChild in Hn.
    destruct (index u) as [|i] eqn:Ei; [discriminate|].
    destruct (nth_error (children (top u)) i) as [c0|] eqn:Ec; [|discriminate].
    unfold endsWell, lastInline.
    destruct (@rev_firstn_S _ _ _ _ Ec) as (r & ->).
    destruct (throughMarks c0) as [c|]; [|discriminate].
    destruct (kind c); try discriminate. now rewrite Hn.
Qed.

Lemma textblock_ends_well_witness :
  endsWell (children (top (destroyRest (addTextblockHacks
              (newUpdater para_ab_desc None 0 (mkWorld 200 [])))))) = true.
Proof.
  apply (@textblock_ends_well (newUpdater para_ab_desc None 0 (mkWorld 200 []))).
  cbn. lia.
Defined.

(** X12: [placeWidget] leaves, at the place the index was at, a clean
    widget descriptor that matches the widget, and moves the index past it;
    the children in front are untouched.  Either the descriptor that stood
    there is kept and nothing changes, or a new descriptor is spliced in
    before it and the updater is marked changed. *)
Theorem placeWidget_places widget u u' :
  (index u <= List.length (children (top u)))%nat ->
  placeWidget widget u = Some (Ok u') ->
  exists c,
    nth_error (children (top u')) (index u) = Some c
    /\ matchesWidget c widget = true
    /\ index u' = S (index u)
    /\ firstn (index u) (children (top u')) = firstn (index u) (children (top u))
    /\ ((children (top u') = children (top u)
         /\ changed u' = changed u /\ world u' = world u)
        \/ (children (top u') = splice_in (index u) c (children (top u))
            /\ changed u' = true /\ uid c = fresh (world u)
            /\ (fresh (world u) < fresh (world u'))%nat)).
Proof.
  intros Hi. unfold placeWidget.
  destruct (nth_error (children (top u)) (index u)) as [next|] eqn:En.
  - destruct (matchesWidget next widget
              && (match desc_widget next with
                  | Some nw => Decoration_same widget nw
                  | None => false
                  end || negb (toDOM_hasParent next))) eqn:Er.
    + intros H. injection H as <-. exists next.
      apply andb_true_iff in Er. destruct Er as [Er _].
      cbn [top index with_index]. repeat split; auto.
    + intros H. apply bind_Ok in H. destruct H as ([desc w1] & Hn & H).
      injection H as <-. exists desc.
      cbn [top index children set_children changed world
               with_changed with_world with_index with_top].
      unfold WidgetViewDesc_new in Hn.
      destruct (deco_type widget) as [key side wm toDOM| |] eqn:Et; try discriminate.
      cbn [alloc] in Hn.
      assert (Hd : uid desc = fresh (world u) /\ matchesWidget desc widget = true
                   /\ (fresh (world u) < fresh w1)%nat).
      { destruct toDOM; injection Hn as <- <-;
          unfold matchesWidget; cbn [uid kind dirty fresh emit];
          rewrite DecoType_eq_refl; repeat split; lia. }
      destruct Hd as (Hu & Hm & Hf).
      split; [|split; [exact Hm|split; [reflexivity|split]]].
      * unfold splice_in. rewrite nth_error_app2 by (rewrite length_firstn; lia).
        rewrite length_firstn, Nat.min_l by exact Hi. now rewrite Nat.sub_diag.
      * unfold splice_in. rewrite firstn_app, length_firstn, Nat.min_l by exact Hi.
        rewrite Nat.sub_diag. cbn [firstn]. rewrite app_nil_r.
        apply firstn_all2. rewrite length_firstn. lia.
      * right. auto.
  - cbn [andb]. intros H. apply bind_Ok in H. destruct H as ([desc w1] & Hn & H).
    injection H as <-. exists desc.
    cbn [top index children set_children changed world
             with_changed with_world with_index with_top].
    unfold WidgetViewDesc_new in Hn.
    destruct (deco_type widget) as [key side wm toDOM| |] eqn:Et; try discriminate.
    cbn [alloc] in Hn.
    assert (Hd : uid desc = fresh (world u) /\ matchesWidget desc widget = true
                 /\ (fresh (world u) < fresh w1)%nat).
    { destruct toDOM; injection Hn as <- <-;
        unfold matchesWidget; cbn [uid kind dirty fresh emit];
        rewrite DecoType_eq_refl; repeat split; lia. }
    destruct Hd as (Hu & Hm & Hf).
    split; [|split; [exact Hm|split; [reflexivity|split]]].
    + unfold splice_in. rewrite nth_error_app2 by (rewrite length_firstn; lia).
      rewrite length_firstn, Nat.min_l by exact Hi. now rewrite Nat.sub_diag.
    + unfold splice_in. rewrite firstn_app, length_firstn, Nat.min_l by exact Hi.
      rewrite Nat.sub_diag. cbn [firstn]. rewrite app_nil_r.
      apply firstn_all2. rewrite length_firstn. lia.
    + right. auto.
Qed.

Lemma placeWidget_places_witness :
  exists c,
    nth_error (children (top (with_index 1 marked_updater))) (index marked_updater)
    = Some c
    /\ matchesWidget c (funWidget 1 0 (-1)) = true
    /\ index (with_index 1 marked_updater) = S (index marked_updater)
    /\ firstn (index marked_updater) (children (top (with_index 1 marked_updater)))
       = firstn (index marked_updater) (children (top marked_updater))
    /\ ((children (top (with_index 1 marked_updater)) = children (top marked_updater)
         /\ changed (with_index 1 marked_updater) = changed marked_updater
         /\ world (with_index 1 marked_updater) = world marked_updater)
        \/ (children (top (with_index 1 marked_updater))
            = splice_in (index marked_updater) c (children (top marked_updater))
            /\ changed (with_index 1 marked_updater) = true
            /\ uid c = fresh (world marked_updater)
            /\ (fresh (world marked_updater)
                < fresh (world (with_index 1 marked_updater)))%nat)).
Proof.
  apply (@placeWidget_places (funWidget 1 0 (-1)) marked_updater
           (with_index 1 marked_updater)).
  - cbn. lia.
  - vm_compute. reflexivity.
Defined.

(** ** Strings *)

Lemma length_append (s1 s2 : string) :
  String.length (s1 ++ s2) = (String.length s1 + String.length s2)%nat.
Proof. induction s1 as [|c s1 IH]; cbn; [reflexivity | now rewrite IH]. Qed.

Lemma length_substring (s : string) :
  forall n m, String.length (substring n m s) = Nat.min m (String.length s - n).
Proof.
  induction s as [|c s IH]; intros n m.
  - destruct n, m; reflexivity.
  - destruct n as [|n].
    + destruct m as [|m]; [reflexivity|]. cbn. rewrite IH. now rewrite Nat.sub_0_r.
    + cbn. apply IH.
Qed.

Lemma substring_all (s : string) : substring 0 (String.length s) s = s.
Proof. induction s as [|c s IH]; cbn; [reflexivity | now rewrite IH]. Qed.

Lemma substring_split (s : string) :
  forall n m k,
    (substring n m s ++ substring (n + m) k s)%string = substring n (m + k) s.
Proof.
  induction s as [|c s IH]; intros n m k.
  - destruct n, m, k; reflexivity.
  - destruct n as [|n].
    + destruct m as [|m].
      * cbn [Nat.add substring append]. reflexivity.
      * cbn [Nat.add substring append]. f_equal. apply (IH 0%nat m k).
    + cbn [Nat.add substring]. apply IH.
Qed.

Lemma js_slice_inside t a b :
  0 <= a <= b -> b <= length_Z t ->
  js_slice t a b = substring (Z.to_nat a) (Z.to_nat (b - a)) t.
Proof.
  intros Ha Hb. unfold js_slice.
  destruct (Z.ltb_spec a 0); [lia|]. destruct (Z.ltb_spec b 0); [lia|].
  rewrite !Z.min_l by lia.
  destruct (Z.leb_spec b a); [|reflexivity].
  assert (b = a) as -> by lia. rewrite Z.sub_diag. cbn [Z.to_nat].
  generalize (Z.to_nat a). clear. induction t as [|c t IH]; intros [|n]; cbn; auto.
Qed.

Lemma js_slice_length t a b :
  0 <= a <= b -> b <= length_Z t -> length_Z (js_slice t a b) = b - a.
Proof.
  intros Ha Hb. rewrite js_slice_inside by assumption.
  unfold length_Z in *. rewrite length_substring. lia.
Qed.

Lemma nodeSize_text n : node_isText n = true -> nodeSize n = length_Z (node_text n).
Proof. destruct n; try discriminate. reflexivity. Qed.

Lemma cut_isText n a b : node_isText (cut n a b) = node_isText n.
Proof.
  destruct n; try reflexivity. unfold cut.
  destruct (_ && _); reflexivity.
Qed.

Lemma cut_size n a b :
  node_isText n = true -> 0 <= a <= b -> b <= nodeSize n ->
  nodeSize (cut n a (Some b)) = b - a.
Proof.
  intros Ht Ha Hb. destruct n as [i m t| |]; try discriminate.
  cbn [nodeSize] in Hb. unfold cut.
  destruct (Z.eqb_spec a 0) as [->|Hn]; cbn [andb].
  - destruct (Z.eqb_spec b (length_Z t)) as [->|Hn].
    + cbn [nodeSize]. lia.
    + cbn [nodeSize]. now apply js_slice_length.
  - cbn [nodeSize]. now apply js_slice_length.
Qed.

(** ** Replacing a range of descriptors ([replaceNodes] and the [slice]
    methods) *)

Lemma sizes_app a b : sizes (a ++ b) = sizes a + sizes b.
Proof. induction a as [|x a IH]; cbn [app sizes]; [reflexivity | rewrite IH; lia]. Qed.

Lemma textsOK_mark d m :
  kind d = KMark m -> textsOK d = forallb textsOK (children d).
Proof.
  destruct d as [u k dd cs df]. cbn [kind children]. intros ->. cbn [textsOK kind children].
  induction cs as [|x r IH]; [reflexivity|]. cbn [forallb]. now rewrite IH.
Qed.

Lemma markDepth_mark d m :
  kind d = KMark m -> markDepth d = S (markDepths (children d)).
Proof.
  destruct d as [u k dd cs df]. cbn [kind children]. intros ->.
  cbn [markDepth kind children]. f_equal.
  all: induction cs as [|x r IH]; [reflexivity|]; cbn [markDepths]; now rewrite IH.
Qed.

Lemma size_mark d m : kind d = KMark m -> size d = sizes (children d).
Proof.
  intros H. apply size_sizes.
  - unfold desc_node. now rewrite H.
  - intros h t. rewrite H. discriminate.
Qed.

Lemma markDepths_app a b :
  markDepths (a ++ b) = Nat.max (markDepths a) (markDepths b).
Proof.
  induction a as [|x a IH]; cbn [app markDepths]; [reflexivity|]. rewrite IH. lia.
Qed.

Lemma forallb_textsOK_app a b :
  forallb textsOK (a ++ b) = forallb textsOK a && forallb textsOK b.
Proof. apply forallb_app. Qed.

(** What a [slice] answers has the size of the range it was asked for. *)
Definition sliceSizes (slice : ViewDesc -> Z -> Z -> World -> M (ViewDesc * World))
           (d : ViewDesc) : Prop :=
  forall a b w s w',
    textsOK d = true -> 0 <= a -> a < b -> b <= size d ->
    slice d a b w = Some (Ok (s, w')) ->
    size s = b - a /\ textsOK s = true.

(** The loop of [replaceNodes] behind the range. *)
Lemma replaceLoop_after slice from to :
  forall l,
    Forall (sliceSizes slice) l -> forallb textsOK l = true ->
    forall off w cs w',
      from < off ->
      replaceLoop slice from to l off None w = Some (Ok (cs, w')) ->
      sizes cs = (if Z.leb to off then sizes l else Z.max 0 (off + sizes l - to))
      /\ forallb textsOK cs = true.
Proof.
  induction l as [|child rest IH]; intros HS HT off w cs w' Hoff H.
  - injection H as <- _. cbn [sizes forallb]. split; [|reflexivity].
    destruct (Z.leb_spec to off); lia.
  - apply Forall_cons_iff in HS. destruct HS as [HSc HSr].
    cbn [forallb] in HT. apply andb_true_iff in HT. destruct HT as [HTc HTr].
    pose proof (size_nonneg child) as Hc. pose proof (sizes_all_nonneg rest) as Hr.
    cbn [replaceLoop] in H. cbn [sizes].
    destruct (Z.geb_spec off to) as [Hge|Hlt]; cbn [orb] in H.
    + apply bind_Ok in H. destruct H as ([r1 w1] & H1 & H). injection H as <- _.
      assert (Hx : from < off + size child) by lia.
      destruct (IH HSr HTr _ _ _ _ Hx H1) as [E1 E2].
      cbn [sizes forallb]. rewrite E1, HTc, E2.
      destruct (Z.leb_spec to off); [|lia].
      destruct (Z.leb_spec to (off + size child)); [|lia]. split; [lia|reflexivity].
    + destruct (Z.leb_spec (off + size child) from) as [Hle|Hgt]; [lia|].
      destruct (Z.ltb_spec off from) as [?|_]; [lia|].
      cbn [bind ret] in H.
      apply bind_Ok in H. destruct H as ([after w2] & Ha & H).
      apply bind_Ok in H. destruct H as ([r3 w3] & H3 & H).
      injection H as <- _. cbn [app].
      assert (Hx : from < off + size child) by lia.
      destruct (IH HSr HTr _ _ _ _ Hx H3) as [E1 E2].
      destruct (Z.leb_spec to off) as [?|_]; [lia|].
      rewrite sizes_app, forallb_textsOK_app, E1, E2.
      destruct (Z.gtb_spec (off + size child) to) as [Hg|Hng].
      * apply bind_Ok in Ha. destruct Ha as ([s ws] & Hs & Ha). injection Ha as <- _.
        assert (B1 : 0 <= to - off) by lia.
        assert (B2 : to - off < size child) by lia.
        destruct (HSc _ _ _ _ _ HTc B1 B2 (Z.le_refl _) Hs) as [Es Et].
        cbn [sizes forallb]. rewrite Es, Et.
        destruct (Z.leb_spec to (off + size child)); [|lia]. split; [lia|reflexivity].
      * injection Ha as <- _. cbn [sizes forallb].
        destruct (Z.leb_spec to (off + size child)); split; try reflexivity; lia.
Qed.

(** The loop of [replaceNodes] from before the range on. *)
Lemma replaceLoop_sizes slice from to :
  from < to ->
  forall l,
    Forall (sliceSizes slice) l -> forallb textsOK l = true ->
    forall off repl w cs w',
      off <= from -> from < off + sizes l ->
      replaceLoop slice from to l off repl w = Some (Ok (cs, w')) ->
      sizes cs = (from - off) + match repl with Some r => size r | None => 0 end
                 + Z.max 0 (off + sizes l - to)
      /\ (match repl with Some r => textsOK r = true | None => True end ->
          forallb textsOK cs = true).
Proof.
  intros Hft.
  induction l as [|child rest IH]; intros HS HT off repl w cs w' Hoff Hin H.
  - cbn [sizes] in Hin. lia.
  - apply Forall_cons_iff in HS. destruct HS as [HSc HSr].
    cbn [forallb] in HT. apply andb_true_iff in HT. destruct HT as [HTc HTr].
    pose proof (size_nonneg child) as Hc. pose proof (sizes_all_nonneg rest) as Hr.
    cbn [replaceLoop] in H. cbn [sizes] in *.
    destruct (Z.geb_spec off to) as [Hge|Hlt]; [lia|]. cbn [orb] in H.
    destruct (Z.leb_spec (off + size child) from) as [Hle|Hgt].
    + apply bind_Ok in H. destruct H as ([r1 w1] & H1 & H). injection H as <- _.
      assert (X1 : off + size child <= from) by lia.
      assert (X2 : from < off + size child + sizes rest) by lia.
      destruct (IH HSr HTr _ _ _ _ _ X1 X2 H1) as [E1 E2].
      cbn [sizes forallb]. rewrite E1, HTc. split; [|intros Hrepl; now rewrite E2].
      replace (off + size child + sizes rest - to) with (off + (size child + sizes rest) - to)
        by lia. lia.
    + apply bind_Ok in H. destruct H as ([before w1] & Hb & H).
      apply bind_Ok in H. destruct H as ([after w2] & Ha & H).
      apply bind_Ok in H. destruct H as ([r3 w3] & H3 & H).
      injection H as <- _.
      assert (X3 : from < off + size child) by lia.
      destruct (@replaceLoop_after slice from to rest HSr HTr _ _ _ _ X3 H3)
        as [E3 T3].
      assert (Eb : sizes before = from - off /\ forallb textsOK before = true).
      { destruct (Z.ltb_spec off from).
        - apply bind_Ok in Hb. destruct Hb as ([s ws] & Hs & Hb). injection Hb as <- _.
          assert (B1 : 0 < from - off) by lia.
          assert (B2 : from - off <= size child) by lia.
          destruct (HSc _ _ _ _ _ HTc (Z.le_refl 0) B1 B2 Hs) as [Es Et].
          cbn [sizes forallb]. rewrite Es, Et. split; [lia|reflexivity].
        - injection Hb as <- _. cbn [sizes forallb]. split; [lia|reflexivity]. }
      assert (Ea : sizes after = Z.max 0 (off + size child - to)
                   /\ forallb textsOK after = true).
      { destruct (Z.gtb_spec (off + size child) to).
        - apply bind_Ok in Ha. destruct Ha as ([s ws] & Hs & Ha). injection Ha as <- _.
          assert (B1 : 0 <= to - off) by lia.
          assert (B2 : to - off < size child) by lia.
          destruct (HSc _ _ _ _ _ HTc B1 B2 (Z.le_refl _) Hs) as [Es Et].
          cbn [sizes forallb]. rewrite Es, Et. split; [lia|reflexivity].
        - injection Ha as <- _. cbn [sizes forallb]. split; [lia|reflexivity]. }
      destruct Eb as [Eb Tb]. destruct Ea as [Ea Ta].
      rewrite !sizes_app, !forallb_textsOK_app, Eb, Ea, E3, Tb, Ta, T3.
      rewrite !andb_true_r. cbn [andb].
      split.
      * assert (Em : sizes (match repl with Some r => [r] | None => [] end)
                     = match repl with Some r => size r | None => 0 end).
        { destruct repl; cbn [sizes]; lia. }
        rewrite Em. destruct (Z.leb_spec to (off + size child)); lia.
      * intros Hrepl. destruct repl as [r|]; cbn [forallb]; [now rewrite Hrepl | reflexivity].
Qed.

(** What [replaceNodes] answers, when it is [rn]. *)
Definition replaceSizes
           (rn : list ViewDesc -> Z -> Z -> option ViewDesc -> World
                 -> M (list ViewDesc * World)) : Prop :=
  forall nodes from to repl w cs w',
    forallb textsOK nodes = true ->
    0 <= from -> from < to -> from < sizes nodes ->
    rn nodes from to repl w = Some (Ok (cs, w')) ->
    sizes cs = from + match repl with Some r => size r | None => 0 end
               + Z.max 0 (sizes nodes - to)
    /\ (match repl with Some r => textsOK r = true | None => True end ->
        forallb textsOK cs = true).

Lemma sliceWith_sizes rn d : replaceSizes rn -> sliceSizes (sliceWith rn) d.
Proof.
  intros Hrn a b w s w' HT Ha Hab Hb H. unfold sliceWith in H.
  destruct (kind d) as [| |m|n o i|n o i| |] eqn:K; try discriminate.
  - rewrite (textsOK_mark d K) in HT. rewrite (size_mark d K) in *.
    cbn [MarkViewDesc_create alloc] in H.
    apply bind_Ok in H. destruct H as ([n1 w1] & H1 & H).
    apply bind_Ok in H. destruct H as ([n2 w2] & H2 & H).
    injection H as <- _.
    assert (E1 : sizes n1 = b /\ forallb textsOK n1 = true).
    { destruct (Z.ltb_spec b (sizes (children d))).
      - assert (B1 : 0 <= b) by lia.
        assert (B2 : b < sizes (children d)) by lia.
        destruct (Hrn (children d) b (sizes (children d)) None _ _ _ HT B1 B2 B2 H1) as [E T].
        split; [lia|exact (T I)].
      - injection H1 as <- _. split; [lia|exact HT]. }
    destruct E1 as [E1 T1].
    assert (E2 : sizes n2 = b - a /\ forallb textsOK n2 = true).
    { destruct (Z.gtb_spec a 0).
      - assert (B1 : 0 < a) by lia.
        assert (B2 : 0 < sizes n1) by lia.
        destruct (Hrn n1 0 a None _ _ _ T1 (Z.le_refl 0) B1 B2 H2) as [E T].
        split; [lia|exact (T I)].
      - injection H2 as <- _. split; [lia|exact T1]. }
    destruct E2 as [E2 T2].
    split.
    + rewrite (@size_mark _ m) by reflexivity. exact E2.
    + rewrite (@textsOK_mark _ m) by reflexivity. exact T2.
  - cbn [alloc] in H. injection H as <- _.
    assert (Hn : node_isText n = true).
    { destruct d as [u k dd cs df]. cbn [kind] in K. subst k. exact HT. }
    assert (Hs : size d = nodeSize n).
    { destruct d as [u k dd cs df]. cbn [kind] in K. subst k. reflexivity. }
    split.
    + cbn [size kind]. apply cut_size; [exact Hn | lia | lia].
    + cbn [textsOK kind]. now rewrite cut_isText.
Qed.

Lemma replaceNodes_replaceSizes fuel : replaceSizes (replaceNodes fuel).
Proof.
  induction fuel as [|fuel IH]; intros nodes from to repl w cs w' HT Hf Hft Hin H;
    [discriminate|].
  rewrite replaceNodes_S in H.
  assert (HS : Forall (sliceSizes (sliceWith (replaceNodes fuel))) nodes).
  { apply Forall_forall. intros d _. now apply sliceWith_sizes. }
  assert (B2 : from < 0 + sizes nodes) by lia.
  destruct (@replaceLoop_sizes (sliceWith (replaceNodes fuel)) from to Hft nodes
              HS HT 0 repl w cs w' Hf B2 H) as [E T].
  split; [|exact T]. rewrite E. lia.
Qed.

(** The depth of what [replaceNodes] answers. *)
Definition replaceDepth
           (rn : list ViewDesc -> Z -> Z -> option ViewDesc -> World
                 -> M (list ViewDesc * World)) : Prop :=
  forall nodes from to repl w cs w',
    rn nodes from to repl w = Some (Ok (cs, w')) ->
    (markDepths cs
     <= Nat.max (markDepths nodes)
                match repl with Some r => markDepth r | None => 0 end)%nat.

Lemma sliceWith_depth rn d :
  replaceDepth rn ->
  forall a b w s w',
    sliceWith rn d a b w = Some (Ok (s, w')) -> (markDepth s <= markDepth d)%nat.
Proof.
  intros Hrn a b w s w' H. unfold sliceWith in H.
  destruct (kind d) as [| |m|n o i|n o i| |] eqn:K; try discriminate.
  - cbn [MarkViewDesc_create alloc] in H.
    apply bind_Ok in H. destruct H as ([n1 w1] & H1 & H).
    apply bind_Ok in H. destruct H as ([n2 w2] & H2 & H).
    injection H as <- _.
    rewrite (markDepth_mark d K), (@markDepth_mark _ m) by reflexivity.
    cbn [set_children children].
    assert (E1 : (markDepths n1 <= markDepths (children d))%nat).
    { destruct (Z.ltb b (size d)).
      - apply Hrn in H1. cbn in H1. lia.
      - injection H1 as <- _. lia. }
    assert (E2 : (markDepths n2 <= markDepths n1)%nat).
    { destruct (Z.gtb a 0).
      - apply Hrn in H2. cbn in H2. lia.
      - injection H2 as <- _. lia. }
    lia.
  - cbn [alloc] in H. injection H as <- _. cbn. lia.
Qed.

Lemma replaceLoop_depth slice from to :
  forall l,
    (forall d a b w s w',
        In d l -> slice d a b w = Some (Ok (s, w')) ->
        (markDepth s <= markDepth d)%nat) ->
    forall off repl w cs w',
      replaceLoop slice from to l off repl w = Some (Ok (cs, w')) ->
      (markDepths cs
       <= Nat.max (markDepths l)
                  match repl with Some r => markDepth r | None => 0 end)%nat.
Proof.
  induction l as [|child rest IH]; intros HS off repl w cs w' H.
  - injection H as <- _. cbn. lia.
  - assert (HSr : forall d a b w s w',
               In d rest -> slice d a b w = Some (Ok (s, w')) ->
               (markDepth s <= markDepth d)%nat).
    { intros d a b w0 s w1 Hd. apply HS. now right. }
    cbn [replaceLoop] in H. cbn [markDepths].
    destruct (Z.geb off to || Z.leb (off + size child) from).
    + apply bind_Ok in H. destruct H as ([r1 w1] & H1 & H). injection H as <- _.
      specialize (IH HSr _ _ _ _ _ H1). cbn [markDepths]. lia.
    + apply bind_Ok in H. destruct H as ([before w1] & Hb & H).
      apply bind_Ok in H. destruct H as ([after w2] & Ha & H).
      apply bind_Ok in H. destruct H as ([r3 w3] & H3 & H).
      injection H as <- _.
      specialize (IH HSr _ _ _ _ _ H3). cbn in IH. rewrite Nat.max_0_r in IH.
      assert (Eb : (markDepths before <= markDepth child)%nat).
      { destruct (Z.ltb off from).
        - apply bind_Ok in Hb. destruct Hb as ([s ws] & Hs & Hb). injection Hb as <- _.
          apply HS in Hs; [|now left]. cbn [markDepths]. lia.
        - injection Hb as <- _. cbn. lia. }
      assert (Ea : (markDepths after <= markDepth child)%nat).
      { destruct (Z.gtb (off + size child) to).
        - apply bind_Ok in Ha. destruct Ha as ([s ws] & Hs & Ha). injection Ha as <- _.
          apply HS in Hs; [|now left]. cbn [markDepths]. lia.
        - injection Ha as <- _. cbn. lia. }
      rewrite !markDepths_app.
      assert (Em : markDepths (match repl with Some r => [r] | None => [] end)
                   = match repl with Some r => markDepth r | None => 0%nat end).
      { destruct repl; cbn [markDepths]; lia. }
      rewrite Em. lia.
Qed.

Lemma replaceNodes_depth fuel : replaceDepth (replaceNodes fuel).
Proof.
  induction fuel as [|fuel IH]; intros nodes from to repl w cs w' H; [discriminate|].
  rewrite replaceNodes_S in H.
  eapply replaceLoop_depth; [|exact H].
  intros d a b w0 s w1 _. now apply sliceWith_depth.
Qed.

Lemma bind_not_None (A B : Type) (m : M A) (k : A -> M B) :
  m <> None -> (forall a, m = Some (Ok a) -> k a <> None) -> bind m k <> None.
Proof.
  intros Hm Hk. unfold bind. destruct m as [[a|e]|]; [now apply Hk | discriminate | congruence].
Qed.

Lemma replaceLoop_total slice from to :
  forall l,
    (forall d a b w, In d l -> slice d a b w <> None) ->
    forall off repl w, replaceLoop slice from to l off repl w <> None.
Proof.
  induction l as [|child rest IH]; intros HS off repl w; [discriminate|].
  assert (HSr : forall d a b w, In d rest -> slice d a b w <> None).
  { intros d a b w0 Hd. apply HS. now right. }
  assert (Hany : forall (c : bool) a b w0,
             (if c then '(s, w1) <- slice child a b w0 ;; ret ([s], w1)
              else ret ([], w0)) <> None).
  { intros c a b w0. destruct c; [|discriminate].
    apply bind_not_None; [apply HS; now left|]. intros [s w1] _. discriminate. }
  cbn [replaceLoop].
  destruct (Z.geb off to || Z.leb (off + size child) from).
  - apply bind_not_None; [now apply IH|]. intros [r1 w1] _. discriminate.
  - apply bind_not_None; [apply Hany|]. intros [before w1] _.
    apply bind_not_None; [apply Hany|]. intros [after w2] _.
    apply bind_not_None; [now apply IH|]. intros [r3 w3] _. discriminate.
Qed.

Lemma sliceWith_total rn d :
  replaceDepth rn ->
  (forall nodes f t r w, (markDepths nodes < markDepth d)%nat -> rn nodes f t r w <> None) ->
  forall a b w, sliceWith rn d a b w <> None.
Proof.
  intros Hd Hrn a b w. unfold sliceWith.
  destruct (kind d) as [| |m|n o i|n o i| |] eqn:K; try discriminate.
  cbn [MarkViewDesc_create alloc].
  rewrite (markDepth_mark d K) in Hrn.
  apply bind_not_None.
  - destruct (Z.ltb b (size d)); [|discriminate]. apply Hrn. lia.
  - intros [n1 w1] H1.
    assert (E1 : (markDepths n1 <= markDepths (children d))%nat).
    { destruct (Z.ltb b (size d)).
      - apply Hd in H1. cbn in H1. lia.
      - injection H1 as <- _. lia. }
    apply bind_not_None.
    + destruct (Z.gtb a 0); [|discriminate]. apply Hrn. lia.
    + intros [n2 w2] _. discriminate.
Qed.

Lemma replaceNodes_total fuel :
  forall nodes from to repl w,
    (markDepths nodes < fuel)%nat -> replaceNodes fuel nodes from to repl w <> None.
Proof.
  induction fuel as [|fuel IH]; intros nodes from to repl w Hf; [lia|].
  rewrite replaceNodes_S. apply replaceLoop_total.
  intros d a b w0 Hin. apply sliceWith_total; [apply replaceNodes_depth|].
  intros nodes0 f t r w1 Hlt. apply IH.
  assert (markDepth d <= markDepths nodes)%nat; [|lia].
  clear - Hin. induction nodes as [|x l IHl]; [contradiction|].
  cbn [markDepths]. destruct Hin as [->|Hin]; [lia|]. specialize (IHl Hin). lia.
Qed.


(** An input method composes the text "b" in a host text node that no
    descriptor of the paragraph "ab" has as its DOM. *)
Definition compose_b : Composition := mkComposition 99 [10%nat] 99 1 "b".

Definition protected_ab : ViewDesc * World :=
  Eval vm_compute in
    match protectLocalComposition 3 compose_b para_ab_desc (mkWorld 200 []) with
    | Some (Ok r) => r
    | _ => (para_ab_desc, mkWorld 200 [])
    end.




(** ** Iterating the children and decorations of a node *)

Lemma byPos_spec a b :
  byPos a b = true <->
  deco_from a < deco_from b \/ (deco_from a = deco_from b /\ deco_to a <= deco_to b).
Proof.
  unfold byPos. rewrite orb_true_iff, andb_true_iff, Z.ltb_lt, Z.eqb_eq, Z.leb_le.
  tauto.
Qed.

Lemma sortedByPos_tail a r : sortedByPos (a :: r) = true -> sortedByPos r = true.
Proof. cbn [sortedByPos]. intros H. apply andb_true_iff in H. tauto. Qed.

(** In a sorted list every later decoration comes after the first. *)
Lemma sortedByPos_head a r :
  sortedByPos (a :: r) = true -> Forall (fun x => byPos a x = true) r.
Proof.
  revert a. induction r as [|b r IH]; intros a H; [constructor|].
  cbn [sortedByPos] in H. apply andb_true_iff in H. destruct H as [Hab Hr].
  constructor; [exact Hab|].
  specialize (IH b Hr). eapply Forall_impl; [|exact IH].
  intros x Hbx. apply byPos_spec in Hab, Hbx. apply byPos_spec. lia.
Qed.

Lemma sortedByPos_app l1 l2 : sortedByPos (l1 ++ l2) = true -> sortedByPos l2 = true.
Proof.
  induction l1 as [|a l1 IH]; intros H; [exact H|].
  apply IH. eapply sortedByPos_tail. exact H.
Qed.

Lemma takeEndingAt_spec o ls :
  let r := takeEndingAt o ls in
  ls = fst r ++ snd r
  /\ Forall (fun l => deco_to l = o) (fst r)
  /\ match snd r with [] => True | h :: _ => deco_to h <> o end.
Proof.
  induction ls as [|l r IH]; cbn [takeEndingAt]; [repeat split; constructor|].
  destruct (Z.eqb_spec (deco_to l) o) as [E|E].
  - destruct (takeEndingAt o r) as [ws r'] eqn:Et. cbn [fst snd] in *.
    destruct IH as (I1 & I2 & I3). repeat split.
    + cbn [app]. now f_equal.
    + now constructor.
    + exact I3.
  - cbn [fst snd]. repeat split; [constructor | exact E].
Qed.

Lemma takeCovering_spec o ls :
  let r := takeCovering o ls in
  ls = fst r ++ snd r
  /\ Forall (fun l => covers o l = true) (fst r)
  /\ match snd r with [] => True | h :: _ => covers o h = false end.
Proof.
  induction ls as [|l r IH]; cbn [takeCovering]; [repeat split; constructor|].
  fold (Z.gtb (deco_to l) o).
  assert (E : (Z.leb (deco_from l) o && Z.gtb (deco_to l) o) = covers o l).
  { unfold covers. now rewrite Z.gtb_ltb. }
  rewrite E. destruct (covers o l) eqn:Ec.
  - destruct (takeCovering o r) as [act r'] eqn:Et. cbn [fst snd] in *.
    destruct IH as (I1 & I2 & I3). repeat split.
    + cbn [app]. now f_equal.
    + now constructor.
    + exact I3.
  - cbn [fst snd]. repeat split; [constructor | exact Ec].
Qed.

(** What the two scans at a position use up. *)
Lemma consume_spec o ls :
  sortedByPos ls = true ->
  Forall (fun l => o <= deco_from l /\ deco_from l <= deco_to l) ls ->
  let W := fst (takeEndingAt o ls) in
  let more := fst (takeCovering o (snd (takeEndingAt o ls))) in
  let ls2 := snd (takeCovering o (snd (takeEndingAt o ls))) in
  ls = W ++ more ++ ls2
  /\ Forall (fun l => deco_from l = o /\ deco_to l = o) W
  /\ Forall (fun l => covers o l = true) more
  /\ Forall (fun l => o < deco_from l /\ deco_from l <= deco_to l) ls2
  /\ sortedByPos ls2 = true.
Proof.
  intros Hs Hl W more ls2.
  destruct (takeEndingAt_spec o ls) as (E1 & F1 & N1). fold W in E1, F1.
  destruct (takeCovering_spec o (snd (takeEndingAt o ls))) as (E2 & F2 & N2).
  fold more in E2, F2. fold ls2 in E2, N2.
  set (ls1 := snd (takeEndingAt o ls)) in *.
  assert (E : ls = W ++ more ++ ls2) by (rewrite E1 at 1; now rewrite E2 at 1).
  assert (Hl' := Hl). rewrite E in Hl'.
  apply Forall_app in Hl'. destruct Hl' as [HW Hl'].
  apply Forall_app in Hl'. destruct Hl' as [Hm H2].
  assert (S2 : sortedByPos ls2 = true).
  { rewrite E in Hs. apply sortedByPos_app in Hs. now apply sortedByPos_app in Hs. }
  split; [exact E|]. split; [|split; [exact F2|split; [|exact S2]]].
  - clear - F1 HW. induction F1 as [|x l Hx _ IH]; [constructor|].
    apply Forall_cons_iff in HW. destruct HW as [[A B] HW].
    constructor; [split; lia | now apply IH].
  - destruct ls2 as [|h t]; [constructor|].
    assert (Hh : o < deco_from h).
    { apply Forall_cons_iff in H2. destruct H2 as [[A B] _].
      destruct (Z.eq_dec (deco_from h) o) as [Eo|]; [|lia]. exfalso.
      assert (Ht : deco_to h = o).
      { unfold covers in N2. rewrite Eo, Z.leb_refl in N2. cbn [andb] in N2.
        apply Z.ltb_ge in N2. lia. }
      destruct more as [|m more'].
      - cbn [app] in E2. rewrite E2 in N1. contradiction.
      - apply Forall_cons_iff in F2. destruct F2 as [Cm _].
        apply Forall_cons_iff in Hm. destruct Hm as [[Am Bm] _].
        rewrite E in Hs. apply sortedByPos_app in Hs. cbn [app] in Hs.
        apply sortedByPos_head in Hs.
        apply Forall_app in Hs. destruct Hs as [_ Hs].
        apply Forall_cons_iff in Hs. destruct Hs as [Hmh _].
        apply byPos_spec in Hmh. unfold covers in Cm.
        apply andb_true_iff in Cm. destruct Cm as [C1 C2].
        apply Z.leb_le in C1. apply Z.ltb_lt in C2. lia. }
    pose proof (sortedByPos_head _ _ S2) as Hh2.
    apply Forall_cons_iff in H2. destruct H2 as [[A B] H2].
    constructor; [split; lia|].
    rewrite Forall_forall in *. intros x Hx.
    specialize (Hh2 x Hx). apply byPos_spec in Hh2. specialize (H2 x Hx). lia.
Qed.

Lemma fold_min_spec (active : list Decoration) :
  forall c0,
    let r := fold_left (fun c a => if Z.ltb (deco_to a) c then deco_to a else c)
                       active c0 in
    r <= c0 /\ Forall (fun a => r <= deco_to a) active
    /\ (r = c0 \/ exists a, In a active /\ r = deco_to a).
Proof.
  induction active as [|a l IH]; intros c0; cbn [fold_left].
  - repeat split; [lia | constructor | now left].
  - set (c1 := if Z.ltb (deco_to a) c0 then deco_to a else c0).
    destruct (IH c1) as (I1 & I2 & I3).
    assert (Hc1 : c1 <= c0 /\ c1 <= deco_to a /\ (c1 = c0 \/ c1 = deco_to a)).
    { unfold c1. destruct (Z.ltb_spec (deco_to a) c0); lia. }
    repeat split.
    + lia.
    + constructor; [lia | exact I2].
    + destruct I3 as [I3|(x & Hx & I3)].
      * destruct Hc1 as (_ & _ & [H|H]); [left; lia | right; exists a; split; [now left | lia]].
      * right. exists x. split; [now right | exact I3].
Qed.

Lemma cutAt_of_spec end_ ls active :
  let c := cutAt_of end_ ls active in
  c <= end_
  /\ match ls with l :: _ => c <= deco_from l | [] => True end
  /\ Forall (fun a => c <= deco_to a) active
  /\ forall o,
       match ls with l :: _ => o < deco_from l | [] => True end ->
       Forall (fun a => o < deco_to a) active -> c = end_ \/ o < c.
Proof.
  unfold cutAt_of.
  set (c0 := match ls with
             | l :: _ => if Z.ltb (deco_from l) end_ then deco_from l else end_
             | [] => end_
             end).
  destruct (fold_min_spec active c0) as (I1 & I2 & I3).
  assert (H0 : c0 <= end_ /\ match ls with l :: _ => c0 <= deco_from l | [] => True end).
  { unfold c0. destruct ls as [|l r]; [split; [lia|exact I]|].
    destruct (Z.ltb_spec (deco_from l) end_); lia. }
  destruct H0 as [H0 H1].
  repeat split.
  - lia.
  - destruct ls; [exact I | lia].
  - exact I2.
  - intros o Hl Ha. destruct I3 as [->|(a & Ha' & ->)].
    + unfold c0. destruct ls as [|l r]; [now left|].
      destruct (Z.ltb_spec (deco_from l) end_); [right; lia | now left].
    + right. rewrite Forall_forall in Ha. now apply Ha.
Qed.

Lemma In_insertBySide x w l : In x (insertBySide w l) <-> x = w \/ In x l.
Proof.
  induction l as [|y r IH]; cbn [insertBySide].
  - cbn. intuition.
  - destruct (Z.ltb (deco_side w) (deco_side y)); cbn [In]; [intuition|].
    rewrite IH. intuition.
Qed.

Lemma In_sortBySide x l : In x (sortBySide l) <-> In x l.
Proof.
  unfold sortBySide. induction l as [|y r IH]; cbn [fold_right]; [tauto|].
  rewrite In_insertBySide, IH. cbn [In]. intuition.
Qed.

Lemma eventOffsets_app evs1 : forall evs2 o,
  Forall (fun e => isOnNode e = false) evs1 ->
  eventOffsets (evs1 ++ evs2) o = map (fun e => (o, e)) evs1 ++ eventOffsets evs2 o.
Proof.
  induction evs1 as [|e r IH]; intros evs2 o H; [reflexivity|].
  apply Forall_cons_iff in H. destruct H as [He Hr].
  destruct e; [|discriminate]. cbn [app eventOffsets map]. f_equal. now apply IH.
Qed.

Lemma filter_isOnNode_widgets (ws : list Decoration) i b evs :
  filter isOnNode (map (fun w => OnWidget w i b) ws ++ evs) = filter isOnNode evs.
Proof. induction ws as [|w r IH]; [reflexivity | exact IH]. Qed.

Lemma filter_none_Forall (A : Type) (f : A -> bool) (l : list A) :
  Forall (fun x => f x = false) l -> filter f l = [].
Proof.
  induction 1 as [|x l Hx _ IH]; [reflexivity|]. cbn [filter]. now rewrite Hx.
Qed.

Lemma filter_all_Forall (A : Type) (f : A -> bool) (l : list A) :
  Forall (fun x => f x = true) l -> filter f l = l.
Proof.
  induction 1 as [|x l Hx _ IH]; [reflexivity|]. cbn [filter]. rewrite Hx. now f_equal.
Qed.

Lemma filter_filter_in (A : Type) (f g h : A -> bool) (l : list A) :
  (forall x, In x l -> g x && f x = h x) ->
  filter f (filter g l) = filter h l.
Proof.
  induction l as [|x l IH]; intros H; [reflexivity|].
  assert (Hx := H x (or_introl eq_refl)).
  assert (Hl : forall y, In y l -> g y && f y = h y) by (intros y Hy; apply H; now right).
  cbn [filter]. destruct (g x); cbn [andb] in Hx; rewrite <- Hx.
  - cbn [filter]. destruct (f x); [f_equal|]; now apply IH.
  - now apply IH.
Qed.

Lemma Pieces_length m t g : Pieces m t g -> (1 <= List.length g)%nat.
Proof. induction 1; cbn [List.length]; lia. Qed.

Lemma js_slice_glue t k :
  0 <= k <= length_Z t ->
  (js_slice t 0 k ++ js_slice t k (length_Z t))%string = t.
Proof.
  intros Hk. rewrite !js_slice_inside by lia.
  rewrite Z.sub_0_r. change (Z.to_nat 0) with 0%nat.
  pose proof (substring_split t 0 (Z.to_nat k) (Z.to_nat (length_Z t - k))) as H.
  cbn [Nat.add] in H. rewrite H.
  replace (Z.to_nat k + Z.to_nat (length_Z t - k))%nat with (String.length t)
    by (unfold length_Z in *; lia).
  apply substring_all.
Qed.

Lemma length_Z_empty t : length_Z t = 0 -> t = EmptyString.
Proof. destruct t; [reflexivity|]. unfold length_Z. cbn. lia. Qed.

(** The decorations active for the child at [o] are the local decorations
    that cover [o]. *)
Lemma active_spec all o consumed ls active :
  all = consumed ++ ls ->
  sortedByPos ls = true ->
  Forall (fun l => o <= deco_from l /\ deco_from l <= deco_to l) ls ->
  filter (fun a => negb (Z.leb (deco_to a) o)) active = filter (covers o) consumed ->
  filter (fun a => negb (Z.leb (deco_to a) o)) active
    ++ fst (takeCovering o (snd (takeEndingAt o ls)))
  = filter (covers o) all.
Proof.
  intros Hall Hs Hl Ha.
  destruct (@consume_spec o ls Hs Hl) as (E & FW & Fm & F2 & _).
  set (more := fst (takeCovering o (snd (takeEndingAt o ls)))) in *.
  set (ls2 := snd (takeCovering o (snd (takeEndingAt o ls)))) in *.
  set (W := fst (takeEndingAt o ls)) in *.
  clearbody W more ls2. subst ls all.
  rewrite !filter_app, Ha.
  rewrite (@filter_none_Forall _ (covers o) W).
  - rewrite (@filter_all_Forall _ _ _ Fm).
    rewrite (@filter_none_Forall _ (covers o) ls2).
    + now rewrite app_nil_r.
    + eapply Forall_impl; [|exact F2]. intros l [A B]. unfold covers.
      destruct (Z.leb_spec (deco_from l) o); [lia | reflexivity].
  - eapply Forall_impl; [|exact FW]. intros l [A B]. unfold covers.
    rewrite B, Z.ltb_irrefl. apply andb_false_r.
Qed.

(** Decide the comparisons of the goal and let [lia] finish. *)
Ltac zbool :=
  repeat match goal with
         | |- context [Z.ltb ?x ?y] =>
             let L := fresh "L" in destruct (Z.ltb_spec x y) as [L|L]
         | |- context [Z.leb ?x ?y] =>
             let L := fresh "L" in destruct (Z.leb_spec x y) as [L|L]
         | |- context [Z.eqb ?x ?y] =>
             let L := fresh "L" in destruct (Z.eqb_spec x y) as [L|L]
         end;
  cbn [andb orb negb]; try reflexivity; try lia.

(** One round of the loop keeps the state in order. *)
Lemma loop_step all o consumed ls active child cs_next :
  all = consumed ++ ls ->
  sortedByPos ls = true ->
  Forall (fun l => o <= deco_from l /\ deco_from l <= deco_to l) ls ->
  Forall (fun l => deco_from l <= o) consumed ->
  filter (fun a => negb (Z.leb (deco_to a) o)) active = filter (covers o) consumed ->
  Forall (fun l => (node_isText child
                    || negb (strictlyInside o (o + nodeSize child) (deco_from l)
                             || strictlyInside o (o + nodeSize child) (deco_to l)))
                   = true) all ->
  Forall (fun l => respects cs_next (o + nodeSize child) l = true) all ->
  let W := fst (takeEndingAt o ls) in
  let more := fst (takeCovering o (snd (takeEndingAt o ls))) in
  let ls2 := snd (takeCovering o (snd (takeEndingAt o ls))) in
  let active' := filter (fun a => negb (Z.leb (deco_to a) o)) active ++ more in
  let end_ := o + nodeSize child in
  let cutAt := if node_isText child then cutAt_of end_ ls2 active' else end_ in
  active' = filter (covers o) all
  /\ if node_isText child && Z.ltb cutAt end_
     then o < cutAt
          /\ Forall (fun a => cutAt <= deco_to a) active'
          /\ LoopInv all cutAt (consumed ++ W ++ more) ls2 active'
                     (Some (cut child (cutAt - o) None)) cs_next
     else Forall (fun a => end_ <= deco_to a) active'
          /\ LoopInv all end_ (consumed ++ W ++ more) ls2 active' None cs_next.
Proof.
  intros Hall Hs Hl Hc Ha Hchild Hresp W more ls2 active' end_ cutAt.
  pose proof (@consume_spec o ls Hs Hl) as HC. cbv zeta in HC.
  fold more ls2 W in HC. destruct HC as (E & FW & Fm & F2 & S2).
  assert (Hact : active' = filter (covers o) all).
  { unfold active', more. now apply active_spec with (consumed := consumed). }
  assert (Hall' : all = (consumed ++ W ++ more) ++ ls2).
  { rewrite Hall. rewrite E at 1. now rewrite <- !app_assoc. }
  assert (Hcons : forall o', o <= o' ->
             Forall (fun l => deco_from l <= o') (consumed ++ W ++ more)).
  { intros o' Ho. apply Forall_app. split; [|apply Forall_app; split].
    - eapply Forall_impl; [|exact Hc]. cbn. intros; lia.
    - eapply Forall_impl; [|exact FW]. cbn. intros l [A B]; lia.
    - eapply Forall_impl; [|exact Fm]. intros l Hl0. unfold covers in Hl0.
      apply andb_true_iff in Hl0. destruct Hl0 as [A _]. apply Z.leb_le in A. lia. }
  assert (Hact2 : active' = filter (covers o) (consumed ++ W ++ more)).
  { rewrite Hact, Hall', filter_app.
    rewrite (@filter_none_Forall _ (covers o) ls2); [now rewrite app_nil_r|].
    eapply Forall_impl; [|exact F2]. intros l [A B]. unfold covers. zbool. }
  assert (Hfil : forall o', o <= o' ->
             filter (fun a => negb (Z.leb (deco_to a) o')) active'
             = filter (covers o') (consumed ++ W ++ more)).
  { intros o' Ho. rewrite Hact2. apply filter_filter_in.
    intros x Hx. pose proof (Hcons o (Z.le_refl o)) as Hx0.
    rewrite Forall_forall in Hx0. specialize (Hx0 x Hx). cbn in Hx0.
    unfold covers. zbool. }
  assert (Hgt : Forall (fun a => o < deco_to a) active').
  { rewrite Hact. apply Forall_forall. intros a Ha0. apply filter_In in Ha0.
    destruct Ha0 as [_ Ha0]. unfold covers in Ha0. apply andb_true_iff in Ha0.
    destruct Ha0 as [_ Ha0]. now apply Z.ltb_lt in Ha0. }
  assert (Hhead : match ls2 with l :: _ => o < deco_from l | [] => True end).
  { destruct ls2 as [|h t]; [exact I|]. apply Forall_cons_iff in F2. tauto. }
  assert (Hsz : 0 <= nodeSize child) by apply nodeSize_nonneg.
  assert (Hmk : forall o',
             o <= o' ->
             Forall (fun l => o' <= deco_from l) ls2 ->
             forall rest,
               match rest with
               | Some r => (exists m t, r = TextNode 0 m t /\ t <> EmptyString)
                           /\ o' + nodeSize r = end_
               | None => o' = end_
               end ->
               LoopInv all o' (consumed ++ W ++ more) ls2 active' rest cs_next).
  { intros o' Ho Hfrom rest Hrest. constructor.
    - exact Hall'.
    - exact S2.
    - rewrite Forall_forall in *. intros l Hl0. specialize (F2 l Hl0).
      specialize (Hfrom l Hl0). cbn in *. lia.
    - now apply Hcons.
    - now apply Hfil.
    - destruct rest as [r|]; [tauto | exact I].
    - assert (Eo : o' + match rest with Some r => nodeSize r | None => 0 end = end_).
      { destruct rest as [r|]; [tauto | lia]. }
      rewrite Eo. exact Hresp. }
  split; [exact Hact|].
  destruct (node_isText child) eqn:Ht; cbn [andb].
  - destruct (@cutAt_of_spec end_ ls2 active') as (C1 & C2 & C3 & C4).
    fold cutAt in C1, C2, C3, C4. unfold cutAt at 1.
    specialize (C4 o Hhead Hgt).
    assert (Hfrom : Forall (fun l => cutAt <= deco_from l) ls2).
    { destruct ls2 as [|h t]; [constructor|].
      constructor; [exact C2|].
      pose proof (sortedByPos_head _ _ S2) as Hh.
      eapply Forall_impl; [|exact Hh]. intros x Hx. apply byPos_spec in Hx. cbn. lia. }
    fold cutAt.
    destruct (Z.ltb_spec cutAt end_) as [Hlt|Hge].
    + assert (Ho : o < cutAt) by (destruct C4; lia).
      split; [exact Ho|]. split; [exact C3|].
      apply Hmk; [lia | exact Hfrom |].
      destruct child as [i m t| |]; try discriminate.
      cbn [nodeSize] in *. unfold cut.
      destruct (Z.eqb_spec (cutAt - o) 0) as [?|_]; [lia|]. cbn [andb nodeSize].
      assert (Hlen : length_Z (js_slice t (cutAt - o) (length_Z t)) = end_ - cutAt).
      { rewrite js_slice_length; unfold end_; lia. }
      split; [|lia].
      exists m, (js_slice t (cutAt - o) (length_Z t)). split; [reflexivity|].
      intros Hem. rewrite Hem in Hlen. unfold length_Z at 1 in Hlen. cbn in Hlen. lia.
    + assert (Ec : cutAt = end_) by lia.
      split; [rewrite <- Ec; exact C3|].
      apply Hmk; [lia | rewrite <- Ec; exact Hfrom | reflexivity].
  - split.
    + apply Forall_forall. intros a Ha0.
      assert (Hin : In a all) by (rewrite Hact in Ha0; apply filter_In in Ha0; tauto).
      rewrite Forall_forall in Hchild, Hgt. specialize (Hchild a Hin).
      specialize (Hgt a Ha0). cbn [orb] in Hchild.
      apply negb_true_iff, orb_false_iff in Hchild. destruct Hchild as [_ H2].
      unfold strictlyInside in H2. fold end_ in H2.
      destruct (Z.ltb_spec o (deco_to a)); [|lia]. cbn [andb] in H2.
      apply Z.ltb_ge in H2. exact H2.
    + apply Hmk; [lia | | reflexivity].
      apply Forall_forall. intros l Hl0.
      assert (Hin : In l all).
      { rewrite Hall'. apply in_or_app. now right. }
      rewrite Forall_forall in Hchild, F2. specialize (Hchild l Hin).
      specialize (F2 l Hl0). cbn [orb] in Hchild.
      apply negb_true_iff, orb_false_iff in Hchild. destruct Hchild as [H1 _].
      unfold strictlyInside in H1. fold end_ in H1.
      destruct (Z.ltb_spec o (deco_from l)); [|lia]. cbn [andb] in H1.
      apply Z.ltb_ge in H1. exact H1.
Qed.

(** One round of the loop, spelled out. *)
Lemma iterDeco_loop_S fuel deco ls active restNode cs pi o :
  iterDeco_loop (S fuel) deco ls active restNode cs pi o
  = let W := fst (takeEndingAt o ls) in
    let ls1 := snd (takeEndingAt o ls) in
    let wevents :=
      map (fun w => OnWidget w pi (match restNode with Some _ => true | None => false end))
          (match W with [] | [_] => W | _ => sortBySide W end) in
    match (match restNode with
           | Some r => Some (r, (-1), cs, pi)
           | None => match cs with
                     | c :: cs' => Some (c, Z.of_nat pi, cs', S pi)
                     | [] => None
                     end
           end) with
    | None => Some wevents
    | Some (child, index, cs', pi') =>
        let more := fst (takeCovering o ls1) in
        let ls2 := snd (takeCovering o ls1) in
        let active' := filter (fun a => negb (Z.leb (deco_to a) o)) active ++ more in
        let end_ := o + nodeSize child in
        let cutAt := if node_isText child then cutAt_of end_ ls2 active' else end_ in
        if node_isText child && Z.ltb cutAt end_
        then match iterDeco_loop fuel deco ls2 active'
                                 (Some (cut child (cutAt - o) None)) cs' pi' cutAt with
             | None => None
             | Some evs =>
                 Some (wevents
                       ++ OnNode (cut child 0 (Some (cutAt - o))) active'
                            (forChild deco o (cut child 0 (Some (cutAt - o)))) (-1)
                       :: evs)
             end
        else match iterDeco_loop fuel deco ls2 active' None cs' pi' end_ with
             | None => None
             | Some evs =>
                 Some (wevents ++ OnNode child active' (forChild deco o child) index :: evs)
             end
    end.
Proof.
  cbn [iterDeco_loop]. cbv zeta.
  destruct (takeEndingAt o ls) as [W ls1]. cbn [fst snd].
  destruct restNode as [r|]; [|destruct cs as [|c cs']; [reflexivity|]];
    destruct (takeCovering o ls1) as [more ls2]; cbn [fst snd];
    match goal with
    | |- context [node_isText ?c && Z.ltb ?a ?b] =>
        destruct (node_isText c && Z.ltb a b)
    end; reflexivity.
Qed.

Lemma widget_events_ok deco all o (W : list Decoration) pi inside :
  Forall (fun l => deco_from l = o /\ deco_to l = o) W ->
  (forall x, In x W -> In x all) ->
  Forall (eventOK deco all)
         (map (fun e => (o, e))
              (map (fun w => OnWidget w pi inside)
                   (match W with [] | [_] => W | _ => sortBySide W end))).
Proof.
  intros HW Hin.
  assert (Hwl : forall x, In x (match W with [] | [_] => W | _ => sortBySide W end)
                          -> In x W).
  { intros x Hx. destruct W as [|a [|b r]]; try exact Hx.
    exact (proj1 (In_sortBySide x (a :: b :: r)) Hx). }
  apply Forall_forall. intros [o' e] He.
  apply in_map_iff in He. destruct He as (e' & He & Hin').
  injection He as <- <-.
  apply in_map_iff in Hin'. destruct Hin' as (w & <- & Hw).
  apply Hwl in Hw. rewrite Forall_forall in HW. destruct (HW w Hw) as [A B].
  unfold eventOK. cbn [fst snd]. repeat split; auto.
Qed.

Lemma map_widgets_notNode (ws : list Decoration) i b :
  Forall (fun e => isOnNode e = false) (map (fun w => OnWidget w i b) ws).
Proof. apply Forall_forall. intros e He. apply in_map_iff in He. now destruct He as (w & <- & _). Qed.

Lemma fragment_size_nonneg cs : 0 <= fragment_size cs.
Proof.
  induction cs as [|c r IH]; cbn [fragment_size]; [lia|].
  pose proof (nodeSize_nonneg c). lia.
Qed.

Lemma cut_piece i m t k :
  0 < k < length_Z t ->
  cut (TextNode i m t) 0 (Some k) = TextNode 0 m (js_slice t 0 k)
  /\ js_slice t 0 k <> EmptyString
  /\ nodeSize (cut (TextNode i m t) 0 (Some k)) = k.
Proof.
  intros Hk. unfold cut. cbn [Z.eqb andb].
  destruct (Z.eqb_spec k (length_Z t)) as [?|_]; [lia|].
  assert (Hl : length_Z (js_slice t 0 k) = k) by (rewrite js_slice_length; lia).
  repeat split; [|exact Hl].
  intros E. rewrite E in Hl. unfold length_Z at 1 in Hl. cbn in Hl. lia.
Qed.

Lemma cut_rest i m t k :
  0 < k < length_Z t ->
  cut (TextNode i m t) k None = TextNode 0 m (js_slice t k (length_Z t))
  /\ nodeSize (cut (TextNode i m t) k None) = length_Z t - k.
Proof.
  intros Hk. unfold cut.
  destruct (Z.eqb_spec k 0) as [?|_]; [lia|]. cbn [andb nodeSize].
  split; [reflexivity|]. rewrite js_slice_length; lia.
Qed.

Lemma pieces_cut m t k od idc g :
  0 < k < length_Z t ->
  Pieces m (js_slice t k (length_Z t)) g ->
  Pieces m t (OnNode (TextNode 0 m (js_slice t 0 k)) od idc (-1) :: g).
Proof.
  intros Hk Hg.
  destruct (@cut_piece 0 m t k Hk) as (_ & Hne & _).
  pose proof (@pieces_cons m _ _ od idc g Hne Hg) as P.
  rewrite js_slice_glue in P by lia. exact P.
Qed.

(** The loop answers from every state in order, when the bound exceeds the
    children and the text still to hand over; and what it hands over is
    what the state promises. *)
Lemma iterDeco_loop_spec deco all :
  forall fuel ls active restNode cs pi o consumed,
    LoopInv all o consumed ls active restNode cs ->
    (List.length cs
     + Z.to_nat (match restNode with Some r => nodeSize r | None => 0 end
                 + fragment_size cs) < fuel)%nat ->
    exists evs,
      iterDeco_loop fuel deco ls active restNode cs pi o = Some evs
      /\ LoopPost deco all o restNode pi cs evs.
Proof.
  induction fuel as [|fuel IH]; intros ls active restNode cs pi o consumed Inv Hfuel; [lia|].
  destruct Inv as [Hall Hs Hl Hc Ha Hr Hresp].
  rewrite iterDeco_loop_S. cbv zeta.
  pose proof (@consume_spec o ls Hs Hl) as HC. cbv zeta in HC.
  destruct HC as (E & FW & _).
  assert (HWin : forall x, In x (fst (takeEndingAt o ls)) -> In x all).
  { intros x Hx. rewrite Hall. apply in_or_app. right. rewrite E.
    apply in_or_app. now left. }
  clear E.
  pose proof (fragment_size_nonneg cs) as Hfs.
  destruct restNode as [r|].
  - (* what is left of a cut child comes first *)
    destruct Hr as (m & t & -> & Hne).
    pose proof (@widget_events_ok deco all o _ pi true FW HWin) as HWev.
    assert (Hchild : Forall (fun l => (node_isText (TextNode 0 m t)
                    || negb (strictlyInside o (o + nodeSize (TextNode 0 m t)) (deco_from l)
                             || strictlyInside o (o + nodeSize (TextNode 0 m t)) (deco_to l)))
                   = true) all).
    { apply Forall_forall. intros l _. reflexivity. }
    pose proof (@loop_step all o consumed ls active (TextNode 0 m t) cs
                  Hall Hs Hl Hc Ha Hchild Hresp) as HS.
    cbv zeta in HS. destruct HS as [Hact HS].
    cbn [node_isText andb] in *. cbn [nodeSize] in *.
    set (wev := map (fun w => OnWidget w pi true) _) in *.
    set (ls2 := snd (takeCovering o (snd (takeEndingAt o ls)))) in *.
    set (active' := filter (fun a => negb (Z.leb (deco_to a) o)) active ++ _) in *.
    set (cutAt := cutAt_of (o + length_Z t) ls2 active') in *.
    destruct (Z.ltb_spec cutAt (o + length_Z t)) as [Hlt|Hge].
    + destruct HS as (Ho & Hto & Inv').
      assert (Hk : 0 < cutAt - o < length_Z t) by lia.
      destruct (@cut_piece 0 m t (cutAt - o) Hk) as (Ep & _ & Sp).
      destruct (@cut_rest 0 m t (cutAt - o) Hk) as (Er & Sr).
      destruct (IH ls2 active' (Some (cut (TextNode 0 m t) (cutAt - o) None)) cs pi cutAt
                   _ Inv') as (evs & Hev & Hpost).
      { rewrite Sr. lia. }
      rewrite Hev. eexists. split; [reflexivity|].
      destruct Hpost as [Pev Pst]. split.
      * rewrite eventOffsets_app by apply map_widgets_notNode.
        apply Forall_app. split; [exact HWev|].
        cbn [eventOffsets]. rewrite Sp.
        replace (o + (cutAt - o)) with cutAt by lia.
        constructor; [|exact Pev].
        unfold eventOK. cbn [fst snd]. rewrite Sp.
        repeat split; [exact Hact|].
        eapply Forall_impl; [|exact Hto]. cbn. intros; lia.
      * rewrite Er in Pst. cbn [node_marks node_text] in Pst.
        destruct Pst as (g & rest & Eg & Pg & Dg).
        unfold wev. rewrite filter_isOnNode_widgets. cbn [filter isOnNode].
        rewrite Eg, Ep.
        eexists (_ :: g), rest. split; [reflexivity|]. split; [|exact Dg].
        cbn [node_marks node_text]. now apply pieces_cut.
    + destruct HS as (Hto & Inv').
      destruct (IH ls2 active' None cs pi (o + length_Z t) _ Inv') as (evs & Hev & Hpost).
      { assert (0 < length_Z t).
        { unfold length_Z. destruct t; [congruence | cbn; lia]. }
        lia. }
      rewrite Hev. eexists. split; [reflexivity|].
      destruct Hpost as [Pev Pst]. split.
      * rewrite eventOffsets_app by apply map_widgets_notNode.
        apply Forall_app. split; [exact HWev|].
        cbn [eventOffsets nodeSize].
        constructor; [|exact Pev].
        unfold eventOK. cbn [fst snd nodeSize].
        repeat split; [exact Hact | exact Hto].
      * unfold wev. rewrite filter_isOnNode_widgets. cbn [filter isOnNode].
        eexists [_], _. split; [reflexivity|]. split; [|exact Pst].
        cbn [node_marks node_text]. now constructor.
  - pose proof (@widget_events_ok deco all o _ pi false FW HWin) as HWev.
    destruct cs as [|c cs'].
    + (* the end of the children *)
      eexists. split; [reflexivity|]. split.
      * rewrite <- (app_nil_r (map _ _)).
        rewrite eventOffsets_app by apply map_widgets_notNode.
        cbn [eventOffsets]. rewrite app_nil_r. exact HWev.
      * rewrite <- (app_nil_r (map _ _)), filter_isOnNode_widgets. constructor.
    + (* the next child *)
      rewrite Z.add_0_r in Hresp.
      assert (Hchild : Forall (fun l => (node_isText c
                    || negb (strictlyInside o (o + nodeSize c) (deco_from l)
                             || strictlyInside o (o + nodeSize c) (deco_to l)))
                   = true) all
                /\ Forall (fun l => respects cs' (o + nodeSize c) l = true) all).
      { split; eapply Forall_impl; try exact Hresp; cbn [respects];
          intros l Hl0; apply andb_true_iff in Hl0; tauto. }
      destruct Hchild as [Hchild Hresp'].
      pose proof (@loop_step all o consumed ls active c cs'
                    Hall Hs Hl Hc Ha Hchild Hresp') as HS.
      cbv zeta in HS. destruct HS as [Hact HS].
      set (wev := map (fun w => OnWidget w pi false) _) in *.
      set (ls2 := snd (takeCovering o (snd (takeEndingAt o ls)))) in *.
      set (active' := filter (fun a => negb (Z.leb (deco_to a) o)) active ++ _) in *.
      set (cutAt := if node_isText c then cutAt_of (o + nodeSize c) ls2 active'
                    else o + nodeSize c) in *.
      cbn [fragment_size List.length] in Hfuel.
      pose proof (nodeSize_nonneg c) as Hcs.
      pose proof (fragment_size_nonneg cs') as Hfs'.
      destruct (node_isText c && Z.ltb cutAt (o + nodeSize c)) eqn:Ecut.
      * apply andb_true_iff in Ecut. destruct Ecut as [Ht Hlt]. apply Z.ltb_lt in Hlt.
        destruct HS as (Ho & Hto & Inv').
        destruct c as [i m t| |]; try discriminate. cbn [nodeSize] in *.
        assert (Hk : 0 < cutAt - o < length_Z t) by lia.
        destruct (@cut_piece i m t (cutAt - o) Hk) as (Ep & _ & Sp).
        destruct (@cut_rest i m t (cutAt - o) Hk) as (Er & Sr).
        destruct (IH ls2 active' (Some (cut (TextNode i m t) (cutAt - o) None)) cs' (S pi)
                     cutAt _ Inv') as (evs & Hev & Hpost).
        { rewrite Sr. lia. }
        rewrite Hev. eexists. split; [reflexivity|].
        destruct Hpost as [Pev Pst]. split.
        -- rewrite eventOffsets_app by apply map_widgets_notNode.
           apply Forall_app. split; [exact HWev|].
           cbn [eventOffsets]. rewrite Sp.
           replace (o + (cutAt - o)) with cutAt by lia.
           constructor; [|exact Pev].
           unfold eventOK. cbn [fst snd]. rewrite Sp.
           repeat split; [exact Hact|].
           eapply Forall_impl; [|exact Hto]. cbn. intros; lia.
        -- rewrite Er in Pst. cbn [node_marks node_text] in Pst.
           destruct Pst as (g & rest & Eg & Pg & Dg).
           unfold wev. rewrite filter_isOnNode_widgets. cbn [filter isOnNode].
           rewrite Eg, Ep.
           apply (@del_cut pi (TextNode i m t) cs'
                    (OnNode (TextNode 0 m (js_slice t 0 (cutAt - o))) active'
                            (forChild deco o (TextNode 0 m (js_slice t 0 (cutAt - o)))) (-1)
                     :: g) rest).
           ++ reflexivity.
           ++ cbn [node_marks node_text]. now apply pieces_cut.
           ++ pose proof (Pieces_length Pg). cbn [List.length]. lia.
           ++ exact Dg.
      * destruct HS as (Hto & Inv').
        destruct (IH ls2 active' None cs' (S pi) (o + nodeSize c) _ Inv')
          as (evs & Hev & Hpost).
        { lia. }
        rewrite Hev. eexists. split; [reflexivity|].
        destruct Hpost as [Pev Pst]. split.
        -- rewrite eventOffsets_app by apply map_widgets_notNode.
           apply Forall_app. split; [exact HWev|].
           cbn [eventOffsets].
           constructor; [|exact Pev].
           unfold eventOK. cbn [fst snd].
           repeat split; [exact Hact | exact Hto].
        -- unfold wev. rewrite filter_isOnNode_widgets. cbn [filter isOnNode].
           now constructor.
Qed.

Lemma Pieces_text m t g : Pieces m t g -> (1 <= String.length t)%nat.
Proof.
  induction 1 as [t od idc Hne | t1 t2 od idc g Hne _ IH].
  - destruct t; [congruence | cbn; lia].
  - rewrite length_append. lia.
Qed.

Lemma Pieces_shorter m t g :
  Pieces m t g ->
  Forall (fun e => match e with
                   | OnNode c _ _ idx =>
                       idx = -1 /\ node_marks c = m
                       /\ (String.length (node_text c) <= String.length t)%nat
                       /\ ((2 <= List.length g)%nat ->
                           (String.length (node_text c) < String.length t)%nat)
                   | OnWidget _ _ _ => False
                   end) g.
Proof.
  induction 1 as [t od idc Hne | t1 t2 od idc g Hne Hg IH].
  - constructor; [|constructor]. cbn. repeat split; try lia.
  - pose proof (Pieces_text Hg) as H2.
    assert (H1 : (1 <= String.length t1)%nat).
    { destruct t1; [congruence | cbn; lia]. }
    constructor.
    + cbn [node_text node_marks]. rewrite length_append. repeat split; lia.
    + eapply Forall_impl; [|exact IH]. intros [|c od' idc' idx]; [tauto|].
      rewrite length_append. intros (A & B & C & _). repeat split; try assumption; lia.
Qed.

Lemma Delivered_CoversN i frag evs : Delivered i frag evs -> CoversN i frag evs.
Proof.
  induction 1 as [i | i f fr od idc rest _ IH | i f fr g rest Ht Hp Hl _ IH].
  - constructor.
  - apply (@cov_group i f fr [OnNode f od idc (Z.of_nat i)] rest); [|exact IH].
    left. eauto.
  - apply cov_group; [|exact IH]. right. split.
    + destruct g; [cbn in Hl; lia | discriminate].
    + pose proof (Pieces_shorter Hp) as Hs.
      eapply Forall_impl; [|exact Hs]. intros [|c od idc idx]; [tauto|].
      intros (A & B & _ & D). cbn. repeat split; auto.
Qed.

Lemma iterDeco_simple_spec deco cs : forall i off,
  Delivered i cs (filter isOnNode (iterDeco_simple deco cs i off))
  /\ Forall (eventOK deco []) (eventOffsets (iterDeco_simple deco cs i off) off)
  /\ widgetsOf (iterDeco_simple deco cs i off) = [].
Proof.
  induction cs as [|c r IH]; intros i off; cbn [iterDeco_simple filter isOnNode].
  - repeat split; constructor.
  - destruct (IH (S i) (off + nodeSize c)) as (A & B & C). repeat split.
    + now constructor.
    + cbn [eventOffsets]. constructor; [|exact B].
      unfold eventOK. cbn. repeat split. constructor.
    + exact C.
Qed.

Lemma localsOK_start parent ls :
  localsOK parent ls = true -> LoopInv ls 0 [] ls [] None (node_content parent).
Proof.
  unfold localsOK. intros H.
  apply andb_true_iff in H. destruct H as [H H3].
  apply andb_true_iff in H. destruct H as [H1 H2].
  rewrite forallb_forall in H2, H3.
  constructor; try reflexivity; auto.
  - apply Forall_forall. intros l Hl. specialize (H2 l Hl).
    apply andb_true_iff in H2. destruct H2 as [A B].
    apply Z.leb_le in A, B. lia.
  - apply Forall_forall. intros l Hl. cbn. now apply H3.
Qed.

Lemma iterDeco_spec parent deco :
  localsOK parent (locals deco) = true ->
  exists evs,
    iterDeco parent deco = Some evs
    /\ LoopPost deco (locals deco) 0 None 0 (node_content parent) evs.
Proof.
  intros H. unfold iterDeco.
  destruct (locals deco) as [|l ls] eqn:El.
  - eexists. split; [reflexivity|].
    destruct (iterDeco_simple_spec deco (node_content parent) 0 0) as (A & B & _).
    split; assumption.
  - apply iterDeco_loop_spec with (consumed := []).
    + now apply localsOK_start.
    + unfold iterDeco_fuel, content_size. cbn [Z.add].
      pose proof (fragment_size_nonneg (node_content parent)). lia.
Qed.

(** X15: when the local decorations are in order and none is cut by a
    child that is no text, [iterDeco] comes to an end, and its node events
    hand over the children in order: each child whole and with its index,
    or, a text child, as two or more new text nodes with the child's marks
    and the index -1, none empty, whose texts make up the child's text. *)
Theorem iterDeco_delivers parent deco :
  localsOK parent (locals deco) = true ->
  exists evs,
    iterDeco parent deco = Some evs
    /\ Delivered 0 (node_content parent) (filter isOnNode evs)
    /\ CoversN 0 (node_content parent) (filter isOnNode evs).
Proof.
  intros H. destruct (iterDeco_spec parent deco H) as (evs & He & _ & Hd).
  exists evs. split; [exact He|]. split; [exact Hd|]. now apply Delivered_CoversN.
Qed.

Lemma iterDeco_delivers_witness :
  exists evs,
    iterDeco swapped_para swapped_para_deco = Some evs
    /\ Delivered 0 (node_content swapped_para) (filter isOnNode evs)
    /\ CoversN 0 (node_content swapped_para) (filter isOnNode evs).
Proof.
  apply (@iterDeco_delivers swapped_para swapped_para_deco).
  vm_compute. reflexivity.
Defined.

(** X16: under the same conditions, every node event of [iterDeco] carries
    exactly the local decorations that cover the position of the node, in
    their order, each of which covers the node to its end, and the
    decoration set of the child at that position; every widget event
    carries a local decoration whose range is the position it is handed
    over at. *)
Theorem iterDeco_decorations parent deco evs :
  localsOK parent (locals deco) = true ->
  iterDeco parent deco = Some evs ->
  Forall (eventOK deco (locals deco)) (eventOffsets evs 0).
Proof.
  intros H He. destruct (iterDeco_spec parent deco H) as (evs' & He' & Hok & _).
  congruence.
Qed.

Lemma iterDeco_decorations_witness :
  Forall (eventOK swapped_para_deco (locals swapped_para_deco))
         (eventOffsets swapped_events 0).
Proof.
  apply (@iterDeco_decorations swapped_para swapped_para_deco swapped_events).
  - vm_compute. reflexivity.
  - vm_compute. reflexivity.
Defined.

(** ** The widgets [iterDeco] hands over *)

From Stdlib Require Import Permutation Sorted.

Lemma insertBySide_perm w l : Permutation (insertBySide w l) (w :: l).
Proof.
  induction l as [|x r IH]; cbn [insertBySide]; [reflexivity|].
  destruct (Z.ltb (deco_side w) (deco_side x)); [reflexivity|].
  rewrite IH. apply perm_swap.
Qed.

Lemma sortBySide_perm l : Permutation (sortBySide l) l.
Proof.
  unfold sortBySide. induction l as [|x r IH]; cbn [fold_right]; [reflexivity|].
  rewrite insertBySide_perm. now constructor.
Qed.

Lemma insertBySide_sorted w l :
  StronglySorted (fun a b => deco_side a <= deco_side b) l ->
  StronglySorted (fun a b => deco_side a <= deco_side b) (insertBySide w l).
Proof.
  induction 1 as [|x r Hr IH Hx]; cbn [insertBySide].
  - constructor; constructor.
  - destruct (Z.ltb_spec (deco_side w) (deco_side x)) as [Hlt|Hge].
    + constructor; [constructor; assumption|].
      constructor; [lia|]. eapply Forall_impl; [|exact Hx]. cbn. intros; lia.
    + constructor; [exact IH|].
      apply Forall_forall. intros y Hy. apply In_insertBySide in Hy.
      destruct Hy as [->|Hy]; [lia|]. rewrite Forall_forall in Hx. now apply Hx.
Qed.

Lemma sortBySide_sorted l :
  StronglySorted (fun a b => deco_side a <= deco_side b) (sortBySide l).
Proof.
  unfold sortBySide. induction l as [|x r IH]; cbn [fold_right]; [constructor|].
  now apply insertBySide_sorted.
Qed.

(** What [widgets.sort(compareSide)] leaves, also for fewer than two
    widgets, which are not sorted. *)
Lemma sorted_widgets_spec (W : list Decoration) :
  let wl := match W with [] | [_] => W | _ => sortBySide W end in
  Permutation wl W
  /\ StronglySorted (fun a b => deco_side a <= deco_side b) wl.
Proof.
  destruct W as [|a [|b r]]; cbn zeta.
  - split; constructor.
  - split; [reflexivity|]. constructor; constructor.
  - split; [apply sortBySide_perm | apply sortBySide_sorted].
Qed.

Lemma widgetsOf_app evs1 evs2 : widgetsOf (evs1 ++ evs2) = widgetsOf evs1 ++ widgetsOf evs2.
Proof.
  induction evs1 as [|e r IH]; [reflexivity|].
  destruct e; cbn [app widgetsOf]; [now f_equal | exact IH].
Qed.

Lemma widgetsOf_widgets (ws : list Decoration) i b :
  widgetsOf (map (fun w => OnWidget w i b) ws) = ws.
Proof. induction ws as [|w r IH]; [reflexivity|]. cbn [map widgetsOf]. now f_equal. Qed.

Lemma StronglySorted_app (A : Type) (R : A -> A -> Prop) (l1 l2 : list A) :
  StronglySorted R l1 -> StronglySorted R l2 ->
  (forall a b, In a l1 -> In b l2 -> R a b) ->
  StronglySorted R (l1 ++ l2).
Proof.
  induction 1 as [|x r Hr IH Hx]; intros H2 Hc; [exact H2|].
  cbn [app]. constructor.
  - apply IH; [exact H2|]. intros a b Ha Hb. apply Hc; [now right | exact Hb].
  - apply Forall_app. split; [exact Hx|].
    apply Forall_forall. intros b Hb. apply Hc; [now left | exact Hb].
Qed.

(** The widgets of one position, and what comes behind them. *)
Lemma widgets_round o (W later : list Decoration) :
  Forall (fun l => deco_from l = o /\ deco_to l = o) W ->
  StronglySorted byPosSide later ->
  Forall (fun l => o < deco_to l) later ->
  StronglySorted byPosSide
                 (match W with [] | [_] => W | _ => sortBySide W end ++ later).
Proof.
  intros HW Hl Hgt.
  destruct (sorted_widgets_spec W) as [Hp Hs]. cbv zeta in Hp, Hs.
  set (wl := match W with [] | [_] => W | _ => sortBySide W end) in *.
  assert (Hwl : Forall (fun l => deco_to l = o) wl).
  { apply Forall_forall. intros x Hx. apply (Permutation_in _ Hp) in Hx.
    rewrite Forall_forall in HW. now apply HW. }
  apply StronglySorted_app.
  - clear - Hs Hwl. induction Hs as [|x r Hr IH Hx]; [constructor|].
    apply Forall_cons_iff in Hwl. destruct Hwl as [Ex Hwl].
    constructor; [now apply IH|].
    rewrite Forall_forall in *. intros y Hy. right. split; [|now apply Hx].
    rewrite Ex. symmetry. now apply Hwl.
  - exact Hl.
  - intros a b Ha Hb. left. rewrite Forall_forall in Hwl, Hgt.
    rewrite (Hwl a Ha). now apply Hgt.
Qed.

Lemma widgets_loop deco all :
  forall fuel ls active restNode cs pi o consumed evs,
    LoopInv all o consumed ls active restNode cs ->
    iterDeco_loop fuel deco ls active restNode cs pi o = Some evs ->
    Permutation (widgetsOf evs)
                (filter (widgetBy (o + match restNode with
                                       | Some r => nodeSize r
                                       | None => 0
                                       end + fragment_size cs)) ls)
    /\ StronglySorted byPosSide (widgetsOf evs).
Proof.
  induction fuel as [|fuel IH]; intros ls active restNode cs pi o consumed evs Inv H;
    [discriminate|].
  destruct Inv as [Hall Hs Hl Hc Ha Hr Hresp].
  rewrite iterDeco_loop_S in H. cbv zeta in H.
  pose proof (@consume_spec o ls Hs Hl) as HC. cbv zeta in HC.
  destruct HC as (E & FW & Fm & F2 & S2).
  pose proof (fragment_size_nonneg cs) as Hfs.
  set (W := fst (takeEndingAt o ls)) in *.
  set (more := fst (takeCovering o (snd (takeEndingAt o ls)))) in *.
  set (ls2 := snd (takeCovering o (snd (takeEndingAt o ls)))) in *.
  destruct (sorted_widgets_spec W) as [HWp _]. cbv zeta in HWp.
  set (wl := match W with [] | [_] => W | _ => sortBySide W end) in *.
  (* the decorations used up in this round *)
  assert (Hfil : forall end_,
             o <= end_ ->
             filter (widgetBy end_) ls = W ++ filter (widgetBy end_) ls2).
  { intros end_ He. rewrite E at 1. rewrite !filter_app.
    rewrite (@filter_all_Forall _ (widgetBy end_) W).
    - rewrite (@filter_none_Forall _ (widgetBy end_) more); [reflexivity|].
      eapply Forall_impl; [|exact Fm]. intros l Hl0. unfold covers in Hl0.
      apply andb_true_iff in Hl0. destruct Hl0 as [A B].
      apply Z.leb_le in A. apply Z.ltb_lt in B. unfold widgetBy.
      destruct (Z.eqb_spec (deco_from l) (deco_to l)); [lia | reflexivity].
    - eapply Forall_impl; [|exact FW]. intros l [A B]. unfold widgetBy.
      rewrite A, B, Z.eqb_refl. cbn [andb]. now apply Z.leb_le. }
  assert (Hlater : forall evs' end_,
             Permutation (widgetsOf evs') (filter (widgetBy end_) ls2) ->
             Forall (fun l => o < deco_to l) (widgetsOf evs')).
  { intros evs' end_ Hp. apply Forall_forall. intros x Hx.
    apply (Permutation_in _ Hp) in Hx. apply filter_In in Hx. destruct Hx as [Hx _].
    rewrite Forall_forall in F2. specialize (F2 x Hx). cbn in F2. lia. }
  assert (Hround : forall e evs' end_ b,
             isOnNode e = true ->
             o <= end_ ->
             Permutation (widgetsOf evs') (filter (widgetBy end_) ls2)
             /\ StronglySorted byPosSide (widgetsOf evs') ->
             Permutation (widgetsOf (map (fun w => OnWidget w pi b) wl ++ e :: evs'))
                         (filter (widgetBy end_) ls)
             /\ StronglySorted byPosSide
                  (widgetsOf (map (fun w => OnWidget w pi b) wl ++ e :: evs'))).
  { intros e evs' end_ b He Hle [Hp Hso].
    rewrite widgetsOf_app, widgetsOf_widgets.
    assert (Ee : widgetsOf (e :: evs') = widgetsOf evs') by (destruct e; [discriminate|reflexivity]).
    rewrite Ee, (Hfil end_ Hle). split.
    - now apply Permutation_app.
    - apply (@widgets_round o W (widgetsOf evs') FW Hso). eapply Hlater; exact Hp. }
  destruct restNode as [r|].
  - destruct Hr as (m & t & -> & Hne).
    assert (Hchild : Forall (fun l => (node_isText (TextNode 0 m t)
                    || negb (strictlyInside o (o + nodeSize (TextNode 0 m t)) (deco_from l)
                             || strictlyInside o (o + nodeSize (TextNode 0 m t)) (deco_to l)))
                   = true) all).
    { apply Forall_forall. intros l _. reflexivity. }
    pose proof (@loop_step all o consumed ls active (TextNode 0 m t) cs
                  Hall Hs Hl Hc Ha Hchild Hresp) as HS.
    cbv zeta in HS. destruct HS as [_ HS].
    fold W more ls2 in HS.
    cbn [node_isText andb] in *. cbn [nodeSize] in *.
    set (active' := filter (fun a => negb (Z.leb (deco_to a) o)) active ++ more) in *.
    set (cutAt := cutAt_of (o + length_Z t) ls2 active') in *.
    destruct (Z.ltb_spec cutAt (o + length_Z t)) as [Hlt|Hge].
    + destruct HS as (Ho & _ & Inv').
      destruct (iterDeco_loop fuel deco ls2 active' _ cs pi cutAt) as [evs'|] eqn:Er;
        [|discriminate].
      injection H as <-.
      assert (Hk : 0 < cutAt - o < length_Z t) by lia.
      destruct (@cut_rest 0 m t (cutAt - o) Hk) as (_ & Sr).
      specialize (IH _ _ _ _ _ _ _ _ Inv' Er). cbv beta iota in IH. rewrite Sr in IH.
      replace (cutAt + (length_Z t - (cutAt - o)) + fragment_size cs)
        with (o + length_Z t + fragment_size cs) in IH by lia.
      apply Hround; [reflexivity | lia | exact IH].
    + destruct HS as (_ & Inv').
      destruct (iterDeco_loop fuel deco ls2 active' None cs pi (o + length_Z t))
        as [evs'|] eqn:Er; [|discriminate].
      injection H as <-.
      specialize (IH _ _ _ _ _ _ _ _ Inv' Er). cbv beta iota in IH. rewrite Z.add_0_r in IH.
      apply Hround; [reflexivity | pose proof (length_Z_nonneg t); lia | exact IH].
  - destruct cs as [|c cs'].
    + injection H as <-. rewrite widgetsOf_widgets.
      cbn [fragment_size]. rewrite !Z.add_0_r.
      rewrite (Hfil o (Z.le_refl o)).
      rewrite (@filter_none_Forall _ (widgetBy o) ls2).
      * rewrite app_nil_r. split; [exact HWp|].
        rewrite <- (app_nil_r wl). apply (@widgets_round o W [] FW); constructor.
      * eapply Forall_impl; [|exact F2]. intros l [A B]. unfold widgetBy.
        destruct (Z.leb_spec (deco_to l) o); [lia|]. apply andb_false_r.
    + rewrite Z.add_0_r in Hresp.
      assert (Hchild : Forall (fun l => (node_isText c
                    || negb (strictlyInside o (o + nodeSize c) (deco_from l)
                             || strictlyInside o (o + nodeSize c) (deco_to l)))
                   = true) all
                /\ Forall (fun l => respects cs' (o + nodeSize c) l = true) all).
      { split; eapply Forall_impl; try exact Hresp; cbn [respects];
          intros l Hl0; apply andb_true_iff in Hl0; tauto. }
      destruct Hchild as [Hchild Hresp'].
      pose proof (@loop_step all o consumed ls active c cs'
                    Hall Hs Hl Hc Ha Hchild Hresp') as HS.
      cbv zeta in HS. destruct HS as [_ HS].
      fold W more ls2 in HS.
      set (active' := filter (fun a => negb (Z.leb (deco_to a) o)) active ++ more) in *.
      set (cutAt := if node_isText c then cutAt_of (o + nodeSize c) ls2 active'
                    else o + nodeSize c) in *.
      cbn [fragment_size]. rewrite Z.add_0_r.
      pose proof (nodeSize_nonneg c) as Hcs.
      pose proof (fragment_size_nonneg cs') as Hfs'.
      destruct (node_isText c && Z.ltb cutAt (o + nodeSize c)) eqn:Ecut.
      * apply andb_true_iff in Ecut. destruct Ecut as [Ht Hlt]. apply Z.ltb_lt in Hlt.
        destruct HS as (Ho & _ & Inv').
        destruct (iterDeco_loop fuel deco ls2 active' _ cs' (S pi) cutAt) as [evs'|] eqn:Er;
          [|discriminate].
        injection H as <-.
        destruct c as [i m t| |]; try discriminate. cbn [nodeSize] in *.
        assert (Hk : 0 < cutAt - o < length_Z t) by lia.
        destruct (@cut_rest i m t (cutAt - o) Hk) as (_ & Sr).
        specialize (IH _ _ _ _ _ _ _ _ Inv' Er). cbv beta iota in IH. rewrite Sr in IH.
        replace (cutAt + (length_Z t - (cutAt - o)) + fragment_size cs')
          with (o + (length_Z t + fragment_size cs')) in IH by lia.
        apply Hround; [reflexivity | lia | exact IH].
      * destruct HS as (_ & Inv').
        destruct (iterDeco_loop fuel deco ls2 active' None cs' (S pi) (o + nodeSize c))
          as [evs'|] eqn:Er; [|discriminate].
        injection H as <-.
        specialize (IH _ _ _ _ _ _ _ _ Inv' Er). cbv beta iota in IH. rewrite Z.add_0_r in IH.
        replace (o + nodeSize c + fragment_size cs')
          with (o + (nodeSize c + fragment_size cs')) in IH by lia.
        apply Hround; [reflexivity | lia | exact IH].
Qed.



(** ** The pass over the children covers the content *)

Lemma Node_eq_nodeSize a : forall b, Node_eq a b = true -> nodeSize a = nodeSize b.
Proof.
  induction a as [i m t | i t a m | i t a m c IH] using PNode_tree_ind;
    intros [j m' t' | j t' a' m' | j t' a' m' c']; cbn [Node_eq]; try discriminate; intros H.
  - apply andb_prop in H. destruct H as [_ H]. apply String.eqb_eq in H. now subst.
  - reflexivity.
  - apply andb_prop in H. destruct H as [_ H].
    rewrite !nodeSize_branch. f_equal.
    revert c' H. induction IH as [|x r Hx _ IHr]; intros [|y r'] H; try discriminate;
      [reflexivity|].
    apply andb_prop in H. destruct H as [H1 H2]. cbn [fragment_size].
    rewrite (Hx _ H1), (IHr _ H2). reflexivity.
Qed.

Lemma matchesNode_size x n od idc : matchesNode x n od idc = true -> size x = nodeSize n.
Proof.
  destruct x as [u k dd cs df]. unfold matchesNode. cbn [kind dirty].
  destruct k; try discriminate; intros H;
    repeat (apply andb_prop in H; destruct H as [H ?]);
    cbn [size kind]; symmetry; now apply Node_eq_nodeSize.
Qed.

Lemma flat_mark d m : kind d = KMark m -> flat d = forallb flat (children d).
Proof.
  destruct d as [u k dd cs df]. cbn [kind children]. intros ->. cbn [flat kind children].
  induction cs as [|c r IH]; cbn [forallb]; [reflexivity | now rewrite IH].
Qed.

Lemma flat_children d :
  flat d = true -> isMarkViewDesc d = true -> Forall (fun x => flat x = true) (children d).
Proof.
  unfold isMarkViewDesc. destruct (kind d) eqn:Ek; try discriminate. intros H _.
  rewrite (flat_mark _ Ek) in H. apply Forall_forall. intros x Hx.
  rewrite forallb_forall in H. now apply H.
Qed.

Lemma flat_size d :
  flat d = true -> (matchesHack d = true \/ exists w, matchesWidget d w = true) ->
  size d = 0.
Proof.
  destruct d as [u k dd cs df]. unfold matchesHack, matchesWidget. cbn [kind].
  intros F [H|[w H]]; destruct k; try discriminate;
    cbn [flat kind children] in F; destruct cs; try discriminate; reflexivity.
Qed.

Lemma firstn_snoc_at (A : Type) (l : list A) x r n :
  n = S (List.length l) -> firstn n (l ++ x :: r) = l ++ [x].
Proof.
  intros ->. rewrite firstn_app, firstn_all2 by lia.
  replace (S (List.length l) - List.length l)%nat with 1%nat by lia. reflexivity.
Qed.

Lemma Step_visited u u' D c x P' :
  (index u <= List.length (children (top u)))%nat ->
  Step u u' D c x P' -> visitedSize u' = visitedSize u + size x.
Proof.
  intros Hi (_ & Hst & Hidx & _ & _ & Hch & _).
  unfold visitedSize. rewrite Hst, Hidx, Hch.
  rewrite firstn_snoc_at by (now rewrite length_firstn_le).
  rewrite sizes_app. cbn [sizes]. lia.
Qed.

Lemma Enter_visited u u' D c P' :
  (index u <= List.length (children (top u)))%nat ->
  Enter u u' D c P' -> visitedSize u' = visitedSize u.
Proof.
  intros Hi (_ & p1 & Hst & Hidx & _ & _ & Hch & _).
  destruct (@Enter_lists u u' p1 P' Hi Hch) as (L1 & _ & _).
  unfold visitedSize. rewrite Hst, Hidx. cbn [framesSize firstn sizes]. rewrite L1. lia.
Qed.

Lemma top_is_mark lb u : Inv lb u -> stack u <> [] -> isMarkViewDesc (top u) = true.
Proof.
  intros I Hne. destruct (stack u) as [|[p i] st] eqn:Est; [contradiction|].
  pose proof (inv_live I) as L. unfold liveOK, liveMarks in L. rewrite Est in L.
  cbn [liveMarks_of] in L. apply Forall_app in L. destruct L as [_ L].
  inversion L; subst. tauto.
Qed.

Lemma leaveMark_visited lb u :
  Inv lb u -> stack u <> [] -> visitedSize (leaveMark u) = visitedSize u.
Proof.
  intros I Hne. pose proof (top_is_mark I Hne) as Hmark.
  pose proof (inv_pos I) as Hpos. pose proof Hpos as [Hi Hfr].
  destruct (stack u) as [|[p i] st] eqn:Est; [contradiction|].
  destruct (leaveMark_spec Hpos Est) as (_ & Hst & Hidx & _ & t' & Hch & _ & Kt & _ & Ct).
  cbn in Hfr. destruct Hfr as [[H1 H2] _].
  assert (Hsz : size t' = sizes (firstn (index u) (children (top u)))).
  { unfold isMarkViewDesc in Hmark. destruct (kind (top u)) eqn:Ek; try discriminate.
    erewrite size_mark by (rewrite Kt; reflexivity). now rewrite Ct. }
  unfold visitedSize. rewrite Hst, Hidx, Hch, Est. cbn [framesSize].
  rewrite firstn_snoc_at by (rewrite length_firstn_le; lia).
  rewrite sizes_app. cbn [sizes]. lia.
Qed.

Lemma syncToMarks_visited lb marks u :
  Inv lb u -> visitedSize (syncToMarks marks u) = visitedSize u.
Proof.
  intros I.
  enough (H : Inv lb (syncToMarks marks u)
              /\ visitedSize (syncToMarks marks u) = visitedSize u) by tauto.
  apply (syncToMarks_ind (fun v => Inv lb v /\ visitedSize v = visitedSize u)).
  - auto.
  - intros v [Iv Ev] Hne. split; [now apply Inv_leave|].
    rewrite <- Ev. now apply (@leaveMark_visited lb).
  - intros m v [Iv Ev]. pose proof (inv_pos Iv) as [Hi _].
    destruct (@enterMark_Enter m v Hi) as (D & c & P' & HE & _).
    split; [eapply Inv_enter; eauto|]. rewrite <- Ev. eapply Enter_visited; eauto.
Qed.

Lemma Step_flat u u' D c x P' :
  (index u <= List.length (children (top u)))%nat ->
  Step u u' D c x P' -> pendingFlat u -> pendingFlat u'.
Proof.
  intros Hi HS O. destruct (Step_children Hi HS) as [C1 C2].
  pose proof HS as (_ & Hst & _ & _ & Hsk & _).
  unfold pendingFlat, allPending in *. rewrite Hst, C2.
  rewrite Hsk in O. apply Forall_app in O. destruct O as [O1 O2].
  apply Forall_app. split; [|exact O2].
  apply Forall_app in O1. destruct O1 as [_ O1].
  destruct c; cbn [consumed] in O1; [now inversion O1|exact O1].
Qed.

Lemma Enter_flat u u' D c P' :
  (index u <= List.length (children (top u)))%nat ->
  Enter u u' D c P' -> pendingFlat u -> pendingFlat u'.
Proof.
  intros Hi HE O.
  pose proof HE as (_ & p1 & Hst & Hidx & _ & Hsk & Hch & Hm & _ & Hc).
  destruct (@Enter_lists u u' p1 P' Hi Hch) as (_ & L2 & _).
  unfold pendingFlat, allPending in *. rewrite Hst, Hidx.
  cbn [framesPending]. rewrite skipn_O, L2.
  rewrite Hsk in O. apply Forall_app in O. destruct O as [O1 O2].
  apply Forall_app in O1. destruct O1 as [_ O1].
  apply Forall_app. split; [|apply Forall_app; split; [|exact O2]].
  - destruct c as [c0|]; cbn [consumed] in O1.
    + subst c0. inversion O1; subst. now apply flat_children.
    + destruct Hc as [-> _]. constructor.
  - destruct c; cbn [consumed] in O1; [now inversion O1|exact O1].
Qed.

Lemma leaveMark_flat lb u :
  Inv lb u -> stack u <> [] -> pendingFlat u -> pendingFlat (leaveMark u).
Proof.
  intros I Hne O. pose proof (inv_pos I) as Hpos. pose proof Hpos as [Hi Hfr].
  destruct (stack u) as [|[p i] st] eqn:Est; [contradiction|].
  destruct (leaveMark_spec Hpos Est) as (_ & Hst & Hidx & _ & t' & Hch & _).
  cbn in Hfr. destruct Hfr as [[H1 H2] _].
  assert (Hsk : skipn i (children (top (leaveMark u))) = skipn i (children p)).
  { rewrite Hch. rewrite skipn_app, length_firstn_le by lia.
    replace (i - (i - 1))%nat with 1%nat by lia.
    rewrite skipn_all2 by (rewrite length_firstn; lia). reflexivity. }
  unfold pendingFlat, allPending in *. rewrite Hst, Hidx, Hsk.
  rewrite Est in O. cbn [framesPending] in O. apply Forall_app in O. tauto.
Qed.

Lemma syncToMarks_flat lb marks u :
  Inv lb u -> pendingFlat u -> pendingFlat (syncToMarks marks u).
Proof.
  intros I O.
  enough (H : Inv lb (syncToMarks marks u) /\ pendingFlat (syncToMarks marks u)) by tauto.
  apply (syncToMarks_ind (fun v => Inv lb v /\ pendingFlat v)).
  - auto.
  - intros v [Iv Ov] Hne. split; [now apply Inv_leave|]. now apply (@leaveMark_flat lb).
  - intros m v [Iv Ov]. pose proof (inv_pos Iv) as [Hi _].
    destruct (@enterMark_Enter m v Hi) as (D & c & P' & HE & _).
    split; [eapply Inv_enter; eauto|]. eapply Enter_flat; eauto.
Qed.

Lemma eventSync_cases parent e u :
  eventSync parent e u = u \/ exists marks, eventSync parent e u = syncToMarks marks u.
Proof.
  destruct e as [widget i ins | child od idc idx]; cbn [eventSync]; [|right; eauto].
  destruct (deco_type widget) as [k side [marks|] t| |]; eauto.
  destruct (Z.geb side 0 && negb ins); eauto.
Qed.

Lemma eventSync_visited lb parent e u :
  Inv lb u -> pendingFlat u ->
  visitedSize (eventSync parent e u) = visitedSize u /\ pendingFlat (eventSync parent e u).
Proof.
  intros I O. destruct (eventSync_cases parent e u) as [->|[marks ->]]; [auto|].
  split; [now apply (@syncToMarks_visited lb) | now apply (@syncToMarks_flat lb)].
Qed.

Lemma pending_next u x :
  nth_error (children (top u)) (index u) = Some x -> pendingFlat u -> flat x = true.
Proof.
  intros Hn O. unfold pendingFlat, allPending in O. apply Forall_app in O.
  destruct O as [O _]. rewrite (skipn_nth _ _ Hn) in O. now inversion O.
Qed.

Lemma visited_next u x :
  nth_error (children (top u)) (index u) = Some x ->
  visitedSize (with_index (S (index u)) u) = visitedSize u + size x.
Proof.
  intros Hn. unfold visitedSize. cbn [index top stack with_index].
  rewrite <- (firstn_skipn (index u) (children (top u))) at 1.
  rewrite (skipn_nth _ _ Hn).
  assert (Hi : (index u < List.length (children (top u)))%nat)
    by (apply nth_error_Some; congruence).
  rewrite firstn_snoc_at by (rewrite length_firstn_le; lia).
  rewrite sizes_app. cbn [sizes]. lia.
Qed.

Lemma visited_splice u x t w c :
  (index u <= List.length (children (top u)))%nat ->
  visitedSize (with_changed c
                 (with_world w
                    (with_index (S (index u))
                       (with_top (set_children (splice_in (index u) x (children (top u))) t)
                                 u))))
  = visitedSize u + size x.
Proof.
  intros Hi. unfold visitedSize, splice_in.
  cbn [index top stack with_index with_changed with_world with_top set_children children].
  rewrite firstn_snoc_at by (rewrite length_firstn_le; lia).
  rewrite sizes_app. cbn [sizes]. lia.
Qed.

Lemma placeWidget_visited widget u u' :
  (index u <= List.length (children (top u)))%nat -> pendingFlat u ->
  placeWidget widget u = Some (Ok u') -> visitedSize u' = visitedSize u.
Proof.
  intros Hi O. unfold placeWidget.
  destruct (match nth_error (children (top u)) (index u) with
            | Some next => _
            | None => false
            end) eqn:Er.
  - unfold ret. intros H. injection H as <-.
    destruct (nth_error (children (top u)) (index u)) as [next|] eqn:En; [|discriminate].
    apply andb_prop in Er. destruct Er as [Hm _].
    rewrite (visited_next _ En).
    rewrite (@flat_size next); [lia | eapply pending_next; eauto | right; eauto].
  - unfold WidgetViewDesc_new. destruct (deco_type widget) as [k side marks t| |];
      try discriminate.
    cbn [alloc]. destruct t; cbn [alloc bind ret]; intros H; injection H as <-;
      rewrite visited_splice by exact Hi; cbn [size kind children]; lia.
Qed.

Lemma addTextblockHacks_visited u :
  (index u <= List.length (children (top u)))%nat -> pendingFlat u ->
  visitedSize (addTextblockHacks u) = visitedSize u.
Proof.
  intros Hi O. unfold addTextblockHacks. destruct (needsHack u); [|reflexivity].
  assert (Hins : visitedSize (insertHack u) = visitedSize u).
  { unfold insertHack. cbn [alloc]. rewrite visited_splice by exact Hi.
    cbn [size kind children]. lia. }
  destruct (nth_error (children (top u)) (index u)) as [c|] eqn:En; [|exact Hins].
  destruct (matchesHack c) eqn:Eh; [|exact Hins].
  rewrite (visited_next _ En).
  rewrite (@flat_size c); [lia | eapply pending_next; eauto | left; exact Eh].
Qed.

Lemma Pieces_size m t g : Pieces m t g -> eventsSize g = length_Z t.
Proof.
  induction 1 as [t od idc Hne | t1 t2 od idc g Hne _ IH].
  - cbn. lia.
  - cbn [eventsSize eventSize nodeSize]. rewrite IH. unfold length_Z.
    rewrite length_append. lia.
Qed.

Lemma eventsSize_app a b : eventsSize (a ++ b) = eventsSize a + eventsSize b.
Proof. induction a as [|e r IH]; cbn [app eventsSize]; lia. Qed.

Lemma eventsSize_nodes evs : eventsSize (filter isOnNode evs) = eventsSize evs.
Proof.
  induction evs as [|[w i ins | c od idc idx] r IH]; cbn [filter isOnNode eventsSize eventSize];
    lia.
Qed.

Lemma Delivered_size i frag evs : Delivered i frag evs -> eventsSize evs = fragment_size frag.
Proof.
  induction 1 as [i | i f fr od idc rest _ IH | i f fr g rest Ht Hp Hl _ IH].
  - reflexivity.
  - cbn [eventsSize eventSize fragment_size]. lia.
  - rewrite eventsSize_app, (Pieces_size Hp), IH. cbn [fragment_size].
    destruct f; try discriminate. reflexivity.
Qed.

Lemma size_strip d : size (strip d) = size d.
Proof.
  induction d as [u k dd cs df IH] using ViewDesc_tree_ind.
  cbn [strip uid kind dirty children].
  assert (E : forall l, (fix sum (l : list ViewDesc) : Z :=
                 match l with [] => 0 | c :: r => size c + sum r end) l = sizes l).
  { induction l as [|x r IHl]; [reflexivity|]. cbn [sizes]. now rewrite IHl. }
  assert (Hs : sizes (map strip cs) = sizes cs).
  { induction IH as [|x r Hx _ IHr]; [reflexivity|]. cbn [map sizes]. now rewrite Hx, IHr. }
  destruct k; cbn [size kind children]; rewrite ?E; try reflexivity; exact Hs.
Qed.

Lemma sizes_strip l : sizes (map strip l) = sizes l.
Proof. induction l as [|x r IH]; [reflexivity|]. cbn [map sizes]. now rewrite size_strip, IH. Qed.

Section Tiles.
Variable view : View.
Variable rec : ViewDesc -> Z -> World -> M (ViewDesc * World).
Hypothesis rec_ok : forall d pos w d' w',
  rec d pos w = Some (Ok (d', w')) ->
  uid d' = uid d /\ kind d' = kind d /\ dirty d' = dirty d
  /\ (fresh w <= fresh w')%nat.

Lemma event_visited lb parent e u off u' off' :
  Inv lb u -> pendingFlat u ->
  match e with
  | OnNode _ _ _ idx => 0 <= idx -> lb <= idx
  | OnWidget _ _ _ => True
  end ->
  leafInner e ->
  onEvent view rec parent e (u, off) = Some (Ok (u', off')) ->
  visitedSize u' = visitedSize u + eventSize e /\ pendingFlat u'.
Proof.
  intros I O Hlb Hleaf He.
  destruct (@event_shape view rec rec_ok lb parent e u off u' off' I Hlb Hleaf He)
    as (I1 & _ & _ & D & c & x & P' & HS & Hx & _).
  destruct (@eventSync_visited lb parent e u I O) as [V1 O1].
  pose proof (inv_pos I1) as [Hi _].
  split; [|eapply Step_flat; eauto].
  destruct e as [widget i ins | child od idc idx].
  - cbn [eventSize]. rewrite Z.add_0_r, <- V1.
    cbn [onEvent] in He. apply bind_Ok in He. destruct He as (u1 & Hp & E).
    injection E as <- _. eapply placeWidget_visited; [exact Hi|exact O1|exact Hp].
  - rewrite (@Step_visited _ _ _ _ _ _ Hi HS), V1. cbn [itemFor eventSize] in *.
    now rewrite (@matchesNode_size _ _ _ _ Hx).
Qed.

Lemma events_visited parent evs : forall lb u off u' off',
  Inv lb u -> pendingFlat u -> incrOK lb evs -> Forall leafInner evs ->
  onEvents view rec parent evs (u, off) = Some (Ok (u', off')) ->
  exists lb', Inv lb' u' /\ pendingFlat u'
              /\ visitedSize u' = visitedSize u + eventsSize evs.
Proof.
  induction evs as [|e r IH]; intros lb u off u' off' I O Hinc Hleaf H.
  - cbn in H. injection H as <- <-. exists lb. cbn [eventsSize]. split; [exact I|split; [exact O|lia]].
  - cbn [onEvents] in H. apply bind_Ok in H. destruct H as ([u1 off1] & He & Hr).
    apply incrOK_head in Hinc. destruct Hinc as [Hlb Hinc].
    apply Forall_cons_iff in Hleaf. destruct Hleaf as [H1 H2].
    assert (I1 : Inv (nextLb lb e) u1)
      by (exact (@event_Inv view rec rec_ok lb parent e u off u1 off1 I Hlb H1 He)).
    destruct (@event_visited lb parent e u off u1 off1 I O Hlb H1 He) as [V1 O1].
    edestruct IH as (lb' & I' & O' & V'); [exact I1|exact O1|exact Hinc|exact H2|exact Hr|].
    exists lb'. split; [exact I'|split; [exact O'|]]. cbn [eventsSize]. lia.
Qed.

Lemma finish_visited lb node uE :
  Inv lb uE -> pendingFlat uE ->
  sizes (children (top (finishPass node uE))) = visitedSize uE.
Proof.
  intros I O. unfold finishPass.
  destruct (@finish_shape lb node uE I) as (IS & StS & _ & IH & StH & _).
  cbv zeta in IS, StS, IH, StH.
  set (uS := syncToMarks [] uE) in *.
  set (uH := if node_isTextblock node then addTextblockHacks uS else uS) in *.
  pose proof (inv_pos IH) as [HiH _]. pose proof (inv_pos IS) as [HiS _].
  rewrite destroyRest_children by exact HiH.
  assert (VS : visitedSize uS = visitedSize uE) by (now apply (@syncToMarks_visited lb)).
  assert (OS : pendingFlat uS) by (now apply (@syncToMarks_flat lb)).
  assert (VH : visitedSize uH = visitedSize uE).
  { unfold uH. destruct (node_isTextblock node); [|exact VS].
    rewrite addTextblockHacks_visited by assumption. exact VS. }
  rewrite <- VH. unfold visitedSize. rewrite StH. cbn [framesSize]. lia.
Qed.

Lemma syncChildren_tiles node d pos w uF :
  wellFormed d w = true -> forallb flat (children d) = true ->
  localsOK node (locals (desc_innerDeco d)) = true ->
  syncChildren view rec node d pos w = Some (Ok uF) ->
  sizes (children (top uF)) = content_size node.
Proof.
  intros WF Fl Hl Hs.
  destruct (@syncChildren_inv view rec node d pos w uF Hs) as (evs & uE & offE & Hi & He & ->).
  destruct (iterDeco_spec node (desc_innerDeco d) Hl) as (evs' & Hi' & _ & Hd).
  rewrite Hi in Hi'. injection Hi' as <-.
  pose proof (@Inv_newUpdater d (compositionOf view node pos) pos w WF) as I0.
  assert (O0 : pendingFlat (newUpdater d (compositionOf view node pos) pos w)).
  { unfold pendingFlat, allPending. cbn. rewrite app_nil_r.
    apply Forall_forall. intros x Hx. rewrite forallb_forall in Fl. now apply Fl. }
  assert (Hinc : incrOK 0 evs).
  { apply incrOK_filter. apply (@CoversN_incrOK 0 (node_content node)).
    now apply Delivered_CoversN. }
  destruct (@events_visited node evs 0 _ _ _ _ I0 O0 Hinc (@iterDeco_leaf _ _ _ Hi) He)
    as (lb' & I' & O' & V').
  rewrite (@finish_visited lb' node uE I' O'), V'.
  rewrite <- eventsSize_nodes, (@Delivered_size _ _ _ Hd). unfold content_size, visitedSize. cbn. lia.
Qed.

Lemma updateChildren_body_tiles fuel node d pos w d' w' :
  wellFormed d w = true -> forallb flat (children d) = true ->
  desc_node d = Some node ->
  localsOK node (locals (desc_innerDeco d)) = true ->
  compositionOf view node pos = None ->
  updateChildren_body view rec fuel d pos w = Some (Ok (d', w')) ->
  sizes (children d') = content_size node.
Proof.
  intros WF Fl Hn Hl Hc. unfold updateChildren_body. rewrite Hn.
  destruct (syncChildren view rec node d pos w) as [[uF|e]|] eqn:Hs; try discriminate.
  cbn [bind]. pose proof (@syncChildren_tiles node d pos w uF WF Fl Hl Hs) as T.
  destruct (changed uF || Z.eqb (dirty (top uF)) CONTENT_DIRTY).
  - rewrite Hc. cbn [bind ret].
    destruct (contentDOM (domf (top uF))) as [cdom|]; [|discriminate].
    intros H. injection H as <- _. cbn [children set_children].
    rewrite <- T, <- sizes_strip, strip_renderDescs. apply sizes_strip.
  - unfold ret. intros H. injection H as <- _. exact T.
Qed.
End Tiles.

(** X18: when [updateChildren] has run (outside a local composition, on
    children that are well formed, with local decorations in order), the
    sizes of the descriptor's children add up to the size of the node's
    content: for a node that is no leaf, to the descriptor's size without
    its two border tokens. *)
Theorem updateChildren_tiles fuel view d node pos w d' w' :
  wellFormed d w = true -> forallb flat (children d) = true ->
  desc_node d = Some node ->
  localsOK node (locals (desc_innerDeco d)) = true ->
  compositionOf view node pos = None ->
  updateChildren fuel view d pos w = Some (Ok (d', w')) ->
  sizes (children d') = content_size node
  /\ (node_isLeaf node = false -> sizes (children d') = size d' - 2 * border d').
Proof.
  intros WF Fl Hn Hl Hc H.
  destruct (updateChildren_info _ _ _ _ _ H) as (Hinfo & _).
  destruct fuel as [|fuel]; [discriminate|]. cbn [updateChildren] in H.
  assert (T : sizes (children d') = content_size node).
  { exact (@updateChildren_body_tiles view (updateChildren fuel view)
             (updateChildren_rec_ok view fuel) fuel node d pos w d' w' WF Fl Hn Hl Hc H). }
  split; [exact T|]. intros Hleaf. rewrite T.
  assert (Hk : kind d' = kind d) by (unfold info in Hinfo; congruence).
  destruct d as [u k dd cs df], d' as [u' k' dd' cs' df']. cbn [kind] in Hk. subst k'.
  unfold border, desc_node in *. cbn [kind size] in *.
  destruct k; try discriminate; injection Hn as ->; rewrite Hleaf;
    destruct node; try discriminate; rewrite nodeSize_branch; unfold content_size;
    cbn [node_content]; lia.
Qed.

Lemma updateChildren_tiles_witness :
  sizes (children (fst stale_para_result)) = content_size swapped_para.
Proof.
  refine (proj1 (@updateChildren_tiles 6 plainView stale_para_tree swapped_para 0
                   (mkWorld 200 []) (fst stale_para_result) (snd stale_para_result)
                   _ _ _ _ _ _)).
  - vm_compute. reflexivity.
  - vm_compute. reflexivity.
  - reflexivity.
  - vm_compute. reflexivity.
  - reflexivity.
  - vm_compute. reflexivity.
Defined.

(** ** The cache of [endOfTextblock] *)

Lemma IDir_eqb_refl d : IDir_eqb d d = true.
Proof. destruct d; reflexivity. Qed.

Lemma cache_hit state dir b ed measure hp :
  endOfTextblock (mkCache (Some state) (Some dir) b) ed state dir measure hp
  = (mkCache (Some state) (Some dir) b, ed, Ok b).
Proof.
  unfold endOfTextblock. cbn [cachedState cachedDir cachedResult opt_nat_eqb].
  now rewrite Nat.eqb_refl, IDir_eqb_refl.
Qed.

(** X19: a call of [endOfTextblock] that follows a call with the same state
    and direction does not probe: it leaves the editor alone and answers
    from the cache, whatever the host would answer now.  It answers what
    the earlier call returned; when the earlier call raised, it answers
    the result that was in the cache before that call, which belongs to
    another state or direction. *)
Theorem endOfTextblock_again c ed state dir measure hp c1 ed1 r :
  endOfTextblock c ed state dir measure hp = (c1, ed1, r) ->
  forall ed2 measure2 hp2,
    endOfTextblock c1 ed2 state dir measure2 hp2
    = (c1, ed2, Ok match r with Ok b => b | Throw _ => cachedResult c end).
Proof.
  unfold endOfTextblock at 1.
  destruct (opt_nat_eqb (cachedState c) (Some state)
            && match cachedDir c with Some d => IDir_eqb d dir | None => false end) eqn:Ehit.
  - intros H. injection H as <- <- <-. intros ed2 measure2 hp2.
    apply andb_prop in Ehit. destruct Ehit as [Es Ed].
    destruct c as [[s|] [d|] b]; cbn in Es, Ed; try discriminate.
    apply Nat.eqb_eq in Es. subst s.
    assert (d = dir) by (destruct d, dir; try discriminate; reflexivity). subst d.
    apply cache_hit.
  - destruct (match dir with
              | DirUp | DirDown => endOfTextblockVertical ed state measure
              | _ => endOfTextblockHorizontal ed state (probe_for dir hp)
              end) as [ed' [b|e]];
      intros H; injection H as <- <- <-; intros ed2 measure2 hp2; apply cache_hit.
Qed.

Lemma endOfTextblock_again_witness :
  endOfTextblock (mkCache (Some 7%nat) (Some DirUp) true) editor_focused 2 DirLeft
                 (Ok false) failing_probe
  = (mkCache (Some 2%nat) (Some DirLeft) true,
     mkEditor 1 100 (Some 100%nat) (caret_at 5 1), Throw "No node after pos")
  /\ endOfTextblock (mkCache (Some 2%nat) (Some DirLeft) true) editor_focused 2 DirLeft
                    (Ok false) returning_probe
     = (mkCache (Some 2%nat) (Some DirLeft) true, editor_focused, Ok true).
Proof.
  assert (H : endOfTextblock (mkCache (Some 7%nat) (Some DirUp) true) editor_focused 2
                             DirLeft (Ok false) failing_probe
              = (mkCache (Some 2%nat) (Some DirLeft) true,
                 mkEditor 1 100 (Some 100%nat) (caret_at 5 1), Throw "No node after pos"))
    by reflexivity.
  split; [exact H|].
  exact (endOfTextblock_again _ _ _ _ _ _ H editor_focused (Ok false) returning_probe).
Defined.

(** ** [findTextInFragment] answers a place where the text stands *)

Lemma chars_length s : List.length (chars s) = String.length s.
Proof. induction s as [|c s IH]; cbn; [reflexivity | now rewrite IH]. Qed.

Lemma chars_app a b : chars (a ++ b)%string = chars a ++ chars b.
Proof. induction a as [|c a IH]; cbn; [reflexivity | now rewrite IH]. Qed.

Lemma chars_substring s : forall k n, chars (substring k n s) = firstn n (skipn k (chars s)).
Proof.
  induction s as [|c s IH]; intros [|k] [|n]; cbn; try reflexivity; rewrite IH; reflexivity.
Qed.

Lemma lastIndexOf_from_spec str text : forall k,
  lastIndexOf_from str text k = -1
  \/ exists f, lastIndexOf_from str text k = Z.of_nat f /\ (f <= k)%nat
               /\ substring f (String.length text) str = text.
Proof.
  induction k as [|k IH]; cbn [lastIndexOf_from].
  - destruct (String.eqb_spec (substring 0 (String.length text) str) text) as [E|_];
      [right; exists 0%nat; auto | left; reflexivity].
  - destruct (String.eqb_spec (substring (S k) (String.length text) str) text) as [E|_].
    + right. exists (S k). auto.
    + destruct IH as [IH|(f & E1 & E2 & E3)]; [left; exact IH|].
      right. exists f. repeat split; auto.
Qed.

Lemma flatChars_node_length n :
  List.length (if node_isText n then chars (node_text n)
               else repeat None (Z.to_nat (nodeSize n)))
  = Z.to_nat (nodeSize n).
Proof.
  destruct n as [i m t | i t a m | i t a m c]; cbn [node_isText node_text].
  - rewrite chars_length. cbn [nodeSize]. unfold length_Z. lia.
  - now rewrite repeat_length.
  - now rewrite repeat_length.
Qed.

Section FindText.
Variables (text : string) (from to : Z) (whole : list (option ascii)).

(** The place [p] holds the text and overlaps the range. *)
Definition foundAt (p : Z) : Prop :=
  0 <= p <= to /\ from <= p + length_Z text
  /\ firstn (String.length text) (skipn (Z.to_nat p) whole) = chars text.

Lemma check_sound childStart str pos p pre rest :
  findText_check text from to childStart str pos = Some p ->
  0 <= childStart <= to ->
  whole = pre ++ chars str ++ rest -> List.length pre = Z.to_nat childStart ->
  foundAt p.
Proof.
  unfold findText_check, lastIndexOf. intros H Hc Hw Hp.
  destruct (Z.geb pos from); [|discriminate].
  set (k := Z.to_nat (Z.min (Z.max (to - childStart) 0) (length_Z str))) in H.
  destruct (lastIndexOf_from_spec str text k) as [E|(f & E & Hf & Hs)]; rewrite E in H.
  - discriminate.
  - destruct (Z.geb (Z.of_nat f) 0 && Z.geb (Z.of_nat f + length_Z text + childStart) from)
      eqn:Eb; [|discriminate].
    injection H as <-. apply andb_prop in Eb. destruct Eb as [_ Eb].
    assert (Hk : Z.of_nat k <= to - childStart /\ Z.of_nat k <= length_Z str).
    { unfold k. pose proof (length_Z_nonneg str). lia. }
    unfold foundAt. split; [lia|]. split; [lia|].
    assert (Hfl : (f <= List.length (chars str))%nat).
    { rewrite chars_length. unfold length_Z in Hk. lia. }
    rewrite Hw.
    replace (Z.to_nat (childStart + Z.of_nat f)) with (List.length pre + f)%nat by lia.
    rewrite skipn_app, skipn_all2 by lia.
    replace (List.length pre + f - List.length pre)%nat with f by lia.
    cbn [app]. rewrite skipn_app.
    replace (f - List.length (chars str))%nat with 0%nat by lia.
    rewrite skipn_O.
    pose proof (chars_substring str f (String.length text)) as Hcs. rewrite Hs in Hcs.
    assert (Hlen : (String.length text <= List.length (skipn f (chars str)))%nat).
    { pose proof (f_equal (@List.length _) Hcs) as HL.
      rewrite chars_length, length_firstn in HL. lia. }
    rewrite firstn_app.
    replace (String.length text - List.length (skipn f (chars str)))%nat with 0%nat by lia.
    cbn [firstn]. rewrite app_nil_r. now symmetry.
Qed.

Definition loopOK (l : list PNode) : Prop :=
  forall pos pre,
    whole = pre ++ flatChars l -> List.length pre = Z.to_nat pos -> 0 <= pos ->
    findText_loop text from to l pos = -1
    \/ foundAt (findText_loop text from to l pos).

Lemma gather_sound n childStart pre :
  (forall l, (List.length l <= n)%nat -> loopOK l) ->
  0 <= childStart <= to -> List.length pre = Z.to_nat childStart ->
  forall r str pos,
    (List.length r <= n)%nat ->
    whole = pre ++ chars str ++ flatChars r ->
    pos = childStart + length_Z str ->
    let res := findText_gather (findText_loop text from to) text from to childStart
                               r str pos in
    res = -1 \/ foundAt res.
Proof.
  intros IH Hc Hp. induction r as [|next r' IHr]; intros str pos Hn Hw Hpos; cbn zeta;
    cbn [findText_gather].
  - destruct (findText_check text from to childStart str pos) as [p|] eqn:Ec; [|now left].
    right. eapply check_sound; eauto.
  - cbn [List.length] in Hn. cbn [flatChars] in Hw.
    pose proof (flatChars_node_length next) as Hnl.
    pose proof (nodeSize_nonneg next) as Hnn.
    destruct (node_isText next) eqn:Et; cbn [negb].
    + apply IHr; [lia| |].
      * rewrite chars_app, <- app_assoc. exact Hw.
      * destruct next; try discriminate. cbn [nodeSize node_text]. unfold length_Z.
        rewrite length_append. unfold length_Z in Hpos. lia.
    + destruct (findText_check text from to childStart str (pos + nodeSize next))
        as [p|] eqn:Ec.
      * right. eapply check_sound; eauto.
      * assert (Hr : (List.length r' <= n)%nat) by lia.
        apply (IH r' Hr (pos + nodeSize next)
                  (pre ++ chars str ++ repeat None (Z.to_nat (nodeSize next)))).
        -- rewrite Hw. rewrite <- !app_assoc. reflexivity.
        -- rewrite !length_app, chars_length, Hnl, Hp. pose proof (length_Z_nonneg str).
           unfold length_Z in *. lia.
        -- pose proof (length_Z_nonneg str). lia.
Qed.

Lemma loop_sound : forall n l, (List.length l <= n)%nat -> loopOK l.
Proof.
  induction n as [|n IH]; intros [|child rest] Hn; try (cbn in Hn; lia);
    intros pos pre Hw Hp Hpos; cbn [findText_loop]; try now left.
  cbn [List.length] in Hn.
  destruct (Z.leb_spec pos to) as [Hle|Hgt]; cbn [negb]; [|now left].
  cbn [flatChars] in Hw.
  pose proof (flatChars_node_length child) as Hnl.
  pose proof (nodeSize_nonneg child) as Hnn.
  destruct (node_isText child) eqn:Et; cbn [negb].
  - apply (@gather_sound n pos pre); try assumption; try lia.
    destruct child; try discriminate. reflexivity.
  - assert (Hr : (List.length rest <= n)%nat) by lia.
    apply (IH rest Hr (pos + nodeSize child)
              (pre ++ repeat None (Z.to_nat (nodeSize child)))); [| |lia].
    + rewrite Hw, app_assoc. reflexivity.
    + rewrite length_app, Hnl, Hp. lia.
Qed.
End FindText.

(** X20: [findTextInFragment] answers -1 or a position at which the text
    stands in the fragment, inside text nodes that follow each other; the
    position is not behind [to], and the text found there does not end
    before [from]. *)
Theorem findTextInFragment_sound frag text from to :
  let p := findTextInFragment frag text from to in
  p = -1
  \/ (0 <= p <= to /\ from <= p + length_Z text
      /\ firstn (String.length text) (skipn (Z.to_nat p) (flatChars frag)) = chars text).
Proof.
  cbv zeta. unfold findTextInFragment.
  apply (@loop_sound text from to (flatChars frag) (List.length frag) frag (le_n _) 0 []);
    [reflexivity | reflexivity | lia].
Qed.

(** ** [findTextInFragment] misses no place *)

Lemma chars_inj a : forall b, chars a = chars b -> a = b.
Proof.
  induction a as [|c a IH]; intros [|c' b] H; try discriminate; [reflexivity|].
  cbn in H. injection H as -> H. f_equal. now apply IH.
Qed.

Lemma chars_nth s : forall j,
  (j < String.length s)%nat -> exists c, nth_error (chars s) j = Some (Some c).
Proof.
  induction s as [|c s IH]; intros j Hj; cbn in Hj; [lia|].
  destruct j as [|j]; cbn; [eauto|]. apply IH. lia.
Qed.

(** The text stands at the place [p] of [whole]. *)
Definition standsAt (whole : list (option ascii)) (p : nat) (text : string) : Prop :=
  firstn (String.length text) (skipn p whole) = chars text.

Lemma standsAt_nth whole p text j :
  standsAt whole p text -> (j < String.length text)%nat ->
  exists c, nth_error whole (p + j) = Some (Some c).
Proof.
  unfold standsAt. intros H Hj. destruct (chars_nth text Hj) as (c & Hc).
  exists c. rewrite <- H in Hc. rewrite nth_error_firstn in Hc.
  destruct (Nat.ltb_spec j (String.length text)) as [_|]; [|lia].
  now rewrite nth_error_skipn in Hc.
Qed.

Lemma lastIndexOf_from_max str text : forall k q,
  (q <= k)%nat -> substring q (String.length text) str = text ->
  exists f, lastIndexOf_from str text k = Z.of_nat f /\ (q <= f <= k)%nat.
Proof.
  induction k as [|k IH]; intros q Hq Hs; cbn [lastIndexOf_from].
  - assert (q = 0%nat) by lia. subst q. rewrite Hs, String.eqb_refl. exists 0%nat. auto.
  - destruct (String.eqb_spec (substring (S k) (String.length text) str) text) as [E|E].
    + exists (S k). split; [reflexivity|lia].
    + assert (q <> S k) by (intros ->; contradiction).
      destruct (IH q) as (f & Ef & Hf); [lia|exact Hs|]. exists f. split; [exact Ef|lia].
Qed.

Section FindTextComplete.
Variables (text : string) (from to : Z) (whole : list (option ascii)).
Hypothesis text_nonempty : (1 <= String.length text)%nat.

(** No place from [lo] on holds the text and overlaps the range. *)
Definition noneFrom (lo : Z) : Prop :=
  forall p : nat,
    lo <= Z.of_nat p -> Z.of_nat p <= to -> from <= Z.of_nat p + length_Z text ->
    ~ standsAt whole p text.

Lemma standsAt_inside p pre str rest :
  standsAt whole p text -> whole = pre ++ chars str ++ rest ->
  (List.length pre <= p)%nat ->
  (p + String.length text <= List.length pre + String.length str)%nat ->
  substring (p - List.length pre) (String.length text) str = text.
Proof.
  unfold standsAt. intros H Hw Hp Hq. apply chars_inj. rewrite chars_substring.
  rewrite <- H, Hw.
  rewrite skipn_app, (@skipn_all2 _ p pre) by lia. cbn [app].
  rewrite skipn_app.
  replace (p - List.length pre - List.length (chars str))%nat with 0%nat
    by (rewrite chars_length; lia).
  rewrite skipn_O, firstn_app.
  replace (String.length text - List.length (skipn (p - List.length pre) (chars str)))%nat
    with 0%nat by (rewrite length_skipn, chars_length; lia).
  cbn [firstn]. now rewrite app_nil_r.
Qed.

Lemma standsAt_short p :
  standsAt whole p text -> (p + String.length text <= List.length whole)%nat.
Proof.
  unfold standsAt. intros H. apply (f_equal (@List.length _)) in H.
  rewrite chars_length, length_firstn, length_skipn in H. lia.
Qed.

Lemma check_complete childStart str pos pre rest :
  findText_check text from to childStart str pos = None ->
  0 <= childStart <= to ->
  whole = pre ++ chars str ++ rest -> List.length pre = Z.to_nat childStart ->
  childStart + length_Z str <= pos ->
  forall p : nat,
    childStart <= Z.of_nat p -> Z.of_nat p <= to -> from <= Z.of_nat p + length_Z text ->
    (p + String.length text <= List.length pre + String.length str)%nat ->
    ~ standsAt whole p text.
Proof.
  unfold findText_check, lastIndexOf. intros H Hc Hw Hp Hpos p Hp1 Hp2 Hp3 Hp4 Hst.
  pose proof (@standsAt_inside p pre str rest Hst Hw ltac:(lia) Hp4) as Hsub.
  set (q := (p - List.length pre)%nat) in *.
  set (k := Z.to_nat (Z.min (Z.max (to - childStart) 0) (length_Z str))) in H.
  assert (Hqk : (q <= k)%nat).
  { unfold k, q, length_Z. lia. }
  destruct (@lastIndexOf_from_max str text k q Hqk Hsub) as (f & Ef & Hf).
  rewrite Ef in H.
  destruct (Z.geb_spec pos from) as [Hge|Hlt].
  - replace (Z.geb (Z.of_nat f) 0) with true in H by (symmetry; apply Z.geb_le; lia).
    cbn [andb] in H.
    destruct (Z.geb_spec (Z.of_nat f + length_Z text + childStart) from) as [G|G];
      [discriminate|].
    unfold q, length_Z in *. lia.
  - unfold length_Z in *. lia.
Qed.
Lemma check_nonneg childStart str pos p pre rest :
  findText_check text from to childStart str pos = Some p ->
  0 <= childStart <= to ->
  whole = pre ++ chars str ++ rest -> List.length pre = Z.to_nat childStart ->
  p <> -1.
Proof.
  intros H Hc Hw Hp.
  destruct (@check_sound text from to whole childStart str pos p pre rest H Hc Hw Hp)
    as [H0 _]. lia.
Qed.

Lemma nontext_size n : node_isText n = false -> 1 <= nodeSize n.
Proof.
  destruct n as [i m t | i t a m | i t a m c]; intros H; try discriminate H.
  - cbn [nodeSize]. lia.
  - rewrite nodeSize_branch. pose proof (fragment_size_nonneg c). lia.
Qed.

(** A place inside a node that is no text holds no character. *)
Lemma gap_holds_nothing pre mid t rest p :
  whole = pre ++ mid ++ repeat None t ++ rest ->
  (List.length pre + List.length mid <= p < List.length pre + List.length mid + t)%nat ->
  forall q, (q <= p < q + String.length text)%nat -> ~ standsAt whole q text.
Proof.
  intros Hw Hp q Hq Hst.
  destruct (@standsAt_nth whole q text (p - q) Hst ltac:(lia)) as (c & Hc).
  replace (q + (p - q))%nat with p in Hc by lia.
  rewrite Hw in Hc.
  rewrite nth_error_app2 in Hc by lia.
  rewrite nth_error_app2 in Hc by lia.
  rewrite nth_error_app1 in Hc by (rewrite repeat_length; lia).
  rewrite nth_error_repeat in Hc by lia. discriminate.
Qed.

Definition loopFull (l : list PNode) : Prop :=
  forall pos pre,
    whole = pre ++ flatChars l -> List.length pre = Z.to_nat pos -> 0 <= pos ->
    findText_loop text from to l pos = -1 -> noneFrom pos.

Lemma gather_complete n childStart pre :
  (forall l, (List.length l <= n)%nat -> loopFull l) ->
  0 <= childStart <= to -> List.length pre = Z.to_nat childStart ->
  forall r str pos,
    (List.length r <= n)%nat ->
    whole = pre ++ chars str ++ flatChars r ->
    pos = childStart + length_Z str ->
    findText_gather (findText_loop text from to) text from to childStart r str pos = -1 ->
    noneFrom childStart.
Proof.
  intros IH Hc Hp. induction r as [|next r' IHr]; intros str pos Hn Hw Hpos Hres;
    cbn [findText_gather] in Hres.
  - destruct (findText_check text from to childStart str pos) as [p0|] eqn:Ec.
    + exfalso. eapply check_nonneg; eauto.
    + intros p Hp1 Hp2 Hp3 Hst.
      pose proof (standsAt_short Hst) as Hs.
      rewrite Hw, !length_app, chars_length in Hs. cbn [flatChars List.length] in Hs.
      eapply (@check_complete childStart str pos pre (flatChars [])); eauto; try lia.
  - cbn [List.length] in Hn. cbn [flatChars] in Hw.
    pose proof (flatChars_node_length next) as Hnl.
    pose proof (nodeSize_nonneg next) as Hnn.
    destruct (node_isText next) eqn:Et; cbn [negb] in Hres.
    + apply (IHr (str ++ node_text next)%string (pos + nodeSize next)); [lia| | |exact Hres].
      * rewrite chars_app, <- app_assoc. exact Hw.
      * destruct next; try discriminate. cbn [nodeSize node_text]. unfold length_Z.
        rewrite length_append. unfold length_Z in Hpos. lia.
    + pose proof (nontext_size _ Et) as Hts.
      destruct (findText_check text from to childStart str (pos + nodeSize next))
        as [p0|] eqn:Ec.
      * exfalso. eapply check_nonneg; eauto.
      * assert (Hr : (List.length r' <= n)%nat) by lia.
        assert (Hrest : noneFrom (pos + nodeSize next)).
        { apply (IH r' Hr (pos + nodeSize next)
                    (pre ++ chars str ++ repeat None (Z.to_nat (nodeSize next))));
            [| | |exact Hres].
          - rewrite Hw. rewrite <- !app_assoc. reflexivity.
          - rewrite !length_app, chars_length, Hnl, Hp. pose proof (length_Z_nonneg str).
            unfold length_Z in *. lia.
          - pose proof (length_Z_nonneg str). lia. }
        intros p Hp1 Hp2 Hp3 Hst.
        destruct (Nat.le_gt_cases (p + String.length text)
                                  (List.length pre + String.length str)) as [Hin|Hout].
        -- revert Hst. eapply (@check_complete childStart str (pos + nodeSize next) pre);
             eauto; lia.
        -- destruct (Z.le_gt_cases (pos + nodeSize next) (Z.of_nat p)) as [Hfar|Hnear].
           ++ now apply (Hrest p).
           ++ revert Hst.
              apply (@gap_holds_nothing pre (chars str) (Z.to_nat (nodeSize next))
                       (flatChars r')
                       (Nat.max p (List.length pre + String.length str)));
                [exact Hw | rewrite chars_length; unfold length_Z in *; lia | lia].
Qed.

Lemma loop_complete : forall n l, (List.length l <= n)%nat -> loopFull l.
Proof.
  induction n as [|n IH]; intros [|child rest] Hn; try (cbn in Hn; lia);
    intros pos pre Hw Hp Hpos Hres; cbn [findText_loop] in Hres.
  1, 2: (intros p Hp1 Hp2 Hp3 Hst; pose proof (standsAt_short Hst) as Hs;
         rewrite Hw, length_app in Hs; cbn [flatChars List.length] in Hs; lia).
  cbn [List.length] in Hn.
  destruct (Z.leb_spec pos to) as [Hle|Hgt]; cbn [negb] in Hres;
    [|intros p Hp1 Hp2; lia].
  cbn [flatChars] in Hw.
  pose proof (flatChars_node_length child) as Hnl.
  pose proof (nodeSize_nonneg child) as Hnn.
  destruct (node_isText child) eqn:Et; cbn [negb] in Hres.
  - apply (@gather_complete n pos pre IH ltac:(lia) Hp rest (node_text child)
             (pos + nodeSize child)); [lia|exact Hw| |exact Hres].
    destruct child; try discriminate. reflexivity.
  - pose proof (nontext_size _ Et) as Hts.
    assert (Hr : (List.length rest <= n)%nat) by lia.
    assert (Hrest : noneFrom (pos + nodeSize child)).
    { apply (IH rest Hr (pos + nodeSize child)
                (pre ++ repeat None (Z.to_nat (nodeSize child)))); [| |lia|exact Hres].
      - rewrite Hw, app_assoc. reflexivity.
      - rewrite length_app, Hnl, Hp. lia. }
    intros p Hp1 Hp2 Hp3 Hst.
    destruct (Z.le_gt_cases (pos + nodeSize child) (Z.of_nat p)) as [Hfar|Hnear].
    + now apply (Hrest p).
    + revert Hst.
      apply (@gap_holds_nothing pre [] (Z.to_nat (nodeSize child)) (flatChars rest) p);
        [exact Hw | cbn [List.length]; lia | lia].
Qed.
End FindTextComplete.

(** X24: when [findTextInFragment] answers -1 for a text that is not
    empty, the text stands at no place of the fragment that is not behind
    [to] and at which it would not end before [from]: no place is
    missed. *)
Theorem findTextInFragment_complete frag text from to :
  text <> EmptyString ->
  findTextInFragment frag text from to = -1 ->
  forall p : nat,
    Z.of_nat p <= to -> from <= Z.of_nat p + length_Z text ->
    firstn (String.length text) (skipn p (flatChars frag)) <> chars text.
Proof.
  intros Hne Hres p Hp1 Hp2.
  assert (Hlen : (1 <= String.length text)%nat).
  { destruct text; [congruence | cbn; lia]. }
  apply (@loop_complete text from to (flatChars frag) Hlen (List.length frag) frag (le_n _)
           0 [] eq_refl eq_refl (Z.le_refl 0) Hres p); lia.
Qed.

Lemma findTextInFragment_complete_witness :
  firstn 2 (skipn 3 (flatChars (node_content marked_para))) <> chars "xy".
Proof.
  apply (@findTextInFragment_complete (node_content marked_para) "xy" 0 10).
  - discriminate.
  - vm_compute. reflexivity.
  - lia.
  - vm_compute. discriminate.
Defined.

(** ** [isOnEdge] *)

Lemma domAt_app root a : forall b,
  domAt root (a ++ b) = match domAt root a with
                        | Some x => domAt x b
                        | None => None
                        end.
Proof.
  revert root. induction a as [|i a IH]; intros root b; [reflexivity|].
  cbn [app domAt]. destruct root as [v|nm cs]; [reflexivity|].
  destruct (nth_error cs i); [apply IH | reflexivity].
Qed.

Lemma deref_cons root i up n :
  deref root (i :: up) = Some n ->
  exists nm cs, deref root up = Some (DElem nm cs) /\ nth_error cs i = Some n.
Proof.
  unfold deref. cbn [rev]. rewrite domAt_app.
  destruct (domAt root (rev up)) as [[v|nm cs]|]; cbn [domAt]; try discriminate.
  destruct (nth_error cs i) as [c|] eqn:E; [|discriminate].
  intros H. injection H as <-. eauto.
Qed.

Lemma NodeRef_eqb_eq a b : NodeRef_eqb a b = true <-> a = b.
Proof. unfold NodeRef_eqb. destruct (list_eq_dec Nat.eq_dec a b); split; congruence. Qed.

Lemma isOnEdge_loop_spec root parent : forall node n,
  deref root node = Some n ->
  forall atStart atEnd,
    isOnEdge_loop root node atStart atEnd parent = true
    <-> ((atStart || atEnd = true /\ node = parent)
         \/ (atStart = true /\ firstChildChain node parent)).
Proof.
  induction node as [|i up IH]; intros n Hn atStart atEnd; cbn [isOnEdge_loop].
  - destruct (atStart || atEnd) eqn:E.
    + destruct (NodeRef_eqb [] parent) eqn:Ep.
      * apply NodeRef_eqb_eq in Ep. tauto.
      * split; [discriminate|]. intros [[_ H]|[_ (zs & Hz & _ & H)]].
        -- apply NodeRef_eqb_eq in H. congruence.
        -- destruct zs; [congruence | discriminate].
    + split; [discriminate|]. intros [[H _]|[H _]]; [discriminate|].
      subst. discriminate.
  - destruct (@deref_cons root i up n Hn) as (nm & cs & Hp & Hi). rewrite Hp.
    assert (Hlt : (i < List.length cs)%nat) by (apply nth_error_Some; congruence).
    replace (Z.eqb (Z.of_nat i) (dom_nodeSize (DElem nm cs))) with false
      by (symmetry; apply Z.eqb_neq; cbn; lia).
    rewrite andb_false_r.
    specialize (IH _ Hp (atStart && Nat.eqb i 0) false). rewrite orb_false_r in IH.
    destruct (atStart || atEnd) eqn:E.
    + destruct (NodeRef_eqb (i :: up) parent) eqn:Ep.
      * apply NodeRef_eqb_eq in Ep. tauto.
      * rewrite IH. split.
        -- intros [[Ha Hu]|[Ha Hc]]; apply andb_prop in Ha; destruct Ha as [Ha Hz];
             apply Nat.eqb_eq in Hz; subst i; right; (split; [exact Ha|]).
           ++ exists [0%nat]. subst up. repeat split; [discriminate | repeat constructor].
           ++ destruct Hc as (zs & Hz & Hall & ->). exists (0%nat :: zs).
              repeat split; [discriminate | now constructor].
        -- intros [[_ H]|[Ha (zs & Hz & Hall & H)]].
           ++ apply NodeRef_eqb_eq in H. congruence.
           ++ destruct zs as [|z zs]; [congruence|]. injection H as -> ->.
              inversion Hall as [|? ? Hz0 Hall']; subst. cbn [andb Nat.eqb].
              destruct zs as [|z' zs'].
              ** left. auto.
              ** right. split; [reflexivity|]. exists (z' :: zs').
                 repeat split; [discriminate | exact Hall'].
    + split; [discriminate|]. intros [[H _]|[H _]]; [discriminate|].
      subst. discriminate.
Qed.

(** X21: [isOnEdge(node, offset, parent)] answers true exactly when the
    node is [parent] itself and the offset is 0 or the size of the node,
    or the offset is 0 and the node lies below [parent] along first
    children only.  A position at the end of a node that lies below
    [parent] is never reported: the index of a child is never the size of
    its parent. *)
Theorem isOnEdge_spec root node n offset parent :
  deref root node = Some n ->
  isOnEdge root node offset parent = true
  <-> ((node = parent /\ (offset = 0 \/ offset = dom_nodeSize n))
       \/ (offset = 0 /\ firstChildChain node parent)).
Proof.
  intros Hn. unfold isOnEdge. rewrite Hn.
  rewrite (@isOnEdge_loop_spec root parent node n Hn).
  rewrite orb_true_iff, !Z.eqb_eq. tauto.
Qed.

Definition edge_dom : Dom :=
  DElem "p" [DElem "em" [DText "ab"]; DElem "b" [DText "cd"]].

Lemma isOnEdge_spec_witness :
  isOnEdge edge_dom [0; 0]%nat 0 [] = true
  /\ isOnEdge edge_dom [0; 1]%nat 2 [] = false.
Proof.
  split.
  - apply (proj2 (@isOnEdge_spec edge_dom [0; 0]%nat (DText "ab") 0 [] eq_refl)).
    right. split; [reflexivity|]. exists [0; 0]%nat.
    repeat split; [discriminate | repeat constructor].
  - destruct (isOnEdge edge_dom [0; 1]%nat 2 []) eqn:E; [|reflexivity].
    apply (proj1 (@isOnEdge_spec edge_dom [0; 1]%nat (DText "cd") 2 [] eq_refl)) in E.
    destruct E as [[E _]|[E _]]; discriminate.
Defined.

(** ** [parseRange] covers the range it is asked for *)

Lemma parseOK_unfold d :
  parseOK d
  = match contentDOM (domf d) with
    | Some _ => Z.eqb (sizes (children d)) (size d - 2 * border d)
    | None => true
    end
    && forallb (fun c => Z.leb 0 (dom_index (domf c)) && parseOK c) (children d).
Proof.
  destruct d as [u k dd cs df]. cbn [parseOK children domf]. f_equal.
Qed.

Lemma parseRange_back_spec this prevs : forall from f o,
  Forall (fun c => 0 <= dom_index (domf c)) prevs ->
  parseRange_back this prevs from = (f, o) ->
  from - sizes prevs <= f <= from /\ (o = -1 \/ 1 <= o).
Proof.
  induction prevs as [|p r IH]; intros from f o Hi H; cbn [parseRange_back sizes] in *.
  - injection H as <- <-. lia.
  - apply Forall_cons_iff in Hi. destruct Hi as [Hp Hr].
    pose proof (size_nonneg p). pose proof (sizes_all_nonneg r).
    destruct (negb (Z.eqb (size p) 0) && domInContent p this && negb (emptyChildAt p 1)).
    + injection H as <- <-. lia.
    + destruct (IH _ _ _ Hr H). lia.
Qed.

Lemma parseRange_fwd_spec this nexts : forall to t o,
  parseRange_fwd this nexts to = (t, o) -> to <= t <= to + sizes nexts.
Proof.
  induction nexts as [|p r IH]; intros to t o H; cbn [parseRange_fwd sizes] in *.
  - injection H as <- <-. lia.
  - pose proof (size_nonneg p). pose proof (sizes_all_nonneg r).
    destruct (negb (Z.eqb (size p) 0) && domInContent p this && negb (emptyChildAt p (-1))).
    + injection H as <- <-. lia.
    + specialize (IH _ _ _ H). lia.
Qed.

Section ParseRangeCovers.
Variable contains : nat -> nat -> bool.

(** What [parseRange] answers for the request [from], [to] from [base]. *)
Definition covers_request (d : ViewDesc) (from to base : Z) (hi : Z) : Prop :=
  exists r,
    parseRange contains d from to base = Ok r
    /\ base <= pr_from r <= from /\ to <= pr_to r <= hi
    /\ pr_node r <> None /\ 0 <= pr_fromOffset r.

Definition parses (d : ViewDesc) : Prop :=
  forall from to base,
    parseOK d = true -> contentDOM (domf d) <> None ->
    base <= from -> from <= to -> to <= base + size d - 2 * border d ->
    covers_request d from to base (base + size d - 2 * border d).

Lemma parseRange_loop_covers this from0 to base hi :
  contentDOM (domf this) <> None ->
  forall cs prevs offset from fromOffset,
    Forall (fun c => 0 <= dom_index (domf c)) prevs ->
    Forall (fun c => 0 <= dom_index (domf c) /\ parseOK c = true /\ parses c) cs ->
    offset = base + sizes prevs -> hi = offset + sizes cs -> cs <> [] ->
    (fromOffset = -1 /\ from = from0 /\ offset <= from /\ from <= to /\ to <= hi)
    \/ (0 <= fromOffset /\ base <= from <= from0 /\ offset <= to <= hi) ->
    exists r,
      parseRange_loop contains (parseRange contains) this to prevs cs offset from fromOffset
      = Ok r
      /\ base <= pr_from r <= from0 /\ to <= pr_to r <= hi
      /\ pr_node r <> None /\ 0 <= pr_fromOffset r.
Proof.
  intros Hcd. induction cs as [|child rest IH];
    intros prevs offset from fromOffset Hprev Hcs Hoff Hhi Hne Hphase; [congruence|].
  apply Forall_cons_iff in Hcs. destruct Hcs as [(Hidx & Hok & Hrec) Hrest].
  cbn [parseRange_loop sizes] in *. cbv zeta.
  pose proof (size_nonneg child) as Hsz. pose proof (sizes_all_nonneg rest) as Hsr.
  pose proof (sizes_all_nonneg prevs) as Hsp.
  pose proof (border_cases child) as Hb.
  set (inside := Z.eqb fromOffset (-1) && Z.leb from (offset + size child)
                 && Z.geb from (offset + border child)
                 && Z.leb to (offset + size child - border child)
                 && isSome (desc_node child) && isSome (contentDOM (domf child))).
  destruct (if inside
            then match contentDOM (domf this), contentDOM (domf child) with
                 | Some c, Some cc =>
                     if contains c cc
                     then Some (parseRange contains child from to (offset + border child))
                     else None
                 | None, _ => Some (Throw "TypeError")
                 | _, None => None
                 end
            else None) as [r|] eqn:Ed.
  { destruct inside eqn:Ein; [|discriminate]. unfold inside in Ein.
    apply andb_prop in Ein. destruct Ein as [Ein E6].
    apply andb_prop in Ein. destruct Ein as [Ein E5].
    apply andb_prop in Ein. destruct Ein as [Ein E4].
    apply andb_prop in Ein. destruct Ein as [Ein E3].
    apply andb_prop in Ein. destruct Ein as [E1 E2].
    apply Z.eqb_eq in E1. apply Z.leb_le in E2, E4. apply Z.geb_le in E3.
    destruct (contentDOM (domf this)) as [c|]; [|congruence].
    destruct (contentDOM (domf child)) as [cc|] eqn:Ecc; [|discriminate].
    destruct (contains c cc); [|discriminate].
    injection Ed as <-.
    destruct Hphase as [(_ & -> & Hp1 & Hp2 & Hp3)|(Hp0 & _)]; [|lia].
    assert (Hcc : contentDOM (domf child) <> None) by (rewrite Ecc; discriminate).
    assert (Hto : to <= offset + border child + size child - 2 * border child) by lia.
    destruct (Hrec from0 to (offset + border child) Hok Hcc E3 Hp2 Hto)
      as (r' & Er & G1 & G2 & G3 & G4).
    exists r'. split; [exact Er|]. repeat split; try assumption; lia. }
  clear Ed.
  destruct (parseRange_back this prevs offset) as [f o] eqn:Eb.
  destruct (@parseRange_back_spec this prevs offset f o Hprev Eb) as [Hf Ho].
  set (fo0 := if Z.eqb o (-1) then 0 else o).
  assert (Hfo0 : 0 <= fo0) by (unfold fo0; destruct (Z.eqb_spec o (-1)); lia).
  destruct (parseRange_fwd this rest (offset + size child)) as [t o'] eqn:Ef.
  pose proof (@parseRange_fwd_spec this rest (offset + size child) t o' Ef) as Ht.
  assert (Hfin : forall fr fo,
      base <= fr <= from0 -> 0 <= fo -> to <= offset + size child \/ rest = [] ->
      offset <= to <= hi ->
      exists r,
        (if Z.eqb o' (-1)
         then match contentDOM (domf this) with
              | Some _ => Ok (mkPR (contentDOM (domf this)) fr t fo
                                   (content_childCount (domf this)))
              | None => Throw "TypeError"
              end
         else Ok (mkPR (contentDOM (domf this)) fr t fo o')) = Ok r
        /\ base <= pr_from r <= from0 /\ to <= pr_to r <= hi
        /\ pr_node r <> None /\ 0 <= pr_fromOffset r).
  { intros fr fo Hfr Hfo Hend Hto.
    assert (Htt : to <= t <= hi).
    { destruct Hend as [Hend|Hend]; [lia|]. subst rest. cbn [sizes] in *. lia. }
    destruct (Z.eqb o' (-1)); [destruct (contentDOM (domf this)) eqn:Ec; [|congruence]|];
      eexists; (split; [reflexivity|]); cbn [pr_from pr_to pr_node pr_fromOffset];
      rewrite ?Ec; repeat split; try lia; try discriminate; assumption. }
  assert (Hnext : forall fr fo,
      base <= fr <= from0 -> 0 <= fo -> offset + size child <= to -> rest <> [] ->
      offset <= to <= hi ->
      exists r,
        parseRange_loop contains (parseRange contains) this to (child :: prevs) rest
                        (offset + size child) fr fo = Ok r
        /\ base <= pr_from r <= from0 /\ to <= pr_to r <= hi
        /\ pr_node r <> None /\ 0 <= pr_fromOffset r).
  { intros fr fo Hfr Hfo Hend Hrne Hto.
    apply IH; try assumption;
      [constructor; assumption | cbn [sizes]; lia | lia | right; lia]. }
  assert (Hsecond : forall fr fo,
      base <= fr <= from0 -> 0 <= fo -> offset <= to <= hi ->
      exists r,
        (if Z.gtb fo (-1)
            && (Z.gtb (offset + size child) to
                || match rest with [] => true | _ => false end)
         then if Z.eqb o' (-1)
              then match contentDOM (domf this) with
                   | Some _ => Ok (mkPR (contentDOM (domf this)) fr t fo
                                        (content_childCount (domf this)))
                   | None => Throw "TypeError"
                   end
              else Ok (mkPR (contentDOM (domf this)) fr t fo o')
         else parseRange_loop contains (parseRange contains) this to (child :: prevs) rest
                              (offset + size child) fr fo) = Ok r
        /\ base <= pr_from r <= from0 /\ to <= pr_to r <= hi
        /\ pr_node r <> None /\ 0 <= pr_fromOffset r).
  { intros fr fo Hfr Hfo Hto.
    replace (Z.gtb fo (-1)) with true by (symmetry; apply Z.gtb_lt; lia). cbn [andb].
    destruct (Z.gtb_spec (offset + size child) to) as [Hgt|Hle]; cbn [orb].
    - apply Hfin; try assumption. left. lia.
    - destruct rest as [|r1 rest'] eqn:Er.
      + apply Hfin; try assumption. now right.
      + apply Hnext; try assumption. discriminate. }
  destruct Hphase as [(-> & -> & Hp1 & Hp2 & Hp3)|(Hp0 & Hp1 & Hp2)].
  - cbn [Z.eqb Pos.eqb andb].
    destruct (Z.leb_spec from0 (offset + size child)) as [Hle|Hgt].
    + apply Hsecond; try assumption; lia.
    + cbn [Z.gtb Z.compare andb].
      apply IH; try assumption.
      * constructor; assumption.
      * cbn [sizes]. lia.
      * lia.
      * intros ->. cbn [sizes] in *. lia.
      * left. repeat split; lia.
  - replace (Z.eqb fromOffset (-1)) with false by (symmetry; apply Z.eqb_neq; lia).
    cbn [andb]. apply Hsecond; try assumption.
Qed.
End ParseRangeCovers.

Lemma parseRange_parses contains d : parses contains d.
Proof.
  induction d as [u k dd cs df IH] using ViewDesc_tree_ind.
  intros from to base Hok Hcd Hb Hft Hto.
  rewrite parseOK_unfold in Hok. cbn [children domf] in *.
  destruct (contentDOM df) as [cd|] eqn:Ec; [|congruence].
  apply andb_prop in Hok. destruct Hok as [Ht Hall]. apply Z.eqb_eq in Ht.
  unfold covers_request.
  destruct cs as [|c0 cs'] eqn:Ecs.
  - cbn [parseRange children domf]. rewrite Ec. eexists. split; [reflexivity|].
    cbn [pr_from pr_to pr_node pr_fromOffset]. repeat split; try lia. discriminate.
  - rewrite <- Ecs in *.
    assert (Hne : cs <> []) by (rewrite Ecs; discriminate).
    assert (E : parseRange contains (mkDesc u k dd cs df) from to base
                = parseRange_loop contains (parseRange contains) (mkDesc u k dd cs df) to
                                  [] cs base from (-1)).
    { rewrite Ecs. reflexivity. }
    rewrite E.
    apply (@parseRange_loop_covers contains (mkDesc u k dd cs df) from to base
             (base + size (mkDesc u k dd cs df) - 2 * border (mkDesc u k dd cs df))).
    + cbn [domf]. rewrite Ec. discriminate.
    + constructor.
    + rewrite forallb_forall in Hall. rewrite Forall_forall in IH.
      apply Forall_forall. intros c Hc. specialize (Hall c Hc).
      apply andb_prop in Hall. destruct Hall as [H1 H2]. apply Z.leb_le in H1.
      split; [exact H1|]. split; [exact H2|]. now apply IH.
    + cbn [sizes]. lia.
    + lia.
    + exact Hne.
    + left. repeat split; lia.
Qed.

(** X22: on a descriptor with a content node, in a tree in which the
    children of every such descriptor tile its content, [parseRange] does
    not raise for a range inside the content, and the range it answers
    covers the range asked for and stays inside the content; the node it
    answers is a content node, and the start offset is not negative. *)
Theorem parseRange_covers contains d from to base :
  parseOK d = true -> contentDOM (domf d) <> None ->
  base <= from -> from <= to -> to <= base + size d - 2 * border d ->
  exists r,
    parseRange contains d from to base = Ok r
    /\ base <= pr_from r <= from
    /\ to <= pr_to r <= base + size d - 2 * border d
    /\ pr_node r <> None /\ 0 <= pr_fromOffset r.
Proof.
  intros Hok Hcd Hb Hft Hto.
  destruct (@parseRange_parses contains d from to base Hok Hcd Hb Hft Hto)
    as (r & E & H1 & H2 & H3 & H4).
  exists r. repeat split; try assumption; lia.
Qed.

Lemma parseRange_covers_witness :
  exists r,
    parseRange (fun _ _ => true) marked_para_tree 6 7 0 = Ok r
    /\ 0 <= pr_from r <= 6 /\ 7 <= pr_to r <= 10.
Proof.
  destruct (@parseRange_covers (fun _ _ => true) marked_para_tree 6 7 0)
    as (r & E & H1 & H2 & _).
  - vm_compute. reflexivity.
  - discriminate.
  - lia.
  - lia.
  - vm_compute. discriminate.
  - exists r. split; [exact E|]. split; [exact H1|]. exact H2.
Defined.

(** ** An update leaves a tree that covers its nodes *)

Lemma covered_unfold d :
  covered d
  = match desc_node d, contentDOM (domf d) with
    | Some n, Some _ => isTextViewDesc d || Z.eqb (sizes (children d)) (content_size n)
    | _, _ => true
    end
    && forallb covered (children d).
Proof. destruct d as [u k dd cs df]. cbn [covered children domf]. f_equal. Qed.

Lemma deepOK_unfold bound d :
  deepOK bound d
  = wellFormed d (mkWorld bound []) && forallb flat (children d)
    && forallb (fun x => covered x && deepOK bound x) (children d).
Proof. destruct d as [u k dd cs df]. cbn [deepOK children]. f_equal. Qed.

Lemma holesOK_unfold d :
  holesOK d
  = match kind d, contentDOM (domf d) with
    | KNode n _ _, Some _ | KCustom n _ _ _, Some _ => negb (node_isLeaf n)
    | _, _ => true
    end
    && forallb holesOK (children d).
Proof. destruct d as [u k dd cs df]. cbn [holesOK children domf kind]. f_equal. Qed.

Lemma covered_children d :
  covered d = true -> Forall (fun c => covered c = true) (children d).
Proof.
  rewrite covered_unfold. intros H. apply andb_prop in H. destruct H as [_ H].
  apply Forall_forall. intros x Hx. rewrite forallb_forall in H. now apply H.
Qed.

Lemma covered_intro d :
  desc_node d = None \/ contentDOM (domf d) = None \/ isTextViewDesc d = true
  \/ (exists n, desc_node d = Some n /\ sizes (children d) = content_size n) ->
  Forall (fun c => covered c = true) (children d) ->
  covered d = true.
Proof.
  intros H F. rewrite covered_unfold. apply andb_true_intro. split.
  - destruct (desc_node d) as [n|] eqn:En; [|reflexivity].
    destruct (contentDOM (domf d)) as [c|] eqn:Ec; [|reflexivity].
    destruct H as [H|[H|[H|(n' & H & Hs)]]]; try discriminate.
    + now rewrite H.
    + injection H as <-. rewrite Hs, Z.eqb_refl. apply orb_true_r.
  - apply forallb_forall. rewrite Forall_forall in F. exact F.
Qed.

Lemma wellFormed_mono d w w' :
  (fresh w <= fresh w')%nat -> wellFormed d w = true -> wellFormed d w' = true.
Proof.
  unfold wellFormed. intros Hle H.
  apply andb_prop in H. destruct H as [H H3]. apply andb_prop in H. destruct H as [H1 H2].
  rewrite H1, H3. cbn [andb]. rewrite andb_true_r.
  apply forallb_forall. intros y Hy. rewrite forallb_forall in H2.
  specialize (H2 y Hy). apply Nat.ltb_lt in H2. apply Nat.ltb_lt. lia.
Qed.

Lemma deepOK_mono b b' d : (b <= b')%nat -> deepOK b d = true -> deepOK b' d = true.
Proof.
  intros Hle. induction d as [u k dd cs df IH] using ViewDesc_tree_ind.
  rewrite !deepOK_unfold. cbn [children]. intros H.
  apply andb_prop in H. destruct H as [H H3]. apply andb_prop in H. destruct H as [H1 H2].
  rewrite H2, (@wellFormed_mono _ (mkWorld b []) (mkWorld b' []) Hle H1). cbn [andb].
  apply forallb_forall. intros x Hx. rewrite forallb_forall in H3. rewrite Forall_forall in IH.
  specialize (H3 x Hx). apply andb_prop in H3. destruct H3 as [Hc Hd].
  now rewrite Hc, (IH x Hx Hd).
Qed.

Lemma deepOK_same_children b d d' :
  children d = children d' -> deepOK b d = deepOK b d'.
Proof.
  intros E. rewrite !deepOK_unfold. unfold wellFormed. now rewrite E.
Qed.

Lemma deepOK_parts b d :
  deepOK b d = true ->
  wellFormed d (mkWorld b []) = true /\ forallb flat (children d) = true
  /\ Forall (fun c => covered c = true /\ deepOK b c = true) (children d).
Proof.
  rewrite deepOK_unfold. intros H.
  apply andb_prop in H. destruct H as [H H3]. apply andb_prop in H. destruct H as [H1 H2].
  repeat split; try assumption.
  apply Forall_forall. intros x Hx. rewrite forallb_forall in H3. specialize (H3 x Hx).
  apply andb_prop in H3. tauto.
Qed.

(** *** What the pass keeps for the children it has not reached *)

Section Pending.
Variable Q : ViewDesc -> Prop.
Hypothesis Q_mark :
  forall d, Q d -> isMarkViewDesc d = true -> Forall Q (children d).

Lemma Step_pending u u' D c x P' :
  (index u <= List.length (children (top u)))%nat ->
  Step u u' D c x P' ->
  Forall Q (allPending u) ->
  Forall Q (allPending u') /\ (c = Some x -> Q x).
Proof.
  intros Hi HS O. destruct (Step_children Hi HS) as [C1 C2].
  pose proof HS as (_ & Hst & _ & _ & Hsk & _).
  unfold allPending in *. rewrite Hst, C2.
  rewrite Hsk in O. apply Forall_app in O. destruct O as [O1 O2].
  apply Forall_app in O1. destruct O1 as [_ O1]. split.
  - apply Forall_app. split; [|exact O2].
    destruct c; cbn [consumed] in O1; [now inversion O1|exact O1].
  - intros ->. cbn [consumed] in O1. now inversion O1.
Qed.

Lemma Enter_pending u u' D c P' :
  (index u <= List.length (children (top u)))%nat ->
  Enter u u' D c P' -> Forall Q (allPending u) -> Forall Q (allPending u').
Proof.
  intros Hi HE O.
  pose proof HE as (_ & p1 & Hst & Hidx & _ & Hsk & Hch & Hm & _ & Hc).
  destruct (@Enter_lists u u' p1 P' Hi Hch) as (_ & L2 & _).
  unfold allPending in *. rewrite Hst, Hidx.
  cbn [framesPending]. rewrite skipn_O, L2.
  rewrite Hsk in O. apply Forall_app in O. destruct O as [O1 O2].
  apply Forall_app in O1. destruct O1 as [_ O1].
  apply Forall_app. split; [|apply Forall_app; split; [|exact O2]].
  - destruct c as [c0|]; cbn [consumed] in O1.
    + subst c0. inversion O1; subst. now apply Q_mark.
    + destruct Hc as [-> _]. constructor.
  - destruct c; cbn [consumed] in O1; [now inversion O1|exact O1].
Qed.

Lemma leaveMark_pending lb u :
  Inv lb u -> stack u <> [] -> Forall Q (allPending u) -> Forall Q (allPending (leaveMark u)).
Proof.
  intros I Hne O. pose proof (inv_pos I) as Hpos. pose proof Hpos as [Hi Hfr].
  destruct (stack u) as [|[p i] st] eqn:Est; [contradiction|].
  destruct (leaveMark_spec Hpos Est) as (_ & Hst & Hidx & _ & t' & Hch & _).
  cbn in Hfr. destruct Hfr as [[H1 H2] _].
  assert (Hsk : skipn i (children (top (leaveMark u))) = skipn i (children p)).
  { rewrite Hch. rewrite skipn_app, length_firstn_le by lia.
    replace (i - (i - 1))%nat with 1%nat by lia.
    rewrite skipn_all2 by (rewrite length_firstn; lia). reflexivity. }
  unfold allPending in *. rewrite Hst, Hidx, Hsk.
  rewrite Est in O. cbn [framesPending] in O. apply Forall_app in O. tauto.
Qed.

Lemma syncToMarks_pending lb marks u :
  Inv lb u -> Forall Q (allPending u) -> Forall Q (allPending (syncToMarks marks u)).
Proof.
  intros I O.
  enough (H : Inv lb (syncToMarks marks u) /\ Forall Q (allPending (syncToMarks marks u)))
    by tauto.
  apply (syncToMarks_ind (fun v => Inv lb v /\ Forall Q (allPending v))).
  - auto.
  - intros v [Iv Ov] Hne. split; [now apply Inv_leave|]. now apply (@leaveMark_pending lb).
  - intros m v [Iv Ov]. pose proof (inv_pos Iv) as [Hi _].
    destruct (@enterMark_Enter m v Hi) as (D & c & P' & HE & _).
    split; [eapply Inv_enter; eauto|]. eapply Enter_pending; eauto.
Qed.
End Pending.

Lemma pendingOK_mark b d :
  covered d = true /\ deepOK b d = true -> isMarkViewDesc d = true ->
  Forall (fun c => covered c = true /\ deepOK b c = true) (children d).
Proof. intros [_ H] _. now apply deepOK_parts in H. Qed.

(** *** What the pass keeps for the children it has passed *)

Lemma Step_covered u u' D c x P' :
  (index u <= List.length (children (top u)))%nat ->
  Step u u' D c x P' -> covered x = true ->
  visitedCovered u -> visitedCovered u'.
Proof.
  intros Hi (_ & Hst & Hidx & _ & _ & Hch & _) Hx [V1 V2].
  unfold visitedCovered. rewrite Hst, Hidx, Hch. split; [|exact V2].
  rewrite firstn_snoc_at by (now rewrite length_firstn_le).
  apply Forall_app. split; [exact V1|]. now constructor.
Qed.

Lemma Step_placed u u' D c x P' :
  (index u <= List.length (children (top u)))%nat ->
  Step u u' D c x P' -> nth_error (children (top u')) (index u) = Some x.
Proof.
  intros Hi (_ & _ & _ & _ & _ & Hch & _). rewrite Hch.
  rewrite nth_error_app2 by (rewrite length_firstn_le; [lia|exact Hi]).
  rewrite length_firstn_le by exact Hi. now rewrite Nat.sub_diag.
Qed.

Lemma Enter_covered u u' D c P' :
  (index u <= List.length (children (top u)))%nat ->
  Enter u u' D c P' -> visitedCovered u -> visitedCovered u'.
Proof.
  intros Hi (_ & p1 & Hst & Hidx & _ & _ & Hch & _) [V1 V2].
  destruct (@Enter_lists u u' p1 P' Hi Hch) as (L1 & _ & _).
  unfold visitedCovered. rewrite Hst, Hidx. cbn [framesCovered firstn].
  split; [constructor|]. rewrite L1. split; assumption.
Qed.

Lemma leaveMark_covered lb u :
  Inv lb u -> stack u <> [] -> visitedCovered u -> visitedCovered (leaveMark u).
Proof.
  intros I Hne [V1 V2]. pose proof (top_is_mark I Hne) as Hmark.
  pose proof (inv_pos I) as Hpos. pose proof Hpos as [Hi Hfr].
  destruct (stack u) as [|[p i] st] eqn:Est; [contradiction|].
  destruct (leaveMark_spec Hpos Est) as (_ & Hst & Hidx & _ & t' & Hch & _ & Kt & _ & Ct).
  cbn in Hfr. destruct Hfr as [[H1 H2] _].
  cbn [framesCovered] in V2. destruct V2 as [V2 V3].
  assert (Hc : covered t' = true).
  { apply covered_intro.
    - left. unfold desc_node. rewrite Kt. unfold isMarkViewDesc in Hmark.
      destruct (kind (top u)); try discriminate; reflexivity.
    - now rewrite Ct. }
  unfold visitedCovered. rewrite Hst, Hidx, Hch. split; [|exact V3].
  rewrite firstn_snoc_at by (rewrite length_firstn_le; lia).
  apply Forall_app. split; [exact V2|]. now constructor.
Qed.

Lemma syncToMarks_covered lb marks u :
  Inv lb u -> visitedCovered u -> visitedCovered (syncToMarks marks u).
Proof.
  intros I V.
  enough (H : Inv lb (syncToMarks marks u) /\ visitedCovered (syncToMarks marks u)) by tauto.
  apply (syncToMarks_ind (fun v => Inv lb v /\ visitedCovered v)).
  - auto.
  - intros v [Iv Vv] Hne. split; [now apply Inv_leave|]. now apply (@leaveMark_covered lb).
  - intros m v [Iv Vv]. pose proof (inv_pos Iv) as [Hi _].
    destruct (@enterMark_Enter m v Hi) as (D & c & P' & HE & _).
    split; [eapply Inv_enter; eauto|]. eapply Enter_covered; eauto.
Qed.

Lemma covered_eq a b :
  desc_node a = desc_node b -> isTextViewDesc a = isTextViewDesc b ->
  contentDOM (domf a) = contentDOM (domf b) -> children a = children b ->
  covered a = covered b.
Proof. intros H1 H2 H3 H4. rewrite !covered_unfold. now rewrite H1, H2, H3, H4. Qed.

Lemma covered_set_dirty v d : covered (set_dirty v d) = covered d.
Proof. now apply covered_eq. Qed.

Lemma covered_fresh u k dd f :
  covered (mkDesc u k dd [] f)
  = match desc_node (mkDesc u k dd [] f), contentDOM f with
    | Some n, Some _ => isTextViewDesc (mkDesc u k dd [] f) || Z.eqb 0 (content_size n)
    | _, _ => true
    end.
Proof. rewrite covered_unfold. cbn [children domf sizes forallb]. now rewrite andb_true_r. Qed.

Section Covers.
Variable view : View.
Variable rec : ViewDesc -> Z -> World -> M (ViewDesc * World).
Hypothesis rec_ok : forall d pos w d' w',
  rec d pos w = Some (Ok (d', w')) ->
  uid d' = uid d /\ kind d' = kind d /\ dirty d' = dirty d
  /\ (fresh w <= fresh w')%nat.
Hypothesis rec_cov : forall d pos w d' w' node,
  desc_node d = Some node -> deepOK (fresh w) d = true ->
  decoOK node (desc_innerDeco d) = true ->
  rec d pos w = Some (Ok (d', w')) -> covered d' = true.

Lemma updateInner_covered b node od idc pos d w d' w' :
  isNodeViewDesc d = true ->
  Forall (fun c => covered c = true) (children d) ->
  deepOK b d = true -> (b <= fresh w)%nat ->
  decoOK node idc = true ->
  updateInner view rec node od idc pos d w = Some (Ok (d', w')) ->
  covered d' = true.
Proof.
  intros Hn Hcs Hd Hb Hdeco. unfold updateInner.
  pose proof (@updateOuterDeco_spec view od d w) as S1.
  pose proof (updateOuterDeco_children view od d w) as C1.
  destruct (updateOuterDeco view od d w) as [d1 w1]. cbn [fst snd] in S1, C1.
  destruct S1 as (U1 & D1 & N1 & I1 & O1 & F1 & _ & CD1).
  assert (Hn1 : isNodeViewDesc d1 = true).
  { unfold isNodeViewDesc in *. now rewrite N1. }
  destruct (@set_node_spec node d1 Hn1) as (N2 & O2 & I2).
  assert (Hn2 : isNodeViewDesc (set_node node d1) = true).
  { unfold isNodeViewDesc. now rewrite N2. }
  destruct (@set_innerDeco_spec idc (set_node node d1) Hn2) as (N3 & O3 & I3).
  set (d2 := set_innerDeco idc (set_node node d1)) in *.
  assert (C2 : children d2 = children d) by (rewrite <- C1; reflexivity).
  assert (CD2 : contentDOM (domf d2) = contentDOM (domf d)) by (rewrite <- CD1; reflexivity).
  unfold bind.
  destruct (contentDOM (domf d2)) eqn:Ec.
  - destruct (rec d2 pos w1) as [[[d3 w3]|e]|] eqn:Er; try discriminate.
    intros H. injection H as <- <-. rewrite covered_set_dirty.
    eapply rec_cov; [ | | |exact Er].
    + rewrite N3. exact N2.
    + rewrite (deepOK_same_children _ _ _ C2). apply (@deepOK_mono b); [lia|exact Hd].
    + rewrite I3. exact Hdeco.
  - intros H. injection H as <- <-. rewrite covered_set_dirty. apply covered_intro.
    + right; left. exact Ec.
    + rewrite C2. exact Hcs.
Qed.

Lemma update_covered b node od idc pos d w x w' :
  deepOK b d = true -> (b <= fresh w)%nat ->
  decoOK node idc = true ->
  update view rec node od idc pos d w = Some (Ok (Some x, w')) ->
  covered x = true.
Proof.
  intros Hd Hb Hdeco H.
  assert (Hcs : Forall (fun c => covered c = true) (children d)).
  { destruct (deepOK_parts _ _ Hd) as (_ & _ & F). eapply Forall_impl; [|exact F].
    cbn. tauto. }
  assert (Hin : forall d0,
             d0 = d -> isNodeViewDesc d0 = true ->
             (r <- updateInner view rec node od idc pos d0 w ;;
              (let '(d1, w1) := r in ret (Some d1, w1)))
             = Some (Ok (Some x, w')) -> covered x = true).
  { intros d0 -> Hn0 E. unfold bind in E.
    destruct (updateInner view rec node od idc pos d w) as [[[d1 w1]|e]|] eqn:Eu;
      try discriminate.
    injection E as <- <-. eapply updateInner_covered; eauto. }
  assert (Hnv : forall d0,
             d0 = d -> isNodeViewDesc d0 = true ->
             NodeViewDesc_update view rec node od idc pos d0 w = Some (Ok (Some x, w')) ->
             covered x = true).
  { intros d0 E0 Hn0 E. unfold NodeViewDesc_update in E.
    destruct (desc_node d0); [|discriminate].
    destruct (_ || _); [discriminate|]. now apply (Hin d0). }
  unfold update in H. destruct (kind d) eqn:K; try discriminate.
  - assert (Hn : isNodeViewDesc d = true) by (unfold isNodeViewDesc, desc_node; now rewrite K).
    now apply (Hnv d).
  - unfold ret in H. injection H as H.
    unfold TextViewDesc_update in H.
    destruct (desc_node d) as [tn|] eqn:En; [|discriminate].
    destruct (_ || _); [discriminate|].
    pose proof (updateOuterDeco_children view od d w) as C1.
    assert (K1 : isTextViewDesc (fst (updateOuterDeco view od d w)) = true).
    { unfold updateOuterDeco. destruct (sameOuterDeco _ _); cbn [fst];
        unfold isTextViewDesc, set_outerDeco, set_dom, set_domf, set_kind; cbn [kind];
        now rewrite K. }
    destruct (updateOuterDeco view od d w) as [d1 w1]. cbn [fst] in C1, K1.
    assert (G : forall d2 w2, children d2 = children d1 -> isTextViewDesc d2 = true ->
                (Some (set_dirty NOT_DIRTY (set_node node d2)), w2) = (Some x, w') ->
                covered x = true).
    { intros d2 w2 C2 K2 E. injection E as <- _. apply covered_intro.
      - right; right; left. unfold isTextViewDesc in *. cbn [set_dirty set_node set_kind kind].
        destruct (kind d2); try discriminate; reflexivity.
      - cbn [set_dirty set_node set_kind children]. rewrite C2, C1. exact Hcs. }
    destruct (_ && _) in H.
    + apply (G (set_nodeValue (node_text node) d1) _ eq_refl) in H; [exact H|].
      unfold isTextViewDesc in *. cbn [set_nodeValue set_domf kind]. exact K1.
    + now apply (G d1 _ eq_refl K1) in H.
  - assert (Hn : isNodeViewDesc d = true) by (unfold isNodeViewDesc, desc_node; now rewrite K).
    unfold CustomNodeViewDesc_update in H.
    destruct (Z.eqb (dirty d) NODE_DIRTY); [discriminate|].
    destruct (spec_hasUpdate spec).
    + destruct (spec_update spec node od); [|discriminate]. now apply (Hin d).
    + destruct (_ && _); [discriminate|]. now apply (Hnv d).
Qed.
Lemma create_covered node od idc pos w x w' :
  decoOK node idc = true ->
  NodeViewDesc_create view rec node od idc pos w = Some (Ok (x, w')) ->
  covered x = true.
Proof.
  intros Hdeco. unfold NodeViewDesc_create. cbn [alloc].
  assert (G : forall d0 w1 (r : M (ViewDesc * World)),
             children d0 = [] -> desc_node d0 = Some node -> desc_innerDeco d0 = idc ->
             (r = rec d0 (pos + 1) w1 \/ (contentDOM (domf d0) = None /\ r = ret (d0, w1))) ->
             r = Some (Ok (x, w')) -> covered x = true).
  { intros d0 w1 r C N I [Hr|[Hc Hr]] Hres; subst r.
    - eapply rec_cov; [exact N| |rewrite I; exact Hdeco|exact Hres].
      rewrite deepOK_unfold. unfold wellFormed. rewrite C. reflexivity.
    - injection Hres as <- <-. apply covered_intro; [right; left; exact Hc|].
      rewrite C. constructor. }
  unfold bind.
  match goal with |- match ?m with _ => _ end = _ -> _ => destruct m as [[r|e]|] eqn:Em end;
    try discriminate.
  destruct r as [[[[h content] value] isText] w1]. clear Em.
  destruct (nodeViews view node) as [s|].
  - destruct content as [c|]; intros H.
    + match type of H with
      | rec ?d0 _ ?w0 = _ =>
          exact (G d0 w0 _ eq_refl eq_refl eq_refl (or_introl eq_refl) H)
      end.
    + match type of H with
      | ret (?d0, ?w0) = _ =>
          exact (G d0 w0 _ eq_refl eq_refl eq_refl (or_intror (conj eq_refl eq_refl)) H)
      end.
  - destruct (node_isText node) eqn:Et.
    + intros H. injection H as <- <-. apply covered_intro; [|constructor].
      right; right; left. reflexivity.
    + destruct content as [c|]; intros H.
      * match type of H with
      | rec ?d0 _ ?w0 = _ =>
          exact (G d0 w0 _ eq_refl eq_refl eq_refl (or_introl eq_refl) H)
      end.
      * match type of H with
      | ret (?d0, ?w0) = _ =>
          exact (G d0 w0 _ eq_refl eq_refl eq_refl (or_intror (conj eq_refl eq_refl)) H)
      end.
Qed.

Lemma updateNextNode_placed b node od idc idx u u' :
  (index u <= List.length (children (top u)))%nat ->
  pendingOK b u -> (b <= fresh (world u))%nat -> decoOK node idc = true ->
  updateNextNode view rec node od idc idx u = Some (Ok (Some u')) ->
  placedCovered u u'.
Proof.
  intros Hi O Hb Hdeco. unfold updateNextNode.
  set (cs := children (top u)).
  destruct (findFrom isNodeViewDesc cs (index u) (List.length cs)) as [i|] eqn:Ef;
    [|discriminate].
  apply findFrom_Some in Ef. destruct Ef as [Hr (next & Hn & Hnode)].
  rewrite Hn.
  destruct (match indexOf next (preMatched u) with
            | Some p => negb (Z.eqb (Z.of_nat (p + preMatchOffset u)) idx)
            | None => false
            end); [discriminate|].
  destruct (isLocked (lock u) next node od); [discriminate|].
  unfold bind.
  destruct (update view rec node od idc _ next (world u)) as [[[[next'|] w']|e]|] eqn:Eu;
    try discriminate.
  intros H. injection H as <-.
  assert (Hlen : (i < List.length cs)%nat) by (apply nth_error_Some; congruence).
  assert (Hin : In next (skipn (index u) cs)).
  { rewrite (@skipn_split _ cs (index u) i next) by (lia || auto).
    apply in_or_app. right. now left. }
  assert (Q : covered next = true /\ deepOK b next = true).
  { unfold pendingOK, allPending in O. apply Forall_app in O. destruct O as [O _].
    rewrite Forall_forall in O. now apply O. }
  destruct Q as [Q1 Q2].
  exists next'. split; [|eapply update_covered; eauto].
  set (u0 := with_world w' (with_top (set_children (replace_nth i next' cs) (top u)) u)).
  assert (Hch : children (top (destroyBetween (index u0) i u0))
                = firstn (index u) (replace_nth i next' cs) ++ skipn i (replace_nth i next' cs)).
  { rewrite destroyBetween_children by (cbn; lia). reflexivity. }
  assert (Hnth : nth_error (children (top (destroyBetween (index u0) i u0))) (index u)
                 = Some next').
  { rewrite Hch. rewrite nth_error_app2; rewrite length_firstn_le;
      try (rewrite length_replace_nth; fold cs; lia); try lia.
    rewrite Nat.sub_diag.
    rewrite (@skipn_nth _ (replace_nth i next' cs) i next')
      by (apply nth_error_replace_nth; exact Hlen).
    reflexivity. }
  destruct (negb (Nat.eqb (dom (domf next')) (dom (domf next)))); exact Hnth.
Qed.

Lemma addNode_placed node od idc pos u u' :
  (index u <= List.length (children (top u)))%nat ->
  decoOK node idc = true ->
  addNode view rec node od idc pos u = Some (Ok u') ->
  placedCovered u u'.
Proof.
  intros Hi Hdeco. unfold addNode, bind.
  destruct (NodeViewDesc_create view rec node od idc pos (world u)) as [[[d w]|e]|] eqn:Ec;
    try discriminate.
  intros H. injection H as <-. exists d. split; [|eapply create_covered; eauto].
  cbn. now apply nth_splice_in.
Qed.
Lemma pending_head b u x :
  nth_error (children (top u)) (index u) = Some x -> pendingOK b u -> covered x = true.
Proof.
  intros Hn O. unfold pendingOK, allPending in O. apply Forall_app in O.
  destruct O as [O _]. rewrite (skipn_nth _ _ Hn) in O. inversion O; tauto.
Qed.

Lemma covered_next u x :
  nth_error (children (top u)) (index u) = Some x -> covered x = true ->
  visitedCovered u -> visitedCovered (with_index (S (index u)) u).
Proof.
  intros Hn Hx [V1 V2]. unfold visitedCovered. cbn [index top stack with_index].
  split; [|exact V2].
  assert (Hi : (index u < List.length (children (top u)))%nat)
    by (apply nth_error_Some; congruence).
  rewrite <- (firstn_skipn (index u) (children (top u))) at 1.
  rewrite (skipn_nth _ _ Hn).
  rewrite firstn_snoc_at by (rewrite length_firstn_le; lia).
  apply Forall_app. split; [exact V1|]. now constructor.
Qed.

Lemma covered_splice u x t w c :
  (index u <= List.length (children (top u)))%nat -> covered x = true ->
  visitedCovered u ->
  visitedCovered (with_changed c
                    (with_world w
                       (with_index (S (index u))
                          (with_top (set_children (splice_in (index u) x (children (top u))) t)
                                    u)))).
Proof.
  intros Hi Hx [V1 V2]. unfold visitedCovered, splice_in.
  cbn [index top stack with_index with_changed with_world with_top set_children children].
  split; [|exact V2].
  rewrite firstn_snoc_at by (rewrite length_firstn_le; lia).
  apply Forall_app. split; [exact V1|]. now constructor.
Qed.

Lemma placeWidget_placed b widget u u' :
  (index u <= List.length (children (top u)))%nat -> pendingOK b u ->
  placeWidget widget u = Some (Ok u') -> placedCovered u u'.
Proof.
  intros Hi O. unfold placeWidget.
  destruct (match nth_error (children (top u)) (index u) with
            | Some next => _
            | None => false
            end) eqn:Er.
  - unfold ret. intros H. injection H as <-.
    destruct (nth_error (children (top u)) (index u)) as [next|] eqn:En; [|discriminate].
    exists next. split; [exact En | eapply pending_head; eauto].
  - unfold WidgetViewDesc_new. destruct (deco_type widget) as [k side marks t| |];
      try discriminate.
    cbn [alloc]. destruct t; cbn [alloc bind ret]; intros H; injection H as <-;
      eexists; (split; [cbn; apply nth_splice_in; exact Hi | reflexivity]).
Qed.

Lemma addTextblockHacks_covered b u :
  (index u <= List.length (children (top u)))%nat -> pendingOK b u ->
  visitedCovered u -> visitedCovered (addTextblockHacks u).
Proof.
  intros Hi O V. unfold addTextblockHacks. destruct (needsHack u); [|exact V].
  assert (Hins : visitedCovered (insertHack u)).
  { unfold insertHack. cbn [alloc]. now apply covered_splice. }
  destruct (nth_error (children (top u)) (index u)) as [c|] eqn:En; [|exact Hins].
  destruct (matchesHack c) eqn:Eh; [|exact Hins].
  apply (@covered_next u c En); [eapply pending_head; eauto | exact V].
Qed.

Lemma onNode_placed lb b child od idc idx off u u' :
  Inv lb (syncToMarks (node_marks child) u) -> (0 <= idx -> lb <= idx) ->
  pendingOK b (syncToMarks (node_marks child) u) ->
  (b <= fresh (world (syncToMarks (node_marks child) u)))%nat ->
  decoOK child idc = true ->
  onNode view rec child od idc idx off u = Some (Ok u') ->
  placedCovered (syncToMarks (node_marks child) u) u'.
Proof.
  intros I Hlb O Hb Hdeco. unfold onNode.
  set (u1 := syncToMarks (node_marks child) u) in *.
  pose proof (inv_pos I) as [Hi _].
  destruct (findNodeMatch child od idc idx u1) as [u2|] eqn:Ef.
  - unfold ret. intros H. injection H as <-.
    destruct (@findNodeMatch_step lb child od idc idx u1 u2 I Hlb Ef)
      as (D & c & P' & HS & _).
    exists c. split; [eapply Step_placed; eauto|].
    destruct (@Step_pending (fun c => covered c = true /\ deepOK b c = true)
                u1 u2 D (Some c) c P' Hi HS O) as [_ Q].
    now destruct (Q eq_refl).
  - unfold bind.
    destruct (updateNextNode view rec child od idc idx u1) as [[[u2|]|e]|] eqn:Eu;
      try discriminate.
    + unfold ret. intros H. injection H as <-. eapply updateNextNode_placed; eauto.
    + intros H. eapply addNode_placed; eauto.
Qed.

Lemma event_covered lb b parent e u off u' off' :
  Inv lb u -> pendingOK b u -> visitedCovered u -> (b <= fresh (world u))%nat ->
  match e with
  | OnNode _ _ _ idx => 0 <= idx -> lb <= idx
  | OnWidget _ _ _ => True
  end ->
  leafInner e -> nodeDecoOK e ->
  onEvent view rec parent e (u, off) = Some (Ok (u', off')) ->
  pendingOK b u' /\ visitedCovered u' /\ (b <= fresh (world u'))%nat.
Proof.
  intros I O V Hb Hlb Hleaf Hdeco He.
  destruct (@event_shape view rec rec_ok lb parent e u off u' off' I Hlb Hleaf He)
    as (I1 & _ & _ & D & c & x & P' & HS & Hx & _).
  pose proof (inv_pos I1) as [Hi _].
  assert (S1 : pendingOK b (eventSync parent e u) /\ visitedCovered (eventSync parent e u)
               /\ (b <= fresh (world (eventSync parent e u)))%nat).
  { destruct (eventSync_cases parent e u) as [->|[marks ->]]; [auto|].
    split; [now apply (@syncToMarks_pending _ (@pendingOK_mark b) lb)|].
    split; [now apply (@syncToMarks_covered lb)|].
    destruct (syncToMarks_Weak marks u) as [(_ & _ & _ & _ & F) _]. lia. }
  destruct S1 as (O1 & V1 & F1).
  assert (P : placedCovered (eventSync parent e u) u').
  { destruct e as [widget i ins | child od idc idx].
    - cbn [onEvent] in He. apply bind_Ok in He. destruct He as (u1 & Hp & E).
      injection E as <- _. eapply placeWidget_placed; [exact Hi|exact O1|exact Hp].
    - cbn [onEvent] in He. apply bind_Ok in He. destruct He as (u1 & Hp & E).
      injection E as <- _. cbn [eventSync] in *.
      eapply onNode_placed; [exact I1|exact Hlb|exact O1|exact F1|exact Hdeco|exact Hp]. }
  destruct P as (x0 & Hn & Hc).
  rewrite (@Step_placed _ _ _ _ _ _ Hi HS) in Hn. injection Hn as <-.
  split; [|split].
  - now destruct (@Step_pending (fun c => covered c = true /\ deepOK b c = true)
                    _ _ _ _ _ _ Hi HS O1).
  - eapply Step_covered; eauto.
  - destruct HS as ((_ & _ & _ & _ & F) & _). lia.
Qed.

Lemma events_covered b parent evs : forall lb u off u' off',
  Inv lb u -> pendingOK b u -> visitedCovered u -> (b <= fresh (world u))%nat ->
  incrOK lb evs -> Forall leafInner evs -> Forall nodeDecoOK evs ->
  onEvents view rec parent evs (u, off) = Some (Ok (u', off')) ->
  exists lb', Inv lb' u' /\ pendingOK b u' /\ visitedCovered u'.
Proof.
  induction evs as [|e r IH]; intros lb u off u' off' I O V Hb Hinc Hleaf Hdeco H.
  - cbn in H. injection H as <- <-. exists lb. auto.
  - cbn [onEvents] in H. apply bind_Ok in H. destruct H as ([u1 off1] & He & Hr).
    apply incrOK_head in Hinc. destruct Hinc as [Hlb Hinc].
    apply Forall_cons_iff in Hleaf. destruct Hleaf as [H1 H2].
    apply Forall_cons_iff in Hdeco. destruct Hdeco as [G1 G2].
    assert (I1 : Inv (nextLb lb e) u1)
      by (exact (@event_Inv view rec rec_ok lb parent e u off u1 off1 I Hlb H1 He)).
    destruct (@event_covered lb b parent e u off u1 off1 I O V Hb Hlb H1 G1 He)
      as (O1 & V1 & F1).
    exact (IH _ _ _ _ _ I1 O1 V1 F1 Hinc H2 G2 Hr).
Qed.

Lemma finish_covered lb b node uE :
  Inv lb uE -> pendingOK b uE -> visitedCovered uE ->
  Forall (fun c => covered c = true) (children (top (finishPass node uE))).
Proof.
  intros I O V. unfold finishPass.
  destruct (@finish_shape lb node uE I) as (IS & StS & _ & IH & StH & _).
  cbv zeta in IS, StS, IH, StH.
  set (uS := syncToMarks [] uE) in *.
  set (uH := if node_isTextblock node then addTextblockHacks uS else uS) in *.
  pose proof (inv_pos IH) as [HiH _]. pose proof (inv_pos IS) as [HiS _].
  rewrite destroyRest_children by exact HiH.
  assert (VS : visitedCovered uS) by (now apply (@syncToMarks_covered lb)).
  assert (OS : pendingOK b uS)
    by (now apply (@syncToMarks_pending _ (@pendingOK_mark b) lb)).
  assert (VH : visitedCovered uH).
  { unfold uH. destruct (node_isTextblock node); [|exact VS].
    now apply (@addTextblockHacks_covered b). }
  apply VH.
Qed.
End Covers.

Lemma decoOK_unfold n deco :
  decoOK n deco = localsOK n (locals deco) && contentDecoOK deco (node_content n) 0.
Proof.
  destruct n as [i m t | i t a m | i t a m c]; cbn [decoOK node_content contentDecoOK];
    try reflexivity.
  f_equal. generalize 0.
  induction c as [|x r IH]; intros o; cbn [contentDecoOK]; [reflexivity|].
  now rewrite IH.
Qed.

Lemma eventOffsets_nodes (P : Z * Event -> Prop) evs : forall o,
  Forall P (eventOffsets evs o) -> Forall P (eventOffsets (filter isOnNode evs) o).
Proof.
  induction evs as [|[w i ins|c od idc idx] r IH]; intros o H;
    cbn [filter isOnNode eventOffsets] in *.
  - constructor.
  - inversion H; subst. now apply IH.
  - inversion H; subst. constructor; [assumption | now apply IH].
Qed.

Lemma eventOffsets_glue g : forall rest o,
  eventOffsets (g ++ rest) o = eventOffsets g o ++ eventOffsets rest (o + eventsSize g).
Proof.
  induction g as [|e r IH]; intros rest o; cbn [app eventOffsets eventsSize].
  - now rewrite Z.add_0_r.
  - f_equal. rewrite IH. f_equal. f_equal. destruct e; cbn [eventSize]; lia.
Qed.

Lemma pieces_decoOK deco all m t g :
  Pieces m t g ->
  forall o, Forall (eventOK deco all) (eventOffsets g o) -> Forall nodeDecoOK g.
Proof.
  induction 1 as [t od idc Hne | t1 t2 od idc g Hne _ IH]; intros o H;
    cbn [eventOffsets] in H; inversion H as [|? ? He Hr]; subst.
  - constructor; [|constructor]. destruct He as (_ & _ & He). cbn in He. subst idc.
    reflexivity.
  - constructor; [|eapply IH; exact Hr]. destruct He as (_ & _ & He). cbn in He.
    subst idc. reflexivity.
Qed.

Lemma delivered_decoOK deco all i frag nevs :
  Delivered i frag nevs ->
  forall o, contentDecoOK deco frag o = true ->
            Forall (eventOK deco all) (eventOffsets nevs o) -> Forall nodeDecoOK nevs.
Proof.
  induction 1 as [i | i f fr od idc rest _ IH | i f fr g rest Ht Hp Hl _ IH];
    intros o Hc Hev.
  - constructor.
  - cbn [eventOffsets] in Hev. inversion Hev as [|? ? He Hr]; subst.
    cbn [contentDecoOK] in Hc. apply andb_prop in Hc. destruct Hc as [Hc1 Hc2].
    constructor; [|now apply (IH (o + nodeSize f))].
    destruct He as (_ & _ & He). cbn in He. subst idc. exact Hc1.
  - rewrite eventOffsets_glue in Hev. apply Forall_app in Hev. destruct Hev as [H1 H2].
    cbn [contentDecoOK] in Hc. apply andb_prop in Hc. destruct Hc as [_ Hc2].
    apply Forall_app. split; [eapply pieces_decoOK; eauto|].
    apply (IH (o + nodeSize f)); [exact Hc2|].
    rewrite (Pieces_size Hp) in H2. destruct f; try discriminate. exact H2.
Qed.

Lemma nodeDecoOK_all evs :
  Forall nodeDecoOK (filter isOnNode evs) -> Forall nodeDecoOK evs.
Proof.
  induction evs as [|[w i ins|c od idc idx] r IH]; intros H; cbn [filter isOnNode] in H.
  - constructor.
  - constructor; [exact I | now apply IH].
  - inversion H; subst. constructor; [assumption | now apply IH].
Qed.

Lemma covered_rendered d : forall p i, covered (rendered p i d) = covered d.
Proof.
  induction d as [u k dd cs df IH] using ViewDesc_tree_ind. intros p i.
  rewrite !covered_unfold. cbn [rendered kind domf children uid dirty].
  assert (Hgo : forall c l j,
             Forall (fun x => forall p i, covered (rendered p i x) = covered x) l ->
             forallb covered
               ((fix go (l : list ViewDesc) (j : Z) : list ViewDesc :=
                   match l with
                   | [] => []
                   | x :: r => rendered c j x :: go r (j + 1)
                   end) l j)
             = forallb covered l).
  { intros c l. induction l as [|x r IHl]; intros j F; [reflexivity|].
    apply Forall_cons_iff in F. destruct F as [Fx Fr].
    cbn [forallb]. now rewrite Fx, IHl. }
  destruct k; cbn [desc_node kind isTextViewDesc contentDOM children];
    try reflexivity; destruct (contentDOM df); try reflexivity.
  cbn [andb]. now apply Hgo.
Qed.

Lemma covered_renderDescs l : forall p i,
  Forall (fun c => covered c = true) l ->
  Forall (fun c => covered c = true) (renderDescs p i l).
Proof.
  induction l as [|x r IH]; intros p i F; cbn [renderDescs]; [constructor|].
  apply Forall_cons_iff in F. destruct F as [Fx Fr].
  constructor; [now rewrite covered_rendered | now apply IH].
Qed.

Section CoversPass.
Variable view : View.
Variable rec : ViewDesc -> Z -> World -> M (ViewDesc * World).
Hypothesis rec_ok : forall d pos w d' w',
  rec d pos w = Some (Ok (d', w')) ->
  uid d' = uid d /\ kind d' = kind d /\ dirty d' = dirty d
  /\ (fresh w <= fresh w')%nat.
Hypothesis rec_cov : forall d pos w d' w' node,
  desc_node d = Some node -> deepOK (fresh w) d = true ->
  decoOK node (desc_innerDeco d) = true ->
  rec d pos w = Some (Ok (d', w')) -> covered d' = true.

Lemma syncChildren_covered node d pos w uF :
  deepOK (fresh w) d = true -> decoOK node (desc_innerDeco d) = true ->
  syncChildren view rec node d pos w = Some (Ok uF) ->
  Forall (fun c => covered c = true) (children (top uF)).
Proof.
  intros Hd Hdeco Hs.
  destruct (deepOK_parts _ _ Hd) as (WF & Fl & Hch).
  rewrite decoOK_unfold in Hdeco. apply andb_prop in Hdeco. destruct Hdeco as [Hl Hcd].
  destruct (@syncChildren_inv view rec node d pos w uF Hs) as (evs & uE & offE & Hi & He & ->).
  destruct (iterDeco_spec node (desc_innerDeco d) Hl) as (evs' & Hi' & Hev & Hdel).
  rewrite Hi in Hi'. injection Hi' as <-.
  pose proof (@Inv_newUpdater d (compositionOf view node pos) pos w WF) as I0.
  set (u0 := newUpdater d (compositionOf view node pos) pos w) in *.
  assert (O0 : pendingOK (fresh w) u0).
  { unfold pendingOK, allPending. cbn. rewrite app_nil_r. exact Hch. }
  assert (V0 : visitedCovered u0) by (split; cbn; constructor).
  assert (Hinc : incrOK 0 evs).
  { apply incrOK_filter. apply (@CoversN_incrOK 0 (node_content node)).
    now apply Delivered_CoversN. }
  assert (Hnd : Forall nodeDecoOK evs).
  { apply nodeDecoOK_all.
    eapply delivered_decoOK; [exact Hdel|exact Hcd|].
    apply eventOffsets_nodes. exact Hev. }
  destruct (@events_covered view rec rec_ok rec_cov (fresh w) node evs 0 u0 pos uE offE
              I0 O0 V0 (le_n _) Hinc (@iterDeco_leaf _ _ _ Hi) Hnd He)
    as (lb' & I' & O' & V').
  exact (@finish_covered lb' (fresh w) node uE I' O' V').
Qed.

Lemma updateChildren_body_covered fuel node d pos w d' w' :
  deepOK (fresh w) d = true -> desc_node d = Some node ->
  decoOK node (desc_innerDeco d) = true ->
  compositionOf view node pos = None ->
  updateChildren_body view rec fuel d pos w = Some (Ok (d', w')) ->
  covered d' = true.
Proof.
  intros Hd Hn Hdeco Hc H.
  destruct (deepOK_parts _ _ Hd) as (WF & Fl & _).
  assert (Hl : localsOK node (locals (desc_innerDeco d)) = true).
  { rewrite decoOK_unfold in Hdeco. apply andb_prop in Hdeco. tauto. }
  pose proof (@updateChildren_body_tiles view rec rec_ok fuel node d pos w d' w'
                WF Fl Hn Hl Hc H) as T.
  unfold updateChildren_body in H. rewrite Hn in H.
  destruct (syncChildren view rec node d pos w) as [[uF|e]|] eqn:Hs; try discriminate.
  cbn [bind] in H.
  pose proof (@syncChildren_covered node d pos w uF Hd Hdeco Hs) as C.
  destruct (@syncChildren_keeps view rec rec_ok node d pos w uF Hs) as (Hinfo & _ & _).
  assert (Hk : kind (top uF) = kind d) by (unfold info in Hinfo; congruence).
  assert (HN : desc_node (top uF) = Some node) by (unfold desc_node in *; now rewrite Hk).
  destruct (changed uF || Z.eqb (dirty (top uF)) CONTENT_DIRTY).
  - rewrite Hc in H. cbn [bind ret] in H.
    destruct (contentDOM (domf (top uF))) as [cdom|]; [|discriminate].
    injection H as <- _. apply covered_intro.
    + right; right; right. exists node. split; [exact HN|exact T].
    + cbn [set_children children]. now apply covered_renderDescs.
  - unfold ret in H. injection H as <- _. apply covered_intro; [|exact C].
    right; right; right. exists node. split; [exact HN|exact T].
Qed.
End CoversPass.

Lemma updateChildren_covered view :
  composing view = false ->
  forall fuel d pos w d' w' node,
    desc_node d = Some node -> deepOK (fresh w) d = true ->
    decoOK node (desc_innerDeco d) = true ->
    updateChildren fuel view d pos w = Some (Ok (d', w')) -> covered d' = true.
Proof.
  intros Hc. induction fuel as [|fuel IH]; intros d pos w d' w' node Hn Hd Hdeco H;
    [discriminate|].
  cbn [updateChildren] in H.
  eapply (@updateChildren_body_covered view (updateChildren fuel view)
            (updateChildren_rec_ok view fuel) IH fuel node d pos w d' w'); try assumption.
  unfold compositionOf. rewrite Hc. now rewrite andb_false_r.
Qed.

Lemma tiled_unfold d :
  tiled d
  = match kind d with
    | KText _ _ _ | KComposition _ _ => true
    | _ =>
        match contentDOM (domf d) with
        | None => true
        | Some _ =>
            Z.eqb (sizes (children d)) (size d - 2 * border d)
            && forallb tiled (children d)
        end
    end.
Proof.
  destruct d as [u k dd cs df]. cbn [tiled kind domf children].
  assert (E : (fix all (l : list ViewDesc) : bool :=
                 match l with [] => true | x :: r => tiled x && all r end) cs
              = forallb tiled cs).
  { induction cs as [|x r IHl]; [reflexivity|]. cbn [forallb]. now rewrite IHl. }
  rewrite E. reflexivity.
Qed.

Lemma covered_tiled d : covered d = true -> holesOK d = true -> tiled d = true.
Proof.
  induction d as [u k dd cs df IH] using ViewDesc_tree_ind.
  rewrite covered_unfold, holesOK_unfold, tiled_unfold.
  cbn [kind domf children]. intros Hc Hh.
  apply andb_prop in Hc. destruct Hc as [Hc1 Hc2].
  apply andb_prop in Hh. destruct Hh as [Hh1 Hh2].
  assert (Hall : forallb tiled cs = true).
  { apply forallb_forall. intros x Hx. rewrite Forall_forall in IH.
    rewrite forallb_forall in Hc2, Hh2. apply IH; auto. }
  set (d := mkDesc u k dd cs df) in *.
  assert (Hnone : desc_node d = None -> (forall h t, k <> KComposition h t) ->
                  Z.eqb (sizes cs) (size d - 2 * border d) = true).
  { intros Hn Hk. rewrite (@size_sizes d Hn Hk). unfold border. rewrite Hn.
    cbn [children d]. apply Z.eqb_eq. lia. }
  destruct (contentDOM df) as [c|] eqn:Ec; [|destruct k; reflexivity].
  destruct k; try reflexivity; rewrite Hall, andb_true_r;
    try (apply Hnone; [reflexivity | discriminate]).
  - cbn [desc_node kind d isTextViewDesc orb] in Hc1. apply Z.eqb_eq in Hc1.
    destruct node; try discriminate. apply Z.eqb_eq.
    unfold border. cbn [desc_node kind d size node_isLeaf]. rewrite nodeSize_branch.
    unfold content_size in Hc1. cbn [node_content] in Hc1. lia.
  - cbn [desc_node kind d isTextViewDesc orb] in Hc1. apply Z.eqb_eq in Hc1.
    destruct node; try discriminate. apply Z.eqb_eq.
    unfold border. cbn [desc_node kind d size node_isLeaf]. rewrite nodeSize_branch.
    unfold content_size in Hc1. cbn [node_content] in Hc1. lia.
Qed.

(** X23: outside composition, when the descriptors below the one updated
    are well formed and cover their nodes, and the decorations are in
    order at every level of the new node, a successful [update] leaves a
    tree in which every node descriptor with a content node has children
    whose sizes add up to the size of its node's content; when only
    descriptors of nodes that are no leaves have a content node, the tree
    is tiled. *)
Theorem update_covers fuel view node od idc pos d w d1 w1 :
  composing view = false ->
  deepOK (fresh w) d = true ->
  decoOK node idc = true ->
  desc_update fuel view node od idc pos d w = Some (Ok (Some d1, w1)) ->
  covered d1 = true /\ (holesOK d1 = true -> tiled d1 = true).
Proof.
  intros Hc Hd Hdeco H.
  assert (C : covered d1 = true).
  { unfold desc_update in H.
    eapply (@update_covered view (updateChildren fuel view)
              (fun d pos w d' w' node Hn Hd0 Hdec Hr =>
                 @updateChildren_covered view Hc fuel d pos w d' w' node Hn Hd0 Hdec Hr)
              (fresh w) node od idc pos d w d1 w1); try assumption. apply le_n. }
  split; [exact C|]. intros Hh. now apply covered_tiled.
Qed.

Lemma update_covers_witness :
  covered (fst doc_result) = true /\ tiled (fst doc_result) = true.
Proof.
  assert (H : desc_update 7 plainView doc_new [] doc_new_deco 0 doc_tree (mkWorld 200 [])
              = Some (Ok (Some (fst doc_result), snd doc_result))).
  { vm_compute. reflexivity. }
  destruct (@update_covers 7 plainView doc_new [] doc_new_deco 0 doc_tree (mkWorld 200 [])
              (fst doc_result) (snd doc_result)) as [C T].
  - reflexivity.
  - vm_compute. reflexivity.
  - vm_compute. reflexivity.
  - exact H.
  - split; [exact C|]. apply T. vm_compute. reflexivity.
Defined.

(** ** [isEquivalentPosition] stays in one place *)

Lemma domText_elem nm cs : domText (DElem nm cs) = domTexts cs.
Proof.
  cbn [domText]. induction cs as [|c r IH]; [reflexivity|].
  cbn [domTexts]. now rewrite <- IH.
Qed.

Lemma domTexts_app a b : domTexts (a ++ b) = domTexts a + domTexts b.
Proof.
  induction a as [|x a IH]; cbn [domTexts app]; [reflexivity|]. rewrite IH. lia.
Qed.

Lemma domTexts_next cs i c :
  nth_error cs i = Some c ->
  domTexts (firstn (S i) cs) = domTexts (firstn i cs) + domText c.
Proof.
  revert i. induction cs as [|x cs IH]; intros [|i] H; try discriminate H.
  - cbn in H. injection H as ->. cbn [firstn domTexts]. lia.
  - cbn in H. rewrite !firstn_cons. cbn [domTexts]. rewrite (IH i H). lia.
Qed.

Lemma textInFront_start n : textInFront n 0 = 0.
Proof. destruct n; reflexivity. Qed.

Lemma textInFront_end n : textInFront n (dom_nodeSize n) = domText n.
Proof.
  destruct n as [v|nm cs]; [reflexivity|].
  cbn [textInFront dom_nodeSize]. rewrite Nat2Z.id, firstn_all.
  symmetry. apply domText_elem.
Qed.

(** A position in a child, seen from the parent. *)
Lemma textBeforeAt_child path : forall root nm cs i c off,
  domAt root path = Some (DElem nm cs) ->
  nth_error cs i = Some c ->
  textBeforeAt root (path ++ [i]) off
  = textBeforeAt root path (Z.of_nat i) + textInFront c off.
Proof.
  induction path as [|j path IH]; intros root nm cs i c off Hd Hc.
  - cbn in Hd. injection Hd as ->. cbn [app textBeforeAt textInFront].
    rewrite Hc, Nat2Z.id. reflexivity.
  - cbn [app textBeforeAt]. cbn [domAt] in Hd.
    destruct root as [v|nm' cs']; [discriminate Hd|].
    destruct (nth_error cs' j) as [x|]; [|discriminate Hd].
    rewrite (IH x nm cs i c off Hd Hc). lia.
Qed.

(** One step to the right in a node. *)
Lemma textBeforeAt_next path : forall root nm cs i c,
  domAt root path = Some (DElem nm cs) ->
  nth_error cs i = Some c ->
  textBeforeAt root path (Z.of_nat i + 1)
  = textBeforeAt root path (Z.of_nat i) + domText c.
Proof.
  induction path as [|j path IH]; intros root nm cs i c Hd Hc.
  - cbn in Hd. injection Hd as ->. cbn [textBeforeAt textInFront].
    replace (Z.to_nat (Z.of_nat i + 1)) with (S i) by lia.
    rewrite Nat2Z.id. now apply domTexts_next.
  - cbn [textBeforeAt]. cbn [domAt] in Hd.
    destruct root as [v|nm' cs']; [discriminate Hd|].
    destruct (nth_error cs' j) as [x|]; [|discriminate Hd].
    rewrite (IH x nm cs i c Hd Hc). lia.
Qed.

Lemma deref_parent root index parent n :
  deref root (index :: parent) = Some n ->
  exists nm cs, deref root parent = Some (DElem nm cs) /\ nth_error cs index = Some n.
Proof.
  unfold deref. cbn [rev]. rewrite domAt_app.
  destruct (domAt root (rev parent)) as [[v|nm cs]|]; try discriminate.
  cbn [domAt]. intros H. exists nm, cs. split; [reflexivity|].
  destruct (nth_error cs index) as [x|]; [|discriminate H].
  cbn in H. exact H.
Qed.

Lemma deref_child root node nm cs i c :
  deref root node = Some (DElem nm cs) -> nth_error cs i = Some c ->
  deref root (i :: node) = Some c.
Proof.
  unfold deref. cbn [rev]. rewrite domAt_app. intros -> Hc.
  cbn [domAt]. rewrite Hc. reflexivity.
Qed.

Section ScanForSound.
Variable root : Dom.
Variable attached : bool.
Variable pmViewDesc : NodeRef -> option DescLink.
Variable notEditable : NodeRef -> bool.

Lemma textBefore_up index parent n off :
  deref root (index :: parent) = Some n ->
  textBefore root (index :: parent) off
  = textBefore root parent (Z.of_nat index) + textInFront n off.
Proof.
  intros H. destruct (deref_parent _ _ _ H) as (nm & cs & Hp & Hc).
  unfold textBefore. cbn [rev].
  exact (@textBeforeAt_child (rev parent) root nm cs index n off Hp Hc).
Qed.

Lemma textBefore_next index parent n :
  deref root (index :: parent) = Some n ->
  textBefore root parent (Z.of_nat index + 1)
  = textBefore root parent (Z.of_nat index) + domText n.
Proof.
  intros H. destruct (deref_parent _ _ _ H) as (nm & cs & Hp & Hc).
  unfold textBefore.
  exact (@textBeforeAt_next (rev parent) root nm cs index n Hp Hc).
Qed.

Lemma scanFor_sound fuel : forall node off targetNode targetOff dir,
  scanFor root attached pmViewDesc notEditable fuel node off targetNode targetOff dir
  = Some (Ok true) ->
  textBefore root node off = textBefore root targetNode targetOff.
Proof.
  induction fuel as [|fuel IH]; intros node off targetNode targetOff dir H;
    [discriminate H|].
  cbn [scanFor] in H.
  destruct (NodeRef_eqb node targetNode && Z.eqb off targetOff) eqn:Eq.
  { apply andb_prop in Eq. destruct Eq as [E1 E2].
    apply NodeRef_eqb_eq in E1. apply Z.eqb_eq in E2. now subst. }
  destruct (deref root node) as [n|] eqn:Hn; [|discriminate H].
  destruct (Z.eqb off (if Z.ltb dir 0 then 0 else dom_nodeSize n)) eqn:Eoff.
  - apply Z.eqb_eq in Eoff.
    destruct node as [|index parent].
    { destruct attached; discriminate H. }
    destruct (hasBlockDesc pmViewDesc (index :: parent)
              || atomElements (dom_nodeName n) || fixedContent notEditable n (index :: parent));
      [discriminate H|].
    apply IH in H. rewrite <- H.
    rewrite (@textBefore_up index parent n off Hn).
    destruct (Z.ltb dir 0).
    + subst off. rewrite textInFront_start, !Z.add_0_r. reflexivity.
    + subst off. rewrite textInFront_end.
      symmetry. exact (@textBefore_next index parent n Hn).
  - destruct n as [v|nm cs]; [discriminate H|].
    cbv zeta in H.
    destruct (Z.ltb (off + (if Z.ltb dir 0 then -1 else 0)) 0) eqn:Eneg; [discriminate H|].
    apply Z.ltb_ge in Eneg.
    destruct (nth_error cs (Z.to_nat (off + (if Z.ltb dir 0 then -1 else 0)))) as [c|] eqn:Hc;
      [|discriminate H].
    destruct (fixedContent notEditable c _); [discriminate H|].
    apply IH in H. rewrite <- H.
    pose proof (@deref_child root node nm cs _ c Hn Hc) as Hchild.
    rewrite (@textBefore_up _ node c _ Hchild).
    destruct (Z.ltb dir 0).
    + rewrite textInFront_end.
      assert (Ek : off = Z.of_nat (Z.to_nat (off + -1)) + 1) by lia.
      rewrite Ek at 1.
      rewrite (@textBefore_next _ node c Hchild). reflexivity.
    + rewrite textInFront_start, !Z.add_0_r.
      f_equal. lia.
Qed.
End ScanForSound.

(** X25: positions that [isEquivalentPosition] answers to be the same place
    have the same text in front of them: walking to the target the scan
    never passes a character. *)
Theorem isEquivalentPosition_same_text root attached pmViewDesc notEditable
        fuel node off targetNode targetOff :
  isEquivalentPosition root attached pmViewDesc notEditable fuel node off
                       (Some targetNode) targetOff = Some (Ok true) ->
  textBefore root node off = textBefore root targetNode targetOff.
Proof.
  unfold isEquivalentPosition. intros H.
  destruct (scanFor root attached pmViewDesc notEditable fuel node off
                    targetNode targetOff (-1)) as [[[|]|e]|] eqn:Eb; try discriminate H.
  - exact (@scanFor_sound root attached pmViewDesc notEditable fuel node off
                          targetNode targetOff (-1) Eb).
  - exact (@scanFor_sound root attached pmViewDesc notEditable fuel node off
                          targetNode targetOff 1 H).
Qed.

Lemma isEquivalentPosition_same_text_witness :
  textBefore scan_dom [0; 0]%nat 2 = textBefore scan_dom [0; 1]%nat 0.
Proof.
  apply (@isEquivalentPosition_same_text scan_dom true (fun _ => None) (fun _ => false)
           10%nat [0; 0]%nat 2 [0; 1]%nat 0).
  vm_compute. reflexivity.
Defined.

(** ** [localPosFromDOM] answers a boundary between children *)

Lemma is_prefix_app p : forall q, is_prefix p q = true -> exists r, q = p ++ r.
Proof.
  induction p as [|x p IH]; intros q H.
  - now exists q.
  - destruct q as [|y q]; [discriminate H|]. cbn [is_prefix] in H.
    apply andb_prop in H. destruct H as [E H]. apply Nat.eqb_eq in E. subst y.
    destruct (IH q H) as [r ->]. now exists r.
Qed.

(** What [node] contains lies below it. *)
Lemma dom_contains_below a b :
  dom_contains a b = true -> exists pre, b = pre ++ a.
Proof.
  unfold dom_contains. intros H. destruct (is_prefix_app _ _ H) as [r E].
  exists (rev r). rewrite <- (rev_involutive b), E, rev_app_distr, rev_involutive.
  reflexivity.
Qed.

Lemma NodeRef_eqb_below x pre a : NodeRef_eqb ((x :: pre) ++ a) a = false.
Proof.
  destruct (NodeRef_eqb ((x :: pre) ++ a) a) eqn:E; [|reflexivity].
  apply NodeRef_eqb_eq in E. apply (f_equal (@List.length nat)) in E.
  rewrite length_app in E. cbn [List.length] in E. lia.
Qed.

Lemma climbTo_below content pre : forall x,
  exists i, climbTo content ((x :: pre) ++ content) = Some (i :: content).
Proof.
  induction pre as [|y pre IH]; intros x.
  - exists x. cbn [app climbTo].
    destruct (NodeRef_eqb content content) eqn:E; [reflexivity|].
    assert (NodeRef_eqb content content = true) by now apply NodeRef_eqb_eq.
    congruence.
  - destruct (IH y) as [i Hi]. exists i.
    change ((x :: y :: pre) ++ content) with (x :: ((y :: pre) ++ content)).
    cbn [climbTo]. rewrite NodeRef_eqb_below. exact Hi.
Qed.

Section LocalPosBoundary.
Variable root : Dom.
Variable this : ViewDesc.
Variable start : Z.
Variable thisDOM : NodeRef.
Variable thisContent : option NodeRef.
Variable childDesc : NodeRef -> option ViewDesc.
Hypothesis distinct : NoDup (map uid (children this)).
Hypothesis linked : forall n c, childDesc n = Some c -> In c (children this).

(** The answers in question: the end of the descriptor's content, or the
    position in front of a child or behind the last. *)
Definition boundary (p : Z) : Prop :=
  p = posAtEnd start this
  \/ exists i, (i <= List.length (children this))%nat /\ p = posBeforeChild start this i.

Lemma posBeforeChild_loop_found cs : forall pos i c,
  NoDup (map uid cs) -> nth_error cs i = Some c ->
  posBeforeChild_loop cs pos c = Some (pos + sizes (firstn i cs)).
Proof.
  induction cs as [|x cs IH]; intros pos i c Hd Hc.
  - destruct i; discriminate Hc.
  - cbn [map] in Hd. inversion Hd as [|u l Hnot Hd']; subst.
    destruct i as [|i].
    + cbn in Hc. injection Hc as ->. cbn [posBeforeChild_loop firstn sizes].
      rewrite Nat.eqb_refl. f_equal. lia.
    + cbn [nth_error] in Hc. cbn [posBeforeChild_loop].
      destruct (Nat.eqb (uid x) (uid c)) eqn:E.
      * apply Nat.eqb_eq in E. exfalso. apply Hnot. rewrite E.
        apply in_map. eapply nth_error_In. exact Hc.
      * rewrite (IH (pos + size x) i c Hd' Hc). rewrite firstn_cons.
        cbn [sizes]. f_equal. lia.
Qed.

Lemma posBeforeChild_desc_found n c :
  childDesc n = Some c ->
  exists i, nth_error (children this) i = Some c
            /\ posBeforeChild_desc this start c = Some (posBeforeChild start this i).
Proof.
  intros H. apply linked in H. destruct (In_nth_error _ _ H) as [i Hi].
  exists i. split; [exact Hi|].
  unfold posBeforeChild_desc, posBeforeChild.
  exact (@posBeforeChild_loop_found (children this) start i c distinct Hi).
Qed.

Lemma scanBefore_linked parent k desc :
  scanBefore childDesc parent k = Some desc -> exists n, childDesc n = Some desc.
Proof.
  induction k as [|j IH]; cbn [scanBefore]; [discriminate|].
  destruct (childDesc (j :: parent)) as [c|] eqn:E.
  - intros H. injection H as <-. now exists (j :: parent).
  - exact IH.
Qed.

Lemma scanAfter_linked parent n : forall k desc,
  scanAfter childDesc parent k n = Some desc -> exists m, childDesc m = Some desc.
Proof.
  induction n as [|n IH]; intros k desc; cbn [scanAfter]; [discriminate|].
  destruct (childDesc (k :: parent)) as [c|] eqn:E.
  - intros H. injection H as <-. now exists (k :: parent).
  - apply IH.
Qed.

Lemma boundary_start : boundary start.
Proof.
  right. exists 0%nat. split; [lia|]. unfold posBeforeChild. cbn [firstn sizes]. lia.
Qed.

Lemma boundary_end : boundary (posAtEnd start this).
Proof. now left. Qed.

Lemma boundary_before i c :
  nth_error (children this) i = Some c -> boundary (posBeforeChild start this i).
Proof.
  intros H. right. exists i. split; [|reflexivity].
  apply Nat.lt_le_incl. apply nth_error_Some. congruence.
Qed.

Lemma boundary_after i c :
  nth_error (children this) i = Some c ->
  boundary (posBeforeChild start this i + size c).
Proof.
  intros H. right. exists (S i). split.
  - apply nth_error_Some. congruence.
  - unfold posBeforeChild. rewrite (sizes_firstn_S _ _ H). lia.
Qed.

Lemma localPos_content_boundary content dom offset bias :
  (exists x pre, dom = (x :: pre) ++ content) \/ dom = content ->
  exists p, localPos_content root this start childDesc content dom offset bias = Ok (Some p)
            /\ boundary p.
Proof.
  intros Hdom. unfold localPos_content.
  assert (Hclimb : NodeRef_eqb dom content = false ->
                   exists i, climbTo content dom = Some (i :: content)).
  { intros E. destruct Hdom as [(x & pre & ->)| ->].
    - apply climbTo_below.
    - assert (NodeRef_eqb content content = true) by now apply NodeRef_eqb_eq.
      congruence. }
  destruct (Z.ltb bias 0).
  - assert (Hk : exists k,
               (if NodeRef_eqb dom content
                then Ok (if Z.leb 1 offset && Z.leb offset (Z.of_nat (dom_childCount root content))
                         then Z.to_nat offset else 0%nat)
                else match climbTo content dom with
                     | Some (i :: _) => Ok i
                     | _ => Throw "TypeError"
                     end) = Ok k).
    { destruct (NodeRef_eqb dom content); [eexists; reflexivity|].
      destruct (Hclimb eq_refl) as [i ->]. now exists i. }
    destruct Hk as [k ->].
    destruct (scanBefore childDesc content k) as [desc|] eqn:Es.
    + destruct (@scanBefore_linked content k desc Es) as [n Hn].
      destruct (@posBeforeChild_desc_found n desc Hn) as (i & Hi & ->).
      eexists. split; [reflexivity|]. exact (@boundary_after i desc Hi).
    + eexists. split; [reflexivity|]. exact boundary_start.
  - assert (Hk : exists k,
               (if NodeRef_eqb dom content
                then Ok (if Z.leb 0 offset && Z.ltb offset (Z.of_nat (dom_childCount root content))
                         then Z.to_nat offset else dom_childCount root content)
                else match climbTo content dom with
                     | Some (i :: _) => Ok (S i)
                     | _ => Throw "TypeError"
                     end) = Ok k).
    { destruct (NodeRef_eqb dom content); [eexists; reflexivity|].
      destruct (Hclimb eq_refl) as [i ->]. now exists (S i). }
    destruct Hk as [k ->].
    destruct (scanAfter childDesc content k (dom_childCount root content - k)) as [desc|] eqn:Es.
    + destruct (@scanAfter_linked content _ k desc Es) as [n Hn].
      destruct (@posBeforeChild_desc_found n desc Hn) as (i & Hi & ->).
      eexists. split; [reflexivity|]. exact (@boundary_before i desc Hi).
    + eexists. split; [reflexivity|]. exact boundary_end.
Qed.

Lemma searchFirst_below pre :
  exists r, searchFirst thisDOM (pre ++ thisDOM) = Ok r.
Proof.
  induction pre as [|x pre IH].
  - cbn [app]. destruct thisDOM as [|y t] eqn:E; cbn [searchFirst].
    + now exists (Some false).
    + assert (Hr : NodeRef_eqb (y :: t) (y :: t) = true) by now apply NodeRef_eqb_eq.
      rewrite Hr. now exists (Some false).
  - change ((x :: pre) ++ thisDOM) with (x :: (pre ++ thisDOM)). cbn [searchFirst].
    destruct (NodeRef_eqb (x :: pre ++ thisDOM) thisDOM); [now eexists|].
    destruct (Nat.eqb x 0); [exact IH | now eexists].
Qed.

Lemma searchLast_below pre :
  exists r, searchLast root thisDOM (pre ++ thisDOM) = Ok r.
Proof.
  induction pre as [|x pre IH].
  - cbn [app]. destruct thisDOM as [|y t] eqn:E; cbn [searchLast].
    + now exists (Some true).
    + assert (Hr : NodeRef_eqb (y :: t) (y :: t) = true) by now apply NodeRef_eqb_eq.
      rewrite Hr. now exists (Some true).
  - change ((x :: pre) ++ thisDOM) with (x :: (pre ++ thisDOM)). cbn [searchLast].
    destruct (NodeRef_eqb (x :: pre ++ thisDOM) thisDOM); [now eexists|].
    destruct (Nat.eqb (S x) (dom_childCount root (pre ++ thisDOM))); [exact IH | now eexists].
Qed.

Lemma localPos_side_boundary dom offset bias :
  dom_contains thisDOM dom = true ->
  exists p, localPos_side root this start thisDOM thisContent dom offset bias = Ok (Some p)
            /\ boundary p.
Proof.
  intros Hin. destruct (dom_contains_below _ _ Hin) as [pre ->].
  assert (Hside : forall b : bool, boundary (if b then posAtEnd start this else start)).
  { intros [|]; [exact boundary_end | exact boundary_start]. }
  assert (Hat : exists r, localPos_atEnd root thisDOM thisContent (pre ++ thisDOM) offset = Ok r).
  { unfold localPos_atEnd.
    destruct (match thisContent with
              | Some c =>
                  if negb (NodeRef_eqb c thisDOM) && dom_contains thisDOM c
                  then Some (precedes c (pre ++ thisDOM))
                  else None
              | None => None
              end) as [b|]; [now eexists|].
    destruct (Nat.ltb 0 (dom_childCount root thisDOM)); [|now eexists].
    destruct (searchFirst_below pre) as [r1 H1].
    destruct (searchLast_below pre) as [r2 H2].
    rewrite H1, H2.
    destruct (Z.eqb offset 0); [destruct r1 as [b|]|];
      try (now eexists);
      destruct (Z.eqb offset (Z.of_nat (dom_childCount root (pre ++ thisDOM))));
      now eexists. }
  destruct Hat as [r Hr]. unfold localPos_side. rewrite Hr.
  eexists. split; [reflexivity|]. apply Hside.
Qed.

Lemma boundary_inside p :
  boundary p -> sizes (children this) = size this - 2 * border this ->
  start <= p <= posAtEnd start this.
Proof.
  intros Hb Ht. unfold posAtEnd.
  pose proof (sizes_all_nonneg (children this)) as H0.
  destruct Hb as [->|(i & Hi & ->)]; [unfold posAtEnd; lia|].
  unfold posBeforeChild.
  pose proof (sizes_all_nonneg (firstn i (children this))) as H1.
  pose proof (sizes_all_nonneg (skipn i (children this))) as H2.
  pose proof (sizes_app (firstn i (children this)) (skipn i (children this))) as H3.
  rewrite firstn_skipn in H3. lia.
Qed.
End LocalPosBoundary.

(** X26: [localPosFromDOM] on a DOM position inside [this.dom], when the
    children are distinct objects and the host nodes are tied to children
    of the descriptor only, does not throw and answers the end of the
    descriptor's content or a boundary between its children: never a
    position inside a child.  Where the children tile the content the
    answer lies between [posAtStart] and [posAtEnd]. *)
Theorem localPosFromDOM_boundary root this start thisDOM thisContent childDesc
        dom offset bias :
  NoDup (map uid (children this)) ->
  (forall n c, childDesc n = Some c -> In c (children this)) ->
  deref root dom <> None ->
  dom_contains thisDOM dom = true ->
  exists p,
    localPosFromDOM root this start thisDOM thisContent childDesc dom offset bias
    = Ok (Some p)
    /\ (p = posAtEnd start this
        \/ exists i, (i <= List.length (children this))%nat
                     /\ p = posBeforeChild start this i)
    /\ (sizes (children this) = size this - 2 * border this ->
        start <= p <= posAtEnd start this).
Proof.
  intros Hd Hl Hdom Hin.
  assert (G : exists p,
             localPosFromDOM root this start thisDOM thisContent childDesc dom offset bias
             = Ok (Some p) /\ boundary this start p).
  { unfold localPosFromDOM.
    destruct (deref root dom) as [n|] eqn:En; [|congruence].
    pose proof (@localPos_side_boundary root this start thisDOM thisContent dom offset bias Hin)
      as Hside.
    destruct thisContent as [content|] eqn:Ec; [|destruct n; [|]; try destruct (ref_parentNode dom); exact Hside].
    destruct (match n with
              | DElem _ _ => Some dom
              | DText _ => ref_parentNode dom
              end) as [e|] eqn:Ee; [|exact Hside].
    destruct (dom_contains content e) eqn:Ein; [|exact Hside].
    apply (@localPos_content_boundary root this start childDesc Hd Hl).
    destruct (dom_contains_below _ _ Ein) as [pre Epre].
    destruct n as [v|nm cs].
    - destruct dom as [|x parent]; [discriminate Ee|]. cbn in Ee. injection Ee as <-.
      left. exists x, pre. rewrite Epre. reflexivity.
    - injection Ee as <-. destruct pre as [|x pre].
      + right. exact Epre.
      + left. exists x, pre. exact Epre. }
  destruct G as (p & Hp & Hb). exists p. split; [exact Hp|]. split; [exact Hb|].
  exact (@boundary_inside this start p Hb).
Qed.

Lemma localPosFromDOM_boundary_witness :
  exists p,
    localPosFromDOM para_dom marked_para_tree 1 [] (Some []) para_childDesc
                    [0; 2]%nat 1 (-1) = Ok (Some p)
    /\ (p = posAtEnd 1 marked_para_tree
        \/ exists i, (i <= List.length (children marked_para_tree))%nat
                     /\ p = posBeforeChild 1 marked_para_tree i)
    /\ (sizes (children marked_para_tree)
        = size marked_para_tree - 2 * border marked_para_tree ->
        1 <= p <= posAtEnd 1 marked_para_tree).
Proof.
  apply (@localPosFromDOM_boundary para_dom marked_para_tree 1 [] (Some []) para_childDesc
           [0; 2]%nat 1 (-1)).
  - vm_compute. repeat constructor; cbn; intuition discriminate.
  - intros n c H. unfold para_childDesc in H.
    destruct n as [|i [|j r]]; try discriminate H.
    eapply nth_error_In. exact H.
  - vm_compute. discriminate.
  - reflexivity.
Defined.

(** ** The levels of [computeOuterDeco] *)

Lemma level_get_set_other l name val k :
  String.eqb name k = false ->
  level_get (level_set l name val) k = level_get l k.
Proof.
  intros Hk. induction l as [|[k0 v0] l IH]; cbn [level_set level_get].
  - now rewrite Hk.
  - destruct (String.eqb k0 name) eqn:E; cbn [level_get].
    + apply String.eqb_eq in E. subst k0. now rewrite Hk.
    + now rewrite IH.
Qed.

Lemma forallb_replace_nth (A : Type) (p : A -> bool) (l : list A) i x :
  forallb p l = true -> p x = true -> forallb p (replace_nth i x l) = true.
Proof.
  intros Hl Hx. unfold replace_nth. rewrite forallb_app. cbn [forallb].
  rewrite <- (firstn_skipn i l) in Hl. rewrite forallb_app in Hl.
  apply andb_prop in Hl. destruct Hl as [H1 H2]. rewrite H1, Hx. cbn [andb].
  rewrite <- (firstn_skipn 1 (skipn i l)) in H2. rewrite forallb_app in H2.
  apply andb_prop in H2. destruct H2 as [_ H2].
  rewrite skipn_skipn in H2. exact H2.
Qed.

Lemma replace_nth_cons (A : Type) (i : nat) (x y : A) (l : list A) :
  replace_nth (S i) x (y :: l) = y :: replace_nth i x l.
Proof. reflexivity. Qed.

Section OuterDecoLevels.
Variable isInline : bool.
Variable needsWrap : bool.

(** The array starts with the level of the node itself, the levels behind
    it name a node, and [top] and [cur] are elements of it. *)
Definition Shape (st : OuterState) : Prop :=
  match os_result st with
  | [] => False
  | first :: rest =>
      nodeLevel needsWrap first = true /\ forallb namesNode rest = true
  end
  /\ (os_top st < List.length (os_result st))%nat
  /\ (os_cur st < List.length (os_result st))%nat.

Lemma write_cur_shape f st :
  (forall l, level_get (f l) "nodeName" = level_get l "nodeName") ->
  Shape st ->
  Shape (write_cur f st)
  /\ os_top (write_cur f st) = os_top st
  /\ os_cur (write_cur f st) = os_cur st
  /\ List.length (os_result (write_cur f st)) = List.length (os_result st)
  /\ (needsWrap = false \/ os_cur st <> 0%nat -> os_shared (write_cur f st) = os_shared st).
Proof.
  intros Hf (Hres & Ht & Hc). unfold write_cur.
  destruct (os_result st) as [|first rest] eqn:Er; [contradiction|].
  destruct Hres as [Hfirst Hrest].
  destruct (os_cur st) as [|i] eqn:Ecur.
  - cbn [nth_error]. destruct first as [|l].
    + unfold Shape. cbn [os_result os_top os_cur os_shared].
      repeat split; try assumption.
      cbn [nodeLevel] in Hfirst. intros [E|E]; congruence.
    + unfold Shape. cbn [os_result os_top os_cur os_shared].
      unfold replace_nth. cbn [firstn skipn app].
      repeat split; try assumption; try (cbn [List.length] in *; lia).
      cbn [nodeLevel] in *. now rewrite Hf.
  - cbn [nth_error]. cbn [List.length] in Hc.
    destruct (nth_error rest i) as [r|] eqn:En.
    2:{ apply nth_error_None in En. lia. }
    assert (Hr : namesNode r = true).
    { rewrite forallb_forall in Hrest. apply Hrest. eapply nth_error_In. exact En. }
    destruct r as [|l]; [discriminate Hr|].
    unfold Shape. cbn [os_result os_top os_cur os_shared]. rewrite replace_nth_cons.
    assert (Hlen : List.length (replace_nth i (OwnLevel (f l)) rest) = List.length rest).
    { apply length_replace_nth. lia. }
    repeat split; try assumption; try (cbn [List.length] in *; lia).
    apply forallb_replace_nth; [exact Hrest|].
    cbn [namesNode] in *. now rewrite Hf.
Qed.

Lemma push_shape st l top cur :
  Shape st -> truthy (level_get l "nodeName") = true ->
  (top <= List.length (os_result st))%nat -> (cur <= List.length (os_result st))%nat ->
  Shape (mkOuter (os_shared st) (os_result st ++ [OwnLevel l]) top cur).
Proof.
  intros (Hres & Ht & Hc) Hl Htop Hcur. unfold Shape. cbn [os_result os_top os_cur].
  rewrite length_app. cbn [List.length].
  destruct (os_result st) as [|first rest]; [contradiction|].
  destruct Hres as [Hfirst Hrest]. cbn [app].
  split; [split; [exact Hfirst|]|lia].
  rewrite forallb_app, Hrest. cbn [forallb namesNode]. now rewrite Hl.
Qed.

Lemma newLevel_names s :
  truthy (Some s) = true -> truthy (level_get (newLevel (Some s)) "nodeName") = true.
Proof.
  intros H. unfold newLevel. rewrite H. cbn [level_get].
  cbn. exact H.
Qed.

(** Between two decorations: nothing can reach the shared level. *)
Definition Safe (st : OuterState) : Prop :=
  needsWrap = false
  \/ List.length (os_result st) = 1%nat \/ os_top st <> 0%nat.

Lemma attr_step_inv st e :
  Shape st ->
  Shape (attr_step isInline needsWrap st e)
  /\ (Safe st -> needsWrap = false \/ os_cur st = os_top st ->
      Safe (attr_step isInline needsWrap st e)
      /\ (needsWrap = false
          \/ os_cur (attr_step isInline needsWrap st e)
             = os_top (attr_step isInline needsWrap st e))
      /\ os_shared (attr_step isInline needsWrap st e) = os_shared st).
Proof.
  intros Hs. unfold attr_step. destruct e as [name [val|]]; cbn [fst snd].
  2:{ split; [exact Hs|]. intros Hsafe Hcur. now repeat split. }
  set (st1 := if needsWrap && Nat.eqb (List.length (os_result st)) 1
              then mkOuter (os_shared st)
                           (os_result st
                            ++ [OwnLevel (newLevel (Some (if isInline then "span" else "div")%string))])
                           (List.length (os_result st)) (List.length (os_result st))
              else st).
  assert (H1 : Shape st1
               /\ os_shared st1 = os_shared st
               /\ (Safe st -> needsWrap = false \/ os_cur st = os_top st ->
                   (needsWrap = false \/ os_cur st1 <> 0%nat)
                   /\ (needsWrap = false \/ os_cur st1 = os_top st1)
                   /\ Safe st1)).
  { subst st1. destruct (needsWrap && Nat.eqb (List.length (os_result st)) 1) eqn:E.
    - apply andb_prop in E. destruct E as [_ E]. apply Nat.eqb_eq in E.
      split; [|split; [reflexivity|]].
      + apply push_shape; try exact Hs; try lia.
        destruct isInline; reflexivity.
      + intros _ _. cbn [os_cur os_top os_result]. rewrite E.
        split; [right; lia|]. split; [now right|]. right. right.
        cbn [os_top]. lia.
    - split; [exact Hs|]. split; [reflexivity|].
      intros Hsafe Hcur.
      destruct (Bool.bool_dec needsWrap false) as [Ew|Ew]; [repeat split; now left|].
      apply not_false_is_true in Ew. rewrite Ew in E.
      cbn [andb] in E. apply Nat.eqb_neq in E.
      destruct Hsafe as [Hf|[Hl|Ht]]; [congruence|contradiction|].
      destruct Hcur as [Hf|Hc]; [congruence|].
      split; [right; congruence|]. split; [now right|]. right. now right. }
  clearbody st1. destruct H1 as (Hs1 & Hsh1 & Hsafe1).
  assert (Hw : forall f,
             (forall l, level_get (f l) "nodeName" = level_get l "nodeName") ->
             Shape (write_cur f st1)
             /\ (Safe st -> needsWrap = false \/ os_cur st = os_top st ->
                 Safe (write_cur f st1)
                 /\ (needsWrap = false \/ os_cur (write_cur f st1) = os_top (write_cur f st1))
                 /\ os_shared (write_cur f st1) = os_shared st)).
  { intros f Hf. destruct (@write_cur_shape f st1 Hf Hs1) as (Hs2 & Et & Ec & El & Esh).
    split; [exact Hs2|]. intros Hsafe Hcur.
    destruct (Hsafe1 Hsafe Hcur) as (Hc0 & Hct & Hsf).
    split; [|split].
    - unfold Safe in *. rewrite El, Et. exact Hsf.
    - rewrite Ec, Et. exact Hct.
    - rewrite (Esh Hc0). exact Hsh1. }
  destruct (String.eqb name "class") eqn:Eclass.
  { apply Hw. intros l. now apply level_get_set_other. }
  destruct (String.eqb name "style") eqn:Estyle.
  { apply Hw. intros l. now apply level_get_set_other. }
  destruct (String.eqb name "nodeName") eqn:Ename; cbn [negb].
  - split; [exact Hs1|]. intros Hsafe Hcur.
    destruct (Hsafe1 Hsafe Hcur) as (Hc0 & Hct & Hsf). now repeat split.
  - apply Hw. intros l. now apply level_get_set_other.
Qed.

Lemma attrs_inv a : forall st,
  Shape st ->
  Shape (fold_left (attr_step isInline needsWrap) a st)
  /\ (Safe st -> needsWrap = false \/ os_cur st = os_top st ->
      Safe (fold_left (attr_step isInline needsWrap) a st)
      /\ os_shared (fold_left (attr_step isInline needsWrap) a st) = os_shared st).
Proof.
  induction a as [|e a IH]; intros st Hs; cbn [fold_left].
  - split; [exact Hs|]. intros Hsafe _. now split.
  - destruct (@attr_step_inv st e Hs) as (Hs1 & Hrest).
    destruct (IH _ Hs1) as (Hs2 & Hrest2).
    split; [exact Hs2|]. intros Hsafe Hcur.
    destruct (Hrest Hsafe Hcur) as (Hsafe1 & Hcur1 & Hsh1).
    destruct (Hrest2 Hsafe1 Hcur1) as (Hsafe2 & Hsh2).
    split; [exact Hsafe2|]. now rewrite Hsh2.
Qed.

Lemma deco_step_inv st attrs :
  Shape st ->
  Shape (deco_step isInline needsWrap st attrs)
  /\ (Safe st -> needsWrap = false \/ plainAttrs attrs = true ->
      Safe (deco_step isInline needsWrap st attrs)
      /\ os_shared (deco_step isInline needsWrap st attrs) = os_shared st).
Proof.
  intros Hs. unfold deco_step. destruct attrs as [a|].
  2:{ split; [exact Hs|]. intros Hsafe _. now split. }
  destruct (truthy (attrs_get a "nodeName")) eqn:En.
  - assert (Hs1 : Shape (mkOuter (os_shared st)
                                 (os_result st ++ [OwnLevel (newLevel (attrs_get a "nodeName"))])
                                 (os_top st) (List.length (os_result st)))).
    { destruct Hs as (Hres & Ht & Hc).
      apply push_shape; [now repeat split| |lia|lia].
      destruct (attrs_get a "nodeName") as [s|] eqn:Es; [|discriminate En].
      now apply newLevel_names. }
    destruct (attrs_inv a Hs1) as (Hs2 & Hrest).
    split; [exact Hs2|]. intros Hsafe [Hw|Hp].
    + assert (Hsafe1 : Safe (mkOuter (os_shared st)
                                     (os_result st ++ [OwnLevel (newLevel (attrs_get a "nodeName"))])
                                     (os_top st) (List.length (os_result st)))) by now left.
      exact (Hrest Hsafe1 (or_introl Hw)).
    + cbn [plainAttrs] in Hp. rewrite En in Hp. discriminate Hp.
  - assert (Hs1 : Shape (mkOuter (os_shared st) (os_result st) (os_top st) (os_top st))).
    { destruct Hs as (Hres & Ht & Hc). unfold Shape. cbn [os_result os_top os_cur].
      now repeat split. }
    destruct (attrs_inv a Hs1) as (Hs2 & Hrest).
    split; [exact Hs2|]. intros Hsafe _.
    apply Hrest; [exact Hsafe | now right].
Qed.

Lemma decos_inv outerDeco : forall st,
  Shape st ->
  Shape (fold_left (deco_step isInline needsWrap) outerDeco st)
  /\ (Safe st -> needsWrap = false \/ forallb plainAttrs outerDeco = true ->
      os_shared (fold_left (deco_step isInline needsWrap) outerDeco st) = os_shared st).
Proof.
  induction outerDeco as [|attrs rest IH]; intros st Hs; cbn [fold_left].
  - split; [exact Hs|]. reflexivity.
  - destruct (@deco_step_inv st attrs Hs) as (Hs1 & Hstep).
    destruct (IH _ Hs1) as (Hs2 & Hrest).
    split; [exact Hs2|]. intros Hsafe Hp.
    assert (Hp1 : needsWrap = false \/ plainAttrs attrs = true).
    { destruct Hp as [Hw|Hp]; [now left|]. cbn [forallb] in Hp.
      apply andb_prop in Hp. now right. }
    assert (Hp2 : needsWrap = false \/ forallb plainAttrs rest = true).
    { destruct Hp as [Hw|Hp]; [now left|]. cbn [forallb] in Hp.
      apply andb_prop in Hp. now right. }
    destruct (Hstep Hsafe Hp1) as (Hsafe1 & Hsh1).
    rewrite (Hrest Hsafe1 Hp2). exact Hsh1.
Qed.
End OuterDecoLevels.

(** X27: the array that [computeOuterDeco] answers starts with the level
    of the node itself (the shared level [noDeco[0]] where the node needs a
    wrapper or there is no decoration, a level without a node name
    otherwise), and every level behind it names a node.  The shared level
    is left as it was when the node needs no wrapper, or when no decoration
    asks for a node of its own. *)
Theorem computeOuterDeco_levels isInline needsWrap noDeco0 outerDeco :
  (exists first rest,
      fst (computeOuterDeco isInline needsWrap noDeco0 outerDeco) = first :: rest
      /\ nodeLevel (needsWrap || Nat.eqb (List.length outerDeco) 0) first = true
      /\ forallb namesNode rest = true)
  /\ (needsWrap = false \/ forallb plainAttrs outerDeco = true ->
      snd (computeOuterDeco isInline needsWrap noDeco0 outerDeco) = noDeco0).
Proof.
  unfold computeOuterDeco. destruct outerDeco as [|attrs rest0] eqn:Eo.
  { cbn [fst snd List.length Nat.eqb]. rewrite orb_true_r.
    split; [|reflexivity]. exists SharedLevel, []. now repeat split. }
  rewrite <- Eo. replace (Nat.eqb (List.length outerDeco) 0) with false
    by (rewrite Eo; reflexivity).
  rewrite orb_false_r. cbn [fst snd].
  set (st0 := mkOuter noDeco0
                      [if needsWrap then SharedLevel else OwnLevel (newLevel None)] 0 0).
  assert (Hs0 : Shape needsWrap st0).
  { unfold Shape, st0. cbn [os_result os_top os_cur List.length].
    split; [|lia]. split; [|reflexivity]. destruct needsWrap; reflexivity. }
  assert (Hsafe0 : Safe needsWrap st0).
  { right. left. reflexivity. }
  destruct (@decos_inv isInline needsWrap outerDeco st0 Hs0) as (Hs & Hsh).
  split.
  - destruct Hs as (Hres & _).
    destruct (os_result (fold_left (deco_step isInline needsWrap) outerDeco st0))
      as [|first rest]; [contradiction|].
    exists first, rest. destruct Hres as [H1 H2]. now repeat split.
  - intros Hp. exact (Hsh Hsafe0 Hp).
Qed.

(** The condition on the shared level is needed: for a node that needs a
    wrapper, a class that follows a decoration with a node of its own is
    written to [noDeco[0]]. *)
Example computeOuterDeco_writes_shared :
  snd (computeOuterDeco true true [] [deco_wrap "em" "b"; deco_class "c"])
  = [("class"%string, "c"%string)].
Proof. reflexivity. Qed.
